(** * kmp-lib: literal KMP search and DFA regex core

    A shallow embedding of the header-only library
    (failure.hpp, search.hpp, detail/simd/sse42.hpp, detail/simd/avx2.hpp,
    detail/dfa.hpp, pattern.hpp, config.hpp) together with the properties
    its specification states about it.

    Conventions of the embedding.
    - [char] is an 8-bit byte ([ascii]); a [std::string_view] is a
      [list ascii]; [str] turns a string literal into such a list.
    - [size_type] values that are positions or lengths of texts and patterns
      are [nat]: the code never lets them wrap (every subtraction is guarded
      by the comparison in front of it).  [size_type] values stored in NFA
      and DFA tables are [N], because there the all-ones value
      [static_cast<size_type>(-1)] is used as a sentinel.
    - [a[i]] on a vector or view is [nth i a d]; every access the code makes
      is in range, which the theorems below establish where it matters.
    - A loop whose termination depends on the data is a [Fixpoint] on a fuel
      argument that returns [None] when the fuel is used up; the theorems
      show that the fuel handed over by the callers always suffices. *)

From stdpp Require Import base tactics option list numbers strings sorting pretty gmap.
From Stdlib Require Import Ascii.

#[local] Set Warnings "-abstract-large-number,-clear-no-such-hyp".

Local Open Scope nat_scope.

Definition str (s : string) : list ascii := String.list_ascii_of_string s.

(** ** config.hpp *)

Module config.
Definition simd_threshold : nat := 64.
Definition max_dfa_states : N := 10000%N.
Definition ascii_size : N := 128%N.
End config.

(** [c1 != c2] on [char]. *)
Definition char_neq (a b : ascii) : bool := negb (Ascii.eqb a b).

(** [s[i]] on a character view. *)
Definition at_ (s : list ascii) (i : nat) : ascii := nth i s "000"%char.

(** ** failure.hpp *)

Module failure.

(** The inner loop shared by the table builder and the scanners:
    [while (k > 0 && c != pattern[k]) k = failure[k - 1];] *)
Fixpoint fall_back (fuel : nat) (pattern : list ascii) (failure : list nat)
    (c : ascii) (k : nat) : option nat :=
  if (0 <? k) && char_neq c (at_ pattern k) then
    match fuel with
    | 0 => None
    | S fuel' => fall_back fuel' pattern failure c (nth (k - 1) failure 0)
    end
  else Some k.

(** One round of the [for] loop of [compute_failure], at index [i]. *)
Definition failure_round (pattern : list ascii) (st : list nat * nat) (i : nat)
    : option (list nat * nat) :=
  let '(failure, k) := st in
  k1 ← fall_back k pattern failure (at_ pattern i) k;
  let k2 := if Ascii.eqb (at_ pattern i) (at_ pattern k1) then S k1 else k1 in
  Some (<[i := k2]> failure, k2).

(** [for (i = lo; i < lo + cnt; ++i)] threading [(failure, k)]. *)
Fixpoint failure_loop (pattern : list ascii) (cnt i : nat) (st : list nat * nat)
    : option (list nat * nat) :=
  match cnt with
  | 0 => Some st
  | S cnt' => st' ← failure_round pattern st i; failure_loop pattern cnt' (S i) st'
  end.

Definition compute_failure (pattern : list ascii) : option (list nat) :=
  let m := length pattern in
  if m =? 0 then Some []
  else fst <$> failure_loop pattern (m - 1) 1 (replicate m 0, 0).

(** One round of the [for] loop of [compute_failure_optimized]: when the
    byte after the prefix equals the byte after its border, the entry of
    the border is stored instead of the border. *)
Definition optimized_round (pattern : list ascii) (st : list nat * nat) (i : nat)
    : option (list nat * nat) :=
  let '(failure, k) := st in
  k1 ← fall_back k pattern failure (at_ pattern i) k;
  let k2 := if Ascii.eqb (at_ pattern i) (at_ pattern k1) then S k1 else k1 in
  if (0 <? k2) && (i + 1 <? length pattern)
     && Ascii.eqb (at_ pattern (i + 1)) (at_ pattern k2)
  then Some (<[i := nth (k2 - 1) failure 0]> failure, k2)
  else Some (<[i := k2]> failure, k2).

Fixpoint optimized_loop (pattern : list ascii) (cnt i : nat) (st : list nat * nat)
    : option (list nat * nat) :=
  match cnt with
  | 0 => Some st
  | S cnt' => st' ← optimized_round pattern st i; optimized_loop pattern cnt' (S i) st'
  end.

Definition compute_failure_optimized (pattern : list ascii) : option (list nat) :=
  let m := length pattern in
  if m =? 0 then Some []
  else fst <$> optimized_loop pattern (m - 1) 1 (replicate m 0, 0).

End failure.

(** ** detail/simd: byte-scan kernels

    A vector register is the list of its byte lanes, lane 0 first.  The
    compare-and-movemask instructions produce an integer whose bit [i] is the
    outcome of lane [i]; [__builtin_ctz] counts its trailing zero bits. *)

Module simd.

(** [_mm*_movemask_epi8] of a lane-wise comparison result. *)
Fixpoint movemask (lanes : list bool) : Z :=
  match lanes with
  | [] => 0
  | b :: rest => Z.lor (Z.b2z b) (Z.shiftl (movemask rest) 1)
  end.

(** [__builtin_ctz] / [__builtin_ctzll] on a [bits]-wide non-zero value. *)
Fixpoint ctz (bits : nat) (x : Z) : nat :=
  match bits with
  | 0 => 0
  | S bits' => if Z.testbit x 0 then 0 else S (ctz bits' (Z.shiftr x 1))
  end.

(** [_mm*_loadu] of [w] bytes at [s + ptr]. *)
Definition load (w : nat) (s : list ascii) (ptr : nat) : list ascii :=
  take w (drop ptr s).

(** [_mm*_cmpeq_epi8(chunk, set1(c))] followed by movemask. *)
Definition cmpeq_mask (chunk : list ascii) (c : ascii) : Z :=
  movemask (map (λ x, Ascii.eqb x c) chunk).

(** [_mm*_cmpeq_epi8(va, vb)] followed by movemask. *)
Definition cmpeq2_mask (va vb : list ascii) : Z :=
  movemask (zip_with Ascii.eqb va vb).

(** [while (ptr + w <= end) { ...; ptr += w; }] of the first-byte scans:
    [cnt] is the number of whole [w]-byte chunks left before [end].
    Returns the hit, or the position where the chunk loop stopped. *)
Fixpoint scan_chunks (w cnt : nat) (hay : list ascii) (ptr : nat) (c : ascii)
    : nat + nat :=
  match cnt with
  | 0 => inr ptr
  | S cnt' =>
      let mask := cmpeq_mask (load w hay ptr) c in
      if negb (mask =? 0)%Z then inl (ptr + ctz w mask)
      else scan_chunks w cnt' hay (ptr + w) c
  end.

(** [while (ptr < end) { if (ptr[0] == c) return ptr; ++ptr; }] *)
Fixpoint scan_tail (cnt : nat) (hay : list ascii) (ptr : nat) (c : ascii)
    : option nat :=
  match cnt with
  | 0 => None
  | S cnt' => if Ascii.eqb (at_ hay ptr) c then Some ptr
              else scan_tail cnt' hay (S ptr) c
  end.

(** sse42.hpp: 16-byte chunks, then the scalar tail.  The haystack is the
    view [haystack .. haystack + haystack_len); the result is an offset
    into it, [None] for [nullptr]. *)
Definition find_first_char_sse42 (haystack : list ascii) (needle_char : ascii)
    : option nat :=
  let len := length haystack in
  if len =? 0 then None
  else match scan_chunks 16 (len / 16) haystack 0 needle_char with
       | inl hit => Some hit
       | inr ptr => scan_tail (len - ptr) haystack ptr needle_char
       end.

(** avx2.hpp: 32-byte chunks, then 16-byte chunks, then the scalar tail. *)
Definition find_first_char_avx2 (haystack : list ascii) (needle_char : ascii)
    : option nat :=
  let len := length haystack in
  if len =? 0 then None
  else match scan_chunks 32 (len / 32) haystack 0 needle_char with
       | inl hit => Some hit
       | inr ptr =>
           match scan_chunks 16 ((len - ptr) / 16) haystack ptr needle_char with
           | inl hit => Some hit
           | inr ptr' => scan_tail (len - ptr') haystack ptr' needle_char
           end
       end.

(** avx512.hpp: 64-byte chunks, then at most one 32-byte and one 16-byte
    chunk (these two are [if]s, not loops), then the scalar tail. *)
Definition find_first_char_avx512 (haystack : list ascii) (needle_char : ascii)
    : option nat :=
  let len := length haystack in
  if len =? 0 then None
  else match scan_chunks 64 (len / 64) haystack 0 needle_char with
       | inl hit => Some hit
       | inr ptr =>
           match scan_chunks 32 (if ptr + 32 <=? len then 1 else 0)
                   haystack ptr needle_char with
           | inl hit => Some hit
           | inr ptr1 =>
               match scan_chunks 16 (if ptr1 + 16 <=? len then 1 else 0)
                       haystack ptr1 needle_char with
               | inl hit => Some hit
               | inr ptr2 => scan_tail (len - ptr2) haystack ptr2 needle_char
               end
           end
       end.

(** [while (i + w <= len)] of the compare kernels: a mismatch in a chunk
    is found as the lowest set bit of the complemented equality mask. *)
Fixpoint compare_chunks (w cnt : nat) (a b : list ascii) (i : nat) : nat + nat :=
  match cnt with
  | 0 => inr i
  | S cnt' =>
      let mask := cmpeq2_mask (load w a i) (load w b i) in
      if negb (mask =? Z.ones (Z.of_nat w))%Z
      then inl (i + ctz w (Z.lxor mask (Z.ones (Z.of_nat w))))
      else compare_chunks w cnt' a b (i + w)
  end.

(** [while (i < len) { if (a[i] != b[i]) return i; ++i; } return len;] *)
Fixpoint compare_tail (cnt : nat) (a b : list ascii) (i : nat) : nat :=
  match cnt with
  | 0 => i
  | S cnt' => if char_neq (at_ a i) (at_ b i) then i
              else compare_tail cnt' a b (S i)
  end.

Definition compare_avx2 (a b : list ascii) (len : nat) : nat :=
  match compare_chunks 32 (len / 32) a b 0 with
  | inl k => k
  | inr i => compare_tail (len - i) a b i
  end.

Definition compare_avx512 (a b : list ascii) (len : nat) : nat :=
  match compare_chunks 64 (len / 64) a b 0 with
  | inl k => k
  | inr i =>
      match compare_chunks 32 (if i + 32 <=? len then 1 else 0) a b i with
      | inl k => k
      | inr i' => compare_tail (len - i') a b i'
      end
  end.

End simd.

(** ** detail/simd: the width-specialised search engines *)

Module engine.
Import failure simd.

(** What one pass through the body of [while (text_ptr < text_end)] does:
    return a match, return [nullptr], or go round again.  [Again c k p]
    records the candidate [c] that failed verification, the length [k] of
    the prefix that matched there, and the new value [p] of [text_ptr]. *)
Inductive round : Type :=
  | Found (pos : nat)
  | NotFound
  | Again (candidate matched next_ptr : nat).

(** [while (j < pattern_len && match[j] == pattern[j]) ++j;] with
    [cnt = pattern_len - j] rounds available. *)
Fixpoint verify (cnt : nat) (text : list ascii) (match_ : nat)
    (pattern : list ascii) (j : nat) : nat :=
  match cnt with
  | 0 => j
  | S cnt' => if Ascii.eqb (at_ text (match_ + j)) (at_ pattern j)
              then verify cnt' text match_ pattern (S j) else j
  end.

(** [while (j > 0 && match[j] != pattern[j]) j = failure[j - 1];] *)
Fixpoint sse42_fall_back (fuel : nat) (text : list ascii) (match_ : nat)
    (pattern : list ascii) (failure : list nat) (j : nat) : option nat :=
  if (0 <? j) && char_neq (at_ text (match_ + j)) (at_ pattern j) then
    match fuel with
    | 0 => None
    | S fuel' =>
        sse42_fall_back fuel' text match_ pattern failure (nth (j - 1) failure 0)
    end
  else Some j.

Definition sse42_round (text pattern : list ascii) (failure : list nat)
    (text_end text_ptr : nat) : option round :=
  let pattern_len := length pattern in
  let remaining := text_end - text_ptr in
  match find_first_char_sse42 (take remaining (drop text_ptr text)) (at_ pattern 0) with
  | None => Some NotFound
  | Some off =>
      let match_ := text_ptr + off in
      let j := verify (pattern_len - 1) text match_ pattern 1 in
      if j =? pattern_len then Some (Found match_)
      else
        (* the value the loop leaves in [j] is never read again *)
        _ ← sse42_fall_back j text match_ pattern failure j;
        Some (Again match_ j (match_ + 1))
  end.

(** [size_type skip = 1; if (match_len > 0) skip = match_len - failure[match_len - 1];] *)
Definition failure_skip (failure : list nat) (match_len : nat) : nat :=
  if 0 <? match_len then match_len - nth (match_len - 1) failure 0 else 1.

Definition avx2_round (text pattern : list ascii) (failure : list nat)
    (text_end text_ptr : nat) : option round :=
  let pattern_len := length pattern in
  let remaining := text_end - text_ptr in
  match find_first_char_avx2 (take remaining (drop text_ptr text)) (at_ pattern 0) with
  | None => Some NotFound
  | Some off =>
      let match_ := text_ptr + off in
      let match_len := compare_avx2 (drop match_ text) pattern pattern_len in
      if match_len =? pattern_len then Some (Found match_)
      else Some (Again match_ match_len (match_ + failure_skip failure match_len))
  end.

Definition avx512_round (text pattern : list ascii) (failure : list nat)
    (text_end text_ptr : nat) : option round :=
  let pattern_len := length pattern in
  let remaining := text_end - text_ptr in
  match find_first_char_avx512 (take remaining (drop text_ptr text)) (at_ pattern 0) with
  | None => Some NotFound
  | Some off =>
      let match_ := text_ptr + off in
      let match_len := compare_avx512 (drop match_ text) pattern pattern_len in
      if match_len =? pattern_len then Some (Found match_)
      else Some (Again match_ match_len (match_ + failure_skip failure match_len))
  end.

(** [while (text_ptr < text_end) { body }  return nullptr;] *)
Fixpoint rounds (body : nat → option round) (fuel : nat) (text_end text_ptr : nat)
    : option (option nat) :=
  if text_ptr <? text_end then
    match fuel with
    | 0 => None
    | S fuel' =>
        r ← body text_ptr;
        match r with
        | Found pos => Some (Some pos)
        | NotFound => Some None
        | Again _ _ next_ptr => rounds body fuel' text_end next_ptr
        end
    end
  else Some None.

(** The common frame of [kmp_search_sse42], [kmp_search_avx2] and
    [kmp_search_avx512]; the result is an offset from [text], [None] for
    [nullptr]. *)
Definition kmp_search_with
    (body : list ascii → list ascii → list nat → nat → nat → option round)
    (text pattern : list ascii) (failure : list nat) : option (option nat) :=
  let text_len := length text in
  let pattern_len := length pattern in
  if pattern_len =? 0 then Some (Some 0)
  else if text_len <? pattern_len then Some None
  else
    let text_end := text_len - pattern_len + 1 in
    rounds (body text pattern failure text_end) text_end text_end 0.

Definition kmp_search_sse42 := kmp_search_with sse42_round.
Definition kmp_search_avx2 := kmp_search_with avx2_round.
Definition kmp_search_avx512 := kmp_search_with avx512_round.

(** [while (pos <= end - pattern_len)] of the [kmp_search_all_*]
    functions.  The search runs on the view [pos .. end), so its result is
    an offset from [pos]; [*out++ = match - text] appends to [out]. *)
Fixpoint search_all_rounds
    (kmp_search : list ascii → list ascii → list nat → option (option nat))
    (fuel : nat) (text pattern : list ascii) (failure : list nat)
    (pos : nat) (out : list nat) : option (list nat) :=
  if pos <=? length text - length pattern then
    match fuel with
    | 0 => None
    | S fuel' =>
        r ← kmp_search (drop pos text) pattern failure;
        match r with
        | None => Some out
        | Some off =>
            let match_ := pos + off in
            search_all_rounds kmp_search fuel' text pattern failure
              (match_ + 1) (out ++ [match_])
        end
    end
  else Some out.

(** The common frame of [kmp_search_all_sse42], [kmp_search_all_avx2] and
    [kmp_search_all_avx512]. *)
Definition kmp_search_all_with
    (kmp_search : list ascii → list ascii → list nat → option (option nat))
    (text pattern : list ascii) (failure : list nat) (out : list nat)
    : option (list nat) :=
  if (length pattern =? 0) || (length text <? length pattern) then Some out
  else search_all_rounds kmp_search (S (length text)) text pattern failure 0 out.

Definition kmp_search_all_sse42 := kmp_search_all_with kmp_search_sse42.
Definition kmp_search_all_avx2 := kmp_search_all_with kmp_search_avx2.
Definition kmp_search_all_avx512 := kmp_search_all_with kmp_search_avx512.

End engine.

(** ** search.hpp *)

Module search.
Import failure.

(** The two statements every scanner applies to the text byte [c]:
    fall back along the failure table, then extend on a match. *)
Definition advance (pattern : list ascii) (failure : list nat) (c : ascii) (j : nat)
    : option nat :=
  j1 ← fall_back j pattern failure c j;
  Some (if Ascii.eqb c (at_ pattern j1) then S j1 else j1).

(** [for (it = text_first; it != text_last; ++it)] of [kmp_search_scalar],
    at offset [i] with [cnt] bytes to go.  An iterator is its offset from
    [text_first]; [text_last] is [length text].  The offset of the match is
    [distance(text_first, it) - m + 1], which is [i + 1 - m] since
    [j == m] is reached only after [m] bytes were read. *)
Fixpoint scalar_loop (text pattern : list ascii) (failure : list nat)
    (cnt i j : nat) : option nat :=
  match cnt with
  | 0 => Some (length text)
  | S cnt' =>
      j' ← advance pattern failure (at_ text i) j;
      if j' =? length pattern then Some (S i - length pattern)
      else scalar_loop text pattern failure cnt' (S i) j'
  end.

Definition kmp_search_scalar (text pattern : list ascii) (failure : list nat)
    : option nat :=
  if length pattern =? 0 then Some 0
  else scalar_loop text pattern failure (length text) 0 0.

(** The kernel the [#if KMP_HAS_*] / [has_*()] cascade of [search] ends in. *)
Inductive simd_level : Type := scalar | sse42 | avx2 | avx512.

(** [result ? text_first + (result - text_ptr) : text_last] *)
Definition to_iterator (text : list ascii) (result : option nat) : nat :=
  match result with Some r => r | None => length text end.

(** [search] on contiguous character ranges (the [string_view] overload). *)
Definition search (level : simd_level) (text pattern : list ascii) : option nat :=
  let n := length text in
  let m := length pattern in
  if m =? 0 then Some 0
  else if n <? m then Some n
  else
    failure ← compute_failure pattern;
    if config.simd_threshold <=? n then
      match level with
      | avx512 => to_iterator text <$> engine.kmp_search_avx512 text pattern failure
      | avx2 => to_iterator text <$> engine.kmp_search_avx2 text pattern failure
      | sse42 => to_iterator text <$> engine.kmp_search_sse42 text pattern failure
      | scalar => kmp_search_scalar text pattern failure
      end
    else kmp_search_scalar text pattern failure.

(** [if (it == text.end()) return nullopt; return distance(text.begin(), it);] *)
Definition search_pos (level : simd_level) (text pattern : list ascii)
    : option (option nat) :=
  it ← search level text pattern;
  Some (if it =? length text then None else Some it).

(** The loop of the generator [search_all]; the yielded values in order.
    [i - m + 1] is computed in [size_type], that is modulo [2^64], and
    equals [i + 1 - m] for the same reason as above. *)
Fixpoint search_all_loop (text pattern : list ascii) (failure : list nat)
    (cnt i j : nat) : option (list nat) :=
  match cnt with
  | 0 => Some []
  | S cnt' =>
      j' ← advance pattern failure (at_ text i) j;
      if j' =? length pattern
      then cons (S i - length pattern) <$>
             search_all_loop text pattern failure cnt' (S i) (nth (j' - 1) failure 0)
      else search_all_loop text pattern failure cnt' (S i) j'
  end.

Definition search_all (text pattern : list ascii) : option (list nat) :=
  let n := length text in
  let m := length pattern in
  if (m =? 0) || (n <? m) then Some []
  else
    failure ← compute_failure pattern;
    search_all_loop text pattern failure n 0 0.

Definition search_all_vec (text pattern : list ascii) : option (list nat) :=
  search_all text pattern.

Definition count (text pattern : list ascii) : option nat :=
  length <$> search_all text pattern.

Definition contains (level : simd_level) (text pattern : list ascii) : option bool :=
  (λ r : option nat, bool_decide (is_Some r)) <$> search_pos level text pattern.

End search.

(** ** detail/simd/dispatch.hpp *)

Module dispatch.

(** [cpu_feature]: the flag word behind the enumeration. *)
Definition cpu_feature : Type := N.

Definition none : cpu_feature := 0%N.
Definition sse42 : cpu_feature := N.shiftl 1 0.
Definition avx2 : cpu_feature := N.shiftl 1 1.
Definition avx512f : cpu_feature := N.shiftl 1 2.
Definition avx512bw : cpu_feature := N.shiftl 1 3.

(** [operator|] and [operator&] *)
Definition feature_or (a b : cpu_feature) : cpu_feature := N.lor a b.
Definition feature_and (a b : cpu_feature) : cpu_feature := N.land a b.

Definition has_feature (flags test : cpu_feature) : bool :=
  (feature_and flags test =? test)%N.

Record cpuid_result : Type := CpuidResult { eax : N; ebx : N; ecx : N; edx : N }.

(** The processor as the code sees it: what the [CPUID] and [XGETBV]
    instructions answer. *)
Record machine : Type := Machine {
  cpuid : N → N → cpuid_result;
  xgetbv : N → N
}.

(** [reg & (1u << n)] as a condition. *)
Definition bit_set (reg n : N) : bool := negb (N.land reg (N.shiftl 1 n) =? 0)%N.

Definition detect_features (m : machine) : cpu_feature :=
  let features := none in
  let max_leaf := eax (cpuid m 0 0) in
  if (max_leaf <? 1)%N then features
  else
    let ecx1 := ecx (cpuid m 1 0) in
    let features := if bit_set ecx1 20 then feature_or features sse42 else features in
    if negb (bit_set ecx1 27) then features
    else
      let xcr0 := xgetbv m 0 in
      let os_avx := (N.land xcr0 6 =? 6)%N in
      let os_avx512 := (N.land xcr0 230 =? 230)%N in
      if negb os_avx then features
      else if (7 <=? max_leaf)%N then
        let ebx7 := ebx (cpuid m 7 0) in
        let features := if bit_set ebx7 5 then feature_or features avx2 else features in
        if os_avx512 && bit_set ebx7 16 then
          let features := feature_or features avx512f in
          if bit_set ebx7 30 then feature_or features avx512bw else features
        else features
      else features.

(** The function-local static is initialised by the first call. *)
Definition get_features (m : machine) : cpu_feature := detect_features m.

Definition has_avx512 (m : machine) : bool :=
  has_feature (get_features m) (feature_or avx512f avx512bw).
Definition has_avx2 (m : machine) : bool := has_feature (get_features m) avx2.
Definition has_sse42 (m : machine) : bool := has_feature (get_features m) sse42.

Definition get_simd_level (m : machine) : search.simd_level :=
  if has_avx512 m then search.avx512
  else if has_avx2 m then search.avx2
  else if has_sse42 m then search.sse42
  else search.scalar.

End dispatch.

(** ** detail/dfa.hpp *)

(** What a call that may throw does: return, throw [std::runtime_error], or
    exhaust the bound of one of the model's loops. *)
Inductive outcome (A : Type) : Type :=
  | Ok (a : A)
  | Throw (what : string)
  | Diverge.
Global Arguments Ok {A} a.
Global Arguments Throw {A} what.
Global Arguments Diverge {A}.

(** [std::unordered_set<size_type>] fixes no iteration order.  Every
    range-[for] over such a set goes through an [iter_order]: some
    enumeration of the elements, each exactly once. *)
Record iter_order : Type := IterOrder {
  enumerate : gset N → list N;
  enumerate_perm : ∀ s, enumerate s ≡ₚ elements s
}.

Definition ascending_order : iter_order :=
  {| enumerate := elements; enumerate_perm := λ s, reflexivity (elements s) |}.

Program Definition reversed_order : iter_order :=
  {| enumerate := λ s, reverse (elements s) |}.
Next Obligation. intros s. apply reverse_Permutation. Qed.

Module dfa.

(** [static_cast<unsigned char>(c)] *)
Definition byte_of (c : ascii) : N := N_of_ascii c.

(** *** char_class: [std::bitset<128>] as a bit mask *)

Definition char_class : Type := N.

Definition cc_empty : char_class := 0%N.

Definition cc_set (cc : char_class) (c : ascii) : char_class :=
  if (byte_of c <? config.ascii_size)%N then N.setbit cc (byte_of c) else cc.

(** [for (unsigned char c = from; c <= to && c < size; ++c) bits_.set(c);]
    The second conjunct stops the loop after at most 128 rounds. *)
Fixpoint set_range_loop (cnt : nat) (cc : char_class) (c to : N) : char_class :=
  match cnt with
  | 0 => cc
  | S cnt' =>
      if ((c <=? to) && (c <? config.ascii_size))%N
      then set_range_loop cnt' (N.setbit cc c) (c + 1)%N to
      else cc
  end.

Definition cc_set_range (cc : char_class) (from to : ascii) : char_class :=
  set_range_loop 128 cc (byte_of from) (byte_of to).

Definition cc_set_all (cc : char_class) : char_class := N.ones config.ascii_size.

(** [bits_.flip()]; the loop that clears the bits from [size] upwards has
    nothing to do on a 128-bit set. *)
Definition cc_flip (cc : char_class) : char_class :=
  N.lxor cc (N.ones config.ascii_size).

Definition cc_test (cc : char_class) (c : ascii) : bool :=
  (byte_of c <? config.ascii_size)%N && N.testbit cc (byte_of c).

Definition digit : char_class := cc_set_range cc_empty "0" "9".

Definition word : char_class :=
  cc_set (cc_set_range (cc_set_range (cc_set_range cc_empty "a" "z") "A" "Z") "0" "9") "_".

Definition space : char_class :=
  foldl cc_set cc_empty
    [" "; "009"; "010"; "013"; "012"; "011"]%char.

Definition any_char : char_class := N.clearbit (cc_set_all cc_empty) 10.

(** *** NFA and DFA states *)

(** [static_cast<size_type>(-1)] *)
Definition no_transition : N := 18446744073709551615%N.

Inductive nfa_kind : Type := epsilon | char_match | class_match | accept.

Global Instance nfa_kind_eq_dec : EqDecision nfa_kind.
Proof. solve_decision. Defined.

Record nfa_state : Type := NfaState {
  kind : nfa_kind;
  match_char : ascii;
  match_class : char_class;
  next1 : N;
  next2 : N
}.

Definition has_next1 (s : nfa_state) : bool := negb (next1 s =? no_transition)%N.
Definition has_next2 (s : nfa_state) : bool := negb (next2 s =? no_transition)%N.

Record nfa_fragment : Type := Fragment { start : N; end_ : N }.

Record dfa_state : Type := DfaState {
  transitions : list N;
  is_accept : bool
}.

(** [dfa_state{}]: every transition is the dead state. *)
Definition new_dfa_state : dfa_state :=
  {| transitions := replicate (N.to_nat config.ascii_size) no_transition;
     is_accept := false |}.

(** *** The recursive-descent parser

    The parser functions share [nfa_states_] and the cursor [pos] and may
    throw; they live in a state-and-exception monad. *)

Record pstate : Type := PState { ps_states : list nfa_state; pos : nat }.

Definition parser (A : Type) : Type := pstate → outcome (A * pstate).

Global Instance parser_ret : MRet parser := λ A a st, Ok (a, st).
Global Instance parser_bind : MBind parser := λ A B f m st,
  match m st with
  | Ok (a, st') => f a st'
  | Throw what => Throw what
  | Diverge => Diverge
  end.

Definition throw {A} (what : string) : parser A := λ _, Throw what.
Definition diverge {A} : parser A := λ _, Diverge.
Definition get_pos : parser nat := λ st, Ok (pos st, st).
Definition set_pos (p : nat) : parser unit :=
  λ st, Ok ((), {| ps_states := ps_states st; pos := p |}).

(** [size_type state = nfa_states_.size(); nfa_states_.push_back(s);] *)
Definition push_state (s : nfa_state) : parser N := λ st,
  Ok (N.of_nat (length (ps_states st)),
      {| ps_states := ps_states st ++ [s]; pos := pos st |}).

Definition modify_nfa (f : list nfa_state → list nfa_state) : parser unit :=
  λ st, Ok ((), {| ps_states := f (ps_states st); pos := pos st |}).

Definition set_next1 (target : N) (s : nfa_state) : nfa_state :=
  {| kind := kind s; match_char := match_char s; match_class := match_class s;
     next1 := target; next2 := next2 s |}.
Definition set_next2 (target : N) (s : nfa_state) : nfa_state :=
  {| kind := kind s; match_char := match_char s; match_class := match_class s;
     next1 := next1 s; next2 := target |}.

(** The body of [patch] on the state it addresses. *)
Definition patch_state (target : N) (s : nfa_state) : nfa_state :=
  if decide (kind s = epsilon) then
    if negb (has_next1 s) then set_next1 target s
    else if negb (has_next2 s) then set_next2 target s
    else s
  else
    if negb (has_next1 s) then set_next1 target s else s.

(** [patch]: out of range does nothing, as [alter] does. *)
Definition patch_nfa (state target : N) (nfa : list nfa_state) : list nfa_state :=
  alter (patch_state target) (N.to_nat state) nfa.

Definition patch (state target : N) : parser unit :=
  modify_nfa (patch_nfa state target).

Definition mk_state (k : nfa_kind) (c : ascii) (cc : char_class) (n1 n2 : N)
    : nfa_state :=
  {| kind := k; match_char := c; match_class := cc; next1 := n1; next2 := n2 |}.

Definition single (k : nfa_kind) (c : ascii) (cc : char_class) : parser nfa_fragment :=
  state ← push_state (mk_state k c cc no_transition no_transition);
  mret (Fragment state state).

Definition make_star (inner : nfa_fragment) : parser nfa_fragment :=
  split ← push_state (mk_state epsilon "000" cc_empty (start inner) no_transition);
  _ ← patch (end_ inner) split;
  mret (Fragment split split).

Definition make_plus (inner : nfa_fragment) : parser nfa_fragment :=
  split ← push_state (mk_state epsilon "000" cc_empty (start inner) no_transition);
  _ ← patch (end_ inner) split;
  mret (Fragment (start inner) split).

Definition make_optional (inner : nfa_fragment) : parser nfa_fragment :=
  split ← push_state (mk_state epsilon "000" cc_empty (start inner) no_transition);
  join ← push_state (mk_state epsilon "000" cc_empty no_transition no_transition);
  _ ← modify_nfa (alter (set_next2 join) (N.to_nat split));
  _ ← patch (end_ inner) join;
  mret (Fragment split join).

(** [for (char ch = from; ch <= to; ++ch) cc.set(ch);] on a short span of
    ASCII letters or digits. *)
Definition cc_set_span (cc : char_class) (from to : ascii) : char_class :=
  foldl (λ acc n, cc_set acc (ascii_of_nat n)) cc
    (seq (nat_of_ascii from) (S (nat_of_ascii to) - nat_of_ascii from)).

Definition add_escape_to_class (cc : char_class) (c : ascii) : char_class :=
  if Ascii.eqb c "d" then cc_set_span cc "0" "9"
  else if Ascii.eqb c "w" then
    cc_set (cc_set_span (cc_set_span (cc_set_span cc "a" "z") "A" "Z") "0" "9") "_"
  else if Ascii.eqb c "s" then
    foldl cc_set cc [" "; "009"; "010"; "013"; "012"; "011"]%char
  else cc_set cc c.

Section parser.
Variable pattern : list ascii.

Definition parse_escape : parser nfa_fragment :=
  p ← get_pos;
  if length pattern <=? p then throw "Incomplete escape sequence"
  else
    let c := at_ pattern p in
    _ ← set_pos (S p);
    if Ascii.eqb c "d" then single class_match "000" digit
    else if Ascii.eqb c "D" then single class_match "000" (cc_flip digit)
    else if Ascii.eqb c "w" then single class_match "000" word
    else if Ascii.eqb c "W" then single class_match "000" (cc_flip word)
    else if Ascii.eqb c "s" then single class_match "000" space
    else if Ascii.eqb c "S" then single class_match "000" (cc_flip space)
    else single char_match c cc_empty.

(** The [while] loop of [parse_char_class]; it touches only [pos] and the
    class under construction. *)
Fixpoint class_items (fuel : nat) (p : nat) (cc : char_class)
    : option (nat * char_class) :=
  if (p <? length pattern) && char_neq (at_ pattern p) "]" then
    match fuel with
    | 0 => None
    | S fuel' =>
        let c := at_ pattern p in
        let p := S p in
        if Ascii.eqb c "\" && (p <? length pattern) then
          class_items fuel' (S p) (add_escape_to_class cc (at_ pattern p))
        else if (p + 1 <? length pattern) && Ascii.eqb (at_ pattern p) "-"
                && char_neq (at_ pattern (p + 1)) "]" then
          class_items fuel' (S (S p)) (cc_set_range cc c (at_ pattern (S p)))
        else class_items fuel' p (cc_set cc c)
    end
  else Some (p, cc).

Definition parse_char_class : parser nfa_fragment :=
  p ← get_pos;
  let p := S p in
  let negated := (p <? length pattern) && Ascii.eqb (at_ pattern p) "^" in
  let p := if negated then S p else p in
  match class_items (length pattern) p cc_empty with
  | None => diverge
  | Some (p, cc) =>
      _ ← set_pos p;
      if length pattern <=? p then throw "Unclosed character class"
      else
        _ ← set_pos (S p);
        single class_match "000" (if negated then cc_flip cc else cc)
  end.

Section levels.
(** The parser one nesting level further in, for the body of a group. *)
Variable parse_regex : parser nfa_fragment.

Definition parse_atom : parser nfa_fragment :=
  p ← get_pos;
  if length pattern <=? p then throw "Unexpected end of pattern"
  else
    let c := at_ pattern p in
    if Ascii.eqb c "(" then
      _ ← set_pos (S p);
      inner ← parse_regex;
      p' ← get_pos;
      if (length pattern <=? p') || char_neq (at_ pattern p') ")"
      then throw "Unmatched parenthesis"
      else _ ← set_pos (S p'); mret inner
    else if Ascii.eqb c "[" then parse_char_class
    else if Ascii.eqb c "." then
      _ ← set_pos (S p); single class_match "000" any_char
    else if Ascii.eqb c "\" then
      _ ← set_pos (S p); parse_escape
    else if Ascii.eqb c "^" || Ascii.eqb c "$" then
      _ ← set_pos (S p); single epsilon "000" cc_empty
    else
      _ ← set_pos (S p); single char_match c cc_empty.

Definition parse_quantified : parser nfa_fragment :=
  base ← parse_atom;
  p ← get_pos;
  if length pattern <=? p then mret base
  else
    let quant := at_ pattern p in
    if Ascii.eqb quant "*" then _ ← set_pos (S p); make_star base
    else if Ascii.eqb quant "+" then _ ← set_pos (S p); make_plus base
    else if Ascii.eqb quant "?" then _ ← set_pos (S p); make_optional base
    else mret base.

(** The [while] loop of [parse_concatenation], threading [result] and
    [first]. *)
Fixpoint concatenation_loop (fuel : nat) (result : nfa_fragment) (first : bool)
    : parser (nfa_fragment * bool) :=
  p ← get_pos;
  if (p <? length pattern) && char_neq (at_ pattern p) "|"
     && char_neq (at_ pattern p) ")" then
    match fuel with
    | 0 => diverge
    | S fuel' =>
        atom ← parse_quantified;
        if first then concatenation_loop fuel' atom false
        else
          _ ← patch (end_ result) (start atom);
          concatenation_loop fuel' (Fragment (start result) (end_ atom)) false
    end
  else mret (result, first).

Definition parse_concatenation : parser nfa_fragment :=
  concatenation_loop (length pattern) (Fragment 0 0) true ≫=
  λ r : nfa_fragment * bool,
    if r.2 then single epsilon "000" cc_empty else mret r.1.

(** The [while] loop of [parse_alternation], threading [left]. *)
Fixpoint alternation_loop (fuel : nat) (left : nfa_fragment)
    : parser nfa_fragment :=
  p ← get_pos;
  if (p <? length pattern) && Ascii.eqb (at_ pattern p) "|" then
    match fuel with
    | 0 => diverge
    | S fuel' =>
        _ ← set_pos (S p);
        right ← parse_concatenation;
        split ← push_state (mk_state epsilon "000" cc_empty (start left) (start right));
        join ← push_state (mk_state epsilon "000" cc_empty no_transition no_transition);
        _ ← patch (end_ left) join;
        _ ← patch (end_ right) join;
        alternation_loop fuel' (Fragment split join)
    end
  else mret left.

Definition parse_alternation : parser nfa_fragment :=
  left ← parse_concatenation;
  alternation_loop (length pattern) left.
End levels.

(** [parse_regex]; [depth] bounds the nesting of groups. *)
Fixpoint parse_regex (depth : nat) : parser nfa_fragment :=
  match depth with
  | 0 => diverge
  | S depth' => parse_alternation (parse_regex depth')
  end.

(** [build_nfa]: the resulting [nfa_states_] and [nfa_start_]. *)
Definition build_nfa : outcome (list nfa_state * N) :=
  match parse_regex (S (length pattern)) {| ps_states := []; pos := 0 |} with
  | Ok (frag, st) =>
      let accept_ := N.of_nat (length (ps_states st)) in
      let nfa := ps_states st ++ [mk_state accept "000" cc_empty no_transition no_transition] in
      Ok (patch_nfa (end_ frag) accept_ nfa, start frag)
  | Throw what => Throw what
  | Diverge => Diverge
  end.
End parser.

(** *** Vectors under construction

    [states_] and [worklist] grow by [push_back] and are read and written
    by index while the DFA is built.  Such a vector is its size together
    with the elements at the indices below it; [vec_to_list] is the
    finished vector. *)

Record vec (A : Type) : Type := Vec { vec_data : gmap N A; vec_size : N }.
Global Arguments Vec {A} vec_data vec_size.
Global Arguments vec_data {A} v.
Global Arguments vec_size {A} v.

Definition vec_empty {A} : vec A := Vec ∅ 0.

(** [v.push_back(x)] *)
Definition vec_push {A} (v : vec A) (x : A) : vec A :=
  Vec (<[vec_size v := x]> (vec_data v)) (vec_size v + 1).

(** [v[i]] *)
Definition vec_get {A} (v : vec A) (i : N) : option A := vec_data v !! i.

(** [v[i] = f(v[i])] *)
Definition vec_alter {A} (f : A → A) (i : N) (v : vec A) : vec A :=
  Vec (alter f i (vec_data v)) (vec_size v).

Definition vec_to_list {A} (v : vec A) : list A :=
  omap (λ i, vec_data v !! N.of_nat i) (seq 0 (N.to_nat (vec_size v))).

(** *** Subset construction *)

Section subset.
Variable order : iter_order.
Variable nfa : list nfa_state.

(** [state.has_next() && states.insert(state.next).second] followed by
    [stack.push_back(state.next)]. *)
Definition visit (has_next : bool) (next : N) (acc : list N * gset N)
    : list N * gset N :=
  if has_next && bool_decide (next ∉ acc.2)
  then (next :: acc.1, {[next]} ∪ acc.2)
  else acc.

(** The [while (!stack.empty())] loop of [epsilon_closure].  The vector
    [stack] is kept with its back at the head of the list. *)
Fixpoint closure_loop (fuel : nat) (stack : list N) (states : gset N)
    : option (gset N) :=
  match stack with
  | [] => Some states
  | s :: stack =>
      match fuel with
      | 0 => None
      | S fuel' =>
          match nfa !! N.to_nat s with
          | None => closure_loop fuel' stack states
          | Some state =>
              if decide (kind state = epsilon) then
                let acc := visit (has_next1 state) (next1 state) (stack, states) in
                let acc := visit (has_next2 state) (next2 state) acc in
                closure_loop fuel' acc.1 acc.2
              else closure_loop fuel' stack states
          end
      end
  end.

Definition epsilon_closure (states : gset N) : option (gset N) :=
  let stack := reverse (enumerate order states) in
  closure_loop (length stack + 2 * length nfa) stack states.

(** The lambda [set_to_key]; [std::to_string] is [pretty]. *)
Definition set_to_key (s : gset N) : string :=
  foldl (λ key x, key +:+ pretty x +:+ ",") "" (merge_sort N.le (enumerate order s)).

(** [for (auto s : set) if (s < size && kind == accept) { flag = true; break; }] *)
Definition has_accept (s : gset N) : bool :=
  existsb (λ x, match nfa !! N.to_nat x with
                | Some state => bool_decide (kind state = accept)
                | None => false
                end) (enumerate order s).

(** Whether an NFA state consumes the byte [c]. *)
Definition consumes (state : nfa_state) (c : N) : bool :=
  match kind state with
  | char_match => (byte_of (match_char state) =? c)%N
  | class_match => cc_test (match_class state) (ascii_of_N c)
  | _ => false
  end.

(** The [for (auto s : current)] loop that collects [next_set]. *)
Definition move (current : gset N) (c : N) : gset N :=
  foldl (λ next_set s,
           match nfa !! N.to_nat s with
           | None => next_set
           | Some state =>
               if consumes state c && has_next1 state
               then {[next1 state]} ∪ next_set else next_set
           end) ∅ (enumerate order current).

(** The containers [build_dfa] works on: the vectors [states_] and
    [worklist], and the map from subset keys to DFA indices. *)
Record builder : Type := Builder {
  b_states : vec dfa_state;
  worklist : vec (gset N);
  state_map : gmap string N
}.

Definition set_accept (st : dfa_state) : dfa_state :=
  {| transitions := transitions st; is_accept := true |}.

Definition set_transition (c next_dfa : N) (st : dfa_state) : dfa_state :=
  {| transitions := <[N.to_nat c := next_dfa]> (transitions st);
     is_accept := is_accept st |}.

(** The [if (it == state_map.end()) ... else ...] of the inner loop:
    register [next_set] if its key is new; the DFA index either way. *)
Definition intern (next_set : gset N) (b : builder) : N * builder :=
  let key := set_to_key next_set in
  match state_map b !! key with
  | None =>
      let next_dfa := vec_size (b_states b) in
      let states := vec_push (b_states b) new_dfa_state in
      let states := if has_accept next_set
                    then vec_alter set_accept next_dfa states else states in
      (next_dfa, {| b_states := states;
                    worklist := vec_push (worklist b) next_set;
                    state_map := <[key := next_dfa]> (state_map b) |})
  | Some next_dfa => (next_dfa, b)
  end.

(** One round of [for (size_type c = 0; c < ascii_size; ++c)]. *)
Definition expand_byte (current : gset N) (current_dfa c : N) (b : builder)
    : option builder :=
  let next_set := move current c in
  if bool_decide (next_set = ∅) then Some b
  else
    next_set ← epsilon_closure next_set;
    let '(next_dfa, b) := intern next_set b in
    Some {| b_states := vec_alter (set_transition c next_dfa) current_dfa (b_states b);
            worklist := worklist b;
            state_map := state_map b |}.

Fixpoint expand (cnt : nat) (current : gset N) (current_dfa c : N) (b : builder)
    : option builder :=
  match cnt with
  | 0 => Some b
  | S cnt' =>
      b ← expand_byte current current_dfa c b;
      expand cnt' current current_dfa (c + 1)%N b
  end.

(** [state_map[key]]: [operator[]] default-inserts a missing key. *)
Definition map_index (key : string) (m : gmap string N) : N * gmap string N :=
  match m !! key with
  | Some v => (v, m)
  | None => (0%N, <[key := 0%N]> m)
  end.

(** How [build_dfa] ends.  [LimitExceeded] carries [states_] as it is when
    the exception is thrown. *)
Inductive build_result : Type :=
  | Built (states : vec dfa_state)
  | LimitExceeded (states : vec dfa_state)
  | BuildDiverge.

(** [while (processed < worklist.size())] *)
Fixpoint build_loop (fuel : nat) (processed : N) (b : builder) : build_result :=
  if (processed <? vec_size (worklist b))%N then
    match fuel with
    | 0 => BuildDiverge
    | S fuel' =>
        if (config.max_dfa_states <? vec_size (b_states b))%N
        then LimitExceeded (b_states b)
        else
          let current := default ∅ (vec_get (worklist b) processed) in
          let '(current_dfa, m) := map_index (set_to_key current) (state_map b) in
          let b := {| b_states := b_states b; worklist := worklist b; state_map := m |} in
          match expand (N.to_nat config.ascii_size) current current_dfa 0 b with
          | None => BuildDiverge
          | Some b => build_loop fuel' (processed + 1)%N b
          end
    end
  else Built (b_states b).

Definition build_dfa (nfa_start : N) : build_result :=
  if bool_decide (nfa = []) then Built vec_empty
  else
    match epsilon_closure {[nfa_start]} with
    | None => BuildDiverge
    | Some start_set =>
        let states := vec_push vec_empty new_dfa_state in
        let states := if has_accept start_set
                      then vec_alter set_accept 0 states else states in
        build_loop (S (N.to_nat config.max_dfa_states)) 0
          {| b_states := states;
             worklist := vec_push vec_empty start_set;
             state_map := {[set_to_key start_set := 0%N]} |}
    end.
End subset.

(** *** compiled_dfa *)

Record compiled_dfa : Type := CompiledDfa {
  states_ : list dfa_state;
  nfa_states_ : list nfa_state;
  nfa_start_ : N
}.

(** The constructor [compiled_dfa(pattern)], that is [compile]. *)
Definition compile (order : iter_order) (pattern : list ascii) : outcome compiled_dfa :=
  match build_nfa pattern with
  | Ok (nfa, nfa_start) =>
      match build_dfa order nfa nfa_start with
      | Built states =>
          Ok {| states_ := vec_to_list states;
                nfa_states_ := nfa; nfa_start_ := nfa_start |}
      | LimitExceeded _ => Throw "DFA state limit exceeded - pattern too complex"
      | BuildDiverge => Diverge
      end
  | Throw what => Throw what
  | Diverge => Diverge
  end.

(** [states_[state]] and [.transitions[c]]. *)
Definition state_at (states : list dfa_state) (state : N) : dfa_state :=
  default new_dfa_state (states !! N.to_nat state).

Definition transition (states : list dfa_state) (state c : N) : N :=
  nth (N.to_nat c) (transitions (state_at states state)) no_transition.

(** [for (char c : text)] of [matches]. *)
Fixpoint matches_loop (states : list dfa_state) (state : N) (text : list ascii) : bool :=
  match text with
  | [] => is_accept (state_at states state)
  | c :: rest =>
      let uc := byte_of c in
      if (config.ascii_size <=? uc)%N then false
      else
        let next := transition states state uc in
        if (next =? no_transition)%N then false
        else matches_loop states next rest
  end.

Definition matches (d : compiled_dfa) (text : list ascii) : bool :=
  if bool_decide (states_ d = []) then false
  else matches_loop (states_ d) 0 text.

(** The inner [for (i = start; i < text.size(); ++i)] of [search] over
    [text[start..]]: [true] when it leaves through [return start]. *)
Fixpoint search_inner (states : list dfa_state) (state : N) (rest : list ascii) : bool :=
  match rest with
  | [] => false
  | c :: rest =>
      let uc := byte_of c in
      if (config.ascii_size <=? uc)%N then false
      else
        let next := transition states state uc in
        if (next =? no_transition)%N then false
        else if is_accept (state_at states next) then true
        else search_inner states next rest
  end.

(** [for (start = 0; start < text.size(); ++start)], with [suffix] the
    part of the text from [start] on. *)
Fixpoint search_from (states : list dfa_state) (start : nat) (suffix : list ascii)
    : option nat :=
  match suffix with
  | [] => None
  | _ :: rest =>
      let matched := is_accept (state_at states 0) in
      if search_inner states 0 suffix then Some start
      else if matched then Some start
      else search_from states (S start) rest
  end.

Definition search (d : compiled_dfa) (text : list ascii) : option nat :=
  if bool_decide (states_ d = []) then None
  else search_from (states_ d) 0 text.

Definition state_count (d : compiled_dfa) : nat := length (states_ d).

End dfa.

(** ** pattern.hpp: regex_pattern *)

Module regex.

(** [dfa_] is a [shared_ptr]; [None] is the null pointer of a
    default-constructed pattern. *)
Record regex_pattern : Type := RegexPattern {
  source_ : list ascii;
  dfa_ : option dfa.compiled_dfa
}.

Definition compile_regex (order : iter_order) (pattern : list ascii)
    : outcome regex_pattern :=
  match dfa.compile order pattern with
  | Ok d => Ok {| source_ := pattern; dfa_ := Some d |}
  | Throw what => Throw what
  | Diverge => Diverge
  end.

Definition search (r : regex_pattern) (text : list ascii) : option nat :=
  match dfa_ r with
  | None => None
  | Some d => dfa.search d text
  end.

Definition matches (r : regex_pattern) (text : list ascii) : bool :=
  match dfa_ r with
  | None => false
  | Some d => dfa.matches d text
  end.

Definition empty (r : regex_pattern) : bool :=
  match dfa_ r with
  | None => true
  | Some d => bool_decide (dfa.states_ d = [])
  end.

Definition state_count (r : regex_pattern) : nat :=
  match dfa_ r with
  | None => 0
  | Some d => dfa.state_count d
  end.

End regex.

(** ** A regex whose DFA outgrows the state cap

    Fourteen alternatives over two consecutive bytes: the first seven test
    one bit each of the first byte and let any second byte pass; the other
    seven let any first byte pass and test one bit each of the second.
    After two bytes the DFA state records all fourteen bits, so the reachable
    subsets number more than [config.max_dfa_states].  Bit [i] is tested by
    the character class that lists every byte from 1 to 127 having that
    bit set. *)

Module cap_input.

(** A class item for the byte [c]; the bytes that would end the class,
    negate it, form a range or start an escape are escaped. *)
Definition item (c : ascii) : list ascii :=
  if Ascii.eqb c "]" || Ascii.eqb c "\" || Ascii.eqb c "^" || Ascii.eqb c "-"
  then ["\"%char; c] else [c].

Definition bit_class (i : N) : list ascii :=
  str "[" ++
  (filter (λ n, N.testbit (N.of_nat n) i = true) (seq 1 127) ≫= λ n, item (ascii_of_nat n))
  ++ str "]".

Definition alternatives : list (list ascii) :=
  ((λ i, bit_class i ++ str ".z") <$> [0; 1; 2; 3; 4; 5; 6]%N) ++
  ((λ i, str "." ++ bit_class i ++ str "z") <$> [0; 1; 2; 3; 4; 5; 6]%N).

Fixpoint join_bar (l : list (list ascii)) : list ascii :=
  match l with
  | [] => []
  | [x] => x
  | x :: rest => x ++ str "|" ++ join_bar rest
  end.

Definition pattern : list ascii := join_bar alternatives.

(** The size of [states_] when compiling [source] ends in the
    state-limit exception, under the ascending iteration order. *)
Definition thrown_size (source : list ascii) : option N :=
  match dfa.build_nfa source with
  | Ok (nfa, nfa_start) =>
      match dfa.build_dfa ascending_order nfa nfa_start with
      | dfa.LimitExceeded states => Some (dfa.vec_size states)
      | _ => None
      end
  | _ => None
  end.

End cap_input.

(** * Vocabulary of the statements *)

(** ** Borders: prefixes of the pattern that end a text *)

Module border.

(** The first [l] bytes of [p] are the last [l] of the first [i] bytes of [x]. *)
Definition suf (p x : list ascii) (i l : nat) : Prop :=
  l ≤ i ∧ ∀ t, t < l → at_ p t = at_ x (i - l + t).

(** [F] holds, for every prefix length [k] up to [q], the length of the
    longest proper border of that prefix at index [k - 1]. *)
Definition table_ok (p : list ascii) (F : list nat) (q : nat) : Prop :=
  ∀ k, 0 < k ≤ q →
    nth (k - 1) F 0 < k ∧ suf p p k (nth (k - 1) F 0) ∧
    ∀ l, l < k → suf p p k l → l ≤ nth (k - 1) F 0.

(** What the loop of [compute_failure] maintains on entry to round [i]. *)
Definition failure_inv (p : list ascii) (i : nat) (st : list nat * nat) : Prop :=
  0 < i ∧ length st.1 = length p ∧ table_ok p st.1 i ∧ st.2 = nth (i - 1) st.1 0.

End border.

(** ** Borders kept by the optimized table *)

Module strong_border.
Import border.

(** [G] holds, for every prefix length [k] up to [q], a proper border of
    that prefix such that every longer proper border is followed, in the
    pattern, by the byte that follows the prefix. *)
Definition strong_ok (p : list ascii) (G : list nat) (q : nat) : Prop :=
  ∀ k, 0 < k ≤ q →
    nth (k - 1) G 0 < k ∧ suf p p k (nth (k - 1) G 0) ∧
    ∀ l, l < k → suf p p k l → nth (k - 1) G 0 < l → at_ p l = at_ p k.

(** What the loop of [compute_failure_optimized] maintains on entry to
    round [i]; [F] is the table of [compute_failure]. *)
Definition optimized_inv (p : list ascii) (F : list nat) (i : nat)
    (st : list nat * nat) : Prop :=
  0 < i ∧ length st.1 = length p ∧ strong_ok p st.1 i ∧
  st.2 = nth (i - 1) F 0 ∧
  (i = length p → nth (i - 1) st.1 0 = nth (i - 1) F 0).
End strong_border.

(** ** Occurrences of the pattern *)

Module occurrences.
Import border.

(** [P] occurs in [T] at offset [o]. *)
Definition occurs (T P : list ascii) (o : nat) : Prop :=
  o + length P ≤ length T ∧ take (length P) (drop o T) = P.

(** On entry to the round for text byte [i], [j] is the length of the
    longest proper prefix of the pattern that ends [T[0..i)]. *)
Definition scan_inv (T P : list ascii) (i j : nat) : Prop :=
  j < length P ∧ suf P T i j ∧ ∀ l, l < length P → suf P T i l → l ≤ j.

(** [r] is the offset of the leftmost occurrence. *)
Definition first_occurrence (T P : list ascii) (r : nat) : Prop :=
  occurs T P r ∧ ∀ o, occurs T P o → r ≤ o.

Definition no_occurrence (T P : list ascii) : Prop := ∀ o, ¬ occurs T P o.

End occurrences.

(** ** What the kernels and the engine rounds establish *)

Module kernel_spec.
Import occurrences engine.

(** What a first-byte scan has established when it returns [r]. *)
Definition first_index (hay : list ascii) (c : ascii) (r : option nat) : Prop :=
  match r with
  | Some k => k < length hay ∧ at_ hay k = c ∧ ∀ t, t < k → at_ hay t ≠ c
  | None => ∀ t, t < length hay → at_ hay t ≠ c
  end.

(** [k] is the length of the longest common prefix of [a] and [b] within
    the first [len] bytes. *)
Definition common_prefix (a b : list ascii) (len k : nat) : Prop :=
  k ≤ len ∧ (∀ t, t < k → at_ a t = at_ b t) ∧ (k < len → at_ a k ≠ at_ b k).

(** A loop body is sound when, started at a cursor that no occurrence
    precedes, it returns the leftmost occurrence, or reports that there is
    none, or moves the cursor forward past no occurrence. *)
Definition round_ok (T P : list ascii) (text_end : nat)
    (body : nat → option round) : Prop :=
  ∀ ptr, ptr < text_end → (∀ o, occurs T P o → ptr ≤ o) →
  ∃ r, body ptr = Some r ∧
    match r with
    | Found pos => first_occurrence T P pos
    | NotFound => no_occurrence T P
    | Again _ _ next => ptr < next ∧ ∀ o, occurs T P o → next ≤ o
    end.

(** What a first-match search returns, as the collecting loops use it. *)
Definition finds_first
    (kmp_search : list ascii → list ascii → list nat → option (option nat))
    (P : list ascii) (F : list nat) : Prop :=
  ∀ T, ∃ r, kmp_search T P F = Some r ∧
    match r with
    | Some pos => first_occurrence T P pos
    | None => no_occurrence T P
    end.
End kernel_spec.

(** ** Processor features *)

Module dispatch_spec.
Import dispatch.
(** The conditions under which the processor and the operating system
    support a vector extension, read off the registers. *)
Definition cpu_sse42 (m : machine) : Prop :=
  (1 ≤ eax (cpuid m 0 0))%N ∧ bit_set (ecx (cpuid m 1 0)) 20 = true.
Definition os_ymm (m : machine) : Prop :=
  (7 ≤ eax (cpuid m 0 0))%N ∧ bit_set (ecx (cpuid m 1 0)) 27 = true ∧
  N.land (xgetbv m 0) 6 = 6%N.
Definition cpu_avx2 (m : machine) : Prop :=
  os_ymm m ∧ bit_set (ebx (cpuid m 7 0)) 5 = true.
Definition cpu_avx512f (m : machine) : Prop :=
  os_ymm m ∧ N.land (xgetbv m 0) 230 = 230%N ∧ bit_set (ebx (cpuid m 7 0)) 16 = true.
Definition cpu_avx512bw (m : machine) : Prop :=
  cpu_avx512f m ∧ bit_set (ebx (cpuid m 7 0)) 30 = true.
End dispatch_spec.

(** ** Epsilon reachability *)

Module closure.
Import dfa.

Section closure.
Variable nfa : list nfa_state.

(** [t] is an epsilon successor of [s]. *)
Definition eps_edge (s t : N) : Prop :=
  ∃ st, nfa !! N.to_nat s = Some st ∧ kind st = epsilon ∧
    ((has_next1 st = true ∧ t = next1 st) ∨ (has_next2 st = true ∧ t = next2 st)).

Definition closed (S : gset N) : Prop :=
  ∀ s t, s ∈ S → eps_edge s t → t ∈ S.

(** Every value stored in a transition slot of the NFA. *)
Definition targets : gset N :=
  list_to_set (nfa ≫= λ st, [next1 st; next2 st]).

(** The fuel still needed: one unit per stacked state and one per
    target not yet in the set. *)
Definition measure (stack : list N) (states : gset N) : nat :=
  length stack + size (targets ∖ states).

(** On entry to a round of the loop every state of the set is either
    still stacked or already has all its epsilon successors in the set. *)
Definition pending (stack : list N) (states : gset N) : Prop :=
  (∀ s, s ∈ stack → s ∈ states) ∧
  ∀ s t, s ∈ states → s ∉ stack → eps_edge s t → t ∈ states.
End closure.

End closure.

(** ** Runs of the DFA *)

Module matcher.
Import dfa.

(** Stepping the table from [s] through the bytes of a text: every byte is
    ASCII and every transition taken is a stored one that is not the dead
    sentinel. *)
Inductive run (states : list dfa_state) : N → list ascii → N → Prop :=
  | run_nil s : run states s [] s
  | run_cons s c rest st next s' :
      (byte_of c < config.ascii_size)%N →
      states !! N.to_nat s = Some st →
      transitions st !! N.to_nat (byte_of c) = Some next →
      next ≠ no_transition →
      run states next rest s' →
      run states s (c :: rest) s'.

(** The table reports a match at offset [o] of [text]: the start state
    accepts, or some non-empty stretch of the text from [o] on runs from
    the start state into an accepting state. *)
Definition hit (states : list dfa_state) (text : list ascii) (o : nat) : Prop :=
  (∃ st0, states !! 0 = Some st0 ∧ is_accept st0 = true) ∨
  ∃ k q st, 0 < k ∧ o + k ≤ length text ∧
    run states 0 (take k (drop o text)) q ∧
    states !! N.to_nat q = Some st ∧ is_accept st = true.

End matcher.

(** ** The NFA and its subsets *)

Module nfa_spec.
Import dfa closure.

Section nfa.
Variable nfa : list nfa_state.

(** [t] is the successor of [s] on the byte [c]: [s] is a character or
    class state that consumes [c] and has a successor. *)
Definition char_edge (c : N) (s t : N) : Prop :=
  ∃ st, nfa !! N.to_nat s = Some st ∧ consumes st c = true ∧
    has_next1 st = true ∧ t = next1 st.

(** Reading a text along the transitions of the NFA.  As in the
    construction of the table, only ASCII bytes are consumed. *)
Inductive nfa_run : N → list ascii → N → Prop :=
  | nfa_run_nil s : nfa_run s [] s
  | nfa_run_eps s t w u :
      eps_edge nfa s t → nfa_run t w u → nfa_run s w u
  | nfa_run_char s t c w u :
      (byte_of c < config.ascii_size)%N → char_edge (byte_of c) s t →
      nfa_run t w u → nfa_run s (c :: w) u.

Definition accepting (u : N) : Prop :=
  ∃ st, nfa !! N.to_nat u = Some st ∧ kind st = accept.

Definition nfa_accepts (nfa_start : N) (w : list ascii) : Prop :=
  ∃ u, nfa_run nfa_start w u ∧ accepting u.

(** [x] is reachable from a state of [S] along epsilon transitions. *)
Definition eps_reach (S : gset N) (x : N) : Prop :=
  ∃ s, s ∈ S ∧ rtc (eps_edge nfa) s x.
End nfa.
End nfa_spec.

(** ** Subset keys *)

Module key_spec.
(** The string holds no comma. *)
Fixpoint comma_free (s : string) : Prop :=
  match s with
  | EmptyString => True
  | String a s' => a ≠ ","%char ∧ comma_free s'
  end.

(** [std::to_string(x) + ","] for each element, in order. *)
Definition render (l : list N) : string :=
  foldr (λ x rest, pretty x +:+ "," +:+ rest) "" l.
End key_spec.

(** ** The table under construction *)

Module subset_spec.
Import dfa closure.

(** The vector holds an element at exactly the indices below its size. *)
Definition vec_wf {A} (v : vec A) : Prop :=
  ∀ i, is_Some (vec_get v i) ↔ (i < vec_size v)%N.

Section subset.
Variable order : iter_order.
Variable nfa : list nfa_state.

(** [t] is the right entry for the subset [S] on the byte [a]: the dead
    sentinel if no state of [S] consumes [a], and otherwise the index of
    the closure of the successors. *)
Definition entry_ok (W : vec (gset N)) (S : gset N) (a t : N) : Prop :=
  if bool_decide (move order nfa S a = ∅) then t = no_transition
  else ∃ S', epsilon_closure order nfa (move order nfa S a) = Some S' ∧
             vec_get W t = Some S'.

(** Row [i] of the table, for the subset [S], while row [p] is being
    filled and its bytes below [c] are done: the entries that are done
    are right, the others still hold the dead sentinel. *)
Definition row_ok (W : vec (gset N)) (p c i : N) (S : gset N) (st : dfa_state)
    : Prop :=
  is_accept st = has_accept order nfa S ∧
  length (transitions st) = N.to_nat config.ascii_size ∧
  ∀ a, (a < config.ascii_size)%N →
    let t := nth (N.to_nat a) (transitions st) no_transition in
    if bool_decide (i < p ∨ (i = p ∧ a < c))%N then entry_ok W S a t
    else t = no_transition.

Definition builder_inv (bound p c : N) (b : builder) : Prop :=
  vec_wf (b_states b) ∧ vec_wf (worklist b) ∧
  vec_size (worklist b) = vec_size (b_states b) ∧
  (vec_size (b_states b) ≤ bound)%N ∧
  (∀ i S, vec_get (worklist b) i = Some S →
     closed nfa S ∧ state_map b !! set_to_key order S = Some i) ∧
  (∀ k i, state_map b !! k = Some i →
     ∃ S, vec_get (worklist b) i = Some S ∧ k = set_to_key order S) ∧
  (∀ i S st, vec_get (worklist b) i = Some S → vec_get (b_states b) i = Some st →
     row_ok (worklist b) p c i S st).
End subset.
End subset_spec.

Module simulation_spec.
Import dfa closure nfa_spec subset_spec.

Section simulation.
Variable order : iter_order.
Variable nfa : list nfa_state.

(** Reading a text subset by subset, as the table does state by state. *)
Inductive set_run : gset N → list ascii → gset N → Prop :=
  | set_run_nil S : set_run S [] S
  | set_run_cons S c w S' S'' :
      (byte_of c < config.ascii_size)%N →
      move order nfa S (byte_of c) ≠ ∅ →
      epsilon_closure order nfa (move order nfa S (byte_of c)) = Some S' →
      set_run S' w S'' →
      set_run S (c :: w) S''.

(** The finished table [states], with the subset [W] holds for each of
    its rows. *)
Definition table_complete (W : vec (gset N)) (states : vec dfa_state) : Prop :=
  vec_wf states ∧ vec_wf W ∧ vec_size W = vec_size states ∧
  (vec_size states ≤ config.max_dfa_states + 128)%N ∧
  (∀ i S, vec_get W i = Some S → closed nfa S) ∧
  ∀ i S st, vec_get W i = Some S → vec_get states i = Some st →
    is_accept st = has_accept order nfa S ∧
    length (transitions st) = N.to_nat config.ascii_size ∧
    ∀ a, (a < config.ascii_size)%N →
      entry_ok order nfa W S a (nth (N.to_nat a) (transitions st) no_transition).
End simulation.
End simulation_spec.

Module family_spec.
Import dfa.

(** A family of subsets that holds the start subset and, with a subset,
    every subset the construction steps to from it. *)
Definition subset_family (order : iter_order) (nfa : list nfa_state)
    (family : gset (gset N)) (start_set : gset N) : Prop :=
  start_set ∈ family ∧
  ∀ S c S', S ∈ family → (c < config.ascii_size)%N →
    move order nfa S c ≠ ∅ →
    epsilon_closure order nfa (move order nfa S c) = Some S' → S' ∈ family.
End family_spec.

(** ** Sources without metacharacters *)

Module literal_spec.
Import dfa.

(** The bytes the parser gives a meaning of their own. *)
Definition metachar (c : ascii) : bool :=
  bool_decide (c ∈ ["("; ")"; "["; "."; "\"; "^"; "$"; "|"; "*"; "+"; "?"]%char).

(** An ASCII byte that stands for itself wherever it occurs in a regex. *)
Definition plain (c : ascii) : Prop :=
  metachar c = false ∧ (byte_of c < config.ascii_size)%N.

(** State [i] of a chain of [k] character states: it matches byte [i] of
    the source and leads to state [i + 1] if that is in the chain. *)
Definition chain_state (src : list ascii) (k i : nat) : nfa_state :=
  mk_state char_match (at_ src i) cc_empty
    (if S i <? k then N.of_nat (S i) else no_transition) no_transition.

Definition chain (src : list ascii) (k : nat) : list nfa_state :=
  chain_state src k <$> seq 0 k.

Definition accept_state : nfa_state :=
  mk_state accept "000" cc_empty no_transition no_transition.

(** The NFA of a source without metacharacters: one character state per
    byte and the accept state; for the empty source an epsilon state and
    the accept state. *)
Definition literal_nfa (src : list ascii) : list nfa_state :=
  match src with
  | [] => [mk_state epsilon "000" cc_empty 1 no_transition; accept_state]
  | _ => (chain_state src (S (length src)) <$> seq 0 (length src)) ++ [accept_state]
  end.
End literal_spec.

(** ** Parsing a source and an extension of it *)

Module parser_spec.
Import dfa.
Section prefix.
Variable u : list ascii.

(** Started at cursor [p], whenever [f1] returns, [f2] returns the same
    and the cursor is still within [u]. *)
Definition carries_from {A} (p : nat) (f1 f2 : parser A) : Prop :=
  ∀ st r st', pos st = p → f1 st = Ok (r, st') →
    f2 st = Ok (r, st') ∧ pos st' ≤ length u.

Definition carries {A} (f1 f2 : parser A) : Prop :=
  ∀ p, p ≤ length u → carries_from p f1 f2.
End prefix.

(** The parser leaves the cursor where it is. *)
Definition keeps {A} (f : parser A) : Prop :=
  ∀ st r st', f st = Ok (r, st') → pos st' = pos st.

(** Started at cursor [p], [f] does not exhaust a loop bound, and when it
    returns the cursor is between [lo] and the end of the pattern. *)
Definition within (pattern : list ascii) {A} (lo p : nat) (f : parser A) : Prop :=
  ∀ st, pos st = p →
    match f st with
    | Ok (_, st') => lo ≤ pos st' ≤ length pattern
    | Throw _ => True
    | Diverge => False
    end.

(** [f] always returns and leaves the cursor where it is. *)
Definition returns {A} (f : parser A) : Prop :=
  ∀ st, ∃ a st', f st = Ok (a, st') ∧ pos st' = pos st.
End parser_spec.

(** ** Inputs of the scenario checks *)

Definition text70 : list ascii :=
  str "the quick brown fox jumps over the lazy dog and then naps; abxabcabcd!".

Definition run_regex (src text : string) : option (bool * option nat) :=
  match regex.compile_regex ascending_order (str src) with
  | Ok r => Some (regex.matches r (str text), regex.search r (str text))
  | _ => None
  end.

(** * The language of a regex source *)

(** ** Regular expressions and the texts they denote *)

Module regex_spec.
Import dfa.

(** What the parser reads: the empty string, one byte, one byte of a
    class, and the operators of the grammar. *)
Inductive re : Type :=
  | Eps
  | Chr (c : ascii)
  | Cls (cc : char_class)
  | Cat (r1 r2 : re)
  | Alt (r1 r2 : re)
  | Star (r : re)
  | Plus (r : re)
  | Opt (r : re).

(** The texts a regex denotes.  A byte from 128 up belongs to no
    language. *)
Inductive lang : re → list ascii → Prop :=
  | lang_eps : lang Eps []
  | lang_chr c : (byte_of c < config.ascii_size)%N → lang (Chr c) [c]
  | lang_cls cc c : cc_test cc c = true → lang (Cls cc) [c]
  | lang_cat r1 r2 u v : lang r1 u → lang r2 v → lang (Cat r1 r2) (u ++ v)
  | lang_alt_l r1 r2 u : lang r1 u → lang (Alt r1 r2) u
  | lang_alt_r r1 r2 u : lang r2 u → lang (Alt r1 r2) u
  | lang_star_nil r : lang (Star r) []
  | lang_star_more r u v : lang r u → lang (Star r) v → lang (Star r) (u ++ v)
  | lang_plus r u v : lang r u → lang (Star r) v → lang (Plus r) (u ++ v)
  | lang_opt_nil r : lang (Opt r) []
  | lang_opt_some r u : lang r u → lang (Opt r) u.
End regex_spec.

(** ** The grammar the parser reads *)

Module grammar.
Import dfa regex_spec.

Section grammar.
Variable pattern : list ascii.

(** The grammar is read off the parser: [read_x] follows the branches of
    [parse_x] and names the regex whose fragment [parse_x] builds.  Each
    function takes the cursor and returns the regex with the cursor
    behind it, or nothing where the parser throws. *)

(** [parse_escape]: a shorthand class or the escaped byte itself. *)
Definition read_escape (p : nat) : option (re * nat) :=
  if length pattern <=? p then None
  else
    let c := at_ pattern p in
    Some (if Ascii.eqb c "d" then Cls digit
          else if Ascii.eqb c "D" then Cls (cc_flip digit)
          else if Ascii.eqb c "w" then Cls word
          else if Ascii.eqb c "W" then Cls (cc_flip word)
          else if Ascii.eqb c "s" then Cls space
          else if Ascii.eqb c "S" then Cls (cc_flip space)
          else Chr c, S p).

(** [parse_char_class]: the class its loop collects, flipped if
    negated. *)
Definition read_char_class (p : nat) : option (re * nat) :=
  let p := S p in
  let negated := (p <? length pattern) && Ascii.eqb (at_ pattern p) "^" in
  let p := if negated then S p else p in
  match class_items pattern (length pattern) p cc_empty with
  | None => None
  | Some (p, cc) =>
      if length pattern <=? p then None
      else Some (Cls (if negated then cc_flip cc else cc), S p)
  end.

Section levels.
Variable read_regex : nat → option (re * nat).

(** [parse_atom]: a group, a class, any byte but the line feed, an
    escape, an anchor (which reads nothing) or the byte itself. *)
Definition read_atom (p : nat) : option (re * nat) :=
  if length pattern <=? p then None
  else
    let c := at_ pattern p in
    if Ascii.eqb c "(" then
      '(inner, p') ← read_regex (S p);
      if (length pattern <=? p') || char_neq (at_ pattern p') ")" then None
      else Some (inner, S p')
    else if Ascii.eqb c "[" then read_char_class p
    else if Ascii.eqb c "." then Some (Cls any_char, S p)
    else if Ascii.eqb c "\" then read_escape (S p)
    else if Ascii.eqb c "^" || Ascii.eqb c "$" then Some (Eps, S p)
    else Some (Chr c, S p).

(** [parse_quantified]: an atom and at most one quantifier. *)
Definition read_quantified (p : nat) : option (re * nat) :=
  '(base, p) ← read_atom p;
  if length pattern <=? p then Some (base, p)
  else
    let quant := at_ pattern p in
    if Ascii.eqb quant "*" then Some (Star base, S p)
    else if Ascii.eqb quant "+" then Some (Plus base, S p)
    else if Ascii.eqb quant "?" then Some (Opt base, S p)
    else Some (base, p).

(** The loop of [parse_concatenation]: the factors up to the end of
    the source, a bar or a closing parenthesis. *)
Fixpoint read_factors (fuel : nat) (result : re) (first : bool) (p : nat)
    : option (re * bool * nat) :=
  if (p <? length pattern) && char_neq (at_ pattern p) "|"
     && char_neq (at_ pattern p) ")" then
    match fuel with
    | 0 => None
    | S fuel' =>
        '(atom, p') ← read_quantified p;
        if first then read_factors fuel' atom false p'
        else read_factors fuel' (Cat result atom) false p'
    end
  else Some (result, first, p).

(** [parse_concatenation]: no factor at all reads nothing. *)
Definition read_concatenation (p : nat) : option (re * nat) :=
  '(result, first, p') ← read_factors (length pattern) Eps true p;
  Some (if first : bool then Eps else result, p').

(** The loop of [parse_alternation]: one more alternative for each
    bar. *)
Fixpoint read_alternatives (fuel : nat) (left : re) (p : nat)
    : option (re * nat) :=
  if (p <? length pattern) && Ascii.eqb (at_ pattern p) "|" then
    match fuel with
    | 0 => None
    | S fuel' =>
        '(other, p') ← read_concatenation (S p);
        read_alternatives fuel' (Alt left other) p'
    end
  else Some (left, p).

Definition read_alternation (p : nat) : option (re * nat) :=
  '(first, p') ← read_concatenation p;
  read_alternatives (length pattern) first p'.
End levels.

Fixpoint read_regex (depth : nat) (p : nat) : option (re * nat) :=
  match depth with
  | 0 => None
  | S depth' => read_alternation (read_regex depth') p
  end.

(** The regex of the whole source; what follows a closing parenthesis
    without an opening one is not read. *)
Definition read : option re := fst <$> read_regex (S (length pattern)) 0.
End grammar.
End grammar.

(** ** Runs through a part of the NFA *)

Module region_spec.
Import dfa closure nfa_spec regex_spec.

Section region.
Variable nfa : list nfa_state.

(** One transition, with the bytes it reads. *)
Inductive step : N → list ascii → N → Prop :=
  | step_eps s t : eps_edge nfa s t → step s [] t
  | step_char s t c :
      (byte_of c < config.ascii_size)%N → char_edge nfa (byte_of c) s t →
      step s [c] t.

Variables lo hi : nat.

(** The states with an index from [lo] up to, not including, [hi]. *)
Definition inside (s : N) : Prop := lo ≤ N.to_nat s < hi.

(** A run of [n] transitions that leaves from states of the region
    only. *)
Inductive path : nat → N → list ascii → N → Prop :=
  | path_nil s : path 0 s [] s
  | path_cons n s w t v u :
      inside s → step s w t → path n t v u → path (S n) s (w ++ v) u.

(** The transitions that leave the region lead to [x]. *)
Definition closed_but (x : N) : Prop :=
  ∀ s w t, inside s → step s w t → inside t ∨ t = x.

(** The region, entered at [s] and left to [x], reads the language of
    [r]. *)
Definition recognises (s x : N) (r : re) : Prop :=
  ¬ inside x ∧ closed_but x ∧
  ∀ w, (∃ n, path n s w x) ↔ lang r w.
End region.

(** The fragment [f] occupies the region and, once its end is patched to
    a state outside, the region reads the language of [r]. *)
Definition frag_ok (nfa : list nfa_state) (lo hi : nat) (f : nfa_fragment) (r : re)
    : Prop :=
  inside lo hi (start f) ∧ inside lo hi (end_ f) ∧ hi ≤ length nfa ∧
  ∀ nfa' x,
    (∀ i, lo ≤ i < hi → i ≠ N.to_nat (end_ f) → nfa' !! i = nfa !! i) →
    nfa' !! N.to_nat (end_ f) = patch_state x <$> nfa !! N.to_nat (end_ f) →
    x ≠ no_transition → ¬ inside lo hi x →
    recognises nfa' lo hi (start f) x r.
End region_spec.

(** ** What the parser functions establish *)

Module wp_spec.
Import dfa.

(** If the parser returns from [st], the result and the state it leaves
    satisfy [Q]. *)
Definition wp {A} (m : parser A) (st : pstate) (Q : A → pstate → Prop) : Prop :=
  match m st with
  | Ok (a, st') => Q a st'
  | _ => True
  end.
End wp_spec.

Module build_spec.
Import dfa.
(** [n] is an index, not the sentinel. *)
Definition fits (n : nat) : Prop := (N.of_nat n < no_transition)%N.
End build_spec.

Module sound_spec.
Import dfa regex_spec region_spec build_spec wp_spec.

Definition no_accept (nfa : list nfa_state) : Prop :=
  Forall (λ s, kind s ≠ accept) nfa.

Section sound.
Variable pattern : list ascii.

(** The states pushed so far and three for each byte still to read:
    no construction pushes more than that. *)
Definition potential (st : pstate) : nat :=
  length (ps_states st) + 3 * (length pattern - pos st).

Definition ready (st : pstate) : Prop :=
  pos st ≤ length pattern ∧ fits (potential st + 3) ∧ no_accept (ps_states st).

Definition grows (nfa nfa' : list nfa_state) : Prop :=
  length nfa ≤ length nfa' ∧ ∀ i, i < length nfa → nfa' !! i = nfa !! i.

Definition ahead (slack : nat) (st0 st : pstate) : Prop :=
  pos st0 ≤ pos st ≤ length pattern ∧
  potential st ≤ potential st0 + slack ∧
  grows (ps_states st0) (ps_states st) ∧ no_accept (ps_states st).

(** From [st0] the parser read the regex the grammar reads there and
    built a fragment for it above the states it found. *)
Definition built (slack : nat) (read : nat → option (re * nat))
    (st0 : pstate) (f : nfa_fragment) (st : pstate) : Prop :=
  ahead slack st0 st ∧
  ∃ r, read (pos st0) = Some (r, pos st) ∧
    frag_ok (ps_states st) (length (ps_states st0)) (length (ps_states st)) f r.

Definition sound (slack : nat) (m : parser nfa_fragment)
    (read : nat → option (re * nat)) : Prop :=
  ∀ st, ready st → wp m st (built slack read st).
End sound.
End sound_spec.

(** ** Matches inside a text *)

Module span_spec.
(** Some stretch of [text] that starts at offset [o] belongs to [L]. *)
Definition begins (L : list ascii → Prop) (text : list ascii) (o : nat) : Prop :=
  ∃ k, L (take k (drop o text)).
End span_spec.

(** * The work of the scalar loops *)

(** ** The loops of the scalar path with the rounds of their inner loop *)

Module cost.
Import failure search.

(** [fall_back] and the number of times the body of its [while] loop
    ran. *)
Fixpoint fall_back_steps (fuel : nat) (pattern : list ascii) (failure : list nat)
    (c : ascii) (k : nat) : option (nat * nat) :=
  if (0 <? k) && char_neq c (at_ pattern k) then
    match fuel with
    | 0 => None
    | S fuel' =>
        '(k', n) ← fall_back_steps fuel' pattern failure c (nth (k - 1) failure 0);
        Some (k', S n)
    end
  else Some (k, 0).

(** The loops below are those of [compute_failure], [kmp_search_scalar]
    and [search_all]; next to their state they add up the rounds of the
    inner loop. *)
Definition failure_round_steps (pattern : list ascii) (st : list nat * nat) (i : nat)
    : option (list nat * nat * nat) :=
  let '(failure, k) := st in
  '(k1, n) ← fall_back_steps k pattern failure (at_ pattern i) k;
  let k2 := if Ascii.eqb (at_ pattern i) (at_ pattern k1) then S k1 else k1 in
  Some (<[i := k2]> failure, k2, n).

Fixpoint failure_loop_steps (pattern : list ascii) (cnt i : nat) (st : list nat * nat)
    : option (list nat * nat * nat) :=
  match cnt with
  | 0 => Some (st, 0)
  | S cnt' =>
      '(st', n) ← failure_round_steps pattern st i;
      '(st'', n') ← failure_loop_steps pattern cnt' (S i) st';
      Some (st'', n + n')
  end.

Definition compute_failure_steps (pattern : list ascii) : option (list nat * nat) :=
  let m := length pattern in
  if m =? 0 then Some ([], 0)
  else '(st, n) ← failure_loop_steps pattern (m - 1) 1 (replicate m 0, 0); Some (st.1, n).

Definition advance_steps (pattern : list ascii) (failure : list nat) (c : ascii) (j : nat)
    : option (nat * nat) :=
  '(j1, n) ← fall_back_steps j pattern failure c j;
  Some (if Ascii.eqb c (at_ pattern j1) then S j1 else j1, n).

Fixpoint scalar_loop_steps (text pattern : list ascii) (failure : list nat)
    (cnt i j : nat) : option (nat * nat) :=
  match cnt with
  | 0 => Some (length text, 0)
  | S cnt' =>
      '(j', n) ← advance_steps pattern failure (at_ text i) j;
      if j' =? length pattern then Some (S i - length pattern, n)
      else
        '(r, n') ← scalar_loop_steps text pattern failure cnt' (S i) j';
        Some (r, n + n')
  end.

Definition kmp_search_scalar_steps (text pattern : list ascii) (failure : list nat)
    : option (nat * nat) :=
  if length pattern =? 0 then Some (0, 0)
  else scalar_loop_steps text pattern failure (length text) 0 0.

Fixpoint search_all_loop_steps (text pattern : list ascii) (failure : list nat)
    (cnt i j : nat) : option (list nat * nat) :=
  match cnt with
  | 0 => Some ([], 0)
  | S cnt' =>
      '(j', n) ← advance_steps pattern failure (at_ text i) j;
      if j' =? length pattern
      then
        '(l, n') ← search_all_loop_steps text pattern failure cnt' (S i)
                     (nth (j' - 1) failure 0);
        Some (S i - length pattern :: l, n + n')
      else
        '(l, n') ← search_all_loop_steps text pattern failure cnt' (S i) j';
        Some (l, n + n')
  end.

Definition search_all_steps (text pattern : list ascii) : option (list nat * nat) :=
  let n := length text in
  let m := length pattern in
  if (m =? 0) || (n <? m) then Some ([], 0)
  else
    '(failure, n0) ← compute_failure_steps pattern;
    '(l, n1) ← search_all_loop_steps text pattern failure n 0 0;
    Some (l, n0 + n1).
End cost.

(** * Properties of the literal search core *)

(** ** Borders *)

Module border_facts.
Import border.

Lemma suf_zero p x i : suf p x i 0.
Proof. split; [lia | intros t Ht; lia]. Qed.

Lemma suf_full p i : suf p p i i.
Proof. split; [lia | intros t Ht; f_equal; lia]. Qed.

(** A border of a border is a border. *)
Lemma suf_trans p x i k l : suf p p k l → suf p x i k → suf p x i l.
Proof.
  intros [Hlk Hl] [Hki Hk]. split; [lia |].
  intros t Ht. rewrite (Hl t Ht), (Hk (k - l + t)) by lia. f_equal; lia.
Qed.

(** Of two prefixes that end the same text, the shorter ends the longer. *)
Lemma suf_nest p x i k l : suf p x i k → suf p x i l → l ≤ k → suf p p k l.
Proof.
  intros [Hki Hk] [Hli Hl] Hlk. split; [done |].
  intros t Ht. rewrite (Hl t Ht), (Hk (k - l + t)) by lia. f_equal; lia.
Qed.

(** Reading one more byte extends a border by one or not at all. *)
Lemma suf_step p x i l :
  suf p x (S i) (S l) ↔ suf p x i l ∧ at_ p l = at_ x i.
Proof.
  split.
  - intros [Hle H]. split; [split; [lia |] |].
    + intros t Ht. rewrite (H t) by lia. f_equal; lia.
    + rewrite (H l) by lia. f_equal; lia.
  - intros [[Hle H] Hc]. split; [lia |].
    intros t Ht. destruct (decide (t = l)) as [-> | Hne].
    + rewrite Hc. f_equal; lia.
    + rewrite (H t) by lia. f_equal; lia.
Qed.

Lemma table_ok_mono p F q q' : q' ≤ q → table_ok p F q → table_ok p F q'.
Proof. intros Hq H k Hk. apply H. lia. Qed.

Lemma char_neq_true a b : char_neq a b = true ↔ a ≠ b.
Proof.
  unfold char_neq. destruct (Ascii.eqb_spec a b); simpl; split; congruence.
Qed.

Lemma char_neq_false a b : char_neq a b = false ↔ a = b.
Proof.
  unfold char_neq. destruct (Ascii.eqb_spec a b); simpl; split; congruence.
Qed.

(** The fall-back loop finds the longest border of the current one that
    the byte [c] extends, and stops at [0] if there is none. *)
Lemma fall_back_spec p F x i c : ∀ k fuel,
  table_ok p F k → suf p x i k → k ≤ fuel →
  ∃ k', failure.fall_back fuel p F c k = Some k' ∧
    k' ≤ k ∧ suf p x i k' ∧
    (at_ p k' = c ∨ (k' = 0 ∧ at_ p 0 ≠ c)) ∧
    ∀ l, l ≤ k → suf p x i l → at_ p l = c → l ≤ k'.
Proof.
  induction k as [k IH] using lt_wf_ind. intros fuel Hok Hsuf Hfuel.
  destruct fuel as [| fuel]; simpl.
  - assert (k = 0) as -> by lia. simpl. exists 0. split; [done |].
    split; [done |]. split; [done |]. split.
    + destruct (Ascii.eqb_spec (at_ p 0) c); [by left | by right].
    + intros l Hl _ _. lia.
  - destruct (0 <? k) eqn:Hk0; simpl.
    + apply Nat.ltb_lt in Hk0.
      destruct (char_neq c (at_ p k)) eqn:Hc.
      * apply char_neq_true in Hc.
        destruct (Hok k ltac:(lia)) as (Hlt & Hb & Hmax).
        destruct (IH (nth (k - 1) F 0) Hlt fuel) as (k' & Hrun & Hle & Hs & Hex & Hbest).
        { eapply table_ok_mono; [| exact Hok]. lia. }
        { eapply suf_trans; eauto. }
        { lia. }
        exists k'. split; [done |]. split; [lia |]. split; [done |]. split; [done |].
        intros l Hl Hsl Hpl. apply Hbest; [| done | done].
        apply Hmax; [| by eapply suf_nest].
        destruct (decide (l = k)) as [-> |]; [congruence | lia].
      * apply char_neq_false in Hc. exists k. split; [done |].
        split; [done |]. split; [done |]. split; [by left |]. auto.
    + apply Nat.ltb_ge in Hk0. assert (k = 0) as -> by lia.
      exists 0. split; [done |]. split; [done |]. split; [done |]. split.
      * destruct (Ascii.eqb_spec (at_ p 0) c); [by left | by right].
      * intros l Hl _ _. lia.
Qed.

End border_facts.

(** ** The failure table *)

Module failure_facts.
Import border border_facts failure.

Lemma at_lookup s i : i < length s → s !! i = Some (at_ s i).
Proof.
  intros Hi. unfold at_. rewrite nth_lookup.
  destruct (lookup_lt_is_Some_2 s i Hi) as [c ->]. done.
Qed.

Lemma nth_insert_eq (F : list nat) i v : i < length F → nth i (<[i := v]> F) 0 = v.
Proof. intros Hi. by rewrite nth_lookup, list_lookup_insert_eq. Qed.

Lemma nth_insert_ne (F : list nat) i j v : i ≠ j → nth j (<[i := v]> F) 0 = nth j F 0.
Proof. intros Hne. by rewrite !nth_lookup, list_lookup_insert_ne. Qed.

Lemma failure_round_inv p i st :
  failure_inv p i st → i < length p →
  ∃ st', failure_round p st i = Some st' ∧ failure_inv p (S i) st'.
Proof.
  destruct st as [F k]. intros (Hi & Hlen & Hok & Hk) Him. simpl in *.
  destruct (Hok i ltac:(lia)) as (Hlt & Hb & Hmax). rewrite <- Hk in *.
  destruct (fall_back_spec p F p i (at_ p i) k k) as (k1 & Hrun & Hle & Hs & Hex & Hbest);
    [by eapply table_ok_mono; [| exact Hok]; lia | done | done |].
  unfold failure_round. rewrite Hrun. simpl.
  eexists. split; [done |].
  set (k2 := if Ascii.eqb (at_ p i) (at_ p k1) then S k1 else k1).
  assert (Hk2 : k2 < S i ∧ suf p p (S i) k2 ∧ ∀ l, l < S i → suf p p (S i) l → l ≤ k2).
  { unfold k2. destruct (Ascii.eqb_spec (at_ p i) (at_ p k1)) as [Heq | Hne].
    - split; [lia |]. split; [by apply suf_step |].
      intros [| l] Hl Hsl; [lia |]. apply suf_step in Hsl as [Hsl Hc].
      apply le_n_S, Hbest; [apply Hmax; [lia | done] | done | done].
    - destruct Hex as [Hex | [-> Hex]]; [congruence |].
      split; [lia |]. split; [apply suf_zero |].
      intros [| l] Hl Hsl; [lia |]. apply suf_step in Hsl as [Hsl Hc].
      assert (l ≤ 0) by (apply Hbest; [apply Hmax; [lia | done] | done | done]).
      assert (l = 0) as -> by lia. congruence. }
  split; [lia |]. simpl. split; [by rewrite length_insert |]. split.
  - intros q Hq. destruct (decide (q = S i)) as [-> | Hne].
    + replace (S i - 1) with i by lia. rewrite nth_insert_eq by lia. exact Hk2.
    + rewrite nth_insert_ne by lia. apply Hok. lia.
  - rewrite Nat.sub_0_r, nth_insert_eq by lia. done.
Qed.

Lemma failure_loop_inv p : ∀ cnt i st,
  failure_inv p i st → i + cnt = length p →
  ∃ st', failure_loop p cnt i st = Some st' ∧ failure_inv p (length p) st'.
Proof.
  induction cnt as [| cnt IH]; intros i st Hinv Hcnt; simpl.
  - exists st. split; [done |]. by replace (length p) with i by lia.
  - destruct (failure_round_inv p i st Hinv) as (st' & -> & Hinv'); [lia |]. simpl.
    apply IH; [done | lia].
Qed.

Lemma replicate_nth n i : nth i (replicate n 0) 0 = 0.
Proof.
  rewrite nth_lookup. destruct (replicate n 0 !! i) as [v |] eqn:H; [| done].
  by apply lookup_replicate in H as [-> _].
Qed.

(** [compute_failure] returns, and its table is the border table of the
    whole pattern. *)
Lemma compute_failure_ok p :
  ∃ F, compute_failure p = Some F ∧ length F = length p ∧ table_ok p F (length p).
Proof.
  unfold compute_failure. destruct (length p =? 0) eqn:Hm.
  - apply Nat.eqb_eq in Hm. exists []. split; [done |]. split; [done |].
    intros k Hk. lia.
  - apply Nat.eqb_neq in Hm.
    destruct (failure_loop_inv p (length p - 1) 1 (replicate (length p) 0, 0))
      as ([F k] & -> & (_ & Hlen & Hok & _)); [| lia |].
    + split; [lia |]. simpl. split; [by rewrite length_replicate |]. split.
      * intros k Hk. assert (k = 1) as -> by lia. rewrite replicate_nth.
        split; [lia |]. split; [apply suf_zero |]. intros l Hl _. lia.
      * by rewrite replicate_nth.
    + exists F. done.
Qed.

(** Borders in terms of [take] and [drop]. *)
Lemma suf_take p x i l :
  l ≤ length p → i ≤ length x →
  suf p x i l ↔ l ≤ i ∧ take l p = drop (i - l) (take i x).
Proof.
  intros Hlp Hix. split.
  - intros [Hli H]. split; [done |]. apply list_eq. intros t.
    rewrite lookup_drop. destruct (decide (t < l)) as [Ht | Ht].
    + rewrite !lookup_take_lt by lia.
      rewrite !at_lookup by lia. f_equal. by apply H.
    + rewrite !lookup_take_ge by lia. done.
  - intros [Hli H]. split; [done |]. intros t Ht.
    assert (Ht' := f_equal (λ s, s !! t) H). simpl in Ht'.
    rewrite lookup_drop, !lookup_take_lt, !at_lookup in Ht' by lia. congruence.
Qed.

Lemma suffix_take_drop (s1 s2 : list ascii) :
  s1 `suffix_of` s2 ↔
  length s1 ≤ length s2 ∧ s1 = drop (length s2 - length s1) s2.
Proof.
  split.
  - intros [k ->]. rewrite length_app. split; [lia |].
    replace (length k + length s1 - length s1) with (length k) by lia.
    by rewrite drop_app_length.
  - intros [Hle ->]. apply suffix_drop.
Qed.

Lemma suf_suffix p x i l :
  l ≤ length p → i ≤ length x →
  suf p x i l ↔ l ≤ i ∧ take l p `suffix_of` take i x.
Proof.
  intros Hlp Hix. rewrite suf_take, suffix_take_drop by done.
  rewrite !length_take. replace (l `min` length p) with l by lia.
  replace (i `min` length x) with i by lia. tauto.
Qed.

End failure_facts.

(** C2. For every pattern [P] of length [m], [compute_failure] returns a
    table [F] of length [m] with [F[0] = 0] (when [m > 0]) such that for
    every [0 < i < m] the entry [F[i]] is at most [i], the first [F[i]]
    bytes of [P] are a suffix of [P[0..=i]], and no longer proper prefix of
    [P[0..=i]] is a suffix of it. *)
Theorem compute_failure_longest_border (P : list ascii) :
  ∃ F, failure.compute_failure P = Some F ∧
    length F = length P ∧
    (0 < length P → F !! 0 = Some 0) ∧
    ∀ i, 0 < i < length P →
      ∃ f, F !! i = Some f ∧ 0 ≤ f ≤ i ∧
        take f P `suffix_of` take (S i) P ∧
        ∀ l, l ≤ i → take l P `suffix_of` take (S i) P → l ≤ f.
Proof.
  destruct (failure_facts.compute_failure_ok P) as (F & HF & Hlen & Hok).
  exists F. split; [done |]. split; [done |].
  assert (Hentry : ∀ i, i < length P → F !! i = Some (nth i F 0)).
  { intros i Hi. rewrite nth_lookup.
    destruct (lookup_lt_is_Some_2 F i ltac:(lia)) as [v ->]. done. }
  split.
  - intros Hm. rewrite Hentry by done. f_equal.
    destruct (Hok 1 ltac:(lia)) as (H0 & _). simpl in H0. lia.
  - intros i Hi. exists (nth i F 0). split; [by apply Hentry; lia |].
    destruct (Hok (S i) ltac:(lia)) as (Hlt & Hb & Hmax).
    replace (S i - 1) with i in * by lia.
    split; [lia |]. split.
    + apply failure_facts.suf_suffix in Hb as [_ Hb]; [done | lia | lia].
    + intros l Hl Hsuf. apply Hmax; [lia |].
      apply failure_facts.suf_suffix; [lia | lia | split; [lia | done]].
Qed.

(** ** Occurrences and the scalar scanners *)

Module occurrence_facts.
Import border border_facts failure_facts occurrences.

Lemma occurs_suf T P o :
  occurs T P o ↔ o + length P ≤ length T ∧ suf P T (o + length P) (length P).
Proof.
  unfold occurs. split; intros [Hle H]; (split; [done |]).
  - apply suf_take; [lia | lia |]. split; [lia |].
    replace (o + length P - length P) with o by lia.
    rewrite <- take_drop_commute, H. by rewrite firstn_all.
  - apply suf_take in H as [_ H]; [| lia | lia].
    replace (o + length P - length P) with o in H by lia.
    rewrite <- take_drop_commute in H. rewrite <- H. by rewrite firstn_all.
Qed.

Lemma scan_inv_start T P : 0 < length P → scan_inv T P 0 0.
Proof.
  intros Hm. split; [done |]. split; [apply suf_zero |].
  intros l _ [Hl _]. done.
Qed.

(** After [advance], [j'] is the length of the longest prefix of the
    pattern, the whole pattern included, that ends [T[0..i]]. *)
Lemma advance_spec T P F i j :
  table_ok P F (length P) → scan_inv T P i j →
  ∃ j', search.advance P F (at_ T i) j = Some j' ∧ j' ≤ length P ∧
    suf P T (S i) j' ∧ ∀ l, l ≤ length P → suf P T (S i) l → l ≤ j'.
Proof.
  intros Hok (Hj & Hs & Hmax).
  destruct (fall_back_spec P F T i (at_ T i) j j)
    as (k1 & Hrun & Hle & Hs1 & Hex & Hbest);
    [by eapply table_ok_mono; [| exact Hok]; lia | done | done |].
  unfold search.advance. rewrite Hrun. simpl. eexists. split; [done |].
  destruct (Ascii.eqb_spec (at_ T i) (at_ P k1)) as [Heq | Hne].
  - split; [lia |]. split; [by apply suf_step |].
    intros [| l] Hl Hsl; [lia |]. apply suf_step in Hsl as [Hsl Hc].
    apply le_n_S, Hbest; [apply Hmax; [lia | done] | done | done].
  - destruct Hex as [Hex | [-> Hex]]; [congruence |].
    split; [lia |]. split; [apply suf_zero |].
    intros [| l] Hl Hsl; [lia |]. apply suf_step in Hsl as [Hsl Hc].
    assert (l ≤ 0) by (apply Hbest; [apply Hmax; [lia | done] | done | done]).
    assert (l = 0) as -> by lia. congruence.
Qed.

(** No match at this byte: the invariant carries over as it is. *)
Lemma scan_inv_next T P i j' :
  j' < length P → suf P T (S i) j' →
  (∀ l, l ≤ length P → suf P T (S i) l → l ≤ j') →
  scan_inv T P (S i) j'.
Proof.
  intros Hj Hs Hmax. split; [done |]. split; [done |].
  intros l Hl. apply Hmax. lia.
Qed.

(** A match at this byte: [j = failure[j - 1]] restores the invariant. *)
Lemma scan_inv_restart T P F i :
  0 < length P → table_ok P F (length P) → suf P T (S i) (length P) →
  scan_inv T P (S i) (nth (length P - 1) F 0).
Proof.
  intros Hm Hok Hs. destruct (Hok (length P) ltac:(lia)) as (Hlt & Hb & Hmax).
  split; [done |]. split; [by eapply suf_trans |].
  intros l Hl Hsl. apply Hmax; [done |]. eapply suf_nest; [exact Hs | done | lia].
Qed.

Lemma no_match_ends_here T P i j' :
  j' < length P → (∀ l, l ≤ length P → suf P T (S i) l → l ≤ j') →
  ∀ o, occurs T P o → o + length P ≠ S i.
Proof.
  intros Hj Hmax o Ho Heq. apply occurs_suf in Ho as [_ Ho].
  rewrite Heq in Ho. apply Hmax in Ho; lia.
Qed.

Lemma match_ends_here T P i :
  0 < length P → S i ≤ length T → suf P T (S i) (length P) →
  occurs T P (S i - length P).
Proof.
  intros Hm Hi Hs. apply occurs_suf. destruct Hs as [Hle Hs].
  replace (S i - length P + length P) with (S i) by lia. done.
Qed.

(** The generator loop yields exactly the occurrences that end after
    byte [i], in increasing order. *)
Lemma search_all_loop_spec T P F :
  0 < length P → table_ok P F (length P) →
  ∀ cnt i j, i + cnt = length T → scan_inv T P i j →
  ∃ out, search.search_all_loop T P F cnt i j = Some out ∧
    (∀ o, o ∈ out ↔ occurs T P o ∧ i < o + length P) ∧
    Sorted lt out.
Proof.
  intros Hm Hok. induction cnt as [| cnt IH]; intros i j Hcnt Hinv; simpl.
  - exists []. split; [done |]. split; [| constructor].
    intros o. split; [by intros ?%elem_of_nil |].
    intros [[Ho _] Hi]. lia.
  - destruct (advance_spec T P F i j Hok Hinv) as (j' & -> & Hle & Hs & Hmax). simpl.
    destruct (Nat.eqb_spec j' (length P)) as [-> | Hne].
    + destruct (IH (S i) (nth (length P - 1) F 0)) as (out & -> & Hout & Hsorted);
        [lia | by apply scan_inv_restart |]. simpl.
      eexists. split; [done |]. split.
      * intros o. rewrite elem_of_cons, Hout. split.
        -- intros [-> | [Ho Hi]]; [| split; [done | lia]].
           split; [apply match_ends_here; [done | lia | done] |]. destruct Hs. lia.
        -- intros [Ho Hi]. destruct (decide (o + length P = S i)) as [Heq | Hneq].
           ++ left. lia.
           ++ right. split; [done | lia].
      * constructor; [done |]. destruct out as [| o' out]; constructor.
        assert (o' ∈ o' :: out) as Hin by constructor.
        apply Hout in Hin as [_ Hin]. destruct Hs as [Hs _]. lia.
    + destruct (IH (S i) j') as (out & -> & Hout & Hsorted);
        [lia | apply scan_inv_next; [lia | done | done] |].
      exists out. split; [done |]. split; [| done].
      intros o. rewrite Hout. split; intros [Ho Hi]; (split; [done |]); [lia |].
      assert (o + length P ≠ S i)
        by (apply (no_match_ends_here T P i j'); [lia | done | done]).
      lia.
Qed.

Lemma first_occurrence_unique T P r1 r2 :
  first_occurrence T P r1 → first_occurrence T P r2 → r1 = r2.
Proof. intros [H1 M1] [H2 M2]. apply M1 in H2. apply M2 in H1. lia. Qed.

(** The loop of [kmp_search_scalar] returns the leftmost occurrence that
    ends after byte [i], or [text_last] if there is none. *)
Lemma scalar_loop_spec T P F :
  0 < length P → table_ok P F (length P) →
  ∀ cnt i j, i + cnt = length T → scan_inv T P i j →
  ∃ r, search.scalar_loop T P F cnt i j = Some r ∧
    ((occurs T P r ∧ i < r + length P ∧
      ∀ o, occurs T P o → i < o + length P → r ≤ o) ∨
     (r = length T ∧ ∀ o, occurs T P o → ¬ i < o + length P)).
Proof.
  intros Hm Hok. induction cnt as [| cnt IH]; intros i j Hcnt Hinv; simpl.
  - exists (length T). split; [done |]. right. split; [done |].
    intros o [Ho _]. lia.
  - destruct (advance_spec T P F i j Hok Hinv) as (j' & -> & Hle & Hs & Hmax). simpl.
    destruct (Nat.eqb_spec j' (length P)) as [-> | Hne].
    + eexists. split; [done |]. left.
      split; [apply match_ends_here; [done | lia | done] |].
      destruct Hs as [Hs _]. split; [lia |]. intros o _ Hi. lia.
    + destruct (IH (S i) j') as (r & -> & Hr);
        [lia | apply scan_inv_next; [lia | done | done] |].
      exists r. split; [done |].
      assert (Hno : ∀ o, occurs T P o → o + length P ≠ S i)
        by (apply (no_match_ends_here T P i j'); [lia | done]).
      destruct Hr as [(Ho & Hi & Hmin) | (-> & Hnone)].
      * left. split; [done |]. split; [lia |].
        intros o Hoo Hio. apply Hmin; [done |]. specialize (Hno o Hoo). lia.
      * right. split; [done |]. intros o Hoo Hio.
        apply (Hnone o Hoo). specialize (Hno o Hoo). lia.
Qed.

(** [kmp_search_scalar] with the table of [compute_failure]. *)
Lemma kmp_search_scalar_spec T P F :
  0 < length P → table_ok P F (length P) →
  ∃ r, search.kmp_search_scalar T P F = Some r ∧
    (first_occurrence T P r ∨ (r = length T ∧ no_occurrence T P)).
Proof.
  intros Hm Hok. unfold search.kmp_search_scalar.
  destruct (Nat.eqb_spec (length P) 0) as [H0 | _]; [lia |].
  destruct (scalar_loop_spec T P F Hm Hok (length T) 0 0) as (r & -> & Hr);
    [done | by apply scan_inv_start |].
  exists r. split; [done |].
  destruct Hr as [(Ho & Hi & Hmin) | (-> & Hnone)].
  - left. split; [done |]. intros o Hoo. apply Hmin; [done | lia].
  - right. split; [done |]. intros o Hoo. apply (Hnone o Hoo). lia.
Qed.

End occurrence_facts.

(** ** The byte-scan kernels *)

Module simd_facts.
Import simd failure_facts kernel_spec.

(** Bit [n] of a movemask is lane [n]. *)
Lemma movemask_testbit lanes : ∀ n, (0 ≤ n)%Z →
  Z.testbit (movemask lanes) n = default false (lanes !! Z.to_nat n).
Proof.
  induction lanes as [| b rest IH]; intros n Hn; simpl.
  - by rewrite Z.bits_0.
  - rewrite Z.lor_spec. destruct (decide (n = 0%Z)) as [-> | Hne].
    + rewrite Z.b2z_bit0, Z.shiftl_spec_low by lia. simpl. by rewrite orb_false_r.
    + rewrite Z.shiftl_spec, IH by lia.
      replace (Z.to_nat n) with (S (Z.to_nat (n - 1))) by lia. simpl.
      replace (Z.testbit (Z.b2z b) n) with false; [done |].
      symmetry. destruct b; simpl; [| apply Z.bits_0].
      destruct n as [| q | q]; [lia | by destruct q | lia].
Qed.

Lemma movemask_nonneg lanes : (0 ≤ movemask lanes)%Z.
Proof.
  induction lanes as [| b rest IH]; simpl; [done |].
  apply Z.lor_nonneg. split; [by destruct b | by apply Z.shiftl_nonneg].
Qed.

Lemma movemask_zero lanes :
  movemask lanes = 0%Z ↔ ∀ t, t < length lanes → lanes !! t = Some false.
Proof.
  split.
  - intros H t Ht. destruct (lookup_lt_is_Some_2 lanes t Ht) as [b Hb].
    assert (Hbit := movemask_testbit lanes (Z.of_nat t) ltac:(lia)).
    rewrite H, Z.bits_0, Nat2Z.id, Hb in Hbit. simpl in Hbit. by subst.
  - intros H. apply Z.bits_inj'. intros n Hn.
    rewrite movemask_testbit, Z.bits_0 by done.
    destruct (lanes !! Z.to_nat n) as [b |] eqn:Hb; [| done].
    rewrite H in Hb by (by eapply lookup_lt_Some). by simplify_eq.
Qed.

(** [ctz] is the index of the lowest set bit. *)
Lemma ctz_lowest : ∀ w x k,
  k < w → Z.testbit x (Z.of_nat k) = true →
  (∀ t, t < k → Z.testbit x (Z.of_nat t) = false) →
  ctz w x = k.
Proof.
  induction w as [| w IH]; intros x k Hk Hbit Hlow; [lia |]. simpl.
  destruct k as [| k].
  - simpl in Hbit. by rewrite Hbit.
  - assert (H0 := Hlow 0 ltac:(lia)). simpl in H0. rewrite H0.
    f_equal. apply IH; [lia | |].
    + rewrite Z.shiftr_spec by lia. rewrite <- Hbit. f_equal. lia.
    + intros t Ht. rewrite Z.shiftr_spec by lia.
      rewrite <- (Hlow (S t)) by lia. f_equal. lia.
Qed.

Lemma first_set_lane (lanes : list bool) :
  (∀ t, t < length lanes → lanes !! t = Some false) ∨
  ∃ k, lanes !! k = Some true ∧ ∀ t, t < k → lanes !! t = Some false.
Proof.
  induction lanes as [| b rest IH]; [left; intros t Ht; simpl in Ht; lia |].
  destruct b.
  - right. exists 0. split; [done |]. intros t Ht. lia.
  - destruct IH as [Hall | (k & Hk & Hlow)].
    + left. intros [| t] Ht; [done |]. simpl in *. apply Hall. lia.
    + right. exists (S k). split; [done |].
      intros [| t] Ht; [done |]. simpl. apply Hlow. lia.
Qed.

(** A set lane exists in a non-zero mask, and [ctz] finds the first. *)
Lemma ctz_movemask lanes w :
  length lanes ≤ w → movemask lanes ≠ 0%Z →
  ∃ k, ctz w (movemask lanes) = k ∧ lanes !! k = Some true ∧
    ∀ t, t < k → lanes !! t = Some false.
Proof.
  intros Hw Hnz.
  destruct (first_set_lane lanes) as [Hall | (k & Hk & Hlow)];
    [by apply movemask_zero in Hall |].
  exists k. split; [| done].
  apply ctz_lowest.
  - apply lookup_lt_Some in Hk. lia.
  - by rewrite movemask_testbit, Nat2Z.id, Hk by lia.
  - intros t Ht. by rewrite movemask_testbit, Nat2Z.id, (Hlow t Ht) by lia.
Qed.

(** Lane [t] of a loaded chunk. *)
Lemma load_lookup w s ptr t :
  t < w → ptr + w ≤ length s → load w s ptr !! t = Some (at_ s (ptr + t)).
Proof.
  intros Ht Hw. unfold load.
  rewrite lookup_take_lt, lookup_drop by done. apply at_lookup. lia.
Qed.

Lemma load_length w s ptr : ptr + w ≤ length s → length (load w s ptr) = w.
Proof. intros Hw. unfold load. rewrite length_take, length_drop. lia. Qed.

Lemma scan_chunks_spec hay c w : ∀ cnt ptr,
  ptr + cnt * w ≤ length hay → (∀ t, t < ptr → at_ hay t ≠ c) →
  match scan_chunks w cnt hay ptr c with
  | inl k => first_index hay c (Some k)
  | inr ptr' => ptr ≤ ptr' ≤ length hay ∧ ∀ t, t < ptr' → at_ hay t ≠ c
  end.
Proof.
  induction cnt as [| cnt IH]; intros ptr Hlen Hpre; simpl.
  - split; [lia | done].
  - assert (Hw : ptr + w ≤ length hay) by lia.
    set (lanes := map (λ x, Ascii.eqb x c) (load w hay ptr)).
    assert (Hlane : ∀ t, t < w →
              lanes !! t = Some (Ascii.eqb (at_ hay (ptr + t)) c)).
    { intros t Ht. unfold lanes.
      change (map ?f ?l) with (f <$> l).
      by rewrite list_lookup_fmap, load_lookup. }
    assert (Hll : length lanes = w)
      by (unfold lanes; rewrite length_map; by apply load_length).
    unfold cmpeq_mask. fold lanes.
    destruct (Z.eqb_spec (movemask lanes) 0) as [Hz | Hnz]; simpl.
    + specialize (IH (ptr + w)).
      destruct (scan_chunks w cnt hay (ptr + w) c) as [k | ptr'].
      * apply IH; [lia |]. intros t Ht.
        destruct (decide (t < ptr)) as [Hlt | Hge]; [by apply Hpre |].
        assert (Hf := proj1 (movemask_zero lanes) Hz (t - ptr) ltac:(lia)).
        rewrite Hlane in Hf by lia. replace (ptr + (t - ptr)) with t in Hf by lia.
        simplify_eq. by apply Ascii.eqb_neq.
      * destruct IH as [Hb Hall]; [lia | | split; [lia | done]].
        intros t Ht.
        destruct (decide (t < ptr)) as [Hlt | Hge]; [by apply Hpre |].
        assert (Hf := proj1 (movemask_zero lanes) Hz (t - ptr) ltac:(lia)).
        rewrite Hlane in Hf by lia. replace (ptr + (t - ptr)) with t in Hf by lia.
        simplify_eq. by apply Ascii.eqb_neq.
    + destruct (ctz_movemask lanes w ltac:(lia) Hnz) as (k & -> & Hk & Hlow).
      assert (Hkw : k < w) by (apply lookup_lt_Some in Hk; lia).
      rewrite Hlane in Hk by done. simplify_eq.
      split; [lia |]. split; [by apply Ascii.eqb_eq |].
      intros t Ht. destruct (decide (t < ptr)) as [Hlt | Hge]; [by apply Hpre |].
      assert (Hf := Hlow (t - ptr) ltac:(lia)).
      rewrite Hlane in Hf by lia. replace (ptr + (t - ptr)) with t in Hf by lia.
      simplify_eq. by apply Ascii.eqb_neq.
Qed.

Lemma scan_tail_spec hay c : ∀ cnt ptr,
  ptr + cnt = length hay → (∀ t, t < ptr → at_ hay t ≠ c) →
  first_index hay c (scan_tail cnt hay ptr c).
Proof.
  induction cnt as [| cnt IH]; intros ptr Hlen Hpre; simpl.
  - intros t Ht. apply Hpre. lia.
  - destruct (Ascii.eqb_spec (at_ hay ptr) c) as [Heq | Hne].
    + split; [lia |]. done.
    + apply IH; [lia |]. intros t Ht.
      destruct (decide (t = ptr)) as [-> |]; [done | apply Hpre; lia].
Qed.

Lemma chunks_fit len ptr w : ptr ≤ len → ptr + (len - ptr) / w * w ≤ len.
Proof.
  intros Hp. destruct w as [| w]; [simpl; lia |].
  assert ((len - ptr) / S w * S w ≤ len - ptr); [| lia].
  rewrite Nat.mul_comm. apply Nat.Div0.mul_div_le.
Qed.

Lemma one_chunk_fits len ptr w :
  ptr + (if ptr + w <=? len then 1 else 0) * w ≤ len ∨ len < ptr.
Proof. destruct (Nat.leb_spec (ptr + w) len); lia. Qed.

Lemma find_first_char_sse42_spec hay c :
  first_index hay c (find_first_char_sse42 hay c).
Proof.
  unfold find_first_char_sse42.
  destruct (Nat.eqb_spec (length hay) 0) as [H0 | _]; [intros t Ht; lia |].
  assert (H := scan_chunks_spec hay c 16 (length hay / 16) 0).
  destruct (scan_chunks 16 (length hay / 16) hay 0 c) as [k | ptr].
  - apply H; [| intros t Ht; lia].
    pose proof (chunks_fit (length hay) 0 16). rewrite Nat.sub_0_r in *. lia.
  - destruct H as [Hb Hall]; [| intros t Ht; lia |].
    + pose proof (chunks_fit (length hay) 0 16). rewrite Nat.sub_0_r in *. lia.
    + apply scan_tail_spec; [lia | done].
Qed.

Lemma find_first_char_avx2_spec hay c :
  first_index hay c (find_first_char_avx2 hay c).
Proof.
  unfold find_first_char_avx2.
  destruct (Nat.eqb_spec (length hay) 0) as [H0 | _]; [intros t Ht; lia |].
  assert (H := scan_chunks_spec hay c 32 (length hay / 32) 0).
  destruct (scan_chunks 32 (length hay / 32) hay 0 c) as [k | ptr].
  - apply H; [| intros t Ht; lia].
    pose proof (chunks_fit (length hay) 0 32). rewrite Nat.sub_0_r in *. lia.
  - destruct H as [Hb Hall]; [| intros t Ht; lia |].
    + pose proof (chunks_fit (length hay) 0 32). rewrite Nat.sub_0_r in *. lia.
    + assert (H := scan_chunks_spec hay c 16 ((length hay - ptr) / 16) ptr).
      destruct (scan_chunks 16 ((length hay - ptr) / 16) hay ptr c) as [k | ptr'].
      * apply H; [| done]. apply chunks_fit. lia.
      * destruct H as [Hb' Hall']; [by apply chunks_fit; lia | done |].
        apply scan_tail_spec; [lia | done].
Qed.

Lemma find_first_char_avx512_spec hay c :
  first_index hay c (find_first_char_avx512 hay c).
Proof.
  unfold find_first_char_avx512.
  destruct (Nat.eqb_spec (length hay) 0) as [H0 | _]; [intros t Ht; lia |].
  assert (H := scan_chunks_spec hay c 64 (length hay / 64) 0).
  destruct (scan_chunks 64 (length hay / 64) hay 0 c) as [k | ptr].
  - apply H; [| intros t Ht; lia].
    pose proof (chunks_fit (length hay) 0 64). rewrite Nat.sub_0_r in *. lia.
  - destruct H as [Hb Hall]; [| intros t Ht; lia |].
    + pose proof (chunks_fit (length hay) 0 64). rewrite Nat.sub_0_r in *. lia.
    + assert (H := scan_chunks_spec hay c 32 (if ptr + 32 <=? length hay then 1 else 0) ptr).
      destruct (scan_chunks 32 _ hay ptr c) as [k | ptr1].
      * apply H; [| done]. destruct (one_chunk_fits (length hay) ptr 32); lia.
      * destruct H as [Hb1 Hall1];
          [destruct (one_chunk_fits (length hay) ptr 32); lia | done |].
        assert (H := scan_chunks_spec hay c 16
                       (if ptr1 + 16 <=? length hay then 1 else 0) ptr1).
        destruct (scan_chunks 16 _ hay ptr1 c) as [k | ptr2].
        -- apply H; [| done]. destruct (one_chunk_fits (length hay) ptr1 16); lia.
        -- destruct H as [Hb2 Hall2];
             [destruct (one_chunk_fits (length hay) ptr1 16); lia | done |].
           apply scan_tail_spec; [lia | done].
Qed.

End simd_facts.

(** ** The compare kernels *)

Module compare_facts.
Import simd failure_facts simd_facts kernel_spec.

Lemma movemask_lxor_ones lanes w :
  length lanes = w →
  Z.lxor (movemask lanes) (Z.ones (Z.of_nat w)) = movemask (negb <$> lanes).
Proof.
  intros Hw. apply Z.bits_inj'. intros n Hn.
  rewrite Z.lxor_spec, !movemask_testbit, list_lookup_fmap by done.
  destruct (decide (n < Z.of_nat w)%Z) as [Hlt | Hge].
  - rewrite Z.ones_spec_low by lia.
    destruct (lookup_lt_is_Some_2 lanes (Z.to_nat n) ltac:(lia)) as [b ->].
    by destruct b.
  - rewrite Z.ones_spec_high by lia.
    by rewrite lookup_ge_None_2 by lia.
Qed.

Lemma compare_chunks_spec a b len w : ∀ cnt i,
  len ≤ length a → len ≤ length b →
  i + cnt * w ≤ len → (∀ t, t < i → at_ a t = at_ b t) →
  match compare_chunks w cnt a b i with
  | inl k => k < len ∧ common_prefix a b len k
  | inr i' => i ≤ i' ≤ len ∧ ∀ t, t < i' → at_ a t = at_ b t
  end.
Proof.
  intros cnt i Ha Hb. revert i.
  induction cnt as [| cnt IH]; intros i Hlen Hpre; simpl.
  - split; [lia | done].
  - set (lanes := zip_with Ascii.eqb (load w a i) (load w b i)).
    assert (Hlane : ∀ t, t < w →
              lanes !! t = Some (Ascii.eqb (at_ a (i + t)) (at_ b (i + t)))).
    { intros t Ht. unfold lanes.
      rewrite lookup_zip_with, !load_lookup by lia. done. }
    assert (Hll : length lanes = w).
    { unfold lanes. rewrite length_zip_with, !load_length by lia. lia. }
    unfold cmpeq2_mask. fold lanes.
    assert (Hall : ∀ t, t < i + w →
              movemask (negb <$> lanes) = 0%Z → at_ a t = at_ b t).
    { intros t Ht Hz. destruct (decide (t < i)) as [Hlt | Hge]; [by apply Hpre |].
      assert (Hf := proj1 (movemask_zero _) Hz (t - i)).
      rewrite length_fmap, list_lookup_fmap, Hlane in Hf by lia.
      replace (i + (t - i)) with t in Hf by lia.
      specialize (Hf ltac:(lia)).
      apply Ascii.eqb_eq. simpl in Hf. injection Hf as Hf. by apply negb_false_iff. }
    destruct (Z.eqb_spec (movemask lanes) (Z.ones (Z.of_nat w))) as [Hz | Hnz]; simpl.
    + assert (Hz' : movemask (negb <$> lanes) = 0%Z).
      { rewrite <- (movemask_lxor_ones lanes w Hll), Hz. apply Z.lxor_nilpotent. }
      specialize (IH (i + w)).
      destruct (compare_chunks w cnt a b (i + w)) as [k | i'].
      * apply IH; [lia |]. intros t Ht. by apply Hall.
      * destruct IH as [Hbnd Hprefix]; [lia | | split; [lia | done]].
        intros t Ht. by apply Hall.
    + rewrite (movemask_lxor_ones lanes w Hll).
      destruct (ctz_movemask (negb <$> lanes) w) as (k & -> & Hk & Hlow).
      { rewrite length_fmap. lia. }
      { rewrite <- (movemask_lxor_ones lanes w Hll). intros H0.
        apply Hnz. by apply Z.lxor_eq. }
      assert (Hkw : k < w)
        by (apply lookup_lt_Some in Hk; rewrite length_fmap in Hk; lia).
      rewrite list_lookup_fmap, Hlane in Hk by done.
      assert (Hk' : at_ a (i + k) ≠ at_ b (i + k)).
      { apply Ascii.eqb_neq. simpl in Hk. injection Hk as Hk. by apply negb_true_iff. }
      split; [lia |]. split; [lia |]. split; [| done].
      intros t Ht. destruct (decide (t < i)) as [Hlt | Hge]; [by apply Hpre |].
      assert (Hf := Hlow (t - i) ltac:(lia)).
      rewrite list_lookup_fmap, Hlane in Hf by lia.
      replace (i + (t - i)) with t in Hf by lia.
      apply Ascii.eqb_eq. simpl in Hf. injection Hf as Hf. by apply negb_false_iff.
Qed.

Lemma compare_tail_spec a b len : ∀ cnt i,
  i + cnt = len → (∀ t, t < i → at_ a t = at_ b t) →
  common_prefix a b len (compare_tail cnt a b i).
Proof.
  induction cnt as [| cnt IH]; intros i Hlen Hpre; simpl.
  - split; [lia |]. split; [done | lia].
  - destruct (char_neq (at_ a i) (at_ b i)) eqn:Hc.
    + apply border_facts.char_neq_true in Hc. split; [lia |]. done.
    + apply border_facts.char_neq_false in Hc. apply IH; [lia |].
      intros t Ht. destruct (decide (t = i)) as [-> |]; [done | apply Hpre; lia].
Qed.

Lemma compare_avx2_spec a b len :
  len ≤ length a → len ≤ length b →
  common_prefix a b len (compare_avx2 a b len).
Proof.
  intros Ha Hb. unfold compare_avx2.
  assert (H := compare_chunks_spec a b len 32 (len / 32) 0 Ha Hb).
  destruct (compare_chunks 32 (len / 32) a b 0) as [k | i].
  - apply H; [| intros t Ht; lia].
    pose proof (chunks_fit len 0 32). rewrite Nat.sub_0_r in *. lia.
  - destruct H as [Hbnd Hpre]; [| intros t Ht; lia |].
    + pose proof (chunks_fit len 0 32). rewrite Nat.sub_0_r in *. lia.
    + apply compare_tail_spec; [lia | done].
Qed.

Lemma compare_avx512_spec a b len :
  len ≤ length a → len ≤ length b →
  common_prefix a b len (compare_avx512 a b len).
Proof.
  intros Ha Hb. unfold compare_avx512.
  assert (H := compare_chunks_spec a b len 64 (len / 64) 0 Ha Hb).
  destruct (compare_chunks 64 (len / 64) a b 0) as [k | i].
  - apply H; [| intros t Ht; lia].
    pose proof (chunks_fit len 0 64). rewrite Nat.sub_0_r in *. lia.
  - destruct H as [Hbnd Hpre]; [| intros t Ht; lia |].
    + pose proof (chunks_fit len 0 64). rewrite Nat.sub_0_r in *. lia.
    + assert (H := compare_chunks_spec a b len 32
                     (if i + 32 <=? len then 1 else 0) i Ha Hb).
      destruct (compare_chunks 32 _ a b i) as [k | i'].
      * apply H; [| done]. destruct (one_chunk_fits len i 32); lia.
      * destruct H as [Hbnd' Hpre'];
          [destruct (one_chunk_fits len i 32); lia | done |].
        apply compare_tail_spec; [lia | done].
Qed.

End compare_facts.

(** ** The search engines *)

Module engine_facts.
Import border border_facts failure_facts occurrences occurrence_facts.
Import simd simd_facts compare_facts engine kernel_spec.

Lemma occurs_at T P o :
  occurs T P o ↔
  o + length P ≤ length T ∧ ∀ t, t < length P → at_ T (o + t) = at_ P t.
Proof.
  rewrite occurs_suf. unfold suf. split.
  - intros (Hle & _ & H). split; [done |]. intros t Ht.
    rewrite (H t Ht). f_equal; lia.
  - intros (Hle & H). split; [done |]. split; [lia |]. intros t Ht.
    rewrite <- (H t Ht). f_equal; lia.
Qed.

Lemma at_window T ptr len t :
  t < len → ptr + len ≤ length T → at_ (take len (drop ptr T)) t = at_ T (ptr + t).
Proof.
  intros Ht Hlen. unfold at_. rewrite !nth_lookup.
  by rewrite lookup_take_lt, lookup_drop by done.
Qed.

Lemma at_drop T ptr t : at_ (drop ptr T) t = at_ T (ptr + t).
Proof. unfold at_. by rewrite !nth_lookup, lookup_drop. Qed.

Lemma window_length (T : list ascii) ptr len :
  ptr + len ≤ length T → length (take len (drop ptr T)) = len.
Proof. intros H. rewrite length_take, length_drop. lia. Qed.

Lemma rounds_spec T P text_end body :
  0 < length P → text_end + length P = S (length T) →
  round_ok T P text_end body →
  ∀ fuel ptr, text_end ≤ ptr + fuel → (∀ o, occurs T P o → ptr ≤ o) →
  ∃ r, rounds body fuel text_end ptr = Some r ∧
    match r with
    | Some pos => first_occurrence T P pos
    | None => no_occurrence T P
    end.
Proof.
  intros Hm Hend Hbody. induction fuel as [| fuel IH]; intros ptr Hfuel Hpre.
  - simpl. destruct (Nat.ltb_spec ptr text_end) as [Hlt | Hge]; [lia |].
    exists None. split; [done |]. intros o Ho. specialize (Hpre o Ho).
    destruct Ho as [Ho _]. lia.
  - simpl. destruct (Nat.ltb_spec ptr text_end) as [Hlt | Hge].
    + destruct (Hbody ptr Hlt Hpre) as (r & -> & Hr). simpl.
      destruct r as [pos | | c k next].
      * by exists (Some pos).
      * by exists None.
      * destruct Hr as [Hnext Hpre']. apply IH; [lia | done].
    + exists None. split; [done |]. intros o Ho. specialize (Hpre o Ho).
      destruct Ho as [Ho _]. lia.
Qed.

Lemma kmp_search_with_spec body T P F :
  0 < length P →
  (length P ≤ length T →
   round_ok T P (length T - length P + 1) (body T P F (length T - length P + 1))) →
  ∃ r, kmp_search_with body T P F = Some r ∧
    match r with
    | Some pos => first_occurrence T P pos
    | None => no_occurrence T P
    end.
Proof.
  intros Hm Hbody. unfold kmp_search_with.
  destruct (Nat.eqb_spec (length P) 0) as [H0 | _]; [lia |].
  destruct (Nat.ltb_spec (length T) (length P)) as [Hlt | Hge].
  - exists None. split; [done |]. intros o [Ho _]. lia.
  - apply (rounds_spec T P); [done | lia | by apply Hbody | lia |].
    intros o _. lia.
Qed.

(** What the first-byte scan over the window [ptr .. text_end) tells. *)
Lemma first_byte_none T P text_end ptr :
  0 < length P → text_end + length P = S (length T) → ptr < text_end →
  first_index (take (text_end - ptr) (drop ptr T)) (at_ P 0) None →
  (∀ o, occurs T P o → ptr ≤ o) → no_occurrence T P.
Proof.
  intros Hm Hend Hptr Hnone Hpre o Ho. specialize (Hpre o Ho).
  apply occurs_at in Ho as [Hle Ho].
  simpl in Hnone. rewrite window_length in Hnone by lia.
  apply (Hnone (o - ptr)); [lia |].
  rewrite at_window by lia. replace (ptr + (o - ptr)) with o by lia.
  rewrite <- (Ho 0 Hm). f_equal; lia.
Qed.

Lemma first_byte_some T P text_end ptr off :
  0 < length P → text_end + length P = S (length T) → ptr < text_end →
  first_index (take (text_end - ptr) (drop ptr T)) (at_ P 0) (Some off) →
  (∀ o, occurs T P o → ptr ≤ o) →
  ptr + off < text_end ∧ at_ T (ptr + off) = at_ P 0 ∧
  ∀ o, occurs T P o → ptr + off ≤ o.
Proof.
  intros Hm Hend Hptr (Hoff & Hc & Hlow) Hpre.
  rewrite window_length in Hoff by lia.
  rewrite at_window in Hc by lia.
  split; [lia |]. split; [done |].
  intros o Ho. specialize (Hpre o Ho).
  destruct (decide (ptr + off ≤ o)) as [| Hlt]; [done | exfalso].
  apply occurs_at in Ho as [Hle Ho].
  apply (Hlow (o - ptr)); [lia |].
  rewrite at_window by lia. replace (ptr + (o - ptr)) with o by lia.
  rewrite <- (Ho 0 Hm). f_equal; lia.
Qed.

Lemma verify_spec T P match_ : ∀ cnt j,
  j + cnt = length P → (∀ t, 1 ≤ t < j → at_ T (match_ + t) = at_ P t) →
  let j' := verify cnt T match_ P j in
  j ≤ j' ≤ length P ∧ (∀ t, 1 ≤ t < j' → at_ T (match_ + t) = at_ P t) ∧
  (j' < length P → at_ T (match_ + j') ≠ at_ P j').
Proof.
  induction cnt as [| cnt IH]; intros j Hj Hpre; simpl.
  - split; [lia |]. split; [done | lia].
  - destruct (Ascii.eqb_spec (at_ T (match_ + j)) (at_ P j)) as [Heq | Hne].
    + destruct (IH (S j)) as (Hb & Hall & Hstop); [lia | |].
      * intros t Ht. destruct (decide (t = j)) as [-> |]; [done | apply Hpre; lia].
      * split; [lia |]. done.
    + split; [lia |]. done.
Qed.

Lemma sse42_fall_back_returns T P F match_ : ∀ fuel j,
  table_ok P F (length P) → j ≤ fuel → j ≤ length P →
  ∃ j', sse42_fall_back fuel T match_ P F j = Some j'.
Proof.
  induction fuel as [| fuel IH]; intros j Hok Hfuel Hj; simpl.
  - assert (j = 0) as -> by lia. simpl. eauto.
  - destruct (0 <? j) eqn:H0; simpl; [| eauto].
    destruct (char_neq _ _); [| eauto].
    apply Nat.ltb_lt in H0. destruct (Hok j ltac:(lia)) as (Hlt & _).
    apply IH; [done | lia | lia].
Qed.

Lemma sse42_round_ok T P F :
  0 < length P → length P ≤ length T → table_ok P F (length P) →
  round_ok T P (length T - length P + 1)
    (sse42_round T P F (length T - length P + 1)).
Proof.
  intros Hm Hn Hok ptr Hptr Hpre. unfold sse42_round.
  set (text_end := length T - length P + 1) in *.
  assert (Hend : text_end + length P = S (length T)) by (unfold text_end; lia).
  assert (Hfind := find_first_char_sse42_spec
                     (take (text_end - ptr) (drop ptr T)) (at_ P 0)).
  destruct (find_first_char_sse42 _ _) as [off |].
  - destruct (first_byte_some T P text_end ptr off) as (Hc & Hfirst & Hmin);
      [done .. |].
    destruct (verify_spec T P (ptr + off) (length P - 1) 1) as (Hb & Hall & Hstop);
      [lia | intros t Ht; lia |].
    set (j := verify (length P - 1) T (ptr + off) P 1) in *.
    assert (Hall' : ∀ t, t < j → at_ T (ptr + off + t) = at_ P t).
    { intros [| t] Ht; [rewrite <- Hfirst; f_equal; lia | apply Hall; lia]. }
    destruct (Nat.eqb_spec j (length P)) as [Hfull | Hpart].
    + eexists. split; [done |]. split; [| done].
      apply occurs_at. split; [lia |]. intros t Ht. apply Hall'. lia.
    + destruct (sse42_fall_back_returns T P F (ptr + off) j j) as [j' ->];
        [done | done | lia |]. simpl.
      eexists. split; [done |]. split; [lia |].
      intros o Ho. specialize (Hmin o Ho).
      destruct (decide (o = ptr + off)) as [-> |]; [exfalso | lia].
      apply occurs_at in Ho as [_ Ho]. apply Hstop; [lia |]. apply Ho. lia.
  - exists NotFound. split; [done |]. by apply (first_byte_none T P text_end ptr).
Qed.

(** The failure-driven skip of the wider engines passes no occurrence. *)
Lemma failure_skip_safe T P F c k :
  0 < length P → table_ok P F (length P) →
  0 < k < length P →
  (∀ t, t < k → at_ T (c + t) = at_ P t) → at_ T (c + k) ≠ at_ P k →
  0 < failure_skip F k ∧
  ∀ o, occurs T P o → c ≤ o → c + failure_skip F k ≤ o.
Proof.
  intros Hm Hok Hk Hall Hstop. unfold failure_skip.
  destruct (Nat.ltb_spec 0 k) as [_ | ?]; [| lia].
  destruct (Hok k ltac:(lia)) as (Hlt & _ & Hmax).
  split; [lia |]. intros o Ho Hco.
  destruct (decide (c + (k - nth (k - 1) F 0) ≤ o)) as [| Hnear]; [done | exfalso].
  apply occurs_at in Ho as [_ Ho].
  destruct (decide (o = c)) as [-> | Hne].
  - apply Hstop. apply Ho. lia.
  - assert (Hb : suf P P k (k - (o - c))).
    { split; [lia |]. intros t Ht.
      rewrite <- (Ho t) by lia.
      replace (o + t) with (c + (k - (k - (o - c)) + t)) by lia.
      apply Hall. lia. }
    apply Hmax in Hb; lia.
Qed.

Lemma wide_round_ok T P F find compare :
  (∀ hay ch, first_index hay ch (find hay ch)) →
  (∀ a b len, len ≤ length a → len ≤ length b →
     common_prefix a b len (compare a b len)) →
  0 < length P → length P ≤ length T → table_ok P F (length P) →
  round_ok T P (length T - length P + 1)
    (λ text_ptr,
       let text_end := length T - length P + 1 in
       match find (take (text_end - text_ptr) (drop text_ptr T)) (at_ P 0) with
       | None => Some NotFound
       | Some off =>
           let match_ := text_ptr + off in
           let match_len := compare (drop match_ T) P (length P) in
           if match_len =? length P then Some (Found match_)
           else Some (Again match_ match_len (match_ + failure_skip F match_len))
       end).
Proof.
  intros Hfind Hcompare Hm Hn Hok ptr Hptr Hpre. simpl.
  set (text_end := length T - length P + 1) in *.
  assert (Hend : text_end + length P = S (length T)) by (unfold text_end; lia).
  specialize (Hfind (take (text_end - ptr) (drop ptr T)) (at_ P 0)).
  destruct (find _ _) as [off |].
  - destruct (first_byte_some T P text_end ptr off) as (Hc & Hfirst & Hmin);
      [done .. |].
    destruct (Hcompare (drop (ptr + off) T) P (length P)) as (Hb & Hall & Hstop);
      [rewrite length_drop; lia | done |].
    set (k := compare (drop (ptr + off) T) P (length P)) in *.
    setoid_rewrite at_drop in Hall. rewrite at_drop in Hstop.
    destruct (Nat.eqb_spec k (length P)) as [Hfull | Hpart].
    + eexists. split; [done |]. split; [| done].
      apply occurs_at. split; [lia |]. intros t Ht. apply Hall. lia.
    + eexists. split; [done |].
      assert (0 < k).
      { destruct k; [| lia]. exfalso. apply Hstop; [lia |].
        rewrite <- Hfirst. f_equal; lia. }
      destruct (failure_skip_safe T P F (ptr + off) k) as [Hpos Hsafe];
        [done | done | lia | done | apply Hstop; lia |].
      split; [lia |]. intros o Ho. apply Hsafe; [done | by apply Hmin].
  - exists NotFound. split; [done |]. by apply (first_byte_none T P text_end ptr).
Qed.

Lemma avx2_round_ok T P F :
  0 < length P → length P ≤ length T → table_ok P F (length P) →
  round_ok T P (length T - length P + 1)
    (avx2_round T P F (length T - length P + 1)).
Proof.
  apply (wide_round_ok T P F find_first_char_avx2 compare_avx2).
  - apply find_first_char_avx2_spec.
  - apply compare_avx2_spec.
Qed.

Lemma avx512_round_ok T P F :
  0 < length P → length P ≤ length T → table_ok P F (length P) →
  round_ok T P (length T - length P + 1)
    (avx512_round T P F (length T - length P + 1)).
Proof.
  apply (wide_round_ok T P F find_first_char_avx512 compare_avx512).
  - apply find_first_char_avx512_spec.
  - apply compare_avx512_spec.
Qed.

(** Every kernel agrees with the scalar scanner, as iterators. *)
Lemma kernel_agrees body T P F :
  0 < length P → table_ok P F (length P) →
  (length P ≤ length T →
   round_ok T P (length T - length P + 1) (body T P F (length T - length P + 1))) →
  search.to_iterator T <$> kmp_search_with body T P F
  = search.kmp_search_scalar T P F.
Proof.
  intros Hm Hok Hbody.
  destruct (kmp_search_with_spec body T P F Hm Hbody) as (r & -> & Hr).
  destruct (kmp_search_scalar_spec T P F Hm Hok) as (r' & -> & Hr'). simpl. f_equal.
  destruct r as [pos |]; simpl.
  - destruct Hr' as [Hr' | [_ Hnone]].
    + by eapply first_occurrence_unique.
    + destruct Hr as [Ho _]. by apply Hnone in Ho.
  - destruct Hr' as [[Ho _] | [-> _]]; [by apply Hr in Ho | done].
Qed.

End engine_facts.

(** ** The optimized failure table *)

Module optimized_facts.
Import border border_facts failure failure_facts strong_border.

Lemma strong_ok_mono p G q q' : q' ≤ q → strong_ok p G q → strong_ok p G q'.
Proof. intros Hq H k Hk. apply H. lia. Qed.

(** The fall-back loop over the optimized table finds the same border as
    over the basic table. *)
Lemma fall_back_strong p G x i c : ∀ k fuel,
  strong_ok p G k → suf p x i k → k ≤ fuel →
  ∃ k', fall_back fuel p G c k = Some k' ∧
    k' ≤ k ∧ suf p x i k' ∧
    (at_ p k' = c ∨ (k' = 0 ∧ at_ p 0 ≠ c)) ∧
    ∀ l, l ≤ k → suf p x i l → at_ p l = c → l ≤ k'.
Proof.
  induction k as [k IH] using lt_wf_ind. intros fuel Hok Hsuf Hfuel.
  destruct fuel as [| fuel]; simpl.
  - assert (k = 0) as -> by lia. simpl. exists 0. split; [done |].
    split; [done |]. split; [done |]. split.
    + destruct (Ascii.eqb_spec (at_ p 0) c); [by left | by right].
    + intros l Hl _ _. lia.
  - destruct (0 <? k) eqn:Hk0; simpl.
    + apply Nat.ltb_lt in Hk0.
      destruct (char_neq c (at_ p k)) eqn:Hc.
      * apply char_neq_true in Hc.
        destruct (Hok k ltac:(lia)) as (Hlt & Hb & Hskip).
        destruct (IH (nth (k - 1) G 0) Hlt fuel) as (k' & Hrun & Hle & Hs & Hex & Hbest).
        { eapply strong_ok_mono; [| exact Hok]. lia. }
        { eapply suf_trans; eauto. }
        { lia. }
        exists k'. split; [done |]. split; [lia |]. split; [done |]. split; [done |].
        intros l Hl Hsl Hpl.
        assert (l < k) by (destruct (decide (l = k)) as [-> |]; [congruence | lia]).
        destruct (decide (l ≤ nth (k - 1) G 0)) as [Hle' | Hgt]; [by apply Hbest |].
        exfalso. apply Hc. rewrite <- Hpl.
        apply Hskip; [done | by eapply suf_nest; [| | lia] | lia].
      * apply char_neq_false in Hc. exists k. split; [done |].
        split; [done |]. split; [done |]. split; [by left |]. auto.
    + apply Nat.ltb_ge in Hk0. assert (k = 0) as -> by lia.
      exists 0. split; [done |]. split; [done |]. split; [done |]. split.
      * destruct (Ascii.eqb_spec (at_ p 0) c); [by left | by right].
      * intros l Hl _ _. lia.
Qed.

(** What the two fall-back lemmas say determines the result. *)
Lemma fall_back_agree p F G c k fuel :
  table_ok p F k → strong_ok p G k → k ≤ fuel →
  fall_back fuel p G c k = fall_back fuel p F c k.
Proof.
  intros HF HG Hfuel.
  destruct (fall_back_spec p F p k c k fuel HF (suf_full p k) Hfuel)
    as (a & -> & Ha & Hsa & Hexa & Hbesta).
  destruct (fall_back_strong p G p k c k fuel HG (suf_full p k) Hfuel)
    as (b & -> & Hb & Hsb & Hexb & Hbestb).
  f_equal.
  destruct Hexa as [Hexa | [-> Hexa]], Hexb as [Hexb | [-> Hexb]].
  - specialize (Hbesta b Hb Hsb Hexb). specialize (Hbestb a Ha Hsa Hexa). lia.
  - specialize (Hbestb a Ha Hsa Hexa). assert (a = 0) as -> by lia. done.
  - specialize (Hbesta b Hb Hsb Hexb). lia.
  - done.
Qed.

Lemma optimized_round_inv p F i st :
  table_ok p F (length p) →
  optimized_inv p F i st → i < length p →
  ∃ st', optimized_round p st i = Some st' ∧ optimized_inv p F (S i) st'.
Proof.
  destruct st as [G k]. intros HF (Hi & Hlen & Hok & Hk & _) Him. simpl in *.
  destruct (HF i ltac:(lia)) as (Hlt & Hb & Hmax). rewrite <- Hk in *.
  destruct (fall_back_strong p G p i (at_ p i) k k) as (k1 & Hrun & Hle & Hs & Hex & Hbest);
    [by eapply strong_ok_mono; [| exact Hok]; lia | done | done |].
  unfold optimized_round. rewrite Hrun. simpl.
  set (k2 := if Ascii.eqb (at_ p i) (at_ p k1) then S k1 else k1).
  assert (Hk2 : k2 < S i ∧ suf p p (S i) k2 ∧ ∀ l, l < S i → suf p p (S i) l → l ≤ k2).
  { unfold k2. destruct (Ascii.eqb_spec (at_ p i) (at_ p k1)) as [Heq | Hne].
    - split; [lia |]. split; [by apply suf_step |].
      intros [| l] Hl Hsl; [lia |]. apply suf_step in Hsl as [Hsl Hc].
      apply le_n_S, Hbest; [apply Hmax; [lia | done] | done | done].
    - destruct Hex as [Hex | [-> Hex]]; [congruence |].
      split; [lia |]. split; [apply suf_zero |].
      intros [| l] Hl Hsl; [lia |]. apply suf_step in Hsl as [Hsl Hc].
      assert (l ≤ 0) by (apply Hbest; [apply Hmax; [lia | done] | done | done]).
      assert (l = 0) as -> by lia. congruence. }
  destruct Hk2 as (Hk2lt & Hk2s & Hk2max).
  assert (Htrue : k2 = nth i F 0).
  { destruct (HF (S i) ltac:(lia)) as (Hlt' & Hb' & Hmax').
    replace (S i - 1) with i in * by lia.
    specialize (Hmax' k2 Hk2lt Hk2s). specialize (Hk2max _ Hlt' Hb'). lia. }
  destruct ((0 <? k2) && (i + 1 <? length p)
            && Ascii.eqb (at_ p (i + 1)) (at_ p k2)) eqn:Hcond.
  - apply andb_true_iff in Hcond as [Hcond Hnext%Ascii.eqb_eq].
    apply andb_true_iff in Hcond as [Hpos%Nat.ltb_lt Hin%Nat.ltb_lt].
    eexists. split; [done |].
    destruct (Hok k2 ltac:(lia)) as (Hg & Hgs & Hgskip).
    split; [lia |]. simpl. split; [by rewrite length_insert |]. split; [| split].
    + intros q Hq. destruct (decide (q = S i)) as [-> | Hne].
      * replace (S i - 1) with i by lia. rewrite nth_insert_eq by lia.
        split; [lia |]. split; [by eapply suf_trans |].
        intros l Hl Hsl Hgl. replace (S i) with (i + 1) by lia. rewrite Hnext.
        specialize (Hk2max l Hl Hsl).
        destruct (decide (l = k2)) as [-> | Hne]; [done |].
        apply Hgskip; [lia | by eapply suf_nest; [| | lia] | done].
      * rewrite nth_insert_ne by lia. apply Hok. lia.
    + by rewrite Nat.sub_0_r.
    + intros Heq. lia.
  - eexists. split; [done |].
    split; [lia |]. simpl. split; [by rewrite length_insert |]. split; [| split].
    + intros q Hq. destruct (decide (q = S i)) as [-> | Hne].
      * replace (S i - 1) with i by lia. rewrite nth_insert_eq by lia.
        split; [done |]. split; [done |].
        intros l Hl Hsl Hgl. specialize (Hk2max l Hl Hsl). lia.
      * rewrite nth_insert_ne by lia. apply Hok. lia.
    + by rewrite Nat.sub_0_r.
    + intros _. rewrite Nat.sub_0_r, nth_insert_eq by lia. done.
Qed.

Lemma optimized_loop_inv p F : ∀ cnt i st,
  table_ok p F (length p) →
  optimized_inv p F i st → i + cnt = length p →
  ∃ st', optimized_loop p cnt i st = Some st' ∧ optimized_inv p F (length p) st'.
Proof.
  induction cnt as [| cnt IH]; intros i st HF Hinv Hcnt; simpl.
  - exists st. split; [done |]. by replace (length p) with i by lia.
  - destruct (optimized_round_inv p F i st HF Hinv) as (st' & -> & Hinv'); [lia |]. simpl.
    apply IH; [done | done | lia].
Qed.

(** [compute_failure_optimized] returns a table of the pattern's length
    whose entries are borders that skip only borders followed by the byte
    that follows the prefix, and whose last entry is the basic one. *)
Lemma compute_failure_optimized_ok p F :
  table_ok p F (length p) →
  ∃ G, compute_failure_optimized p = Some G ∧ length G = length p ∧
    strong_ok p G (length p) ∧
    (0 < length p → nth (length p - 1) G 0 = nth (length p - 1) F 0).
Proof.
  intros HF. unfold compute_failure_optimized. destruct (length p =? 0) eqn:Hm.
  - apply Nat.eqb_eq in Hm. exists []. split; [done |]. split; [done |].
    split; [intros k Hk; lia | lia].
  - apply Nat.eqb_neq in Hm.
    destruct (optimized_loop_inv p F (length p - 1) 1 (replicate (length p) 0, 0))
      as ([G k] & -> & (_ & Hlen & Hok & _ & Hlast)); [done | | lia |].
    + split; [lia |]. simpl. split; [by rewrite length_replicate |]. split; [| split].
      * intros k Hk. assert (k = 1) as -> by lia. rewrite replicate_nth.
        split; [lia |]. split; [apply suf_zero |]. intros l Hl _. lia.
      * destruct (HF 1 ltac:(lia)) as (H0 & _). simpl in *. lia.
      * intros _. destruct (HF 1 ltac:(lia)) as (H0 & _).
        change (1 - 1) with 0 in *. rewrite replicate_nth. lia.
    + exists G. split; [done |]. split; [done |]. split; [done |].
      intros _. by apply Hlast.
Qed.

Lemma advance_agree P F G c j :
  table_ok P F j → strong_ok P G j →
  search.advance P G c j = search.advance P F c j.
Proof.
  intros HF HG. unfold search.advance. by rewrite (fall_back_agree P F G) by done.
Qed.

Lemma advance_bound P F c j :
  table_ok P F j →
  ∃ j', search.advance P F c j = Some j' ∧ j' ≤ S j.
Proof.
  intros HF. unfold search.advance.
  destruct (fall_back_spec P F P j c j j HF (suf_full P j) ltac:(lia))
    as (k & -> & Hk & _). simpl.
  eexists. split; [done |]. destruct (Ascii.eqb _ _); lia.
Qed.

Section agree.
Variables (T P : list ascii) (F G : list nat).
Hypothesis HF : table_ok P F (length P).
Hypothesis HG : strong_ok P G (length P).
Hypothesis Hlast : nth (length P - 1) G 0 = nth (length P - 1) F 0.

Lemma scalar_loop_agree : ∀ cnt i j,
  j < length P →
  search.scalar_loop T P G cnt i j = search.scalar_loop T P F cnt i j.
Proof.
  induction cnt as [| cnt IH]; intros i j Hj; simpl; [done |].
  rewrite (advance_agree P F G)
    by (eapply table_ok_mono || eapply strong_ok_mono; [| eassumption]; lia).
  destruct (advance_bound P F (at_ T i) j) as (j' & -> & Hj');
    [eapply table_ok_mono; [| exact HF]; lia |]. simpl.
  destruct (Nat.eqb_spec j' (length P)); [done |]. apply IH. lia.
Qed.

Lemma search_all_loop_agree : ∀ cnt i j,
  j < length P →
  search.search_all_loop T P G cnt i j = search.search_all_loop T P F cnt i j.
Proof.
  induction cnt as [| cnt IH]; intros i j Hj; simpl; [done |].
  rewrite (advance_agree P F G)
    by (eapply table_ok_mono || eapply strong_ok_mono; [| eassumption]; lia).
  destruct (advance_bound P F (at_ T i) j) as (j' & -> & Hj');
    [eapply table_ok_mono; [| exact HF]; lia |]. simpl.
  destruct (Nat.eqb_spec j' (length P)) as [-> |]; [| apply IH; lia].
  rewrite Hlast. f_equal. apply IH.
  destruct (HF (length P) ltac:(lia)) as (Hlt & _). lia.
Qed.
End agree.
End optimized_facts.

(** ** The collecting loops of the vector engines *)

Module search_all_facts.
Import border occurrences kernel_spec engine engine_facts.

Lemma kmp_search_sse42_first P F :
  0 < length P → table_ok P F (length P) → finds_first kmp_search_sse42 P F.
Proof.
  intros Hm HF T. apply kmp_search_with_spec; [done |].
  intros Hn. by apply sse42_round_ok.
Qed.

Lemma kmp_search_avx2_first P F :
  0 < length P → table_ok P F (length P) → finds_first kmp_search_avx2 P F.
Proof.
  intros Hm HF T. apply kmp_search_with_spec; [done |].
  intros Hn. by apply avx2_round_ok.
Qed.

Lemma kmp_search_avx512_first P F :
  0 < length P → table_ok P F (length P) → finds_first kmp_search_avx512 P F.
Proof.
  intros Hm HF T. apply kmp_search_with_spec; [done |].
  intros Hn. by apply avx512_round_ok.
Qed.

Lemma occurs_drop T P pos off :
  0 < length P →
  occurs (drop pos T) P off ↔ occurs T P (pos + off).
Proof.
  intros Hm. unfold occurs. rewrite drop_drop, length_drop.
  split; intros [H1 H2]; (split; [lia | done]).
Qed.

Lemma Sorted_lt_snoc (l : list nat) x :
  Sorted lt l → (∀ y, y ∈ l → y < x) → Sorted lt (l ++ [x]).
Proof.
  induction 1 as [| y l Hs IH Hhd]; intros Hx; simpl.
  - by repeat constructor.
  - constructor.
    + apply IH. intros z Hz. apply Hx. by right.
    + destruct Hhd as [| z l' Hyz]; simpl; constructor; [| done].
      apply Hx. by left.
Qed.

Lemma Sorted_lt_eq (l1 l2 : list nat) :
  Sorted lt l1 → Sorted lt l2 → (∀ x, x ∈ l1 ↔ x ∈ l2) → l1 = l2.
Proof.
  intros H1 H2 Hel.
  assert (Hnd : ∀ l : list nat, Sorted lt l → NoDup l).
  { intros l Hl. apply (Sorted_StronglySorted _) in Hl.
    induction Hl as [| x l Hl IH Hx]; constructor; [| done].
    intros Hin. rewrite Forall_forall in Hx. specialize (Hx x Hin). lia. }
  apply (Sorted_unique_strong lt); [| done | done |].
  - intros x1 x2 _ _ ? ?. lia.
  - apply NoDup_Permutation; auto.
Qed.

Section rounds.
Variables (kmp_search : list ascii → list ascii → list nat → option (option nat)).
Variables (T P : list ascii) (F : list nat).
Hypothesis Hm : 0 < length P.
Hypothesis Hn : length P ≤ length T.
Hypothesis Hfirst : finds_first kmp_search P F.

Lemma search_all_rounds_spec : ∀ fuel pos out,
  length T - length P < pos + fuel →
  ∃ res, search_all_rounds kmp_search fuel T P F pos out = Some (out ++ res) ∧
    Sorted lt res ∧ ∀ o, o ∈ res ↔ occurs T P o ∧ pos ≤ o.
Proof.
  induction fuel as [| fuel IH]; intros pos out Hfuel; simpl.
  - destruct (Nat.leb_spec pos (length T - length P)); [lia |].
    exists []. rewrite app_nil_r. split; [done |]. split; [constructor |].
    intros o. split; [by intros ?%elem_of_nil |].
    intros [[Ho _] Hpos]. lia.
  - destruct (Nat.leb_spec pos (length T - length P)) as [Hpos | Hpos].
    + destruct (Hfirst (drop pos T)) as (r & -> & Hr). simpl.
      destruct r as [off |].
      * destruct Hr as [Hocc Hleast]. apply occurs_drop in Hocc; [| done].
        destruct (IH (pos + off + 1) (out ++ [pos + off])) as (res & -> & Hs & Hres);
          [lia |].
        exists ((pos + off) :: res). rewrite <- app_assoc. split; [done |]. split.
        { constructor; [done |]. destruct res as [| y res]; constructor.
          assert (Hy : y ∈ y :: res) by left. apply Hres in Hy. lia. }
        intros o. rewrite elem_of_cons, Hres. split.
        -- intros [-> | [Ho Hge]]; [split; [done | lia] | split; [done | lia]].
        -- intros [Ho Hge].
           destruct (decide (o = pos + off)) as [-> | Hne]; [by left | right].
           split; [done |].
           assert (Hrel : occurs (drop pos T) P (o - pos)).
           { apply occurs_drop; [done |]. by replace (pos + (o - pos)) with o by lia. }
           apply Hleast in Hrel. lia.
      * exists []. rewrite app_nil_r. split; [done |]. split; [constructor |].
        intros o. split; [by intros ?%elem_of_nil |].
        intros [Ho Hge]. exfalso. apply (Hr (o - pos)).
        apply occurs_drop; [done |]. by replace (pos + (o - pos)) with o by lia.
    + exists []. rewrite app_nil_r. split; [done |]. split; [constructor |].
      intros o. split; [by intros ?%elem_of_nil |].
      intros [[Ho _] Hge]. lia.
Qed.
End rounds.

(** A collecting loop over a sound first-match search returns the
    positions [search_all] yields. *)
Lemma kmp_search_all_with_spec kmp_search T P F out :
  0 < length P → table_ok P F (length P) → finds_first kmp_search P F →
  ∃ res, search.search_all T P = Some res ∧
    kmp_search_all_with kmp_search T P F out = Some (out ++ res).
Proof.
  intros Hm HF Hfirst. unfold kmp_search_all_with, search.search_all.
  destruct (Nat.eqb_spec (length P) 0) as [H0 | _]; [lia |].
  destruct (Nat.ltb_spec (length T) (length P)) as [Hlt | Hge]; cbn [orb].
  - exists []. by rewrite app_nil_r.
  - destruct (failure_facts.compute_failure_ok P) as (F' & HF'eq & _ & HF').
    destruct (occurrence_facts.search_all_loop_spec T P F' Hm HF' (length T) 0 0)
      as (res & Hloop & Hres & Hsorted);
      [done | apply occurrence_facts.scan_inv_start; lia |].
    destruct (search_all_rounds_spec kmp_search T P F Hm Hge Hfirst (S (length T)) 0 out)
      as (res' & Hrounds & Hsorted' & Hres'); [lia |].
    assert (res' = res) as ->.
    { apply Sorted_lt_eq; [done | done |].
      intros o. rewrite Hres, Hres'. split; intros [Ho _]; (split; [done | lia]). }
    exists res. split; [| exact Hrounds].
    rewrite HF'eq. exact Hloop.
Qed.
End search_all_facts.

(** ** Feature detection *)

Module dispatch_facts.
Import dispatch dispatch_spec.

Lemma detect_features_flags (m : machine) :
  (has_feature (detect_features m) sse42 = true ↔ cpu_sse42 m) ∧
  (has_feature (detect_features m) avx2 = true ↔ cpu_avx2 m) ∧
  (has_feature (detect_features m) avx512f = true ↔ cpu_avx512f m) ∧
  (has_feature (detect_features m) avx512bw = true ↔ cpu_avx512bw m).
Proof.
  unfold cpu_avx512bw, cpu_avx512f, cpu_avx2, os_ymm, cpu_sse42, detect_features.
  destruct (N.ltb_spec (eax (cpuid m 0 0)) 1) as [H1 | H1];
    [vm_compute has_feature; repeat split; intros; (done || lia || (destruct_and?; lia)) |].
  destruct (bit_set (ecx (cpuid m 1 0)) 20), (bit_set (ecx (cpuid m 1 0)) 27);
    cbn [negb];
    try (vm_compute has_feature; repeat split; intros; destruct_and?; done).
  all: destruct (N.eqb_spec (N.land (xgetbv m 0) 6) 6) as [H6 | H6]; cbn [negb];
    try (vm_compute has_feature; repeat split; intros; destruct_and?; done).
  all: destruct (N.leb_spec 7 (eax (cpuid m 0 0))) as [H7 | H7];
    try (vm_compute has_feature; repeat split; intros; destruct_and?; (done || lia)).
  all: destruct (N.eqb_spec (N.land (xgetbv m 0) 230) 230) as [H230 | H230];
    destruct (bit_set (ebx (cpuid m 7 0)) 5), (bit_set (ebx (cpuid m 7 0)) 16),
      (bit_set (ebx (cpuid m 7 0)) 30); cbn [andb];
    vm_compute has_feature; repeat split; intros; destruct_and?; done.
Qed.

Lemma has_feature_or f a b :
  has_feature f (feature_or a b) = has_feature f a && has_feature f b.
Proof.
  unfold has_feature, feature_and, feature_or.
  apply eq_true_iff_eq. rewrite andb_true_iff, !N.eqb_eq. split.
  - intros H. split; apply N.bits_inj; intros i;
      apply (f_equal (λ x, N.testbit x i)) in H;
      rewrite !N.land_spec, ?N.lor_spec in *;
      destruct (N.testbit f i), (N.testbit a i), (N.testbit b i); done.
  - intros [Ha Hb]. apply N.bits_inj. intros i.
    apply (f_equal (λ x, N.testbit x i)) in Ha, Hb.
    rewrite !N.land_spec, ?N.lor_spec in *.
    destruct (N.testbit f i), (N.testbit a i), (N.testbit b i); done.
Qed.

Lemma get_simd_level_cases (m : machine) :
  (get_simd_level m = search.avx512 ↔ cpu_avx512bw m) ∧
  (get_simd_level m = search.avx2 ↔ cpu_avx2 m ∧ ¬ cpu_avx512bw m) ∧
  (get_simd_level m = search.sse42 ↔
     cpu_sse42 m ∧ ¬ cpu_avx2 m ∧ ¬ cpu_avx512bw m) ∧
  (get_simd_level m = search.scalar ↔
     ¬ cpu_sse42 m ∧ ¬ cpu_avx2 m ∧ ¬ cpu_avx512bw m).
Proof.
  destruct (detect_features_flags m) as (Hsse & Havx2 & Hf & Hbw).
  unfold get_simd_level, has_avx512, has_avx2, has_sse42, get_features.
  rewrite has_feature_or.
  assert (Hsub : cpu_avx512bw m → cpu_avx512f m) by (by intros [? _]).
  rewrite <- Hf in Hsub. rewrite <- Hsse, <- Havx2, <- Hbw in *. clear Hsse Havx2 Hf Hbw.
  destruct (has_feature (detect_features m) avx512f),
    (has_feature (detect_features m) avx512bw),
    (has_feature (detect_features m) avx2),
    (has_feature (detect_features m) sse42); cbn [andb]; naive_solver.
Qed.
End dispatch_facts.

(** ** The inner loop runs a linear number of rounds *)

Module cost_facts.
Import border border_facts failure failure_facts search cost.

(** Leaving the counters out gives the loops back. *)
Lemma fall_back_erase p F c : ∀ fuel k,
  fst <$> fall_back_steps fuel p F c k = fall_back fuel p F c k.
Proof.
  induction fuel as [| fuel IH]; intros k; simpl.
  - by destruct (_ && _).
  - destruct (_ && _); [| done]. rewrite <- IH.
    by destruct (fall_back_steps fuel p F c _) as [[k' n] |].
Qed.

Lemma failure_round_erase p st i :
  fst <$> failure_round_steps p st i = failure_round p st i.
Proof.
  destruct st as [F k]. unfold failure_round_steps, failure_round.
  rewrite <- fall_back_erase.
  by destruct (fall_back_steps k p F _ k) as [[k' n] |].
Qed.

Lemma failure_loop_erase p : ∀ cnt i st,
  fst <$> failure_loop_steps p cnt i st = failure_loop p cnt i st.
Proof.
  induction cnt as [| cnt IH]; intros i st; simpl; [done |].
  rewrite <- failure_round_erase.
  destruct (failure_round_steps p st i) as [[st' n] |]; [| done]. simpl.
  rewrite <- IH. by destruct (failure_loop_steps p cnt (S i) st') as [[st'' n'] |].
Qed.

Lemma compute_failure_erase p :
  fst <$> compute_failure_steps p = compute_failure p.
Proof.
  unfold compute_failure_steps, compute_failure. destruct (_ =? 0); [done |].
  rewrite <- failure_loop_erase.
  by destruct (failure_loop_steps p _ 1 _) as [[st n] |].
Qed.

Lemma advance_erase p F c j :
  fst <$> advance_steps p F c j = advance p F c j.
Proof.
  unfold advance_steps, advance. rewrite <- fall_back_erase.
  by destruct (fall_back_steps j p F c j) as [[j1 n] |].
Qed.

Lemma scalar_loop_erase text p F : ∀ cnt i j,
  fst <$> scalar_loop_steps text p F cnt i j = scalar_loop text p F cnt i j.
Proof.
  induction cnt as [| cnt IH]; intros i j; simpl; [done |].
  rewrite <- advance_erase.
  destruct (advance_steps p F (at_ text i) j) as [[j' n] |]; [| done]. simpl.
  destruct (j' =? length p); [done |].
  rewrite <- IH. by destruct (scalar_loop_steps text p F cnt (S i) j') as [[r n'] |].
Qed.

Lemma search_all_loop_erase text p F : ∀ cnt i j,
  fst <$> search_all_loop_steps text p F cnt i j = search_all_loop text p F cnt i j.
Proof.
  induction cnt as [| cnt IH]; intros i j; simpl; [done |].
  rewrite <- advance_erase.
  destruct (advance_steps p F (at_ text i) j) as [[j' n] |]; [| done]. simpl.
  destruct (j' =? length p); rewrite <- IH;
    by destruct (search_all_loop_steps text p F cnt (S i) _) as [[r n'] |].
Qed.

(** Every round of the inner loop shortens the border by at least one
    byte. *)
Lemma fall_back_steps_bound p F c q : ∀ fuel k,
  table_ok p F q → k ≤ q → k ≤ fuel →
  ∃ k1 n, fall_back_steps fuel p F c k = Some (k1, n) ∧ k1 + n ≤ k.
Proof.
  intros fuel k Hok. revert fuel. induction k as [k IH] using lt_wf_ind.
  intros fuel Hq Hfuel. destruct fuel as [| fuel]; simpl.
  - assert (k = 0) as -> by lia. simpl. by exists 0, 0.
  - destruct ((0 <? k) && char_neq c (at_ p k)) eqn:E; [| exists k, 0; split; [done | lia]].
    apply andb_true_iff in E as [Hk%Nat.ltb_lt _].
    destruct (Hok k ltac:(lia)) as (Hlt & _).
    destruct (IH (nth (k - 1) F 0) Hlt fuel) as (k1 & n & -> & Hle); [lia | lia |].
    simpl. exists k1, (S n). split; [done | lia].
Qed.

Lemma advance_steps_bound p F c q j :
  table_ok p F q → j ≤ q →
  ∃ j' n, advance_steps p F c j = Some (j', n) ∧ j' + n ≤ S j.
Proof.
  intros Hok Hj. unfold advance_steps.
  destruct (fall_back_steps_bound p F c q j j Hok Hj) as (j1 & n & -> & Hle); [done |].
  simpl. eexists _, n. split; [done |]. destruct (Ascii.eqb _ _); lia.
Qed.

Section scan.
Variables (text p : list ascii) (F : list nat).
Hypothesis Hok : table_ok p F (length p).

Lemma scalar_loop_steps_bound : ∀ cnt i j,
  j < length p →
  ∃ r n, scalar_loop_steps text p F cnt i j = Some (r, n) ∧ n ≤ cnt + j.
Proof.
  induction cnt as [| cnt IH]; intros i j Hj; simpl.
  { exists (length text), 0. split; [done | lia]. }
  destruct (advance_steps_bound p F (at_ text i) (length p) j Hok)
    as (j' & n & -> & Hle); [lia |]. simpl.
  destruct (Nat.eqb_spec j' (length p)) as [Heq | Hneq].
  { eexists _, n. split; [done | lia]. }
  destruct (IH (S i) j') as (r & n' & -> & Hle'); [lia |]. simpl.
  exists r, (n + n'). split; [done | lia].
Qed.

Lemma search_all_loop_steps_bound : ∀ cnt i j,
  j < length p →
  ∃ l n, search_all_loop_steps text p F cnt i j = Some (l, n) ∧ n ≤ cnt + j.
Proof.
  induction cnt as [| cnt IH]; intros i j Hj; simpl.
  { exists [], 0. split; [done | lia]. }
  destruct (advance_steps_bound p F (at_ text i) (length p) j Hok)
    as (j' & n & -> & Hle); [lia |]. simpl.
  destruct (Nat.eqb_spec j' (length p)) as [Heq | Hneq].
  - destruct (Hok j' ltac:(lia)) as (Hlt & _).
    destruct (IH (S i) (nth (j' - 1) F 0)) as (l & n' & -> & Hle'); [lia |]. simpl.
    eexists _, (n + n'). split; [done | lia].
  - destruct (IH (S i) j') as (l & n' & -> & Hle'); [lia |]. simpl.
    exists l, (n + n'). split; [done | lia].
Qed.
End scan.

Lemma failure_loop_steps_bound p : ∀ cnt i st,
  failure_inv p i st → i + cnt = length p →
  ∃ st' n, failure_loop_steps p cnt i st = Some (st', n) ∧ n ≤ cnt + st.2.
Proof.
  induction cnt as [| cnt IH]; intros i st Hinv Hcnt; simpl.
  { exists st, 0. split; [done | lia]. }
  destruct (failure_round_inv p i st Hinv) as (st' & Hround & Hinv'); [lia |].
  rewrite <- failure_round_erase in Hround.
  destruct st as [F k]. destruct Hinv as (Hi & Hlen & Hok & Hk). simpl in *.
  destruct (Hok i ltac:(lia)) as (Hlt & _). rewrite <- Hk in Hlt.
  unfold failure_round_steps in *.
  destruct (fall_back_steps_bound p F (at_ p i) i k k Hok) as (k1 & n & Hfb & Hle);
    [lia | done |].
  rewrite Hfb in *. simpl in *. injection Hround as <-.
  destruct (IH (S i) _ Hinv') as (st'' & n' & -> & Hle'); [lia |]. simpl in *.
  exists st'', (n + n'). split; [done |]. destruct (Ascii.eqb _ _); simpl in *; lia.
Qed.

Lemma compute_failure_steps_bound p :
  ∃ F n, compute_failure_steps p = Some (F, n) ∧ n ≤ length p - 1.
Proof.
  unfold compute_failure_steps. destruct (Nat.eqb_spec (length p) 0) as [Hm | Hm].
  { exists [], 0. split; [done | lia]. }
  destruct (failure_loop_steps_bound p (length p - 1) 1 (replicate (length p) 0, 0))
    as (st' & n & -> & Hle); [| lia |].
  - split; [lia |]. simpl. split; [by rewrite length_replicate |]. split.
    + intros k Hk. assert (k = 1) as -> by lia. rewrite replicate_nth.
      split; [lia |]. split; [apply suf_zero |]. intros l Hl _. lia.
    + by rewrite replicate_nth.
  - simpl in *. exists st'.1, n. split; [done | lia].
Qed.

Lemma search_all_erase text p :
  fst <$> search_all_steps text p = search_all text p.
Proof.
  unfold search_all_steps, search_all. destruct (_ || _); [done |].
  rewrite <- compute_failure_erase.
  destruct (compute_failure_steps p) as [[F n0] |]; [| done]. simpl.
  rewrite <- search_all_loop_erase.
  by destruct (search_all_loop_steps text p F _ 0 0) as [[l n1] |].
Qed.

Lemma search_all_steps_bound text p :
  ∃ l n, search_all_steps text p = Some (l, n) ∧ n ≤ length text + (length p - 1).
Proof.
  unfold search_all_steps.
  destruct ((length p =? 0) || (length text <? length p)) eqn:E.
  { exists [], 0. split; [done | lia]. }
  apply orb_false_iff in E as [Hm%Nat.eqb_neq _].
  destruct (compute_failure_steps_bound p) as (F & n0 & HF & Hn0).
  destruct (compute_failure_ok p) as (F' & HF' & _ & Hok).
  rewrite <- compute_failure_erase, HF in HF'. injection HF' as <-.
  rewrite HF. simpl.
  destruct (search_all_loop_steps_bound text p F Hok (length text) 0 0)
    as (l & n1 & -> & Hn1); [lia |]. simpl.
  exists l, (n0 + n1). split; [done | lia].
Qed.
End cost_facts.

(** * Properties of the regex core *)

(** ** Epsilon closure *)

Module closure_facts.
Import dfa closure.

Section closure.
Variable nfa : list nfa_state.

Local Abbreviation eps_edge := (eps_edge nfa).
Local Abbreviation closed := (closed nfa).
Local Abbreviation targets := (targets nfa).
Local Abbreviation measure := (measure nfa).
Local Abbreviation pending := (pending nfa).

Lemma size_list_to_set_le (l : list N) : size (list_to_set l : gset N) ≤ length l.
Proof.
  induction l as [| x l IH].
  { rewrite list_to_set_nil, size_empty. simpl. lia. }
  rewrite list_to_set_cons, size_union_alt, size_singleton. simpl.
  assert (size (list_to_set l ∖ {[x]} : gset N) ≤ size (list_to_set l : gset N))
    by (apply subseteq_size; set_solver).
  lia.
Qed.

Lemma size_targets : size targets ≤ 2 * length nfa.
Proof.
  unfold targets. etrans; [apply size_list_to_set_le |].
  generalize nfa. intros l. induction l as [| st l IH]; [done |].
  rewrite bind_cons, length_app. simpl. lia.
Qed.

Lemma next1_target s st : nfa !! s = Some st → next1 st ∈ targets.
Proof.
  intros H. unfold targets. apply elem_of_list_to_set, list_elem_of_bind.
  exists st. split; [set_solver | by eapply list_elem_of_lookup_2].
Qed.

Lemma next2_target s st : nfa !! s = Some st → next2 st ∈ targets.
Proof.
  intros H. unfold targets. apply elem_of_list_to_set, list_elem_of_bind.
  exists st. split; [set_solver | by eapply list_elem_of_lookup_2].
Qed.

Lemma visit_spec has_next next stack states :
  (has_next = true → next ∈ targets) →
  let acc := visit has_next next (stack, states) in
  measure acc.1 acc.2 ≤ measure stack states ∧
  states ⊆ acc.2 ∧
  (has_next = true → next ∈ acc.2) ∧
  (∀ x, x ∈ acc.2 → x ∈ states ∨ (has_next = true ∧ x = next)) ∧
  (∀ x, x ∈ acc.1 → x ∈ stack ∨ (has_next = true ∧ x = next)) ∧
  (∀ x, x ∈ stack → x ∈ acc.1) ∧
  (∀ x, x ∈ acc.2 → x ∉ states → x ∈ acc.1).
Proof.
  intros Htarget. unfold visit. simpl.
  destruct has_next; simpl; [| set_solver].
  destruct (bool_decide_reflect (next ∉ states)) as [Hnew | Hold]; simpl.
  - split.
    + unfold measure. simpl.
      assert (size (targets ∖ ({[next]} ∪ states)) < size (targets ∖ states)).
      { apply subset_size. specialize (Htarget eq_refl).
        split; [set_solver |]. intros Hc.
        assert (Hin : next ∈ targets ∖ states) by set_solver.
        apply Hc in Hin. set_solver. }
      lia.
    + set_solver.
  - split; [done |]. apply dec_stable in Hold. set_solver.
Qed.

(** The loop returns the least closed set above [states]. *)
Lemma closure_loop_spec : ∀ fuel stack states,
  measure stack states ≤ fuel → pending stack states →
  ∃ R, closure_loop nfa fuel stack states = Some R ∧
    states ⊆ R ∧ closed R ∧
    ∀ C, closed C → states ⊆ C → R ⊆ C.
Proof.
  induction fuel as [| fuel IH]; intros stack states Hfuel [Hsub Hdone].
  - destruct stack as [| s stack]; [| unfold measure in Hfuel; simpl in *; lia].
    exists states. split; [done |]. split; [done |]. split; [| done].
    intros s t Hs. apply Hdone; [done | by intros ?%elem_of_nil].
  - destruct stack as [| s stack]; simpl.
    { exists states. split; [done |]. split; [done |]. split; [| done].
      intros s t Hs. apply Hdone; [done | by intros ?%elem_of_nil]. }
    assert (Hs : s ∈ states) by (apply Hsub; left).
    destruct (nfa !! N.to_nat s) as [st |] eqn:Hst.
    + destruct (decide (kind st = epsilon)) as [Heps | Hneps].
      * pose proof (visit_spec (has_next1 st) (next1 st) stack states
                      (λ _, next1_target _ _ Hst)) as H1.
        destruct (visit (has_next1 st) (next1 st) (stack, states))
          as [stack1 states1] eqn:E1. simpl in H1.
        destruct H1 as (Hm1 & Hs1 & Hin1 & Hfrom1 & Hst1 & Hkeep1 & Hnew1).
        pose proof (visit_spec (has_next2 st) (next2 st) stack1 states1
                      (λ _, next2_target _ _ Hst)) as H2.
        destruct (visit (has_next2 st) (next2 st) (stack1, states1))
          as [stack2 states2] eqn:E2. simpl in H2.
        destruct H2 as (Hm2 & Hs2 & Hin2 & Hfrom2 & Hst2 & Hkeep2 & Hnew2).
        simpl.
        destruct (IH stack2 states2) as (R & HR & HsubR & Hclosed & Hleast).
        { unfold measure in *. simpl in *. lia. }
        { split.
          - intros x Hx. apply Hst2 in Hx as [Hx | [Hh ->]]; [| by apply Hin2].
            apply Hs2. apply Hst1 in Hx as [Hx | [Hh ->]]; [| by apply Hin1].
            apply Hs1, Hsub. by right.
          - intros x t Hx Hnot Hedge.
            destruct (decide (x ∈ states)) as [Hold | Hnew].
            + destruct (decide (x = s)) as [-> | Hne].
              * destruct Hedge as (st' & Hst' & _ & Ht). simplify_eq.
                destruct Ht as [[Hh ->] | [Hh ->]]; [apply Hs2 |]; auto.
              * apply Hs2, Hs1. apply (Hdone x t Hold); [| done].
                intros [| Hin]%elem_of_cons; [done |].
                apply Hnot, Hkeep2, Hkeep1, Hin.
            + exfalso. apply Hnot.
              destruct (decide (x ∈ states1)) as [Hmid | Hlate].
              * apply Hkeep2, Hnew1; done.
              * by apply Hnew2. }
        exists R. split; [done |]. split; [set_solver |]. split; [done |].
        intros C HC HsC. apply Hleast; [done |].
        intros x Hx. apply Hfrom2 in Hx as [Hx | [Hh ->]].
        -- apply Hfrom1 in Hx as [Hx | [Hh ->]]; [by apply HsC |].
           apply (HC s); [by apply HsC |]. exists st. eauto.
        -- apply (HC s); [by apply HsC |]. exists st. eauto.
      * destruct (IH stack states) as (R & HR & HsubR & Hclosed & Hleast).
        { unfold measure in *. simpl in *. lia. }
        { split; [intros x Hx; apply Hsub; by right |].
          intros x t Hx Hnot Hedge.
          destruct (decide (x = s)) as [-> | Hne].
          - destruct Hedge as (st' & Hst' & Hk & _). by simplify_eq.
          - apply (Hdone x t Hx); [| done].
            by intros [| Hin]%elem_of_cons. }
        exists R. done.
    + destruct (IH stack states) as (R & HR & HsubR & Hclosed & Hleast).
      { unfold measure in *. simpl in *. lia. }
      { split; [intros x Hx; apply Hsub; by right |].
        intros x t Hx Hnot Hedge.
        destruct (decide (x = s)) as [-> | Hne].
        - destruct Hedge as (st' & Hst' & _). by simplify_eq.
        - apply (Hdone x t Hx); [| done].
          by intros [| Hin]%elem_of_cons. }
      exists R. done.
Qed.

Lemma enumerate_elem_of (order : iter_order) (S : gset N) x :
  x ∈ enumerate order S ↔ x ∈ S.
Proof. by rewrite (enumerate_perm order S), elem_of_elements. Qed.

Lemma enumerate_length (order : iter_order) (S : gset N) :
  length (enumerate order S) = size S.
Proof. by rewrite (enumerate_perm order S). Qed.

(** [epsilon_closure] returns, whatever the iteration order, the least
    closed set above its argument. *)
Lemma epsilon_closure_spec (order : iter_order) (S : gset N) :
  ∃ R, epsilon_closure order nfa S = Some R ∧
    S ⊆ R ∧ closed R ∧ ∀ C, closed C → S ⊆ C → R ⊆ C.
Proof.
  unfold epsilon_closure. apply closure_loop_spec.
  - unfold measure. pose proof size_targets.
    assert (size (targets ∖ S) ≤ size targets) by (apply subseteq_size; set_solver).
    lia.
  - split.
    + intros s Hs. by apply elem_of_reverse, enumerate_elem_of in Hs.
    + intros s t Hs Hnot. exfalso. apply Hnot.
      by apply elem_of_reverse, enumerate_elem_of.
Qed.

Lemma epsilon_closure_order (o1 o2 : iter_order) (S : gset N) :
  epsilon_closure o1 nfa S = epsilon_closure o2 nfa S.
Proof.
  destruct (epsilon_closure_spec o1 S) as (R1 & -> & Hs1 & Hc1 & Hl1).
  destruct (epsilon_closure_spec o2 S) as (R2 & -> & Hs2 & Hc2 & Hl2).
  f_equal. apply (anti_symm (⊆)); auto.
Qed.
End closure.

End closure_facts.

(** ** Subset construction does not depend on the iteration order *)

Module order_facts.
Import dfa closure_facts.

(** One round of [build_loop], spelled out. *)
Lemma build_loop_round order nfa fuel processed b :
  build_loop order nfa (S fuel) processed b =
  if (processed <? vec_size (worklist b))%N then
    if (config.max_dfa_states <? vec_size (b_states b))%N
    then LimitExceeded (b_states b)
    else
      let current := default ∅ (vec_get (worklist b) processed) in
      let '(current_dfa, m) := map_index (set_to_key order current) (state_map b) in
      let b := {| b_states := b_states b; worklist := worklist b; state_map := m |} in
      match expand order nfa (N.to_nat config.ascii_size) current current_dfa 0 b with
      | None => BuildDiverge
      | Some b => build_loop order nfa fuel (processed + 1)%N b
      end
  else Built (b_states b).
Proof. done. Qed.

Section order.
Variable nfa : list nfa_state.
Variables o1 o2 : iter_order.

Lemma enumerate_Permutation (S : gset N) : enumerate o1 S ≡ₚ enumerate o2 S.
Proof. by rewrite !enumerate_perm. Qed.

Global Instance N_le_total : Total N.le.
Proof. intros x y. lia. Qed.

Lemma set_to_key_order (S : gset N) : set_to_key o1 S = set_to_key o2 S.
Proof.
  unfold set_to_key. f_equal.
  apply (Sorted_unique N.le); [apply Sorted_merge_sort, _ .. |].
  rewrite !merge_sort_Permutation. apply enumerate_Permutation.
Qed.

Lemma has_accept_order (S : gset N) : has_accept o1 nfa S = has_accept o2 nfa S.
Proof.
  unfold has_accept. apply eq_true_iff_eq.
  rewrite !existsb_exists. setoid_rewrite <- list_elem_of_In.
  by setoid_rewrite (enumerate_Permutation S).
Qed.

(** The set [move] collects, described without the loop. *)
Lemma move_elem_of (o : iter_order) (current : gset N) (c t : N) :
  t ∈ move o nfa current c ↔
  ∃ s st, s ∈ current ∧ nfa !! N.to_nat s = Some st ∧
    consumes st c = true ∧ has_next1 st = true ∧ t = next1 st.
Proof.
  unfold move.
  transitivity (t ∈ (∅ : gset N) ∨
    ∃ s st, s ∈ enumerate o current ∧ nfa !! N.to_nat s = Some st ∧
      consumes st c = true ∧ has_next1 st = true ∧ t = next1 st).
  - generalize (∅ : gset N). induction (enumerate o current) as [| x l IH];
      intros acc; simpl.
    + split; [by left | intros [| (s & st & Hs & _)]; [done |]].
      by apply elem_of_nil in Hs.
    + rewrite IH. clear IH. split.
      * intros [Hacc | (s & st & Hs & H)].
        -- destruct (nfa !! N.to_nat x) as [stx |] eqn:Hx; [| by left].
           destruct (consumes stx c && has_next1 stx) eqn:Hc; [| by left].
           apply andb_true_iff in Hc as [Hc1 Hc2].
           apply elem_of_union in Hacc as [->%elem_of_singleton | Hacc]; [| by left].
           right. exists x, stx. split; [by left | done].
        -- right. exists s, st. split; [by right | done].
      * intros [Hacc | (s & st & Hs & Hst & Hc1 & Hc2 & ->)].
        -- left. destruct (nfa !! N.to_nat x) as [stx |]; [| done].
           destruct (consumes stx c && has_next1 stx); [set_solver | done].
        -- apply elem_of_cons in Hs as [-> | Hs].
           ++ left. rewrite Hst, Hc1, Hc2. simpl. set_solver.
           ++ right. exists s, st. done.
  - split.
    + intros [Hin | (s & st & Hs & H)]; [set_solver |].
      exists s, st. split; [by apply enumerate_elem_of in Hs | done].
    + intros (s & st & Hs & H). right.
      exists s, st. split; [by apply enumerate_elem_of | done].
Qed.

Lemma move_order (current : gset N) (c : N) :
  move o1 nfa current c = move o2 nfa current c.
Proof. apply set_eq. intros t. by rewrite !move_elem_of. Qed.

Lemma intern_order (S : gset N) (b : builder) :
  intern o1 nfa S b = intern o2 nfa S b.
Proof. unfold intern. by rewrite set_to_key_order, has_accept_order. Qed.

Lemma expand_byte_order current current_dfa c b :
  expand_byte o1 nfa current current_dfa c b
  = expand_byte o2 nfa current current_dfa c b.
Proof.
  unfold expand_byte. rewrite move_order.
  destruct (bool_decide _); [done |].
  rewrite (epsilon_closure_order nfa o1 o2).
  destruct (epsilon_closure o2 nfa _) as [R |]; [| done]. simpl.
  by rewrite intern_order.
Qed.

Lemma expand_order current current_dfa : ∀ cnt c b,
  expand o1 nfa cnt current current_dfa c b
  = expand o2 nfa cnt current current_dfa c b.
Proof.
  induction cnt as [| cnt IH]; intros c b; simpl; [done |].
  rewrite expand_byte_order.
  destruct (expand_byte o2 nfa current current_dfa c b) as [b' |]; [| done].
  simpl. apply IH.
Qed.

Lemma build_loop_order : ∀ fuel processed b,
  build_loop o1 nfa fuel processed b = build_loop o2 nfa fuel processed b.
Proof.
  induction fuel as [| fuel IH]; intros processed b; [done |].
  rewrite !build_loop_round.
  destruct (processed <? _)%N; [| done]. destruct (_ <? _)%N; [done |].
  cbv zeta. rewrite set_to_key_order.
  destruct (map_index _ _) as [current_dfa m].
  rewrite expand_order. destruct (expand o2 nfa _ _ _ _ _); [| done].
  apply IH.
Qed.

Lemma build_dfa_order nfa_start :
  build_dfa o1 nfa nfa_start = build_dfa o2 nfa nfa_start.
Proof.
  unfold build_dfa. destruct (bool_decide _); [done |].
  rewrite (epsilon_closure_order nfa o1 o2).
  destruct (epsilon_closure o2 nfa _) as [R |]; [| done].
  by rewrite has_accept_order, set_to_key_order, build_loop_order.
Qed.
End order.

Lemma compile_order (o1 o2 : iter_order) (pattern : list ascii) :
  compile o1 pattern = compile o2 pattern.
Proof.
  unfold compile. destruct (build_nfa pattern) as [[nfa nfa_start] | |]; [| done ..].
  by rewrite (build_dfa_order nfa o1 o2).
Qed.

Lemma compile_regex_order (o1 o2 : iter_order) (pattern : list ascii) :
  regex.compile_regex o1 pattern = regex.compile_regex o2 pattern.
Proof. unfold regex.compile_regex. by rewrite (compile_order o1 o2). Qed.

End order_facts.

(** ** The state cap of the subset construction *)

Module builder_facts.
Import dfa closure_facts order_facts.

Section builder.
Variable order : iter_order.
Variable nfa : list nfa_state.

Local Open Scope N_scope.

Lemma intern_size X b :
  let r := intern order nfa X b in
  vec_size (b_states b) ≤ vec_size (b_states r.2) ≤ vec_size (b_states b) + 1 ∧
  (vec_size (worklist b) = vec_size (b_states b) →
   vec_size (worklist r.2) = vec_size (b_states r.2)).
Proof.
  unfold intern. destruct (state_map b !! _); simpl; [split; [lia | done] |].
  destruct (has_accept order nfa X); simpl; split; lia.
Qed.

Lemma expand_byte_size current current_dfa c b :
  ∃ b', expand_byte order nfa current current_dfa c b = Some b' ∧
    vec_size (b_states b) ≤ vec_size (b_states b') ≤ vec_size (b_states b) + 1 ∧
    (vec_size (worklist b) = vec_size (b_states b) →
     vec_size (worklist b') = vec_size (b_states b')).
Proof.
  unfold expand_byte. destruct (bool_decide _).
  { exists b. split; [done |]. split; [lia | done]. }
  destruct (epsilon_closure_spec nfa order (move order nfa current c))
    as (R & -> & _). simpl.
  pose proof (intern_size R b) as Hlen.
  destruct (intern order nfa R b) as [next_dfa b1]. simpl in Hlen.
  eexists. split; [done |]. done.
Qed.

Lemma expand_size current current_dfa : ∀ cnt c b,
  ∃ b', expand order nfa cnt current current_dfa c b = Some b' ∧
    vec_size (b_states b) ≤ vec_size (b_states b')
      ≤ vec_size (b_states b) + N.of_nat cnt ∧
    (vec_size (worklist b) = vec_size (b_states b) →
     vec_size (worklist b') = vec_size (b_states b')).
Proof.
  induction cnt as [| cnt IH]; intros c b; simpl expand.
  { exists b. split; [done |]. split; [lia | done]. }
  destruct (expand_byte_size current current_dfa c b) as (b1 & -> & Hl1 & Hw1).
  simpl. destruct (IH (c + 1) b1) as (b2 & -> & Hl2 & Hw2).
  exists b2. split; [done |]. split; [lia | auto].
Qed.

Lemma build_loop_stop processed b :
  build_loop order nfa 0 processed b =
  if processed <? vec_size (worklist b) then BuildDiverge else Built (b_states b).
Proof. done. Qed.

(** When the limit check fires, the table already holds more states
    than the cap allows: those added by the round before. *)
Lemma build_loop_limit : ∀ fuel processed b states,
  vec_size (b_states b) ≤ config.max_dfa_states + 128 →
  build_loop order nfa fuel processed b = LimitExceeded states →
  config.max_dfa_states < vec_size states ≤ config.max_dfa_states + 128.
Proof.
  induction fuel as [| fuel IH]; intros processed b states Hlen.
  { rewrite build_loop_stop. by destruct (_ <? _). }
  rewrite build_loop_round.
  destruct (processed <? _); [| done].
  destruct (N.ltb_spec config.max_dfa_states (vec_size (b_states b))) as [Hgt | Hle].
  { intros [= <-]. lia. }
  cbv zeta. destruct (map_index _ _) as [current_dfa m].
  match goal with |- context [expand order nfa ?cnt ?cur ?d ?c ?b0] =>
    destruct (expand_size cur d cnt c b0) as (b' & -> & Hl & _) end.
  cbn [b_states] in Hl. apply IH.
  change (N.of_nat (N.to_nat config.ascii_size)) with 128 in Hl. lia.
Qed.

(** The bound on the rounds of [build_loop] is never reached: every
    round but the last passes the limit check with [processed] below the
    cap. *)
Lemma build_loop_returns : ∀ fuel processed b,
  vec_size (worklist b) = vec_size (b_states b) →
  processed + N.of_nat fuel = config.max_dfa_states + 1 →
  processed ≤ config.max_dfa_states →
  build_loop order nfa fuel processed b ≠ BuildDiverge.
Proof.
  induction fuel as [| fuel IH]; intros processed b Hw Hfuel Hp; [lia |].
  rewrite build_loop_round.
  destruct (N.ltb_spec processed (vec_size (worklist b))) as [Hlt | Hge]; [| done].
  destruct (N.ltb_spec config.max_dfa_states (vec_size (b_states b))) as [Hgt | Hle];
    [done |].
  cbv zeta. destruct (map_index _ _) as [current_dfa m].
  match goal with |- context [expand order nfa ?cnt ?cur ?d ?c ?b0] =>
    destruct (expand_size cur d cnt c b0) as (b' & -> & _ & Hw') end.
  apply IH; [by apply Hw' | lia | lia].
Qed.

Lemma build_dfa_limit nfa_start states :
  build_dfa order nfa nfa_start = LimitExceeded states →
  config.max_dfa_states < vec_size states ≤ config.max_dfa_states + 128.
Proof.
  unfold build_dfa. destruct (bool_decide _); [done |].
  destruct (epsilon_closure order nfa _) as [R |]; [| done].
  apply build_loop_limit. cbn [b_states].
  by destruct (has_accept order nfa R).
Qed.

Lemma build_dfa_returns nfa_start :
  build_dfa order nfa nfa_start ≠ BuildDiverge.
Proof.
  unfold build_dfa. destruct (bool_decide _); [done |].
  destruct (epsilon_closure_spec nfa order {[nfa_start]}) as (R & -> & _).
  apply build_loop_returns.
  - cbn [b_states worklist]. by destruct (has_accept order nfa R).
  - rewrite Nat2N.inj_succ, N2Nat.id. lia.
  - done.
Qed.
End builder.

End builder_facts.

(** ** The DFA matcher *)

Module matcher_facts.
Import dfa matcher.

Lemma dead_row c :
  nth (N.to_nat c) (transitions new_dfa_state) no_transition = no_transition.
Proof.
  unfold new_dfa_state. cbn [transitions]. rewrite nth_lookup.
  destruct (replicate _ _ !! _) as [t |] eqn:Ht; [| done].
  by apply lookup_replicate in Ht as [-> _].
Qed.

Lemma state_at_Some states s st :
  states !! N.to_nat s = Some st → state_at states s = st.
Proof. unfold state_at. by intros ->. Qed.

Lemma state_at_None states s :
  states !! N.to_nat s = None → state_at states s = new_dfa_state.
Proof. unfold state_at. by intros ->. Qed.

Lemma transition_lookup states s c next :
  next ≠ no_transition →
  transition states s c = next ↔
  ∃ st, states !! N.to_nat s = Some st ∧ transitions st !! N.to_nat c = Some next.
Proof.
  intros Hnext. unfold transition. split.
  - destruct (states !! N.to_nat s) as [st |] eqn:Hst.
    + rewrite (state_at_Some _ _ _ Hst), nth_lookup.
      destruct (transitions st !! N.to_nat c) as [t |] eqn:Ht.
      * intros H. exists st. split; [done |]. rewrite <- H. done.
      * intros H. exfalso. apply Hnext. symmetry. exact H.
    + rewrite (state_at_None _ _ Hst), dead_row.
      intros H. exfalso. apply Hnext. symmetry. exact H.
  - intros (st & Hst & Ht). by rewrite (state_at_Some _ _ _ Hst), nth_lookup, Ht.
Qed.

Lemma matches_loop_run states : ∀ text s,
  matches_loop states s text = true ↔
  ∃ s' st, run states s text s' ∧
    states !! N.to_nat s' = Some st ∧ is_accept st = true.
Proof.
  induction text as [| c rest IH]; intros s; simpl.
  - split.
    + destruct (states !! N.to_nat s) as [st |] eqn:Hst.
      * rewrite (state_at_Some _ _ _ Hst).
        intros Hacc. exists s, st. split; [constructor | done].
      * by rewrite (state_at_None _ _ Hst).
    + intros (s' & st & Hrun & Hst & Hacc). inversion Hrun; subst.
      by rewrite (state_at_Some _ _ _ Hst).
  - destruct (N.leb_spec config.ascii_size (byte_of c)) as [Hhi | Hlo].
    { split; [done |]. intros (s' & st & Hrun & _). inversion Hrun; subst. lia. }
    destruct (N.eqb_spec (transition states s (byte_of c)) no_transition)
      as [Hdead | Hlive].
    { split; [done |]. intros (s' & st & Hrun & _). inversion Hrun; subst.
      assert (transition states s (byte_of c) = next)
        by (apply transition_lookup; eauto).
      congruence. }
    rewrite IH. split.
    + intros (s' & st' & Hrun & Hst' & Hacc).
      destruct (proj1 (transition_lookup states s (byte_of c) _ Hlive) eq_refl)
        as (st & Hst & Ht).
      exists s', st'. split; [| done]. by econstructor.
    + intros (s' & st' & Hrun & Hst' & Hacc). inversion Hrun; subst.
      assert (transition states s (byte_of c) = next) as ->
        by (apply transition_lookup; eauto).
      eauto.
Qed.

Lemma matches_loop_non_ascii states : ∀ text s,
  Exists (λ c, (config.ascii_size ≤ byte_of c)%N) text →
  matches_loop states s text = false.
Proof.
  induction text as [| c rest IH]; intros s Hex; [by apply Exists_nil in Hex |].
  simpl. destruct (N.leb_spec config.ascii_size (byte_of c)) as [Hhi | Hlo]; [done |].
  destruct (_ =? _)%N; [done |]. apply IH.
  apply Exists_cons in Hex as [Hc | Hex]; [lia | done].
Qed.

Lemma run_dead_stops states c post : ∀ pre s0 s s',
  run states s0 pre s →
  transition states s (byte_of c) = no_transition →
  ¬ run states s0 (pre ++ c :: post) s'.
Proof.
  induction pre as [| a pre IH]; intros s0 s s' Hpre Hdead Hrun.
  - inversion Hpre; subst. inversion Hrun; subst.
    assert (transition states s (byte_of c) = next)
      by (apply transition_lookup; eauto).
    congruence.
  - inversion Hpre; subst. inversion Hrun; subst. simplify_eq.
    by eapply IH.
Qed.

Lemma search_from_bound states : ∀ (tail : list ascii) start s,
  search_from states start tail = Some s → start ≤ s < start + length tail.
Proof.
  induction tail as [| c rest IH]; intros start s; [done |].
  cbn [search_from].
  destruct (search_inner _ _ _); [intros [= <-]; simpl; lia |].
  destruct (is_accept _); [intros [= <-]; simpl; lia |].
  intros H%IH. simpl. lia.
Qed.

End matcher_facts.

(** ** The parser never reads past a top-level closing parenthesis *)

Module parser_facts.
Import dfa parser_spec.

Lemma bind_run {A B} (m : parser A) (k : A → parser B) st :
  (m ≫= k) st =
  match m st with
  | Ok (a, st') => k a st'
  | Throw what => Throw what
  | Diverge => Diverge
  end.
Proof. done. Qed.

Lemma keeps_bind {A B} (m : parser A) (k : A → parser B) :
  keeps m → (∀ a, keeps (k a)) → keeps (m ≫= k).
Proof.
  intros Hm Hk st r st'. rewrite bind_run.
  destruct (m st) as [[a st1] | |] eqn:E; [| done ..].
  intros H. rewrite (Hk _ _ _ _ H). by eapply Hm.
Qed.

Lemma keeps_ret {A} (a : A) : keeps (mret a : parser A).
Proof. by intros st r st' [= _ <-]. Qed.

Lemma keeps_push s : keeps (push_state s).
Proof. by intros st r st' [= _ <-]. Qed.

Lemma keeps_modify f : keeps (modify_nfa f).
Proof. by intros st r st' [= _ <-]. Qed.

Lemma keeps_single k c cc : keeps (single k c cc).
Proof. apply keeps_bind; [apply keeps_push | intros a; apply keeps_ret]. Qed.

Lemma keeps_make_star inner : keeps (make_star inner).
Proof.
  apply keeps_bind; [apply keeps_push | intros a].
  apply keeps_bind; [apply keeps_modify | intros b; apply keeps_ret].
Qed.

Lemma keeps_make_plus inner : keeps (make_plus inner).
Proof.
  apply keeps_bind; [apply keeps_push | intros a].
  apply keeps_bind; [apply keeps_modify | intros b; apply keeps_ret].
Qed.

Lemma keeps_make_optional inner : keeps (make_optional inner).
Proof.
  apply keeps_bind; [apply keeps_push | intros a].
  apply keeps_bind; [apply keeps_push | intros b].
  apply keeps_bind; [apply keeps_modify | intros c].
  apply keeps_bind; [apply keeps_modify | intros d; apply keeps_ret].
Qed.

Section prefix.
Variables (u w : list ascii).
Local Abbreviation ext := (u ++ ")"%char :: w).
Local Abbreviation carries_from := (carries_from u).
Local Abbreviation carries := (carries u).

Lemma at_ext p : p < length u → at_ ext p = at_ u p.
Proof. intros Hp. unfold at_. by rewrite app_nth1. Qed.

Lemma at_paren : at_ ext (length u) = ")"%char.
Proof. unfold at_. rewrite app_nth2 by lia. by rewrite Nat.sub_diag. Qed.

Lemma ext_leb p : p ≤ length u → (length ext <=? p) = false.
Proof. intros Hp. apply Nat.leb_gt. rewrite length_app. simpl. lia. Qed.

Lemma ext_ltb p : p ≤ length u → (p <? length ext) = true.
Proof. intros Hp. apply Nat.ltb_lt. rewrite length_app. simpl. lia. Qed.

Lemma carries_from_bind {A B} p (m1 m2 : parser A) (k1 k2 : A → parser B) :
  carries_from p m1 m2 →
  (∀ a q, q ≤ length u → carries_from q (k1 a) (k2 a)) →
  carries_from p (m1 ≫= k1) (m2 ≫= k2).
Proof.
  intros Hm Hk st r st' Hp. rewrite !bind_run.
  destruct (m1 st) as [[a st1] | |] eqn:E; [| done ..].
  destruct (Hm st a st1 Hp E) as [-> Hq]. by apply (Hk a (pos st1)).
Qed.

Lemma carries_from_keep {A B} p (m : parser A) (k1 k2 : A → parser B) :
  keeps m → (∀ a, carries_from p (k1 a) (k2 a)) →
  carries_from p (m ≫= k1) (m ≫= k2).
Proof.
  intros Hm Hk st r st' Hp. rewrite !bind_run.
  destruct (m st) as [[a st1] | |] eqn:E; [| done ..].
  apply Hk. rewrite <- Hp. by eapply Hm.
Qed.

Lemma carries_from_get {A} p (k1 k2 : nat → parser A) :
  carries_from p (k1 p) (k2 p) →
  carries_from p (get_pos ≫= k1) (get_pos ≫= k2).
Proof.
  intros Hk st r st' Hp. rewrite !bind_run. unfold get_pos. rewrite Hp.
  by apply Hk.
Qed.

Lemma carries_from_set {A} p q (k1 k2 : () → parser A) :
  carries_from q (k1 ()) (k2 ()) →
  carries_from p (set_pos q ≫= k1) (set_pos q ≫= k2).
Proof.
  intros Hk st r st' Hp. rewrite !bind_run. unfold set_pos. by apply Hk.
Qed.

Lemma carries_from_end {A} p (m : parser A) :
  keeps m → p ≤ length u → carries_from p m m.
Proof.
  intros Hm Hp st r st' Hst H. split; [done |].
  rewrite (Hm _ _ _ H). lia.
Qed.

Lemma carries_from_throw {A} p what (f2 : parser A) :
  carries_from p (throw what) f2.
Proof. by intros st r st' _. Qed.

Lemma carries_from_diverge {A} p (f2 : parser A) :
  carries_from p diverge f2.
Proof. by intros st r st' _. Qed.

Lemma parse_escape_carries p :
  p ≤ length u → carries_from p (parse_escape u) (parse_escape ext).
Proof.
  intros Hp. unfold parse_escape. apply carries_from_get.
  rewrite (ext_leb p Hp).
  destruct (Nat.leb_spec (length u) p) as [Hge | Hlt];
    [apply carries_from_throw |].
  rewrite (at_ext p Hlt). apply carries_from_set.
  repeat case_match; apply carries_from_end; (apply keeps_single || lia).
Qed.

Lemma class_items_step pattern fuel p cc :
  class_items pattern fuel p cc =
  if (p <? length pattern) && char_neq (at_ pattern p) "]" then
    match fuel with
    | 0 => None
    | S fuel' =>
        if Ascii.eqb (at_ pattern p) "\" && (S p <? length pattern) then
          class_items pattern fuel' (S (S p))
            (add_escape_to_class cc (at_ pattern (S p)))
        else if (S (S p) <? length pattern) && Ascii.eqb (at_ pattern (S p)) "-"
                && char_neq (at_ pattern (S (S p))) "]" then
          class_items pattern fuel' (S (S (S p)))
            (cc_set_range cc (at_ pattern p) (at_ pattern (S (S p))))
        else class_items pattern fuel' (S p) (cc_set cc (at_ pattern p))
    end
  else Some (p, cc).
Proof. destruct fuel; [done |]. simpl. by rewrite !Nat.add_1_r. Qed.

Lemma class_items_ge pattern : ∀ fuel p cc pf cc',
  class_items pattern fuel p cc = Some (pf, cc') → p ≤ pf.
Proof.
  induction fuel as [| fuel IH]; intros p cc pf cc'; rewrite class_items_step.
  - destruct (_ && _); [done | intros [= <- _]; lia].
  - destruct (_ && _); [| intros [= <- _]; lia].
    repeat case_match; intros Hrec%IH; lia.
Qed.

(** A class that closes inside [u] is read the same way in [ext]. *)
Lemma class_items_carries : ∀ fuel1 fuel2 p cc pf cc',
  fuel1 ≤ fuel2 → pf < length u →
  class_items u fuel1 p cc = Some (pf, cc') →
  class_items ext fuel2 p cc = Some (pf, cc').
Proof.
  induction fuel1 as [| fuel1 IH]; intros fuel2 p cc pf cc' Hfuel Hpf;
    rewrite (class_items_step u), (class_items_step ext).
  - destruct (Nat.ltb_spec p (length u)) as [Hlt | Hge]; simpl.
    + rewrite (ext_ltb p), (at_ext p) by lia. simpl.
      by destruct (char_neq _ _).
    + intros [= <- _]. lia.
  - destruct (Nat.ltb_spec p (length u)) as [Hlt | Hge]; simpl;
      [| intros [= <- _]; lia].
    rewrite (ext_ltb p), (at_ext p) by lia. simpl.
    destruct (char_neq (at_ u p) "]"); [| done].
    destruct fuel2 as [| fuel2]; [lia |].
    destruct (Nat.ltb_spec (S p) (length u)) as [Hlt1 | Hge1].
    + rewrite (ext_ltb (S p)), (at_ext (S p)) by lia.
      destruct (Ascii.eqb (at_ u p) "\"); simpl; [apply IH; lia |].
      destruct (Nat.ltb_spec (S (S p)) (length u)) as [Hlt2 | Hge2].
      * rewrite (ext_ltb (S (S p))), (at_ext (S (S p))) by lia.
        simpl. case_match; apply IH; lia.
      * simpl. intros H.
        assert (Hend : S p ≤ pf) by (by eapply class_items_ge).
        destruct (Ascii.eqb_spec (at_ u (S p)) "-") as [Hdash | Hno].
        -- exfalso. rewrite class_items_step in H.
           destruct (Nat.ltb_spec (S p) (length u)) as [_ | ?]; [| lia].
           rewrite Hdash in H. simpl in H.
           destruct fuel1 as [| fuel1]; [done |].
           destruct (Nat.ltb_spec (S (S p)) (length u)) as [? | _]; [lia |].
           simpl in H.
           destruct (Nat.ltb_spec (S (S (S p))) (length u)) as [? | _]; [lia |].
           simpl in H. apply class_items_ge in H. lia.
        -- rewrite andb_false_r. simpl. apply IH; [lia | done | done].
    + rewrite andb_false_r. simpl.
      destruct (Nat.ltb_spec (S (S p)) (length u)) as [? | _]; [lia |].
      simpl. intros H%class_items_ge. lia.
Qed.

Lemma carries_from_never {A} p (f1 f2 : parser A) :
  (∀ st r st', f1 st ≠ Ok (r, st')) → carries_from p f1 f2.
Proof. intros Hno st r st' _ H. by apply Hno in H. Qed.

Lemma parse_char_class_carries p :
  p ≤ length u → carries_from p (parse_char_class u) (parse_char_class ext).
Proof.
  intros Hp. unfold parse_char_class. apply carries_from_get. cbv zeta.
  destruct (Nat.ltb_spec (S p) (length u)) as [Hlt | Hge].
  - rewrite (ext_ltb (S p)), (at_ext (S p)) by lia. simpl.
    set (negated := Ascii.eqb (at_ u (S p)) "^").
    set (q := if negated then S (S p) else S p).
    destruct (class_items u (length u) q cc_empty) as [[pf cc] |] eqn:E;
      [| apply carries_from_diverge].
    destruct (Nat.leb_spec (length u) pf) as [Hout | Hin].
    + apply carries_from_never. intros st r st'. rewrite bind_run. simpl.
      by destruct (Nat.leb_spec (length u) pf); [| lia].
    + rewrite (class_items_carries (length u) (length ext) q cc_empty pf cc);
        [| rewrite length_app; lia | done | done].
      apply carries_from_set. rewrite (ext_leb pf) by lia.
      destruct (Nat.leb_spec (length u) pf); [lia |].
      apply carries_from_set. apply carries_from_end; [apply keeps_single | lia].
  - apply carries_from_never. intros st r st'. simpl.
    destruct (Nat.ltb_spec (S p) (length u)); [lia |]. simpl.
    rewrite class_items_step.
    destruct (Nat.ltb_spec (S p) (length u)); [lia |]. simpl.
    rewrite bind_run. simpl.
    by destruct (Nat.leb_spec (length u) (S p)); [| lia].
Qed.

Section levels.
Variables inner1 inner2 : parser nfa_fragment.
Hypothesis Hinner : carries inner1 inner2.

Lemma parse_atom_carries p :
  p ≤ length u →
  carries_from p (parse_atom u inner1) (parse_atom ext inner2).
Proof.
  intros Hp. unfold parse_atom. apply carries_from_get.
  rewrite (ext_leb p Hp).
  destruct (Nat.leb_spec (length u) p) as [Hge | Hlt];
    [apply carries_from_throw |].
  rewrite (at_ext p Hlt).
  destruct (Ascii.eqb (at_ u p) "(").
  { apply carries_from_set. apply carries_from_bind; [apply Hinner; lia |].
    intros inner q Hq. apply carries_from_get. rewrite (ext_leb q Hq).
    destruct (Nat.leb_spec (length u) q) as [Hge' | Hlt'];
      [apply carries_from_throw |].
    rewrite (at_ext q Hlt'). simpl.
    destruct (char_neq (at_ u q) ")"); [apply carries_from_throw |].
    apply carries_from_set. apply carries_from_end; [apply keeps_ret | lia]. }
  destruct (Ascii.eqb (at_ u p) "["); [by apply parse_char_class_carries |].
  destruct (Ascii.eqb (at_ u p) ".").
  { apply carries_from_set. apply carries_from_end; [apply keeps_single | lia]. }
  destruct (Ascii.eqb (at_ u p) "\").
  { apply carries_from_set. apply parse_escape_carries. lia. }
  destruct (_ || _);
    apply carries_from_set; (apply carries_from_end; [apply keeps_single | lia]).
Qed.

Lemma parse_quantified_carries p :
  p ≤ length u →
  carries_from p (parse_quantified u inner1) (parse_quantified ext inner2).
Proof.
  intros Hp. unfold parse_quantified.
  apply carries_from_bind; [by apply parse_atom_carries |].
  intros base q Hq. apply carries_from_get. rewrite (ext_leb q Hq).
  destruct (Nat.leb_spec (length u) q) as [Hge | Hlt].
  - assert (q = length u) as -> by lia. rewrite at_paren. simpl.
    apply carries_from_end; [apply keeps_ret | lia].
  - rewrite (at_ext q Hlt).
    repeat case_match;
      try (apply carries_from_set; apply carries_from_end;
           [first [apply keeps_make_star | apply keeps_make_plus
                  | apply keeps_make_optional] | lia]).
    apply carries_from_end; [apply keeps_ret | lia].
Qed.

Lemma concatenation_loop_step pattern inner fuel result first :
  concatenation_loop pattern inner fuel result first =
  (p ← get_pos;
   if (p <? length pattern) && char_neq (at_ pattern p) "|"
      && char_neq (at_ pattern p) ")" then
     match fuel with
     | 0 => diverge
     | S fuel' =>
         atom ← parse_quantified pattern inner;
         if first then concatenation_loop pattern inner fuel' atom false
         else
           _ ← patch (end_ result) (start atom);
           concatenation_loop pattern inner fuel'
             (Fragment (start result) (end_ atom)) false
     end
   else mret (result, first)).
Proof. by destruct fuel. Qed.

Lemma concatenation_loop_carries : ∀ fuel1 fuel2 result first p,
  fuel1 ≤ fuel2 → p ≤ length u →
  carries_from p (concatenation_loop u inner1 fuel1 result first)
                 (concatenation_loop ext inner2 fuel2 result first).
Proof.
  induction fuel1 as [| fuel1 IH]; intros fuel2 result first p Hfuel Hp;
    rewrite !concatenation_loop_step; apply carries_from_get;
    rewrite (ext_ltb p Hp).
  - destruct (Nat.ltb_spec p (length u)) as [Hlt | Hge].
    + rewrite (at_ext p Hlt). destruct (_ && _); [apply carries_from_diverge |].
      apply carries_from_end; [apply keeps_ret | lia].
    + assert (p = length u) as -> by lia. rewrite at_paren. simpl.
      apply carries_from_end; [apply keeps_ret | lia].
  - destruct (Nat.ltb_spec p (length u)) as [Hlt | Hge].
    + rewrite (at_ext p Hlt).
      destruct (_ && _); [| apply carries_from_end; [apply keeps_ret | lia]].
      destruct fuel2 as [| fuel2]; [lia |].
      apply carries_from_bind; [by apply parse_quantified_carries |].
      intros atom q Hq. destruct first; [apply IH; lia |].
      apply carries_from_keep; [apply keeps_modify |].
      intros _. apply IH; lia.
    + assert (p = length u) as -> by lia. rewrite at_paren. simpl.
      apply carries_from_end; [apply keeps_ret | lia].
Qed.

Lemma parse_concatenation_carries p :
  p ≤ length u →
  carries_from p (parse_concatenation u inner1) (parse_concatenation ext inner2).
Proof.
  intros Hp. unfold parse_concatenation.
  apply carries_from_bind.
  - apply concatenation_loop_carries; [rewrite length_app; lia | done].
  - intros r q Hq. destruct r.2; apply carries_from_end;
      first [apply keeps_single | apply keeps_ret | lia].
Qed.

Lemma alternation_loop_step pattern inner fuel left :
  alternation_loop pattern inner fuel left =
  (p ← get_pos;
   if (p <? length pattern) && Ascii.eqb (at_ pattern p) "|" then
     match fuel with
     | 0 => diverge
     | S fuel' =>
         _ ← set_pos (S p);
         right ← parse_concatenation pattern inner;
         split ← push_state (mk_state epsilon "000" cc_empty (start left) (start right));
         join ← push_state (mk_state epsilon "000" cc_empty no_transition no_transition);
         _ ← patch (end_ left) join;
         _ ← patch (end_ right) join;
         alternation_loop pattern inner fuel' (Fragment split join)
     end
   else mret left).
Proof. by destruct fuel. Qed.

Lemma alternation_loop_carries : ∀ fuel1 fuel2 left p,
  fuel1 ≤ fuel2 → p ≤ length u →
  carries_from p (alternation_loop u inner1 fuel1 left)
                 (alternation_loop ext inner2 fuel2 left).
Proof.
  induction fuel1 as [| fuel1 IH]; intros fuel2 left p Hfuel Hp;
    rewrite !alternation_loop_step; apply carries_from_get;
    rewrite (ext_ltb p Hp).
  - destruct (Nat.ltb_spec p (length u)) as [Hlt | Hge].
    + rewrite (at_ext p Hlt). destruct (_ && _); [apply carries_from_diverge |].
      apply carries_from_end; [apply keeps_ret | lia].
    + assert (p = length u) as -> by lia. rewrite at_paren. simpl.
      apply carries_from_end; [apply keeps_ret | lia].
  - destruct (Nat.ltb_spec p (length u)) as [Hlt | Hge].
    + rewrite (at_ext p Hlt).
      destruct (_ && _); [| apply carries_from_end; [apply keeps_ret | lia]].
      destruct fuel2 as [| fuel2]; [lia |].
      apply carries_from_set.
      apply carries_from_bind; [apply parse_concatenation_carries; lia |].
      intros right q Hq.
      apply carries_from_keep; [apply keeps_push | intros split].
      apply carries_from_keep; [apply keeps_push | intros join].
      apply carries_from_keep; [apply keeps_modify | intros _].
      apply carries_from_keep; [apply keeps_modify | intros _].
      apply IH; lia.
    + assert (p = length u) as -> by lia. rewrite at_paren. simpl.
      apply carries_from_end; [apply keeps_ret | lia].
Qed.

Lemma parse_alternation_carries p :
  p ≤ length u →
  carries_from p (parse_alternation u inner1) (parse_alternation ext inner2).
Proof.
  intros Hp. unfold parse_alternation.
  apply carries_from_bind; [by apply parse_concatenation_carries |].
  intros left q Hq. apply alternation_loop_carries; [| done].
  rewrite length_app. lia.
Qed.
End levels.

Lemma parse_regex_carries : ∀ depth1 depth2,
  depth1 ≤ depth2 → carries (parse_regex u depth1) (parse_regex ext depth2).
Proof.
  induction depth1 as [| depth1 IH]; intros depth2 Hd p Hp.
  - apply carries_from_diverge.
  - destruct depth2 as [| depth2]; [lia |]. simpl.
    apply parse_alternation_carries; [| done]. apply IH. lia.
Qed.

(** Whatever follows a closing parenthesis that the parser meets at the
    top level is never read. *)
Lemma build_nfa_prefix r :
  build_nfa u = Ok r → build_nfa ext = Ok r.
Proof.
  unfold build_nfa.
  destruct (parse_regex u (S (length u)) _) as [[frag st] | |] eqn:E; [| done ..].
  assert (Hd : S (length u) ≤ S (length ext)) by (rewrite length_app; lia).
  destruct (parse_regex_carries _ _ Hd 0 ltac:(lia)
              {| ps_states := []; pos := 0 |} _ _ eq_refl E) as [-> _].
  done.
Qed.
End prefix.
End parser_facts.

(** ** The parser returns or throws on every source *)

Module progress_facts.
Import dfa parser_spec parser_facts.

Lemma returns_bind {A B} (m : parser A) (k : A → parser B) :
  returns m → (∀ a, returns (k a)) → returns (m ≫= k).
Proof.
  intros Hm Hk st. rewrite bind_run.
  destruct (Hm st) as (a & st1 & -> & Hp1).
  destruct (Hk a st1) as (b & st2 & -> & Hp2).
  exists b, st2. split; [done | congruence].
Qed.

Lemma returns_ret {A} (a : A) : returns (mret a : parser A).
Proof. intros st. by exists a, st. Qed.

Lemma returns_push s : returns (push_state s).
Proof. intros st. by eexists _, _. Qed.

Lemma returns_modify f : returns (modify_nfa f).
Proof. intros st. by eexists _, _. Qed.

Lemma returns_single k c cc : returns (single k c cc).
Proof. apply returns_bind; [apply returns_push | intros a; apply returns_ret]. Qed.

Lemma returns_make_star inner : returns (make_star inner).
Proof.
  apply returns_bind; [apply returns_push | intros a].
  apply returns_bind; [apply returns_modify | intros b; apply returns_ret].
Qed.

Lemma returns_make_plus inner : returns (make_plus inner).
Proof.
  apply returns_bind; [apply returns_push | intros a].
  apply returns_bind; [apply returns_modify | intros b; apply returns_ret].
Qed.

Lemma returns_make_optional inner : returns (make_optional inner).
Proof.
  apply returns_bind; [apply returns_push | intros a].
  apply returns_bind; [apply returns_push | intros b].
  apply returns_bind; [apply returns_modify | intros c].
  apply returns_bind; [apply returns_modify | intros d; apply returns_ret].
Qed.

Section progress.
Variable pattern : list ascii.
Local Abbreviation within := (within pattern).

Lemma within_bind {A B} lo1 lo p (m : parser A) (k : A → parser B) :
  within lo1 p m →
  (∀ a q, lo1 ≤ q ≤ length pattern → within lo q (k a)) →
  within lo p (m ≫= k).
Proof.
  intros Hm Hk st Hp. rewrite bind_run. specialize (Hm st Hp).
  destruct (m st) as [[a st1] | |]; [| done ..].
  by apply (Hk a (pos st1)).
Qed.

Lemma within_keep {A B} lo p (m : parser A) (k : A → parser B) :
  returns m → (∀ a, within lo p (k a)) → within lo p (m ≫= k).
Proof.
  intros Hm Hk st Hp. rewrite bind_run.
  destruct (Hm st) as (a & st1 & -> & Hp1). apply Hk. congruence.
Qed.

Lemma within_get {A} lo p (k : nat → parser A) :
  within lo p (k p) → within lo p (get_pos ≫= k).
Proof. intros Hk st Hp. rewrite bind_run. unfold get_pos. rewrite Hp. by apply Hk. Qed.

Lemma within_set {A} lo p q (k : () → parser A) :
  within lo q (k ()) → within lo p (set_pos q ≫= k).
Proof. intros Hk st Hp. rewrite bind_run. unfold set_pos. by apply Hk. Qed.

Lemma within_end {A} lo p (m : parser A) :
  returns m → lo ≤ p ≤ length pattern → within lo p m.
Proof.
  intros Hm Hp st Hst. destruct (Hm st) as (a & st1 & -> & Hp1). lia.
Qed.

Lemma within_throw {A} lo p what : within lo p (throw what : parser A).
Proof. by intros st _. Qed.

Lemma within_weaken {A} lo lo' p (f : parser A) :
  lo' ≤ lo → within lo p f → within lo' p f.
Proof.
  intros Hlo Hf st Hp. specialize (Hf st Hp).
  destruct (f st) as [[a st1] | |]; [lia | done ..].
Qed.

Lemma parse_escape_within p :
  p ≤ length pattern → within (S p) p (parse_escape pattern).
Proof.
  intros Hp. unfold parse_escape. apply within_get.
  destruct (Nat.leb_spec (length pattern) p) as [Hge | Hlt];
    [apply within_throw |].
  apply within_set.
  repeat case_match; apply within_end; (apply returns_single || lia).
Qed.

Lemma class_items_within : ∀ fuel p cc,
  p ≤ length pattern → length pattern ≤ p + fuel →
  ∃ pf cc', class_items pattern fuel p cc = Some (pf, cc') ∧
    p ≤ pf ≤ length pattern.
Proof.
  induction fuel as [| fuel IH]; intros p cc Hp Hfuel; rewrite class_items_step.
  - destruct (Nat.ltb_spec p (length pattern)); [lia |]. simpl.
    exists p, cc. split; [done | lia].
  - destruct (Nat.ltb_spec p (length pattern)) as [Hlt | Hge]; simpl;
      [| exists p, cc; split; [done | lia]].
    destruct (char_neq _ _); [| exists p, cc; split; [done | lia]].
    destruct (Ascii.eqb _ _ && (S p <? _)) eqn:E1.
    { apply andb_true_iff in E1 as [_ E1%Nat.ltb_lt].
      destruct (IH (S (S p)) (add_escape_to_class cc (at_ pattern (S p))))
        as (pf & cc' & -> & Hb); [lia | lia |].
      exists pf, cc'. split; [done | lia]. }
    destruct ((S (S p) <? _) && _ && _) eqn:E2.
    { apply andb_true_iff in E2 as [E2 _].
      apply andb_true_iff in E2 as [E2%Nat.ltb_lt _].
      destruct (IH (S (S (S p)))
                  (cc_set_range cc (at_ pattern p) (at_ pattern (S (S p)))))
        as (pf & cc' & -> & Hb); [lia | lia |].
      exists pf, cc'. split; [done | lia]. }
    destruct (IH (S p) (cc_set cc (at_ pattern p)))
      as (pf & cc' & -> & Hb); [lia | lia |].
    exists pf, cc'. split; [done | lia].
Qed.

Lemma parse_char_class_within p :
  p < length pattern → within (S p) p (parse_char_class pattern).
Proof.
  intros Hp. unfold parse_char_class. apply within_get. cbv zeta.
  set (negated := (S p <? length pattern) && Ascii.eqb (at_ pattern (S p)) "^").
  assert (Hq : S p ≤ (if negated then S (S p) else S p) ≤ length pattern).
  { unfold negated. destruct (Nat.ltb_spec (S p) (length pattern)); simpl;
      [destruct (Ascii.eqb _ _) |]; lia. }
  destruct (class_items_within (length pattern)
              (if negated then S (S p) else S p) cc_empty)
    as (pf & cc' & -> & Hb); [lia | lia |].
  apply within_set.
  destruct (Nat.leb_spec (length pattern) pf); [apply within_throw |].
  apply within_set. apply within_end; [apply returns_single | lia].
Qed.

Section levels.
Variable inner : parser nfa_fragment.
Variable p0 : nat.
Hypothesis Hinner : ∀ q, p0 < q ≤ length pattern → within q q inner.

Lemma parse_atom_within p :
  p0 ≤ p ≤ length pattern → within (S p) p (parse_atom pattern inner).
Proof.
  intros Hp. unfold parse_atom. apply within_get.
  destruct (Nat.leb_spec (length pattern) p) as [Hge | Hlt];
    [apply within_throw |].
  destruct (Ascii.eqb (at_ pattern p) "(").
  { apply within_set. apply (within_bind (S p)); [apply Hinner; lia |].
    intros frag q Hq. apply within_get.
    destruct (Nat.leb_spec (length pattern) q); simpl; [apply within_throw |].
    destruct (char_neq _ _); [apply within_throw |].
    apply within_set. apply within_end; [apply returns_ret | lia]. }
  destruct (Ascii.eqb (at_ pattern p) "["); [by apply parse_char_class_within |].
  destruct (Ascii.eqb (at_ pattern p) ".").
  { apply within_set. apply within_end; [apply returns_single | lia]. }
  destruct (Ascii.eqb (at_ pattern p) "\").
  { apply within_set. apply (within_weaken (S (S p))); [lia |].
    apply parse_escape_within. lia. }
  destruct (_ || _);
    apply within_set; (apply within_end; [apply returns_single | lia]).
Qed.

Lemma parse_quantified_within p :
  p0 ≤ p ≤ length pattern → within (S p) p (parse_quantified pattern inner).
Proof.
  intros Hp. unfold parse_quantified.
  apply (within_bind (S p)); [by apply parse_atom_within |].
  intros base q Hq. apply within_get.
  destruct (Nat.leb_spec (length pattern) q) as [Hge | Hlt];
    [apply within_end; [apply returns_ret | lia] |].
  repeat case_match;
    try (apply within_set; apply within_end;
         [first [apply returns_make_star | apply returns_make_plus
                | apply returns_make_optional] | lia]).
  apply within_end; [apply returns_ret | lia].
Qed.

Lemma concatenation_loop_within : ∀ fuel result first p,
  p0 ≤ p ≤ length pattern → length pattern ≤ p + fuel →
  within p p (concatenation_loop pattern inner fuel result first).
Proof.
  induction fuel as [| fuel IH]; intros result first p Hp Hfuel;
    rewrite concatenation_loop_step; apply within_get.
  - destruct (Nat.ltb_spec p (length pattern)); [lia |]. simpl.
    apply within_end; [apply returns_ret | lia].
  - destruct (_ && _); [| apply within_end; [apply returns_ret | lia]].
    apply (within_bind (S p)); [by apply parse_quantified_within |].
    intros atom q Hq. apply (within_weaken q); [lia |].
    destruct first; [apply IH; lia |].
    apply within_keep; [apply returns_modify |].
    intros _. apply IH; lia.
Qed.

Lemma parse_concatenation_within p :
  p0 ≤ p ≤ length pattern → within p p (parse_concatenation pattern inner).
Proof.
  intros Hp. unfold parse_concatenation.
  apply (within_bind p); [apply concatenation_loop_within; lia |].
  intros r q Hq. apply (within_weaken q); [lia |].
  destruct r.2; apply within_end;
    first [apply returns_single | apply returns_ret | lia].
Qed.

Lemma alternation_loop_within : ∀ fuel left p,
  p0 ≤ p ≤ length pattern → length pattern ≤ p + fuel →
  within p p (alternation_loop pattern inner fuel left).
Proof.
  induction fuel as [| fuel IH]; intros left p Hp Hfuel;
    rewrite alternation_loop_step; apply within_get.
  - destruct (Nat.ltb_spec p (length pattern)); [lia |]. simpl.
    apply within_end; [apply returns_ret | lia].
  - destruct (Nat.ltb_spec p (length pattern)) as [Hlt | Hge]; simpl;
      [| apply within_end; [apply returns_ret | lia]].
    destruct (Ascii.eqb _ _); [| apply within_end; [apply returns_ret | lia]].
    apply within_set.
    apply (within_bind (S p)); [apply parse_concatenation_within; lia |].
    intros right q Hq. apply (within_weaken q); [lia |].
    apply within_keep; [apply returns_push | intros split].
    apply within_keep; [apply returns_push | intros join].
    apply within_keep; [apply returns_modify | intros _].
    apply within_keep; [apply returns_modify | intros _].
    apply IH; lia.
Qed.

Lemma parse_alternation_within p :
  p0 ≤ p ≤ length pattern → within p p (parse_alternation pattern inner).
Proof.
  intros Hp. unfold parse_alternation.
  apply (within_bind p); [by apply parse_concatenation_within |].
  intros left q Hq. apply (within_weaken q); [lia |].
  apply alternation_loop_within; lia.
Qed.
End levels.

Lemma parse_regex_within : ∀ depth p,
  p ≤ length pattern → length pattern < p + depth →
  within p p (parse_regex pattern depth).
Proof.
  induction depth as [| depth IH]; intros p Hp Hd; [lia |]. simpl.
  apply (parse_alternation_within _ p); [| lia].
  intros q Hq. apply IH; lia.
Qed.

(** The bounds the model puts on the parser's loops are never reached. *)
Lemma build_nfa_returns : build_nfa pattern ≠ Diverge.
Proof.
  unfold build_nfa.
  pose proof (parse_regex_within (S (length pattern)) 0 ltac:(lia) ltac:(lia)
                {| ps_states := []; pos := 0 |} eq_refl) as H.
  by destruct (parse_regex pattern _ _) as [[frag st] | |].
Qed.
End progress.

Lemma compile_returns order pattern : compile order pattern ≠ Diverge.
Proof.
  unfold compile. pose proof (build_nfa_returns pattern).
  destruct (build_nfa pattern) as [[nfa nfa_start] | |]; [| done ..].
  pose proof (builder_facts.build_dfa_returns order nfa nfa_start).
  by destruct (build_dfa order nfa nfa_start).
Qed.
End progress_facts.

(** ** Character classes *)

Module char_class_facts.
Import dfa.

Lemma byte_of_inj c d : byte_of c = byte_of d → c = d.
Proof.
  unfold byte_of. intros H.
  by rewrite <- (ascii_N_embedding c), <- (ascii_N_embedding d), H.
Qed.

Lemma byte_eqb c d : (byte_of c =? byte_of d)%N = Ascii.eqb c d.
Proof.
  destruct (Ascii.eqb_spec c d) as [-> | Hne]; [apply N.eqb_refl |].
  apply N.eqb_neq. intros H. by apply Hne, byte_of_inj.
Qed.

Lemma cc_test_set cc c d :
  cc_test (cc_set cc c) d =
  cc_test cc d || ((byte_of d <? config.ascii_size)%N && Ascii.eqb c d).
Proof.
  unfold cc_test, cc_set.
  destruct (N.ltb_spec (byte_of d) config.ascii_size) as [Hd | Hd]; simpl; [| done].
  destruct (N.ltb_spec (byte_of c) config.ascii_size) as [Hc | Hc].
  - rewrite N.setbit_eqb, byte_eqb. apply orb_comm.
  - destruct (Ascii.eqb_spec c d) as [-> | _]; [lia |]. by rewrite orb_false_r.
Qed.

Lemma set_range_loop_testbit : ∀ cnt cc c to i,
  N.testbit (set_range_loop cnt cc c to) i =
  N.testbit cc i ||
    ((c <=? i)%N && (i <=? to)%N && (i <? config.ascii_size)%N
     && (i <? c + N.of_nat cnt)%N).
Proof.
  induction cnt as [| cnt IH]; intros cc c to i; cbn [set_range_loop].
  - apply eq_true_iff_eq.
    rewrite orb_true_iff, !andb_true_iff, !N.leb_le, !N.ltb_lt.
    split; [tauto | intros [H | H]; [done | lia]].
  - destruct ((c <=? to)%N && (c <? config.ascii_size)%N) eqn:E.
    + apply andb_true_iff in E as [Hto%N.leb_le Hc%N.ltb_lt].
      rewrite IH, N.setbit_eqb. apply eq_true_iff_eq.
      rewrite !orb_true_iff, !andb_true_iff, !N.leb_le, !N.ltb_lt, N.eqb_eq.
      split.
      * intros [[-> | H] | H]; [right; lia | by left | right; lia].
      * intros [H | H]; [by left; right |].
        destruct (decide (c = i)) as [-> | Hne]; [by left; left | right; lia].
    + apply eq_true_iff_eq.
      rewrite orb_true_iff, !andb_true_iff, !N.leb_le, !N.ltb_lt.
      apply andb_false_iff in E as [E%N.leb_gt | E%N.ltb_ge];
        (split; [tauto | intros [H | H]; [done | lia]]).
Qed.

Lemma byte_of_bound c : (byte_of c < 256)%N.
Proof. unfold byte_of. apply N_ascii_bounded. Qed.

Lemma cc_test_set_range cc from to d :
  cc_test (cc_set_range cc from to) d =
  cc_test cc d ||
    ((byte_of d <? config.ascii_size)%N
     && (byte_of from <=? byte_of d)%N && (byte_of d <=? byte_of to)%N).
Proof.
  unfold cc_test, cc_set_range. rewrite set_range_loop_testbit.
  destruct (N.ltb_spec (byte_of d) config.ascii_size) as [Hd | Hd]; simpl; [| done].
  f_equal.
  replace (byte_of d <? byte_of from + N.of_nat 128)%N with true.
  - by rewrite !andb_true_r.
  - symmetry. apply N.ltb_lt. unfold config.ascii_size in Hd. lia.
Qed.

Lemma cc_test_flip cc d :
  cc_test (cc_flip cc) d =
  (byte_of d <? config.ascii_size)%N && negb (cc_test cc d).
Proof.
  unfold cc_test, cc_flip.
  destruct (N.ltb_spec (byte_of d) config.ascii_size) as [Hd | Hd]; simpl; [| done].
  rewrite N.lxor_spec, N.ones_spec_low by done. by rewrite xorb_true_r.
Qed.

Lemma cc_test_non_ascii cc d :
  (config.ascii_size ≤ byte_of d)%N → cc_test cc d = false.
Proof.
  intros Hd. unfold cc_test.
  by destruct (N.ltb_spec (byte_of d) config.ascii_size); [lia |].
Qed.

Lemma cc_test_foldl_set : ∀ l cc d,
  cc_test (foldl cc_set cc l) d =
  cc_test cc d || ((byte_of d <? config.ascii_size)%N && bool_decide (d ∈ l)).
Proof.
  induction l as [| c l IH]; intros cc d; simpl.
  - by rewrite andb_false_r, orb_false_r.
  - rewrite IH, cc_test_set, <- orb_assoc. f_equal.
    destruct (byte_of d <? config.ascii_size)%N; simpl; [| done].
    destruct (Ascii.eqb_spec c d) as [-> | Hne]; simpl.
    + symmetry. apply bool_decide_eq_true. left.
    + apply bool_decide_ext. rewrite elem_of_cons. naive_solver.
Qed.

Lemma cc_set_span_foldl cc from to :
  cc_set_span cc from to =
  foldl cc_set cc
    (ascii_of_nat <$> seq (nat_of_ascii from) (S (nat_of_ascii to) - nat_of_ascii from)).
Proof. unfold cc_set_span. by rewrite foldl_fmap. Qed.
End char_class_facts.

(** ** The unanchored search of the table *)

Module search_facts.
Import dfa matcher matcher_facts.

Lemma search_inner_run states : ∀ rest s,
  search_inner states s rest = true ↔
  ∃ k q st, 0 < k ≤ length rest ∧ run states s (take k rest) q ∧
    states !! N.to_nat q = Some st ∧ is_accept st = true.
Proof.
  induction rest as [| c rest IH]; intros s; cbn [search_inner].
  - split; [done |]. intros (k & q & st & Hk & _). simpl in Hk. lia.
  - destruct (N.leb_spec config.ascii_size (byte_of c)) as [Hhi | Hlo].
    { split; [done |]. intros (k & q & st & Hk & Hrun & _).
      destruct k as [| k]; [lia |]. inversion Hrun; subst. lia. }
    destruct (N.eqb_spec (transition states s (byte_of c)) no_transition)
      as [Hdead | Hlive].
    { split; [done |]. intros (k & q & st & Hk & Hrun & _).
      destruct k as [| k]; [lia |]. inversion Hrun; subst.
      assert (transition states s (byte_of c) = next)
        by (apply transition_lookup; eauto).
      congruence. }
    destruct (proj1 (transition_lookup states s (byte_of c) _ Hlive) eq_refl)
      as (st & Hst & Ht).
    destruct (is_accept (state_at states (transition states s (byte_of c)))) eqn:Hacc.
    + split; [intros _ | done].
      destruct (states !! N.to_nat (transition states s (byte_of c))) as [st' |] eqn:Hst'.
      * rewrite (state_at_Some _ _ _ Hst') in Hacc.
        exists 1, (transition states s (byte_of c)), st'.
        split; [simpl; lia |]. split; [| done].
        simpl. rewrite take_0. econstructor; eauto. constructor.
      * by rewrite (state_at_None _ _ Hst') in Hacc.
    + rewrite IH. split.
      * intros (k & q & st' & Hk & Hrun & Hq & Ha).
        exists (S k), q, st'. split; [simpl; lia |]. split; [| done].
        simpl. by econstructor.
      * intros (k & q & st' & Hk & Hrun & Hq & Ha).
        destruct k as [| k]; [lia |]. simpl in Hrun. inversion Hrun; subst.
        assert (transition states s (byte_of c) = next) as Hnext
          by (apply transition_lookup; eauto).
        rewrite Hnext in *.
        destruct k as [| k].
        { rewrite take_0 in *. inversion H7; subst.
          rewrite (state_at_Some _ _ _ Hq) in Hacc. congruence. }
        exists (S k), q, st'. split; [simpl in Hk; lia | done].
Qed.

Lemma hit_tail states c rest o : hit states (c :: rest) (S o) ↔ hit states rest o.
Proof.
  unfold hit. simpl. split.
  - intros [H | (k & q & st & Hk & Hb & H)]; [by left | right].
    exists k, q, st. split; [done |]. split; [lia | done].
  - intros [H | (k & q & st & Hk & Hb & H)]; [by left | right].
    exists k, q, st. split; [done |]. split; [lia | done].
Qed.

Lemma search_from_spec states : ∀ tail start,
  match search_from states start tail with
  | Some s => ∃ o, s = start + o ∧ o < length tail ∧ hit states tail o ∧
                ∀ o', o' < o → ¬ hit states tail o'
  | None => ∀ o, o < length tail → ¬ hit states tail o
  end.
Proof.
  induction tail as [| c rest IH]; intros start; [simpl; intros o Ho; lia |].
  cbn [search_from].
  destruct (search_inner states 0 (c :: rest)) eqn:Hinner.
  { apply search_inner_run in Hinner as (k & q & st & Hk & Hrun & Hq & Ha).
    exists 0. split; [lia |]. split; [simpl; lia |]. split; [| intros o' Ho'; lia].
    right. exists k, q, st. split; [lia |]. split; [lia | done]. }
  destruct (is_accept (state_at states 0)) eqn:Hacc.
  { exists 0. split; [lia |]. split; [simpl; lia |]. split; [| intros o' Ho'; lia].
    left. destruct (states !! 0) as [st0 |] eqn:Hst0.
    - exists st0. split; [done |]. by rewrite (state_at_Some states 0 st0) in Hacc.
    - by rewrite (state_at_None states 0) in Hacc. }
  assert (Hno : ¬ hit states (c :: rest) 0).
  { intros [(st0 & Hst0 & Ha) | (k & q & st & Hk & Hb & Hrun & Hq & Ha)].
    - rewrite (state_at_Some states 0 st0) in Hacc by done. congruence.
    - assert (search_inner states 0 (c :: rest) = true); [| congruence].
      apply search_inner_run. exists k, q, st. split; [lia | done]. }
  specialize (IH (S start)). destruct (search_from states (S start) rest) as [s |].
  - destruct IH as (o & -> & Ho & Hhit & Hleast).
    exists (S o). split; [lia |]. split; [simpl; lia |]. split; [by apply hit_tail |].
    intros [| o'] Ho'; [done |]. rewrite hit_tail. apply Hleast. lia.
  - intros [| o] Ho; [done |]. rewrite hit_tail. apply IH. simpl in Ho. lia.
Qed.

(** A text that matches as a whole is found at offset [0]. *)
Lemma matches_search states text :
  text ≠ [] → matches_loop states 0 text = true →
  search_from states 0 text = Some 0.
Proof.
  intros Hne Hm. apply matches_loop_run in Hm as (q & st & Hrun & Hq & Ha).
  assert (Hhit : hit states text 0).
  { right. exists (length text), q, st. split; [destruct text; [done | simpl; lia] |].
    split; [lia |]. by rewrite drop_0, take_ge by done. }
  pose proof (search_from_spec states text 0) as Hspec.
  destruct (search_from states 0 text) as [s |].
  - destruct Hspec as (o & -> & _ & _ & Hleast).
    destruct o as [| o]; [done |]. exfalso. apply (Hleast 0); [lia | done].
  - exfalso. apply (Hspec 0); [destruct text; [done | simpl; lia] | done].
Qed.
End search_facts.

(** ** Epsilon reachability *)

Module reach_facts.
Import dfa closure closure_facts nfa_spec.

Section reach.
Variable nfa : list nfa_state.

Lemma closure_loop_reach (S0 : gset N) : ∀ fuel stack states R,
  (∀ x, x ∈ stack → x ∈ states) →
  (∀ x, x ∈ states → eps_reach nfa S0 x) →
  closure_loop nfa fuel stack states = Some R →
  ∀ x, x ∈ R → eps_reach nfa S0 x.
Proof.
  induction fuel as [| fuel IH]; intros stack states R Hstack Hreach Hrun.
  - destruct stack; simpl in Hrun; [| done]. by injection Hrun as <-.
  - destruct stack as [| s stack]; simpl in Hrun; [by injection Hrun as <- |].
    assert (Hs : s ∈ states) by (apply Hstack; left).
    assert (Hrest : ∀ x, x ∈ stack → x ∈ states) by (intros x Hx; apply Hstack; by right).
    destruct (nfa !! N.to_nat s) as [st |] eqn:Hst; [| by eapply IH].
    destruct (decide (kind st = epsilon)) as [Heps | Hneps]; [| by eapply IH].
    pose proof (visit_spec nfa (has_next1 st) (next1 st) stack states
                  (λ _, next1_target nfa _ _ Hst)) as H1.
    destruct (visit (has_next1 st) (next1 st) (stack, states))
      as [stack1 states1] eqn:E1. simpl in H1.
    destruct H1 as (_ & Hs1 & Hin1 & Hfrom1 & Hst1 & _ & _).
    pose proof (visit_spec nfa (has_next2 st) (next2 st) stack1 states1
                  (λ _, next2_target nfa _ _ Hst)) as H2.
    destruct (visit (has_next2 st) (next2 st) (stack1, states1))
      as [stack2 states2] eqn:E2. simpl in H2.
    destruct H2 as (_ & Hs2 & Hin2 & Hfrom2 & Hst2 & _ & _).
    simpl in Hrun. eapply IH; [| | exact Hrun].
    + intros x Hx. apply Hst2 in Hx as [Hx | [Hh ->]]; [| by apply Hin2].
      apply Hs2. apply Hst1 in Hx as [Hx | [Hh ->]]; [| by apply Hin1].
      by apply Hs1, Hrest.
    + assert (Hstep : ∀ t, eps_edge nfa s t → eps_reach nfa S0 t).
      { intros t Hedge. destruct (Hreach s Hs) as (s0 & Hs0 & Hpath).
        exists s0. split; [done |]. eapply rtc_r; eauto. }
      intros x Hx. apply Hfrom2 in Hx as [Hx | [Hh ->]].
      * apply Hfrom1 in Hx as [Hx | [Hh ->]]; [by apply Hreach |].
        apply Hstep. exists st. eauto.
      * apply Hstep. exists st. eauto.
Qed.

(** The closure is the set of the states reachable along epsilon
    transitions. *)
Lemma epsilon_closure_reach (order : iter_order) (S : gset N) :
  ∃ R, epsilon_closure order nfa S = Some R ∧
    ∀ x, x ∈ R ↔ eps_reach nfa S x.
Proof.
  destruct (epsilon_closure_spec nfa order S) as (R & HR & Hsub & Hclosed & _).
  exists R. split; [done |]. intros x. split.
  - unfold epsilon_closure in HR. revert x.
    eapply closure_loop_reach; [| | exact HR].
    + intros x Hx. by apply elem_of_reverse, enumerate_elem_of in Hx.
    + intros x Hx. exists x. split; [done | constructor].
  - intros (s & Hs & Hpath). apply Hsub in Hs.
    induction Hpath as [| a b c Hab _ IH]; [done |].
    apply IH. by eapply Hclosed.
Qed.
End reach.
End reach_facts.

(** ** Subset keys are canonical *)

Module key_facts.
Import dfa key_spec.

Lemma append_cons x (a b : string) : String x a +:+ b = String x (a +:+ b).
Proof. reflexivity. Qed.

Lemma append_assoc (a b c : string) : (a +:+ b) +:+ c = a +:+ (b +:+ c).
Proof.
  induction a as [| x a IH]; [done |]. by rewrite !append_cons, IH.
Qed.

Lemma append_nil_r (a : string) : a +:+ "" = a.
Proof.
  induction a as [| x a IH]; [done |]. by rewrite append_cons, IH.
Qed.

Lemma pretty_N_char_digit x : pretty_N_char x ≠ ","%char.
Proof. by destruct x as [| [[[[| |] | [| |] |] | [[| |] | [| |] |] |] | [[[| |] | [| |] |] | [[| |] | [| |] |] |] |]]. Qed.

Lemma pretty_N_go_digits : ∀ x s,
  ∃ pre, pretty_N_go x s = pre +:+ s ∧ comma_free pre.
Proof.
  intros x. induction (N.lt_wf_0 x) as [x _ IH]. intros s.
  destruct (decide (x = 0%N)) as [-> | Hx].
  - exists "". by rewrite pretty_N_go_0.
  - rewrite pretty_N_go_step by lia.
    destruct (IH (x `div` 10)%N) with (s := String (pretty_N_char (x `mod` 10)) s)
      as (pre & -> & Hpre).
    { apply N.div_lt; lia. }
    exists (pre +:+ String (pretty_N_char (x `mod` 10)) "").
    rewrite append_assoc. split; [done |].
    clear -Hpre. induction pre as [| a pre IH]; simpl.
    + split; [apply pretty_N_char_digit | done].
    + destruct Hpre as [Ha Hpre]. split; [done | by apply IH].
Qed.

Lemma pretty_N_comma_free (x : N) : comma_free (pretty x).
Proof.
  unfold pretty, pretty_N. destruct (decide (x = 0%N)); [by split |].
  destruct (pretty_N_go_digits x "") as (pre & -> & Hpre).
  by rewrite append_nil_r.
Qed.

Lemma comma_split : ∀ p1 p2 r1 r2 : string,
  comma_free p1 → comma_free p2 →
  p1 +:+ String "," r1 = p2 +:+ String "," r2 → p1 = p2 ∧ r1 = r2.
Proof.
  induction p1 as [| a p1 IH]; intros [| b p2] r1 r2 H1 H2 Heq; simpl in *.
  - by injection Heq as ->.
  - injection Heq as <- _. by destruct H2.
  - injection Heq as -> _. by destruct H1.
  - injection Heq as -> Heq. destruct H1 as [_ H1], H2 as [_ H2].
    destruct (IH p2 r1 r2 H1 H2 Heq) as [-> ->]. done.
Qed.

Lemma render_inj : ∀ l1 l2, render l1 = render l2 → l1 = l2.
Proof.
  induction l1 as [| x l1 IH]; intros [| y l2] Heq; simpl in Heq.
  - done.
  - exfalso. pose proof (pretty_N_comma_free y) as Hy.
    destruct (pretty y); simpl in *; [discriminate | discriminate].
  - exfalso. destruct (pretty x); simpl in *; discriminate.
  - apply comma_split in Heq as [Hxy Hrest]; try apply pretty_N_comma_free.
    apply (inj pretty) in Hxy as ->. f_equal. by apply IH.
Qed.

Lemma foldl_render : ∀ l acc,
  foldl (λ key x, key +:+ pretty x +:+ ",") acc l = acc +:+ render l.
Proof.
  induction l as [| x l IH]; intros acc; simpl.
  - by rewrite append_nil_r.
  - rewrite IH, !append_assoc. done.
Qed.

Lemma set_to_key_render order (S : gset N) :
  set_to_key order S = render (merge_sort N.le (enumerate order S)).
Proof. unfold set_to_key. by rewrite foldl_render. Qed.

(** Different subsets have different keys. *)
Lemma set_to_key_inj order (S1 S2 : gset N) :
  set_to_key order S1 = set_to_key order S2 → S1 = S2.
Proof.
  rewrite !set_to_key_render. intros Heq%render_inj.
  apply set_eq. intros x.
  rewrite <- !(closure_facts.enumerate_elem_of order).
  rewrite <- (merge_sort_Permutation N.le (enumerate order S1)).
  rewrite <- (merge_sort_Permutation N.le (enumerate order S2)).
  by rewrite Heq.
Qed.
End key_facts.

(** ** The invariant of the subset construction *)

Module subset_facts.
Import dfa closure closure_facts subset_spec key_facts.
Local Open Scope N_scope.

Lemma vec_get_push {A} (v : vec A) x i :
  vec_get (vec_push v x) i = if decide (i = vec_size v) then Some x else vec_get v i.
Proof.
  unfold vec_get, vec_push. cbn [vec_data]. destruct (decide (i = vec_size v)) as [-> | Hne].
  - by rewrite lookup_insert_eq.
  - by rewrite lookup_insert_ne.
Qed.

Lemma vec_get_alter {A} (f : A → A) (v : vec A) i j :
  vec_get (vec_alter f i v) j = if decide (j = i) then f <$> vec_get v j else vec_get v j.
Proof.
  unfold vec_get, vec_alter. cbn [vec_data]. destruct (decide (j = i)) as [-> | Hne].
  - by rewrite lookup_alter_eq.
  - by rewrite lookup_alter_ne.
Qed.

Lemma vec_wf_empty {A} : vec_wf (@vec_empty A).
Proof.
  intros i. unfold vec_get, vec_empty. cbn. rewrite lookup_empty.
  split; [by intros [? ?] | lia].
Qed.

Lemma vec_wf_push {A} (v : vec A) x : vec_wf v → vec_wf (vec_push v x).
Proof.
  intros Hwf i. rewrite vec_get_push. cbn [vec_push vec_size].
  destruct (decide (i = vec_size v)) as [-> | Hne].
  - split; [lia | by eexists].
  - rewrite (Hwf i). lia.
Qed.

Lemma vec_wf_alter {A} (f : A → A) (v : vec A) i : vec_wf v → vec_wf (vec_alter f i v).
Proof.
  intros Hwf j. rewrite vec_get_alter. cbn [vec_alter vec_size].
  destruct (decide (j = i)) as [-> | Hne]; [| apply Hwf].
  rewrite fmap_is_Some. apply (Hwf i).
Qed.

Lemma vec_get_lt {A} (v : vec A) i x : vec_wf v → vec_get v i = Some x → i < vec_size v.
Proof. intros Hwf Hi. apply Hwf. by eexists. Qed.

Lemma omap_seq_lookup {A} (f : nat → option A) : ∀ k m i,
  (∀ j, (m ≤ j < m + k)%nat → is_Some (f j)) →
  omap f (seq m k) !! i = if decide (i < k)%nat then f (m + i)%nat else None.
Proof.
  induction k as [| k IH]; intros m i Hf; simpl.
  - destruct (decide (i < 0)%nat); [lia | done].
  - destruct (Hf m ltac:(lia)) as [y Hy]. rewrite Hy. simpl.
    destruct i as [| i]; simpl.
    + rewrite Nat.add_0_r, Hy. by destruct (decide (0 < S k)%nat); [| lia].
    + rewrite IH by (intros j Hj; apply Hf; lia).
      replace (S m + i)%nat with (m + S i)%nat by lia.
      destruct (decide (i < k)%nat), (decide (S i < S k)%nat); (done || lia).
Qed.

Lemma vec_to_list_lookup {A} (v : vec A) (i : nat) :
  vec_wf v → vec_to_list v !! i = vec_get v (N.of_nat i).
Proof.
  intros Hwf. unfold vec_to_list.
  rewrite omap_seq_lookup.
  - destruct (decide (i < N.to_nat (vec_size v))%nat) as [Hi | Hi]; [done |].
    symmetry. apply eq_None_not_Some. rewrite (Hwf (N.of_nat i)). lia.
  - intros j Hj. apply (Hwf (N.of_nat j)). lia.
Qed.

Lemma vec_to_list_length {A} (v : vec A) :
  vec_wf v → length (vec_to_list v) = N.to_nat (vec_size v).
Proof.
  intros Hwf. apply Nat.le_antisymm.
  - destruct (decide (length (vec_to_list v) ≤ N.to_nat (vec_size v))%nat); [done |].
    assert (Hs : is_Some (vec_to_list v !! N.to_nat (vec_size v)))
      by (apply lookup_lt_is_Some; lia).
    rewrite vec_to_list_lookup in Hs by done. apply Hwf in Hs. lia.
  - destruct (decide (N.to_nat (vec_size v) ≤ length (vec_to_list v))%nat); [done |].
    assert (Hs : vec_to_list v !! length (vec_to_list v) = None)
      by (apply lookup_ge_None; lia).
    rewrite vec_to_list_lookup in Hs by done.
    apply eq_None_not_Some in Hs. exfalso. apply Hs, Hwf. lia.
Qed.
End subset_facts.

Module table_facts.
Import dfa closure closure_facts subset_spec subset_facts key_facts.
Local Open Scope N_scope.

Section table.
Variable order : iter_order.
Variable nfa : list nfa_state.

Local Abbreviation entry_ok := (entry_ok order nfa).
Local Abbreviation row_ok := (row_ok order nfa).
Local Abbreviation builder_inv := (builder_inv order nfa).

Lemma entry_ok_mono (W W' : vec (gset N)) S a t :
  (∀ i X, vec_get W i = Some X → vec_get W' i = Some X) →
  entry_ok W S a t → entry_ok W' S a t.
Proof.
  intros Hsub. unfold subset_spec.entry_ok. destruct (bool_decide _); [done |].
  intros (S' & HS' & Ht). exists S'. split; [done | by apply Hsub].
Qed.

Lemma row_ok_mono (W W' : vec (gset N)) p c i S st :
  (∀ i X, vec_get W i = Some X → vec_get W' i = Some X) →
  row_ok W p c i S st → row_ok W' p c i S st.
Proof.
  intros Hsub (Hacc & Hlen & Hrow). split; [done |]. split; [done |].
  intros a Ha. specialize (Hrow a Ha). cbv zeta in *.
  destruct (bool_decide _); [by eapply entry_ok_mono | done].
Qed.

Lemma builder_inv_bound bound bound' p c b :
  vec_size (b_states b) ≤ bound' → builder_inv bound p c b → builder_inv bound' p c b.
Proof.
  intros Hb (H1 & H2 & H3 & _ & H5 & H6 & H7).
  split; [done |]. split; [done |]. split; [done |]. split; [done |]. done.
Qed.

Lemma new_row a :
  nth (N.to_nat a) (transitions new_dfa_state) no_transition = no_transition.
Proof. apply matcher_facts.dead_row. Qed.

Lemma new_row_length :
  length (transitions new_dfa_state) = N.to_nat config.ascii_size.
Proof. unfold new_dfa_state. cbn [transitions]. by rewrite length_replicate. Qed.

Lemma intern_inv bound p c X b :
  builder_inv bound p c b → closed nfa X → p < vec_size (worklist b) →
  ∃ j b', intern order nfa X b = (j, b') ∧ builder_inv (bound + 1) p c b' ∧
    vec_get (worklist b') j = Some X ∧
    (∀ i S, vec_get (worklist b) i = Some S → vec_get (worklist b') i = Some S).
Proof.
  intros (Hwf & Hwfw & Hsz & Hbound & Hmap & Hinv & Hrows) HX Hp.
  unfold intern. destruct (state_map b !! set_to_key order X) as [j |] eqn:Hkey.
  - exists j, b. split; [done |]. split.
    + apply (builder_inv_bound bound); [lia |].
      split; [done |]. split; [done |]. split; [done |]. split; [done |]. done.
    + destruct (Hinv _ _ Hkey) as (S & HS & Heq).
      apply set_to_key_inj in Heq as ->. done.
  - eexists _, _. split; [done |].
    set (n := vec_size (b_states b)).
    set (states' := if has_accept order nfa X
                    then vec_alter set_accept n (vec_push (b_states b) new_dfa_state)
                    else vec_push (b_states b) new_dfa_state).
    assert (Hsize' : vec_size states' = n + 1)
      by (unfold states'; by destruct (has_accept order nfa X)).
    assert (Hold : ∀ i, i ≠ n → vec_get states' i = vec_get (b_states b) i).
    { intros i Hi. unfold states'. destruct (has_accept order nfa X).
      - rewrite vec_get_alter, vec_get_push. by repeat destruct (decide _).
      - rewrite vec_get_push. by destruct (decide _). }
    assert (Hnew : ∃ st, vec_get states' n = Some st ∧
              is_accept st = has_accept order nfa X ∧
              transitions st = transitions new_dfa_state).
    { unfold states'. destruct (has_accept order nfa X) eqn:Hacc.
      - rewrite vec_get_alter, vec_get_push. rewrite !decide_True by done.
        eexists. split; [done |]. done.
      - rewrite vec_get_push, decide_True by done. eexists. split; [done |]. done. }
    assert (Hkeep : ∀ i S, vec_get (worklist b) i = Some S →
              vec_get (vec_push (worklist b) X) i = Some S).
    { intros i S HS. rewrite vec_get_push.
      destruct (decide (i = vec_size (worklist b))) as [-> | _]; [| done].
      apply vec_get_lt in HS; [lia | done]. }
    split; [| split; [| done]].
    + split; [| split; [| split; [| split; [| split; [| split]]]]]; cbn [b_states worklist state_map].
      * unfold states'. destruct (has_accept order nfa X);
          [apply vec_wf_alter |]; by apply vec_wf_push.
      * by apply vec_wf_push.
      * rewrite Hsize'. cbn. lia.
      * rewrite Hsize'. unfold n. lia.
      * intros i S. rewrite vec_get_push.
        destruct (decide (i = vec_size (worklist b))) as [-> | Hne].
        -- intros [= <-]. split; [done |]. rewrite Hsz. by rewrite lookup_insert_eq.
        -- intros HS. destruct (Hmap i S HS) as [Hc Hk]. split; [done |].
           rewrite lookup_insert_ne; [done |]. intros Heq. rewrite <- Heq in Hk. congruence.
      * intros k i. destruct (decide (k = set_to_key order X)) as [-> | Hne].
        -- rewrite lookup_insert_eq. intros [= <-]. exists X. split; [| done].
           rewrite vec_get_push, decide_True; [done | by rewrite Hsz].
        -- rewrite lookup_insert_ne by done. intros Hk.
           destruct (Hinv k i Hk) as (S & HS & ->). exists S. split; [| done].
           by apply Hkeep.
      * intros i S st. rewrite vec_get_push.
        destruct (decide (i = vec_size (worklist b))) as [-> | Hne].
        -- intros [= <-]. rewrite Hsz. fold n.
           destruct Hnew as (st' & -> & Hacc & Htr). intros [= <-].
           split; [done |]. split; [by rewrite Htr, new_row_length |].
           intros a Ha. cbv zeta. rewrite Htr, new_row.
           rewrite bool_decide_eq_false_2; [done |]. unfold n. lia.
        -- intros HS. rewrite Hold by (unfold n; lia). intros Hst.
           eapply row_ok_mono; [exact Hkeep |]. by apply Hrows.
    + cbn [worklist]. rewrite vec_get_push, decide_True; [done | by rewrite Hsz].
Qed.

Lemma nth_set_transition (row : list N) c j a :
  (N.to_nat c < length row)%nat →
  nth (N.to_nat a) (<[N.to_nat c := j]> row) no_transition =
  if decide (a = c) then j else nth (N.to_nat a) row no_transition.
Proof.
  intros Hc. rewrite !nth_lookup. destruct (decide (a = c)) as [-> | Hne].
  - by rewrite list_lookup_insert_eq.
  - rewrite list_lookup_insert_ne; [done | lia].
Qed.

Lemma expand_byte_inv bound p c current b :
  builder_inv bound p c b → vec_get (worklist b) p = Some current →
  c < config.ascii_size →
  ∃ b', expand_byte order nfa current p c b = Some b' ∧
    builder_inv (bound + 1) p (c + 1) b' ∧
    (∀ i S, vec_get (worklist b) i = Some S → vec_get (worklist b') i = Some S).
Proof.
  intros Hinv Hcur Hc. unfold expand_byte.
  destruct (bool_decide_reflect (move order nfa current c = ∅)) as [Hempty | Hne].
  - exists b. split; [done |]. split; [| done].
    destruct Hinv as (Hwf & Hwfw & Hsz & Hbound & Hmap & Hinvm & Hrows).
    split; [done |]. split; [done |]. split; [done |]. split; [lia |].
    split; [done |]. split; [done |].
    intros i S st HS Hst. destruct (Hrows i S st HS Hst) as (Hacc & Hlen & Hrow).
    split; [done |]. split; [done |].
    intros a Ha. specialize (Hrow a Ha). cbv zeta in *.
    destruct (decide (i = p ∧ a = c)) as [[-> ->] | Hother].
    + rewrite bool_decide_eq_true_2 by lia.
      rewrite bool_decide_eq_false_2 in Hrow by lia.
      rewrite Hcur in HS. injection HS as <-.
      unfold subset_spec.entry_ok. by rewrite bool_decide_eq_true_2.
    + destruct (bool_decide_reflect (i < p ∨ i = p ∧ a < c)) as [Hd | Hd].
      * rewrite bool_decide_eq_true_2 by lia. done.
      * rewrite bool_decide_eq_false_2 by lia. done.
  - destruct (epsilon_closure_spec nfa order (move order nfa current c))
      as (X & HX & _ & Hclosed & _).
    rewrite HX. cbn [mbind option_bind].
    assert (Hp : p < vec_size (worklist b)).
    { destruct Hinv as (_ & Hwfw & _). by eapply vec_get_lt. }
    destruct (intern_inv bound p c X b Hinv Hclosed Hp)
      as (j & b1 & -> & Hinv1 & Hj & Hkeep).
    eexists. split; [done |]. split; [| done].
    destruct Hinv1 as (Hwf & Hwfw & Hsz & Hbound & Hmap & Hinvm & Hrows).
    split; [by apply vec_wf_alter |]. split; [done |]. split; [done |].
    split; [done |]. split; [done |]. split; [done |].
    cbn [b_states worklist]. intros i S st HS. rewrite vec_get_alter.
    destruct (decide (i = p)) as [-> | Hip].
    + destruct (vec_get (b_states b1) p) as [st0 |] eqn:Hst0; [| done].
      intros [= <-]. destruct (Hrows p S st0 HS Hst0) as (Hacc & Hlen & Hrow).
      split; [done |]. split; [by cbn; rewrite length_insert |].
      intros a Ha. specialize (Hrow a Ha). cbv zeta in *. cbn [set_transition transitions].
      rewrite nth_set_transition by (rewrite Hlen; lia).
      assert (S = current) as -> by (apply Hkeep in Hcur; congruence).
      destruct (decide (a = c)) as [-> | Hac].
      * rewrite bool_decide_eq_true_2 by lia.
        unfold subset_spec.entry_ok. rewrite bool_decide_eq_false_2 by done.
        exists X. done.
      * destruct (bool_decide_reflect (p < p ∨ p = p ∧ a < c)) as [Hd | Hd].
        -- rewrite bool_decide_eq_true_2 by lia. done.
        -- rewrite bool_decide_eq_false_2 by lia. done.
    + intros Hst. destruct (Hrows i S st HS Hst) as (Hacc & Hlen & Hrow).
      split; [done |]. split; [done |].
      intros a Ha. specialize (Hrow a Ha). cbv zeta in *.
      destruct (bool_decide_reflect (i < p ∨ i = p ∧ a < c)) as [Hd | Hd].
      * rewrite bool_decide_eq_true_2 by lia. done.
      * rewrite bool_decide_eq_false_2 by lia. done.
Qed.

Lemma expand_inv p current : ∀ cnt c bound b,
  builder_inv bound p c b → vec_get (worklist b) p = Some current →
  c + N.of_nat cnt = config.ascii_size →
  ∃ b', expand order nfa cnt current p c b = Some b' ∧
    builder_inv (bound + N.of_nat cnt) p config.ascii_size b' ∧
    (∀ i S, vec_get (worklist b) i = Some S → vec_get (worklist b') i = Some S).
Proof.
  induction cnt as [| cnt IH]; intros c bound b Hinv Hcur Hcnt; cbn [expand].
  - exists b. replace c with config.ascii_size in Hinv by lia.
    split; [done |]. split; [| done]. by rewrite N.add_0_r.
  - destruct (expand_byte_inv bound p c current b Hinv Hcur) as (b1 & -> & Hinv1 & Hkeep1);
      [lia |]. cbn [mbind option_bind].
    destruct (IH (c + 1) (bound + 1) b1 Hinv1 (Hkeep1 _ _ Hcur)) as (b2 & -> & Hinv2 & Hkeep2);
      [lia |].
    exists b2. split; [done |]. split; [| by auto].
    by replace (bound + N.of_nat (S cnt)) with (bound + 1 + N.of_nat cnt) by lia.
Qed.

Lemma builder_inv_next bound p b :
  builder_inv bound p config.ascii_size b → builder_inv bound (p + 1) 0 b.
Proof.
  intros (Hwf & Hwfw & Hsz & Hbound & Hmap & Hinvm & Hrows).
  split; [done |]. split; [done |]. split; [done |]. split; [done |].
  split; [done |]. split; [done |].
  intros i S st HS Hst. destruct (Hrows i S st HS Hst) as (Hacc & Hlen & Hrow).
  split; [done |]. split; [done |].
  intros a Ha. specialize (Hrow a Ha). cbv zeta in *.
  destruct (bool_decide_reflect (i < p ∨ i = p ∧ a < config.ascii_size)) as [Hd | Hd].
  - rewrite bool_decide_eq_true_2 by lia. done.
  - rewrite bool_decide_eq_false_2 by lia. done.
Qed.

(** What the finished table is: every row is complete. *)
Lemma build_loop_inv : ∀ fuel p b states,
  builder_inv (config.max_dfa_states + 128) p 0 b →
  build_loop order nfa fuel p b = Built states →
  ∃ b', states = b_states b' ∧
    builder_inv (config.max_dfa_states + 128) (vec_size (worklist b')) 0 b' ∧
    (∀ i S, vec_get (worklist b) i = Some S → vec_get (worklist b') i = Some S).
Proof.
  induction fuel as [| fuel IH]; intros p b states Hinv.
  - rewrite builder_facts.build_loop_stop.
    destruct (N.ltb_spec p (vec_size (worklist b))) as [Hlt | Hge]; [done |].
    intros [= <-]. exists b. split; [done |]. split; [| done].
    destruct Hinv as (Hwf & Hwfw & Hsz & Hbound & Hmap & Hinvm & Hrows).
    split; [done |]. split; [done |]. split; [done |]. split; [done |].
    split; [done |]. split; [done |].
    intros i S st HS Hst. destruct (Hrows i S st HS Hst) as (Hacc & Hlen & Hrow).
    split; [done |]. split; [done |].
    intros a Ha. specialize (Hrow a Ha). cbv zeta in *.
    assert (i < vec_size (worklist b)) by (by eapply vec_get_lt).
    rewrite bool_decide_eq_true_2 in Hrow by lia.
    rewrite bool_decide_eq_true_2 by lia. done.
  - rewrite order_facts.build_loop_round.
    destruct (N.ltb_spec p (vec_size (worklist b))) as [Hlt | Hge].
    + destruct (N.ltb_spec config.max_dfa_states (vec_size (b_states b))) as [Hgt | Hle];
        [done |].
      cbv zeta.
      assert (Hcur : ∃ current, vec_get (worklist b) p = Some current).
      { destruct Hinv as (_ & Hwfw & _). by apply Hwfw. }
      destruct Hcur as (current & Hcur). rewrite Hcur.
      change (default ∅ (Some current)) with current.
      assert (Hkey : state_map b !! set_to_key order current = Some p).
      { destruct Hinv as (_ & _ & _ & _ & Hmap & _). by apply Hmap. }
      unfold map_index. rewrite Hkey.
      assert (Hb : {| b_states := b_states b; worklist := worklist b;
                     state_map := state_map b |} = b) by (by destruct b).
      rewrite Hb.
      apply (builder_inv_bound _ config.max_dfa_states) in Hinv; [| done].
      destruct (expand_inv p current (N.to_nat config.ascii_size) 0
                  config.max_dfa_states b Hinv Hcur) as (b1 & -> & Hinv1 & Hkeep1);
        [by rewrite N2Nat.id |].
      rewrite N2Nat.id in Hinv1. apply builder_inv_next in Hinv1.
      intros Hrun. destruct (IH (p + 1) b1 states Hinv1 Hrun) as (b' & -> & Hinv' & Hkeep').
      exists b'. split; [done |]. split; [done | by auto].
    + intros [= <-]. exists b. split; [done |]. split; [| done].
      destruct Hinv as (Hwf & Hwfw & Hsz & Hbound & Hmap & Hinvm & Hrows).
      split; [done |]. split; [done |]. split; [done |]. split; [done |].
      split; [done |]. split; [done |].
      intros i S st HS Hst. destruct (Hrows i S st HS Hst) as (Hacc & Hlen & Hrow).
      split; [done |]. split; [done |].
      intros a Ha. specialize (Hrow a Ha). cbv zeta in *.
      assert (i < vec_size (worklist b)) by (by eapply vec_get_lt).
      rewrite bool_decide_eq_true_2 in Hrow by lia.
      rewrite bool_decide_eq_true_2 by lia. done.
Qed.
End table.
End table_facts.

(** ** When the state limit is reached *)

Module family_facts.
Import dfa closure closure_facts subset_spec subset_facts table_facts family_spec.
Local Open Scope N_scope.

Section family.
Variable order : iter_order.
Variable nfa : list nfa_state.
Variable family : gset (gset N).
Variable start_set : gset N.
Hypothesis Hfamily : subset_family order nfa family start_set.

Local Abbreviation within_family := (λ b : builder,
  ∀ i S, vec_get (worklist b) i = Some S → S ∈ family).

Lemma intern_family X b :
  within_family b → X ∈ family → within_family (intern order nfa X b).2.
Proof.
  intros Hb HX. unfold intern. destruct (state_map b !! _); [done |].
  cbn [snd worklist]. intros i S. rewrite vec_get_push.
  destruct (decide _); [by intros [= <-] | apply Hb].
Qed.

Lemma expand_byte_family current current_dfa c b b' :
  within_family b → current ∈ family → c < config.ascii_size →
  expand_byte order nfa current current_dfa c b = Some b' → within_family b'.
Proof.
  intros Hb Hcur Hc. unfold expand_byte.
  destruct (bool_decide_reflect (move order nfa current c = ∅)) as [He | Hne];
    [by intros [= <-] |].
  destruct (epsilon_closure order nfa (move order nfa current c)) as [X |] eqn:HX;
    [| done]. cbn [mbind option_bind].
  pose proof (intern_family X b Hb) as Hint.
  destruct (intern order nfa X b) as [j b1]. intros [= <-]. cbn [worklist].
  apply Hint. destruct Hfamily as [_ Hstep]. by eapply Hstep.
Qed.

Lemma expand_family current current_dfa : ∀ cnt c b b',
  within_family b → current ∈ family → c + N.of_nat cnt ≤ config.ascii_size →
  expand order nfa cnt current current_dfa c b = Some b' → within_family b'.
Proof.
  induction cnt as [| cnt IH]; intros c b b' Hb Hcur Hc; cbn [expand].
  - by intros [= <-].
  - destruct (expand_byte order nfa current current_dfa c b) as [b1 |] eqn:E; [| done].
    cbn [mbind option_bind]. apply IH; [| done | lia].
    eapply expand_byte_family; [| | | exact E]; [done | done | lia].
Qed.

(** The worklist never holds a subset twice, so it is no longer than
    the family is large. *)
Lemma worklist_size bound p c b :
  builder_inv order nfa bound p c b → within_family b →
  vec_size (worklist b) ≤ N.of_nat (size family).
Proof.
  intros (_ & Hwfw & _ & _ & Hmap & _) Hb.
  assert (Hnd : NoDup (vec_to_list (worklist b))).
  { apply NoDup_alt. intros i j S Hi Hj.
    rewrite vec_to_list_lookup in Hi, Hj by done.
    destruct (Hmap _ _ Hi) as [_ Hki]. destruct (Hmap _ _ Hj) as [_ Hkj].
    rewrite Hki in Hkj. injection Hkj as Hij. lia. }
  assert (Hsub : vec_to_list (worklist b) ⊆+ elements family).
  { apply NoDup_submseteq; [done |]. intros S (i & Hi)%list_elem_of_lookup.
    rewrite vec_to_list_lookup in Hi by done. apply elem_of_elements. by eapply Hb. }
  apply submseteq_length in Hsub. rewrite vec_to_list_length in Hsub by done.
  unfold size, set_size. simpl. lia.
Qed.

Lemma build_loop_family : ∀ fuel p b states,
  N.of_nat (size family) ≤ config.max_dfa_states →
  builder_inv order nfa (config.max_dfa_states + 128) p 0 b → within_family b →
  build_loop order nfa fuel p b ≠ LimitExceeded states.
Proof.
  induction fuel as [| fuel IH]; intros p b states Hsize Hinv Hb.
  - rewrite builder_facts.build_loop_stop. by destruct (_ <? _).
  - rewrite order_facts.build_loop_round.
    destruct (N.ltb_spec p (vec_size (worklist b))) as [Hlt | Hge]; [| done].
    pose proof (worklist_size _ _ _ _ Hinv Hb) as Hw.
    assert (Hsz : vec_size (worklist b) = vec_size (b_states b)) by apply Hinv.
    destruct (N.ltb_spec config.max_dfa_states (vec_size (b_states b))) as [Hgt | Hle];
      [lia |].
    cbv zeta.
    assert (Hcur : ∃ current, vec_get (worklist b) p = Some current).
    { destruct Hinv as (_ & Hwfw & _). by apply Hwfw. }
    destruct Hcur as (current & Hcur). rewrite Hcur.
    change (default ∅ (Some current)) with current.
    assert (Hkey : state_map b !! set_to_key order current = Some p).
    { destruct Hinv as (_ & _ & _ & _ & Hmap & _). by apply Hmap. }
    unfold map_index. rewrite Hkey.
    assert (Heta : {| b_states := b_states b; worklist := worklist b;
                      state_map := state_map b |} = b) by (by destruct b).
    rewrite Heta.
    apply (builder_inv_bound order nfa _ config.max_dfa_states) in Hinv; [| done].
    destruct (expand_inv order nfa p current (N.to_nat config.ascii_size) 0
                config.max_dfa_states b Hinv Hcur) as (b1 & Hexp & Hinv1 & _);
      [by rewrite N2Nat.id |].
    rewrite Hexp. rewrite N2Nat.id in Hinv1. apply builder_inv_next in Hinv1.
    apply IH; [done | done |].
    eapply expand_family; [| | | exact Hexp]; [exact Hb | by eapply Hb |].
    rewrite N2Nat.id. lia.
Qed.
End family.
End family_facts.

(** ** The table simulates the NFA *)

Module simulation_facts.
Import dfa closure closure_facts nfa_spec subset_spec subset_facts table_facts
  simulation_spec reach_facts matcher.
Local Open Scope N_scope.

Section simulation.
Variable order : iter_order.
Variable nfa : list nfa_state.

(** The builder [build_dfa] enters its loop with. *)
Lemma initial_builder_inv (S0 : gset N) :
  closed nfa S0 →
  builder_inv order nfa (config.max_dfa_states + 128) 0 0
    {| b_states := if has_accept order nfa S0
                   then vec_alter set_accept 0 (vec_push vec_empty new_dfa_state)
                   else vec_push vec_empty new_dfa_state;
       worklist := vec_push vec_empty S0;
       state_map := {[set_to_key order S0 := 0]} |}.
Proof.
  intros Hclosed.
  match goal with |- builder_inv _ _ _ _ _ ?b0 => set (b := b0) end.
  assert (Hst : ∃ st, vec_get (b_states b) 0 = Some st ∧
            is_accept st = has_accept order nfa S0 ∧
            transitions st = transitions new_dfa_state).
  { unfold b. cbn [b_states]. destruct (has_accept order nfa S0);
      (eexists; split; [done |]; split; done). }
  destruct Hst as (st0 & Hst0 & Hacc & Htr).
  assert (Hw : ∀ i S, vec_get (worklist b) i = Some S → i = 0 ∧ S = S0).
  { intros i S. unfold b. cbn [worklist]. rewrite vec_get_push.
    destruct (decide (i = vec_size vec_empty)) as [-> | Hi]; [by intros [= <-] | done]. }
  split; [| split; [| split; [| split; [| split; [| split]]]]].
  - unfold b. cbn [b_states]. destruct (has_accept order nfa S0);
      [apply vec_wf_alter |]; apply vec_wf_push, vec_wf_empty.
  - unfold b. cbn [worklist]. apply vec_wf_push, vec_wf_empty.
  - unfold b. cbn [worklist b_states]. by destruct (has_accept order nfa S0).
  - unfold b. cbn [b_states]. by destruct (has_accept order nfa S0).
  - intros i S HS. destruct (Hw i S HS) as [-> ->]. split; [done |].
    unfold b. cbn [state_map]. by rewrite lookup_singleton_eq.
  - intros k i. unfold b. cbn [state_map].
    intros [<- <-]%lookup_singleton_Some. exists S0. done.
  - intros i S st HS. destruct (Hw i S HS) as [-> ->]. rewrite Hst0. intros [= <-].
    split; [done |]. split; [by rewrite Htr, new_row_length |].
    intros a Ha. cbv zeta. rewrite Htr, new_row.
    by rewrite bool_decide_eq_false_2 by lia.
Qed.

Lemma build_dfa_table nfa_start states :
  nfa ≠ [] → build_dfa order nfa nfa_start = Built states →
  ∃ W S0, epsilon_closure order nfa {[nfa_start]} = Some S0 ∧
    vec_get W 0 = Some S0 ∧ table_complete order nfa W states.
Proof.
  intros Hne. unfold build_dfa. rewrite bool_decide_eq_false_2 by done.
  destruct (epsilon_closure_spec nfa order {[nfa_start]}) as (S0 & HS0 & _ & Hclosed & _).
  rewrite HS0. intros Hrun.
  pose proof (initial_builder_inv S0 Hclosed) as Hinv.
  destruct (build_loop_inv order nfa _ 0 _ states Hinv Hrun) as (b' & -> & Hinv' & Hkeep).
  exists (worklist b'), S0. split; [done |]. split; [by apply Hkeep |].
  destruct Hinv' as (Hwf & Hwfw & Hsz & Hbound & Hmap & _ & Hrows).
  split; [done |]. split; [done |]. split; [done |]. split; [done |].
  split; [intros i S HS; by apply (Hmap i S) |].
  intros i S st HS Hst. destruct (Hrows i S st HS Hst) as (Hacc & Hlen & Hrow).
  split; [done |]. split; [done |]. intros a Ha. specialize (Hrow a Ha). cbv zeta in Hrow.
  assert (i < vec_size (worklist b')) by (by eapply vec_get_lt).
  by rewrite bool_decide_eq_true_2 in Hrow by lia.
Qed.

(** The state-limit exception is not raised when the subsets the
    construction can reach are no more than the cap. *)
Lemma build_dfa_family nfa_start S0 (family : gset (gset N)) states :
  epsilon_closure order nfa {[nfa_start]} = Some S0 →
  family_spec.subset_family order nfa family S0 →
  N.of_nat (size family) ≤ config.max_dfa_states →
  build_dfa order nfa nfa_start ≠ LimitExceeded states.
Proof.
  intros HS0 Hfamily Hsize. unfold build_dfa. destruct (bool_decide _); [done |].
  rewrite HS0.
  destruct (epsilon_closure_spec nfa order {[nfa_start]}) as (S0' & HS0' & _ & Hclosed & _).
  rewrite HS0 in HS0'. injection HS0' as <-.
  apply (family_facts.build_loop_family order nfa family S0 Hfamily); [done | |].
  - by apply initial_builder_inv.
  - cbn [worklist]. intros i S. rewrite vec_get_push.
    destruct (decide _); [| done]. intros [= <-]. apply Hfamily.
Qed.

Lemma has_accept_spec (S : gset N) :
  has_accept order nfa S = true ↔ ∃ u, u ∈ S ∧ accepting nfa u.
Proof.
  unfold has_accept. rewrite existsb_exists. split.
  - intros (u & Hu%list_elem_of_In%enumerate_elem_of & Hacc). exists u. split; [done |].
    destruct (nfa !! N.to_nat u) as [st |] eqn:Hst; [| done].
    exists st. split; [done |]. by apply bool_decide_eq_true in Hacc.
  - intros (u & Hu & st & Hst & Hk). exists u.
    split; [by apply list_elem_of_In, enumerate_elem_of |].
    rewrite Hst. by apply bool_decide_eq_true.
Qed.

Section table.
Variables (W : vec (gset N)) (states : vec dfa_state).
Hypothesis Htable : table_complete order nfa W states.

Lemma table_row i S :
  vec_get W i = Some S →
  ∃ st, vec_to_list states !! N.to_nat i = Some st ∧ vec_get states i = Some st.
Proof.
  destruct Htable as (Hwf & Hwfw & Hsz & _). intros HS.
  assert (Hi : i < vec_size states) by (rewrite <- Hsz; by eapply vec_get_lt).
  apply Hwf in Hi as [st Hst]. exists st. split; [| done].
  by rewrite vec_to_list_lookup, N2Nat.id.
Qed.

Lemma run_set_run : ∀ w i S j,
  vec_get W i = Some S → run (vec_to_list states) i w j →
  ∃ S', vec_get W j = Some S' ∧ set_run order nfa S w S'.
Proof.
  induction w as [| c w IH]; intros i S j HS Hrun; inversion Hrun; subst.
  - exists S. split; [done | constructor].
  - destruct Htable as (Hwf & Hwfw & Hsz & Hbound & Hclosed & Hrows).
    match goal with H : vec_to_list states !! _ = Some _ |- _ =>
      rewrite vec_to_list_lookup, N2Nat.id in H by done; rename H into Hst end.
    destruct (Hrows i S st HS Hst) as (_ & Hlen & Hrow).
    specialize (Hrow (byte_of c) ltac:(done)). rewrite nth_lookup in Hrow.
    match goal with H : transitions st !! _ = Some _ |- _ => rewrite H in Hrow end.
    cbn [default from_option id] in Hrow. unfold subset_spec.entry_ok in Hrow.
    destruct (bool_decide_reflect (move order nfa S (byte_of c) = ∅)) as [He | Hne];
      [done |].
    destruct Hrow as (S1 & HS1 & Hnext).
    destruct (IH next S1 j Hnext) as (S' & HS' & Hrun'); [done |].
    exists S'. split; [done |]. by econstructor.
Qed.

Lemma set_run_run : ∀ w i S S',
  vec_get W i = Some S → set_run order nfa S w S' →
  ∃ j, run (vec_to_list states) i w j ∧ vec_get W j = Some S'.
Proof.
  induction w as [| c w IH]; intros i S S' HS Hrun; inversion Hrun; subst.
  - exists i. split; [constructor | done].
  - destruct (table_row i S HS) as (st & Hlist & Hst).
    destruct Htable as (Hwf & Hwfw & Hsz & Hbound & Hclosed & Hrows).
    destruct (Hrows i S st HS Hst) as (_ & Hlen & Hrow).
    specialize (Hrow (byte_of c) ltac:(done)).
    unfold subset_spec.entry_ok in Hrow.
    rewrite bool_decide_eq_false_2 in Hrow by done.
    destruct Hrow as (S1 & HS1 & Hnext).
    assert (S1 = S'0) as -> by congruence.
    destruct (IH _ S'0 S' Hnext) as (j & Hj & HjS); [done |].
    exists j. split; [| done].
    assert (Ht : transitions st !! N.to_nat (byte_of c)
                 = Some (nth (N.to_nat (byte_of c)) (transitions st) no_transition)).
    { rewrite nth_lookup.
      destruct (lookup_lt_is_Some_2 (transitions st) (N.to_nat (byte_of c))) as [t ->];
        [rewrite Hlen; lia | done]. }
    econstructor; [done | exact Hlist | exact Ht | | exact Hj].
    apply vec_get_lt in Hnext; [| done]. intros Hdead. rewrite Hdead in Hnext.
    unfold no_transition, config.max_dfa_states in *. lia.
Qed.
End table.

Lemma nfa_run_eps_path s t w u :
  rtc (eps_edge nfa) s t → nfa_run nfa t w u → nfa_run nfa s w u.
Proof.
  induction 1 as [| a b c Hab _ IH]; [done |].
  intros Hrun. eapply nfa_run_eps; [done | by apply IH].
Qed.

Lemma nfa_run_set_run : ∀ s w u,
  nfa_run nfa s w u → ∀ S, closed nfa S → s ∈ S →
  ∃ S', set_run order nfa S w S' ∧ u ∈ S'.
Proof.
  induction 1 as [s | s t w u Hedge _ IH | s t c w u Hc Hedge _ IH];
    intros S Hclosed Hs.
  - exists S. split; [constructor | done].
  - apply IH; [done | by eapply Hclosed].
  - assert (Ht : t ∈ move order nfa S (byte_of c)).
    { apply order_facts.move_elem_of. destruct Hedge as (st & Hst & Hcons & Hn & ->).
      exists s, st. done. }
    destruct (epsilon_closure_spec nfa order (move order nfa S (byte_of c)))
      as (S1 & HS1 & Hsub & Hclosed1 & _).
    destruct (IH S1 Hclosed1 (Hsub _ Ht)) as (S' & Hrun & Hu).
    exists S'. split; [| done]. econstructor; [done | set_solver | done | done].
Qed.

Lemma set_run_nfa_run S w S' :
  set_run order nfa S w S' → ∀ u, u ∈ S' → ∃ s, s ∈ S ∧ nfa_run nfa s w u.
Proof.
  induction 1 as [S | S c w S1 S' Hc Hne HS1 _ IH]; intros u Hu.
  - exists u. split; [done | constructor].
  - destruct (IH u Hu) as (s1 & Hs1 & Hrun).
    destruct (epsilon_closure_reach nfa order (move order nfa S (byte_of c)))
      as (R & HR & Hreach).
    rewrite HS1 in HR. injection HR as <-.
    apply Hreach in Hs1 as (t & Ht & Hpath).
    apply order_facts.move_elem_of in Ht as (s & st & Hs & Hst & Hcons & Hn & ->).
    exists s. split; [done |].
    eapply nfa_run_char; [done | by exists st |]. by eapply nfa_run_eps_path.
Qed.
End simulation.

Lemma build_nfa_nonempty pattern nfa nfa_start :
  build_nfa pattern = Ok (nfa, nfa_start) → nfa ≠ [].
Proof.
  unfold build_nfa. destruct (parse_regex _ _ _) as [[frag st] | |]; [| done ..].
  intros [= <- _] Hnil. apply (f_equal length) in Hnil.
  unfold patch_nfa in Hnil. rewrite length_alter, length_app in Hnil. simpl in Hnil. lia.
Qed.

(** The table is the subset construction of the NFA: [matches] accepts
    exactly the texts the NFA accepts. *)
Lemma compile_matches order pattern d text :
  compile order pattern = Ok d →
  matches d text = true ↔ nfa_accepts (nfa_states_ d) (nfa_start_ d) text.
Proof.
  unfold compile. destruct (build_nfa pattern) as [[nfa nfa_start] | |] eqn:Hnfa; [| done ..].
  destruct (build_dfa order nfa nfa_start) as [states | |] eqn:Hdfa; [| done ..].
  intros [= <-]. cbn [nfa_states_ nfa_start_].
  pose proof (build_nfa_nonempty _ _ _ Hnfa) as Hne.
  destruct (build_dfa_table order nfa nfa_start states Hne Hdfa) as (W & S0 & HS0 & HW0 & Htable).
  destruct (epsilon_closure_reach nfa order {[nfa_start]}) as (R & HR & Hreach).
  rewrite HS0 in HR. injection HR as <-.
  assert (Hclosed0 : closed nfa S0) by (destruct Htable as (_ & _ & _ & _ & Hc & _); eauto).
  destruct (table_row order nfa W states Htable 0 S0 HW0) as (st0 & Hlist0 & Hst0).
  unfold matches. cbn [states_].
  rewrite bool_decide_eq_false_2 by (intros Hnil; by rewrite Hnil in Hlist0).
  rewrite matcher_facts.matches_loop_run. split.
  - intros (j & st & Hrun & Hj & Hacc).
    destruct (run_set_run order nfa W states Htable text 0 S0 j HW0 Hrun) as (S' & HS' & Hset).
    destruct (table_row order nfa W states Htable j S' HS') as (st' & Hlist & Hst).
    assert (st' = st) as -> by congruence.
    destruct Htable as (_ & _ & _ & _ & _ & Hrows).
    destruct (Hrows j S' st HS' Hst) as (Hacc' & _).
    rewrite Hacc in Hacc'. symmetry in Hacc'.
    apply has_accept_spec in Hacc' as (u & Hu & Hfinal).
    destruct (set_run_nfa_run order nfa S0 text S' Hset u Hu) as (s & Hs & Hnrun).
    apply Hreach in Hs as (s0 & ->%elem_of_singleton & Hpath).
    exists u. split; [by eapply nfa_run_eps_path | done].
  - intros (u & Hrun & Hfinal).
    assert (Hstart : nfa_start ∈ S0).
    { apply Hreach. exists nfa_start. split; [set_solver | constructor]. }
    destruct (nfa_run_set_run order nfa _ _ _ Hrun S0 Hclosed0 Hstart) as (S' & Hset & Hu).
    destruct (set_run_run order nfa W states Htable text 0 S0 S' HW0 Hset) as (j & Hj & HjS).
    destruct (table_row order nfa W states Htable j S' HjS) as (st & Hlist & Hst).
    exists j, st. split; [done |]. split; [done |].
    destruct Htable as (_ & _ & _ & _ & _ & Hrows).
    destruct (Hrows j S' st HjS Hst) as (-> & _).
    apply has_accept_spec. by exists u.
Qed.
End simulation_facts.

(** ** Regexes without metacharacters *)

Module literal_facts.
Import dfa literal_spec parser_facts.

Lemma metachar_false c :
  metachar c = false →
  Ascii.eqb c "(" = false ∧ Ascii.eqb c ")" = false ∧ Ascii.eqb c "[" = false ∧
  Ascii.eqb c "." = false ∧ Ascii.eqb c "\" = false ∧ Ascii.eqb c "^" = false ∧
  Ascii.eqb c "$" = false ∧ Ascii.eqb c "|" = false ∧ Ascii.eqb c "*" = false ∧
  Ascii.eqb c "+" = false ∧ Ascii.eqb c "?" = false.
Proof.
  unfold metachar. intros H%bool_decide_eq_false.
  repeat split; apply Ascii.eqb_neq; intros ->; apply H; set_solver.
Qed.

Lemma chain_length src k : length (chain src k) = k.
Proof. unfold chain. by rewrite length_fmap, length_seq. Qed.

Lemma chain_lookup src k i : i < k → chain src k !! i = Some (chain_state src k i).
Proof.
  intros Hi. unfold chain. rewrite list_lookup_fmap, lookup_seq_lt by done. done.
Qed.

(** Linking the last state of a chain to the state appended after it. *)
Lemma chain_patch src k x :
  0 < k → (N.of_nat k ≠ no_transition) →
  patch_nfa (N.of_nat (k - 1)) (N.of_nat k) (chain src k ++ [x])
  = (chain_state src (S k) <$> seq 0 k) ++ [x].
Proof.
  intros Hk Hsent. unfold patch_nfa. rewrite Nat2N.id. apply list_eq. intros i.
  assert (Hl1 : length (chain src k) = k) by apply chain_length.
  assert (Hl2 : length (chain_state src (S k) <$> seq 0 k) = k)
    by (by rewrite length_fmap, length_seq).
  destruct (decide (i = k - 1)) as [-> | Hne].
  - rewrite list_lookup_alter_eq.
    rewrite (lookup_app_l (chain src k)) by lia.
    rewrite (lookup_app_l (chain_state src (S k) <$> seq 0 k)) by lia.
    rewrite chain_lookup, list_lookup_fmap, lookup_seq_lt by lia. simpl. f_equal.
    unfold chain_state. replace (S (k - 1)) with k by lia.
    rewrite Nat.ltb_irrefl.
    destruct (Nat.ltb_spec k (S k)); [| lia].
    unfold patch_state, has_next1, set_next1, mk_state.
    cbn [kind next1 next2 match_char match_class].
    rewrite decide_False by done. by rewrite N.eqb_refl.
  - rewrite list_lookup_alter_ne by done.
    destruct (decide (i < k)) as [Hi | Hi].
    + rewrite (lookup_app_l (chain src k)) by lia.
      rewrite (lookup_app_l (chain_state src (S k) <$> seq 0 k)) by lia.
      rewrite chain_lookup, list_lookup_fmap, lookup_seq_lt by lia. simpl. f_equal.
      unfold chain_state.
      destruct (Nat.ltb_spec (S i) k), (Nat.ltb_spec (S i) (S k)); (done || lia).
    + rewrite (lookup_app_r (chain src k)) by lia.
      rewrite (lookup_app_r (chain_state src (S k) <$> seq 0 k)) by lia.
      by rewrite Hl1, Hl2.
Qed.

Lemma chain_S src k :
  chain src (S k) = (chain_state src (S k) <$> seq 0 k)
                    ++ [mk_state char_match (at_ src k) cc_empty no_transition no_transition].
Proof.
  unfold chain. rewrite seq_S, fmap_app. simpl. do 2 f_equal.
  unfold chain_state. by rewrite Nat.ltb_irrefl.
Qed.

Section trace.
Variable src : list ascii.
Hypothesis Hplain : ∀ i, i < length src → metachar (at_ src i) = false.
Hypothesis Hshort : ∀ k, k ≤ length src → N.of_nat k ≠ no_transition.

Lemma parse_quantified_plain (inner : parser nfa_fragment) st :
  pos st < length src →
  parse_quantified src inner st =
  Ok (Fragment (N.of_nat (length (ps_states st))) (N.of_nat (length (ps_states st))),
      {| ps_states := ps_states st
           ++ [mk_state char_match (at_ src (pos st)) cc_empty no_transition no_transition];
         pos := S (pos st) |}).
Proof.
  intros Hp. destruct (metachar_false _ (Hplain _ Hp))
    as (H1 & H2 & H3 & H4 & H5 & H6 & H7 & H8 & H9 & H10 & H11).
  unfold parse_quantified, parse_atom. rewrite !bind_run. unfold get_pos at 1.
  destruct (Nat.leb_spec (length src) (pos st)); [lia |].
  rewrite H1, H3, H4, H5, H6, H7. cbn [orb].
  rewrite !bind_run. unfold set_pos at 1. unfold single. rewrite bind_run.
  unfold push_state at 1. cbn [ps_states pos]. unfold mret, parser_ret at 1.
  rewrite bind_run. unfold get_pos. cbn [pos].
  destruct (Nat.leb_spec (length src) (S (pos st))) as [Hend | Hmore]; [done |].
  destruct (metachar_false _ (Hplain _ Hmore))
    as (_ & _ & _ & _ & _ & _ & _ & _ & G9 & G10 & G11).
  by rewrite G9, G10, G11.
Qed.

Lemma concatenation_loop_plain (inner : parser nfa_fragment) : ∀ fuel k st result first,
  length src ≤ k + fuel → k ≤ length src →
  pos st = k → ps_states st = chain src k →
  (first = bool_decide (k = 0)) →
  (0 < k → result = Fragment 0 (N.of_nat (k - 1))) →
  ∃ r, concatenation_loop src inner fuel result first st =
         Ok ((r, bool_decide (length src = 0)),
             {| ps_states := chain src (length src); pos := length src |}) ∧
       (0 < length src → r = Fragment 0 (N.of_nat (length src - 1))).
Proof.
  induction fuel as [| fuel IH]; intros k st result first Hfuel Hk Hpos Hst Hfirst Hres;
    rewrite concatenation_loop_step, bind_run; unfold get_pos; rewrite Hpos.
  - assert (k = length src) as -> by lia. rewrite Nat.ltb_irrefl. cbn [andb].
    exists result. split; [| done]. unfold mret, parser_ret.
    destruct st as [states p]. simpl in *. subst. done.
  - destruct (Nat.ltb_spec k (length src)) as [Hlt | Hge]; cbn [andb].
    + destruct (metachar_false _ (Hplain _ Hlt)) as (_ & H2 & _ & _ & _ & _ & _ & H8 & _).
      unfold char_neq. rewrite H2, H8. cbn [negb andb]. rewrite bind_run.
      rewrite parse_quantified_plain by lia. rewrite Hpos, Hst, chain_length.
      destruct (decide (k = 0)) as [-> | Hk0].
      * rewrite Hfirst, bool_decide_eq_true_2 by done.
        apply (IH 1); [lia | lia | done | | by rewrite bool_decide_eq_false_2 | done].
        cbn [ps_states]. by rewrite chain_S.
      * rewrite Hfirst, bool_decide_eq_false_2 by done. rewrite bind_run.
        unfold patch, modify_nfa. cbn [ps_states pos start end_].
        rewrite (Hres ltac:(lia)). cbn [start end_].
        apply (IH (S k)); [lia | lia | done | | by rewrite bool_decide_eq_false_2 |].
        -- cbn [ps_states]. rewrite chain_patch by (auto with lia). by rewrite chain_S.
        -- intros _. by rewrite Nat.sub_1_r.
    + assert (k = length src) as -> by lia.
      exists result. split; [| done]. unfold mret, parser_ret.
      destruct st as [states p]. simpl in *. subst. done.
Qed.

Lemma parse_regex_plain depth :
  src ≠ [] →
  parse_regex src (S depth) {| ps_states := []; pos := 0 |} =
  Ok (Fragment 0 (N.of_nat (length src - 1)),
      {| ps_states := chain src (length src); pos := length src |}).
Proof.
  intros Hne. assert (Hn : 0 < length src) by (destruct src; [done | simpl; lia]).
  cbn [parse_regex]. unfold parse_alternation, parse_concatenation.
  rewrite !bind_run.
  destruct (concatenation_loop_plain (parse_regex src depth) (length src) 0
              {| ps_states := []; pos := 0 |} (Fragment 0 0) true)
    as (r & -> & Hr); [lia | lia | done | done | done | lia |].
  rewrite (Hr Hn). rewrite bool_decide_eq_false_2 by lia. cbn [snd fst].
  unfold mret, parser_ret at 1.
  rewrite alternation_loop_step, bind_run. unfold get_pos. cbn [pos].
  by rewrite Nat.ltb_irrefl.
Qed.

Lemma build_nfa_plain :
  src ≠ [] → build_nfa src = Ok (literal_nfa src, 0%N).
Proof.
  intros Hne. assert (Hn : 0 < length src) by (destruct src; [done | simpl; lia]).
  unfold build_nfa. rewrite parse_regex_plain by done.
  cbn [ps_states start end_]. rewrite chain_length.
  rewrite chain_patch by auto.
  unfold literal_nfa. by destruct src.
Qed.
End trace.

Lemma build_nfa_empty :
  build_nfa [] = Ok (literal_nfa [], 0%N).
Proof. reflexivity. Qed.
End literal_facts.

Module literal_run_facts.
Import dfa closure nfa_spec literal_spec literal_facts char_class_facts.

Lemma empty_nfa_accepts w : nfa_accepts (literal_nfa []) 0 w ↔ w = [].
Proof.
  split.
  - intros (u & Hrun & _). induction Hrun as [| s t w u _ _ IH | s t c w u _ Hedge _ _].
    + done.
    + done.
    + destruct Hedge as (st & Hst & Hcons & _).
      destruct (N.to_nat s) as [| [| ?]]; simpl in Hst; simplify_eq; done.
  - intros ->. exists 1%N. split.
    + eapply nfa_run_eps; [| constructor].
      eexists. split; [reflexivity |]. split; [done |]. by left.
    + eexists. split; [reflexivity | done].
Qed.

Section literal.
Variable src : list ascii.
Hypothesis Hne : src ≠ [].
Hypothesis Hascii : ∀ i, i < length src → (byte_of (at_ src i) < config.ascii_size)%N.
Hypothesis Hshort : ∀ k, k ≤ length src → N.of_nat k ≠ no_transition.

Lemma literal_nfa_char i :
  i < length src →
  literal_nfa src !! i = Some (chain_state src (S (length src)) i).
Proof.
  intros Hi. unfold literal_nfa. destruct src as [| c rest] eqn:E; [done |].
  rewrite <- E in *. rewrite lookup_app_l by (by rewrite length_fmap, length_seq).
  by rewrite list_lookup_fmap, lookup_seq_lt.
Qed.

Lemma literal_nfa_accept :
  literal_nfa src !! length src = Some accept_state.
Proof.
  unfold literal_nfa. destruct src as [| c rest] eqn:E; [done |].
  rewrite <- E in *. rewrite lookup_app_r by (by rewrite length_fmap, length_seq).
  by rewrite length_fmap, length_seq, Nat.sub_diag.
Qed.

Lemma literal_nfa_lookup i st :
  literal_nfa src !! i = Some st →
  (i < length src ∧ st = chain_state src (S (length src)) i) ∨
  (i = length src ∧ st = accept_state).
Proof.
  intros Hst. destruct (decide (i < length src)) as [Hi | Hi].
  - left. rewrite literal_nfa_char in Hst by done. by injection Hst as <-.
  - destruct (decide (i = length src)) as [-> | Hne'].
    + right. rewrite literal_nfa_accept in Hst. by injection Hst as <-.
    + apply lookup_lt_Some in Hst. unfold literal_nfa in Hst.
      destruct src as [| c rest] eqn:E; [done |]. rewrite <- E in *.
      rewrite length_app, length_fmap, length_seq in Hst. simpl in Hst. lia.
Qed.

Lemma literal_no_eps s t : ¬ eps_edge (literal_nfa src) s t.
Proof.
  intros (st & Hst & Hk & _).
  apply literal_nfa_lookup in Hst as [[_ ->] | [_ ->]]; done.
Qed.

Lemma literal_char_edge c s t :
  char_edge (literal_nfa src) c s t ↔
  ∃ i, i < length src ∧ s = N.of_nat i ∧ t = N.of_nat (S i) ∧
    byte_of (at_ src i) = c.
Proof.
  split.
  - intros (st & Hst & Hcons & Hnext & ->).
    apply literal_nfa_lookup in Hst as [[Hi ->] | [_ ->]]; [| done].
    exists (N.to_nat s). split; [done |]. split; [by rewrite N2Nat.id |].
    unfold chain_state, mk_state, consumes in *.
    cbn [kind match_char match_class next1 next2] in *.
    destruct (Nat.ltb_spec (S (N.to_nat s)) (S (length src))); [| lia].
    split; [done |]. by apply N.eqb_eq.
  - intros (i & Hi & -> & -> & <-). exists (chain_state src (S (length src)) i).
    rewrite Nat2N.id. split; [by apply literal_nfa_char |].
    unfold chain_state, mk_state, consumes, has_next1.
    cbn [kind match_char match_class next1 next2].
    destruct (Nat.ltb_spec (S i) (S (length src))); [| lia].
    split; [apply N.eqb_refl |]. split; [| done].
    apply negb_true_iff, N.eqb_neq. apply Hshort. lia.
Qed.

Lemma literal_accepting u :
  accepting (literal_nfa src) u ↔ u = N.of_nat (length src).
Proof.
  split.
  - intros (st & Hst & Hk).
    apply literal_nfa_lookup in Hst as [[_ ->] | [Hu _]]; [done |].
    rewrite <- Hu. by rewrite N2Nat.id.
  - intros ->. exists accept_state. rewrite Nat2N.id.
    split; [apply literal_nfa_accept | done].
Qed.

Lemma drop_at (i : nat) :
  i < length src → drop i src = at_ src i :: drop (S i) src.
Proof.
  intros Hi. apply drop_S. by apply failure_facts.at_lookup.
Qed.

Lemma literal_run_inv s w u :
  nfa_run (literal_nfa src) s w u →
  ∀ i, s = N.of_nat i → i ≤ length src →
    i + length w ≤ length src ∧ u = N.of_nat (i + length w) ∧
    w = take (length w) (drop i src).
Proof.
  induction 1 as [s | s t w u Hedge _ _ | s t c w u Hc Hedge _ IH]; intros i Hs Hi.
  - simpl. rewrite Nat.add_0_r. done.
  - by apply literal_no_eps in Hedge.
  - apply literal_char_edge in Hedge as (i' & Hi' & Hs' & -> & Hbyte).
    assert (i' = i) as -> by (apply Nat2N.inj; congruence).
    apply byte_of_inj in Hbyte as <-.
    destruct (IH (S i) eq_refl ltac:(lia)) as (Hlen & -> & Hw).
    simpl. split; [lia |]. split; [f_equal; lia |].
    rewrite drop_at by done. simpl. by f_equal.
Qed.

Lemma literal_run : ∀ k i,
  i + k = length src →
  nfa_run (literal_nfa src) (N.of_nat i) (drop i src) (N.of_nat (length src)).
Proof.
  induction k as [| k IH]; intros i Hi.
  - replace i with (length src) by lia. rewrite drop_all. constructor.
  - rewrite drop_at by lia. eapply nfa_run_char; [apply Hascii; lia | | apply IH; lia].
    apply literal_char_edge. exists i. split; [lia | done].
Qed.

Lemma literal_nfa_accepts w : nfa_accepts (literal_nfa src) 0 w ↔ w = src.
Proof.
  split.
  - intros (u & Hrun & Hacc%literal_accepting).
    destruct (literal_run_inv _ _ _ Hrun 0 eq_refl ltac:(lia)) as (Hlen & Hu & Hw).
    rewrite Hacc in Hu. apply Nat2N.inj in Hu. simpl in Hu.
    rewrite Hw, <- Hu, drop_0. by rewrite take_ge.
  - intros ->. exists (N.of_nat (length src)). split; [| by apply literal_accepting].
    apply (literal_run (length src) 0). lia.
Qed.
End literal.
End literal_run_facts.

(** ** Sources the parser rejects *)

Module reject_facts.
Import dfa parser_spec parser_facts progress_facts border_facts.

(** The loop of [parse_char_class] stops at the end of the source or at
    a closing bracket. *)
Lemma class_items_stop pattern : ∀ fuel p cc pf cc',
  class_items pattern fuel p cc = Some (pf, cc') →
  length pattern ≤ pf ∨ at_ pattern pf = "]"%char.
Proof.
  induction fuel as [| fuel IH]; intros p cc pf cc'; rewrite class_items_step.
  - destruct (Nat.ltb_spec p (length pattern)) as [Hlt | Hge]; simpl.
    + destruct (char_neq (at_ pattern p) "]") eqn:E; [done |].
      intros [= <- <-]. right. by apply char_neq_false.
    + intros [= <- <-]. by left.
  - destruct (Nat.ltb_spec p (length pattern)) as [Hlt | Hge]; simpl.
    + destruct (char_neq (at_ pattern p) "]") eqn:E.
      * repeat case_match; apply IH.
      * intros [= <- <-]. right. by apply char_neq_false.
    + intros [= <- <-]. by left.
Qed.

Lemma at_elem_of w p : p < length w → at_ w p ∈ w.
Proof.
  intros Hp. apply list_elem_of_lookup. exists p. by apply failure_facts.at_lookup.
Qed.

Lemma char_neq_of_ne a b : a ≠ b → char_neq a b = true.
Proof.
  intros Hne. destruct (char_neq a b) eqn:E; [done |].
  by apply char_neq_false in E.
Qed.

Section first_atom.
Variables (pattern : list ascii) (what : string).
Hypothesis Hlen : 0 < length pattern.
Hypothesis Hbar : at_ pattern 0 ≠ "|"%char.
Hypothesis Hclose : at_ pattern 0 ≠ ")"%char.

(** When the first atom of the source is rejected, so is the source. *)
Lemma first_atom_throws :
  parse_atom pattern (parse_regex pattern (length pattern))
    {| ps_states := []; pos := 0 |} = Throw what →
  build_nfa pattern = Throw what.
Proof.
  intros Hatom. unfold build_nfa. cbn [parse_regex].
  unfold parse_alternation, parse_concatenation. rewrite !bind_run.
  destruct (length pattern) as [| n] eqn:En; [lia |].
  rewrite concatenation_loop_step, bind_run. unfold get_pos at 1. cbn [pos].
  rewrite En. destruct (Nat.ltb_spec 0 (S n)); [| lia].
  rewrite !char_neq_of_ne by done. cbn [andb].
  unfold parse_quantified. rewrite !bind_run. by rewrite Hatom.
Qed.
End first_atom.

Lemma unclosed_class_throws (w : list ascii) inner :
  "]"%char ∉ w →
  parse_atom ("["%char :: w) inner {| ps_states := []; pos := 0 |}
  = Throw "Unclosed character class".
Proof.
  intros Hw. unfold parse_atom. rewrite bind_run. unfold get_pos at 1. cbn [pos].
  change (length ("["%char :: w) <=? 0) with false. cbv iota.
  change (at_ ("["%char :: w) 0) with "["%char. cbv zeta.
  change (Ascii.eqb "[" "(") with false. change (Ascii.eqb "[" "[") with true.
  cbv iota. unfold parse_char_class. rewrite bind_run. unfold get_pos at 1.
  cbn [pos]. cbv zeta.
  set (pattern := ("["%char :: w)).
  set (negated := (1 <? length pattern) && Ascii.eqb (at_ pattern 1) "^").
  destruct (class_items pattern (length pattern) (if negated then 2 else 1) cc_empty)
    as [[pf cc] |] eqn:E.
  - rewrite bind_run. unfold set_pos at 1. cbn [pos].
    destruct (Nat.leb_spec (length pattern) pf) as [Hge | Hlt]; [done |].
    exfalso. pose proof (class_items_ge _ _ _ _ _ _ E) as Hpf.
    apply class_items_stop in E as [Hge | Hat]; [lia |].
    apply Hw. destruct pf as [| pf].
    + destruct negated; lia.
    + change (at_ pattern (S pf)) with (at_ w pf) in Hat. rewrite <- Hat.
      apply at_elem_of. unfold pattern in Hlt. simpl in Hlt. lia.
  - exfalso.
    destruct (class_items_within pattern (length pattern)
                (if negated then 2 else 1) cc_empty) as (pf & cc' & Hsome & _).
    + unfold negated. destruct (Nat.ltb_spec 1 (length pattern)); simpl;
        [destruct (Ascii.eqb _ _) |]; unfold pattern in *; simpl in *; lia.
    + destruct negated; lia.
    + congruence.
Qed.

Lemma unclosed_group_throws (w : list ascii) :
  ")"%char ∉ w →
  ∃ what, parse_atom ("("%char :: w)
            (parse_regex ("("%char :: w) (length ("("%char :: w)))
            {| ps_states := []; pos := 0 |} = Throw what.
Proof.
  intros Hw. set (pattern := ("("%char :: w)).
  unfold parse_atom. rewrite bind_run. unfold get_pos at 1. cbn [pos].
  change (length pattern <=? 0) with false. cbv iota.
  change (at_ pattern 0) with "("%char. cbv zeta.
  change (Ascii.eqb "(" "(") with true. cbv iota.
  rewrite bind_run. unfold set_pos at 1. cbn [ps_states].
  rewrite bind_run.
  pose proof (parse_regex_within pattern (length pattern) 1
                ltac:(simpl; lia) ltac:(lia)
                {| ps_states := []; pos := 1 |} eq_refl) as Hin.
  destruct (parse_regex pattern (length pattern) _) as [[frag st] | what |];
    [| by eexists | done].
  rewrite bind_run. unfold get_pos at 1.
  destruct (Nat.leb_spec (length pattern) (pos st)) as [Hge | Hlt];
    [by eexists |].
  cbn [orb]. rewrite char_neq_of_ne; [by eexists |].
  intros Hat. apply Hw. destruct (pos st) as [| q] eqn:Eq; [lia |].
  change (at_ pattern (S q)) with (at_ w q) in Hat. rewrite <- Hat.
  apply at_elem_of. unfold pattern in Hlt. simpl in Hlt. lia.
Qed.

Lemma compile_throws order pattern what :
  build_nfa pattern = Throw what →
  regex.compile_regex order pattern = Throw what.
Proof. intros H. unfold regex.compile_regex, compile. by rewrite H. Qed.
End reject_facts.

(** ** Runs through the fragments of the NFA *)

Module region_facts.
Import dfa closure nfa_spec regex_spec region_spec char_class_facts.

Section steps.
Variable nfa : list nfa_state.

Lemma step_eps_state s st w t :
  nfa !! N.to_nat s = Some st → kind st = epsilon →
  step nfa s w t ↔
  w = [] ∧ ((has_next1 st = true ∧ t = next1 st) ∨ (has_next2 st = true ∧ t = next2 st)).
Proof.
  intros Hst Hk. split.
  - intros Hstep.
    inversion Hstep as [s' t' (st' & Hst' & _ & Hor) | s' t' c Hc (st' & Hst' & Hcons & _)];
      subst.
    + rewrite Hst in Hst'. injection Hst' as <-. done.
    + rewrite Hst in Hst'. injection Hst' as <-.
      unfold consumes in Hcons. by rewrite Hk in Hcons.
  - intros [-> Hor]. constructor. by exists st.
Qed.

Lemma step_char_state s st w t :
  nfa !! N.to_nat s = Some st → kind st = char_match → has_next1 st = true →
  step nfa s w t ↔
  w = [match_char st] ∧ (byte_of (match_char st) < config.ascii_size)%N ∧ t = next1 st.
Proof.
  intros Hst Hk Hn. split.
  - intros Hstep.
    inversion Hstep
      as [s' t' (st' & Hst' & Hk' & _) | s' t' c Hc (st' & Hst' & Hcons & _ & Ht)];
      subst.
    + rewrite Hst in Hst'. injection Hst' as <-. congruence.
    + rewrite Hst in Hst'. injection Hst' as <-.
      unfold consumes in Hcons. rewrite Hk in Hcons.
      apply N.eqb_eq, byte_of_inj in Hcons as ->. done.
  - intros (-> & Hc & ->). constructor; [done |]. exists st.
    unfold consumes. rewrite Hk, N.eqb_refl. done.
Qed.

Lemma step_class_state s st w t :
  nfa !! N.to_nat s = Some st → kind st = class_match → has_next1 st = true →
  step nfa s w t ↔
  ∃ c, w = [c] ∧ cc_test (match_class st) c = true ∧ t = next1 st.
Proof.
  intros Hst Hk Hn. split.
  - intros Hstep.
    inversion Hstep
      as [s' t' (st' & Hst' & Hk' & _) | s' t' c Hc (st' & Hst' & Hcons & _ & Ht)];
      subst.
    + rewrite Hst in Hst'. injection Hst' as <-. congruence.
    + rewrite Hst in Hst'. injection Hst' as <-.
      unfold consumes in Hcons. rewrite Hk in Hcons.
      unfold byte_of in Hcons. rewrite ascii_N_embedding in Hcons. by exists c.
  - intros (c & -> & Hc & ->).
    assert (Hascii : (byte_of c < config.ascii_size)%N).
    { destruct (N.ltb_spec (byte_of c) config.ascii_size); [done |].
      by rewrite cc_test_non_ascii in Hc. }
    constructor; [done |]. exists st.
    unfold consumes. rewrite Hk. unfold byte_of. rewrite ascii_N_embedding. done.
Qed.

Lemma step_ext nfa' s w t :
  nfa' !! N.to_nat s = nfa !! N.to_nat s → step nfa s w t → step nfa' s w t.
Proof.
  intros Heq Hstep.
  inversion Hstep as [s' t' (st & Hst & H) | s' t' c Hc (st & Hst & H)]; subst.
  - constructor. exists st. by rewrite Heq.
  - constructor; [done |]. exists st. by rewrite Heq.
Qed.
End steps.

Section paths.
Variable nfa : list nfa_state.

Lemma path_outside lo hi n s w t :
  ¬ inside lo hi s → path nfa lo hi n s w t → n = 0 ∧ w = [] ∧ t = s.
Proof. intros Hs Hp. by destruct Hp. Qed.

Lemma path_first lo hi n s w x :
  inside lo hi s → ¬ inside lo hi x →
  path nfa lo hi n s w x →
  ∃ n' w0 t v, n = S n' ∧ w = w0 ++ v ∧ step nfa s w0 t ∧ path nfa lo hi n' t v x.
Proof.
  intros Hs Hx Hp. destruct Hp as [| n s w t v u _ Hstep Hp]; [done |].
  by exists n, w, t, v.
Qed.

Lemma path_mono lo1 hi1 lo hi n s w t :
  lo ≤ lo1 → hi1 ≤ hi →
  path nfa lo1 hi1 n s w t → path nfa lo hi n s w t.
Proof.
  intros Hlo Hhi. induction 1 as [| n s w t v u Hs Hstep _ IH]; [constructor |].
  econstructor; [| done | done]. unfold inside in *. lia.
Qed.

Lemma path_app lo hi n1 n2 s u y v x :
  path nfa lo hi n1 s u y → path nfa lo hi n2 y v x →
  path nfa lo hi (n1 + n2) s (u ++ v) x.
Proof.
  intros H1 H2. induction H1 as [| n s w t v' u' Hs Hstep _ IH]; [done |].
  rewrite <- app_assoc. simpl. econstructor; [done | done |]. by apply IH.
Qed.

Lemma path_one lo hi s w t :
  inside lo hi s → step nfa s w t → path nfa lo hi 1 s w t.
Proof.
  intros Hs Hstep. rewrite <- (app_nil_r w).
  econstructor; [done | done | constructor].
Qed.

(** A run that starts in a smaller region leaves it through its exit
    before it goes on. *)
Lemma path_leave lo1 hi1 lo hi y x :
  lo ≤ lo1 → hi1 ≤ hi →
  closed_but nfa lo1 hi1 y → ¬ inside lo1 hi1 y → ¬ inside lo hi x →
  ∀ n s w, inside lo1 hi1 s → path nfa lo hi n s w x →
    ∃ n1 n2 u v, n = n1 + n2 ∧ 0 < n1 ∧ w = u ++ v ∧
      path nfa lo1 hi1 n1 s u y ∧ path nfa lo hi n2 y v x.
Proof.
  intros Hlo Hhi Hclosed Hy Hx.
  induction n as [| n IH]; intros s w Hs Hp.
  { inversion Hp; subst. exfalso. apply Hx. unfold inside in *. lia. }
  inversion Hp as [| n' s' w0 t v u _ Hstep Hrest]; subst.
  destruct (Hclosed s w0 t Hs Hstep) as [Ht | ->].
  - destruct (IH t v Ht Hrest) as (n1 & n2 & u1 & v1 & -> & Hn1 & -> & Hin & Hout).
    exists (S n1), n2, (w0 ++ u1), v1.
    split; [done |]. split; [lia |]. split; [by rewrite app_assoc |].
    split; [| done]. by econstructor.
  - exists 1, n, w0, v. split; [done |]. split; [lia |]. split; [done |].
    split; [| done]. by apply path_one.
Qed.

Lemma path_ext nfa' lo hi n s w t :
  (∀ i, lo ≤ i < hi → nfa' !! i = nfa !! i) →
  path nfa lo hi n s w t → path nfa' lo hi n s w t.
Proof.
  intros Heq. induction 1 as [| n s w t v u Hs Hstep _ IH]; [constructor |].
  econstructor; [done | | done]. eapply step_ext; [| done]. by apply Heq.
Qed.
End paths.

Lemma recognises_ext nfa nfa' lo hi s x r :
  (∀ i, lo ≤ i < hi → nfa' !! i = nfa !! i) →
  recognises nfa lo hi s x r → recognises nfa' lo hi s x r.
Proof.
  intros Heq (Hx & Hclosed & Hlang). split; [done |]. split.
  - intros s' w t Hs Hstep. apply (Hclosed s' w t Hs).
    eapply step_ext; [| done]. symmetry. by apply Heq.
  - intros w. rewrite <- Hlang. split; intros [n Hp]; exists n.
    + eapply path_ext; [| done]. intros i Hi. symmetry. by apply Heq.
    + by eapply path_ext.
Qed.

Lemma has_next1_mk k c cc n1 n2 :
  has_next1 (mk_state k c cc n1 n2) = true ↔ n1 ≠ no_transition.
Proof.
  unfold has_next1. simpl. rewrite negb_true_iff, N.eqb_neq. done.
Qed.

Lemma has_next2_mk k c cc n1 n2 :
  has_next2 (mk_state k c cc n1 n2) = true ↔ n2 ≠ no_transition.
Proof.
  unfold has_next2. simpl. rewrite negb_true_iff, N.eqb_neq. done.
Qed.

(** The transitions of a state that reads nothing. *)
Lemma step_glue nfa s c cc n1 n2 w t :
  nfa !! N.to_nat s = Some (mk_state epsilon c cc n1 n2) →
  step nfa s w t ↔
  w = [] ∧ ((n1 ≠ no_transition ∧ t = n1) ∨ (n2 ≠ no_transition ∧ t = n2)).
Proof.
  intros Hst. rewrite (step_eps_state nfa s _ w t Hst eq_refl).
  by rewrite has_next1_mk, has_next2_mk.
Qed.

Section compose.
Variable nfa : list nfa_state.

Local Ltac ins := unfold inside in *; lia.

Lemma inside_one i s : inside i (S i) s ↔ s = N.of_nat i.
Proof. unfold inside. lia. Qed.

(** A region of one state whose transitions all lead to [x]. *)
Lemma recognises_one i x r (L : list ascii → Prop) :
  ¬ inside i (S i) x →
  (∀ w t, step nfa (N.of_nat i) w t ↔ t = x ∧ L w) →
  (∀ w, L w ↔ lang r w) →
  recognises nfa i (S i) (N.of_nat i) x r.
Proof.
  intros Hx Hstep HL. split; [done |]. split.
  - intros s w t ->%inside_one [-> _]%Hstep. by right.
  - intros w. rewrite <- HL. split.
    + intros [n Hp].
      apply path_first in Hp as (n' & w0 & t & v & -> & -> & [-> Hw]%Hstep & Hp);
        [| by apply inside_one | done].
      apply path_outside in Hp as (_ & -> & _); [| done].
      by rewrite app_nil_r.
    + intros Hw. exists 1. apply path_one; [by apply inside_one |].
      by apply Hstep.
Qed.

Lemma recognises_eps i c cc x :
  nfa !! i = Some (mk_state epsilon c cc x no_transition) →
  x ≠ no_transition → ¬ inside i (S i) x →
  recognises nfa i (S i) (N.of_nat i) x Eps.
Proof.
  intros Hst Hnt Hx. apply (recognises_one i x Eps (λ w, w = [])); [done | |].
  - intros w t. rewrite (step_glue nfa _ c cc x no_transition); [| by rewrite Nat2N.id].
    naive_solver.
  - intros w. split; [intros ->; constructor | by inversion 1].
Qed.

Lemma recognises_chr i c cc x :
  nfa !! i = Some (mk_state char_match c cc x no_transition) →
  x ≠ no_transition → ¬ inside i (S i) x →
  recognises nfa i (S i) (N.of_nat i) x (Chr c).
Proof.
  intros Hst Hnt Hx.
  apply (recognises_one i x (Chr c)
           (λ w, w = [c] ∧ (byte_of c < config.ascii_size)%N)); [done | |].
  - intros w t.
    rewrite (step_char_state nfa _ (mk_state char_match c cc x no_transition) w t);
      [| by rewrite Nat2N.id | done |].
    + simpl. naive_solver.
    + by apply has_next1_mk.
  - intros w. split; [intros [-> Hc]; by constructor | by inversion 1].
Qed.

Lemma recognises_cls i c cc x :
  nfa !! i = Some (mk_state class_match c cc x no_transition) →
  x ≠ no_transition → ¬ inside i (S i) x →
  recognises nfa i (S i) (N.of_nat i) x (Cls cc).
Proof.
  intros Hst Hnt Hx.
  apply (recognises_one i x (Cls cc)
           (λ w, ∃ d, w = [d] ∧ cc_test cc d = true)); [done | |].
  - intros w t.
    rewrite (step_class_state nfa _ (mk_state class_match c cc x no_transition) w t);
      [| by rewrite Nat2N.id | done |].
    + simpl. naive_solver.
    + by apply has_next1_mk.
  - intros w. split; [intros (d & -> & Hd); by constructor | inversion 1; eauto].
Qed.

(** A run from a state that reads nothing and only leads out. *)
Lemma path_join lo hi j c cc x n w :
  nfa !! j = Some (mk_state epsilon c cc x no_transition) →
  lo ≤ j < hi → x ≠ no_transition → ¬ inside lo hi x →
  path nfa lo hi n (N.of_nat j) w x ↔ n = 1 ∧ w = [].
Proof.
  intros Hst Hj Hnt Hx.
  assert (Hstep : ∀ w t, step nfa (N.of_nat j) w t ↔ w = [] ∧ t = x).
  { intros w' t. rewrite (step_glue nfa _ c cc x no_transition); [| by rewrite Nat2N.id].
    naive_solver. }
  split.
  - intros Hp.
    apply path_first in Hp as (n' & w0 & t & v & -> & -> & [-> ->]%Hstep & Hp);
      [| ins | done].
    by apply path_outside in Hp as (-> & -> & _).
  - intros [-> ->]. apply path_one; [ins |]. by apply Hstep.
Qed.

Lemma recognises_cat lo mid hi s1 s2 x r1 r2 :
  lo ≤ mid ≤ hi → inside lo mid s1 → inside mid hi s2 → ¬ inside lo hi x →
  recognises nfa lo mid s1 s2 r1 → recognises nfa mid hi s2 x r2 →
  recognises nfa lo hi s1 x (Cat r1 r2).
Proof.
  intros Hmid Hs1 Hs2 Hx (Hx1 & Hc1 & HL1) (Hx2 & Hc2 & HL2).
  split; [done |]. split.
  - intros s w t Hs Hstep.
    destruct (decide (N.to_nat s < mid)) as [Hlt | Hge].
    + destruct (Hc1 s w t) as [Ht | ->]; [ins | done | left; ins | left; ins].
    + destruct (Hc2 s w t) as [Ht | ->]; [ins | done | left; ins | by right].
  - intros w. split.
    + intros [n Hp].
      apply (path_leave nfa lo mid lo hi s2 x) in Hp
        as (n1 & n2 & u & v & -> & _ & -> & Hp1 & Hp); [| lia | lia | done ..].
      apply (path_leave nfa mid hi lo hi x x) in Hp
        as (n3 & n4 & u' & v' & -> & _ & -> & Hp2 & Hp); [| lia | lia | done ..].
      apply path_outside in Hp as (_ & -> & _); [| done].
      rewrite app_nil_r. constructor; [apply HL1 | apply HL2]; eauto.
    + inversion 1 as [| | | ? ? u v Hu Hv | | | | | | |]; subst.
      apply HL1 in Hu as [n1 Hp1]. apply HL2 in Hv as [n2 Hp2].
      exists (n1 + n2). apply (path_app nfa lo hi n1 n2 s1 u s2 v x).
      * eapply path_mono; [| | done]; lia.
      * eapply path_mono; [| | done]; lia.
Qed.

Lemma recognises_alt lo m1 m2 sl sr c cc c' cc' x rl rr :
  lo ≤ m1 ≤ m2 → inside lo m1 sl → inside m1 m2 sr →
  ¬ inside lo (S (S m2)) x → x ≠ no_transition →
  sl ≠ no_transition → sr ≠ no_transition →
  nfa !! m2 = Some (mk_state epsilon c cc sl sr) →
  nfa !! S m2 = Some (mk_state epsilon c' cc' x no_transition) →
  recognises nfa lo m1 sl (N.of_nat (S m2)) rl →
  recognises nfa m1 m2 sr (N.of_nat (S m2)) rr →
  recognises nfa lo (S (S m2)) (N.of_nat m2) x (Alt rl rr).
Proof.
  intros Hm Hsl Hsr Hx Hnt Hsl' Hsr' Hsplit Hjoin (_ & Hc1 & HL1) (_ & Hc2 & HL2).
  assert (Hstep : ∀ w t, step nfa (N.of_nat m2) w t ↔ w = [] ∧ (t = sl ∨ t = sr)).
  { intros w t. rewrite (step_glue nfa _ c cc sl sr); [| by rewrite Nat2N.id].
    naive_solver. }
  assert (Hjstep : ∀ w t, step nfa (N.of_nat (S m2)) w t ↔ w = [] ∧ t = x).
  { intros w t. rewrite (step_glue nfa _ c' cc' x no_transition);
      [| by rewrite Nat2N.id]. naive_solver. }
  split; [done |]. split.
  - intros s w t Hs Hst.
    destruct (decide (N.to_nat s < m1)) as [Hlt | Hge1].
    { destruct (Hc1 s w t) as [Ht | ->]; [ins | done | left; ins | left; ins]. }
    destruct (decide (N.to_nat s < m2)) as [Hlt | Hge2].
    { destruct (Hc2 s w t) as [Ht | ->]; [ins | done | left; ins | left; ins]. }
    destruct (decide (N.to_nat s = m2)) as [Heq | Hne].
    { replace s with (N.of_nat m2) in Hst by lia.
      apply Hstep in Hst as [_ [-> | ->]]; left; ins. }
    replace s with (N.of_nat (S m2)) in Hst by ins.
    apply Hjstep in Hst as [_ ->]. by right.
  - assert (Hside : ∀ lo1 hi1 s r n w,
              lo ≤ lo1 → hi1 ≤ m2 → inside lo1 hi1 s →
              closed_but nfa lo1 hi1 (N.of_nat (S m2)) →
              (∀ w, (∃ n, path nfa lo1 hi1 n s w (N.of_nat (S m2))) ↔ lang r w) →
              path nfa lo (S (S m2)) n s w x → lang r w).
    { intros lo1 hi1 s r n w Hlo1 Hhi1 Hs Hc HL Hp.
      apply (path_leave nfa lo1 hi1 lo (S (S m2)) (N.of_nat (S m2)) x) in Hp
        as (n1 & n2 & u & v & -> & _ & -> & Hp1 & Hp); [| lia | lia | done | ins | done ..].
      apply (path_join lo (S (S m2)) (S m2) c' cc' x) in Hp as [_ ->];
        [| done | lia | done | done].
      rewrite app_nil_r. apply HL. eauto. }
    assert (Hback : ∀ lo1 hi1 s r w,
              lo ≤ lo1 → hi1 ≤ m2 →
              (∀ w, (∃ n, path nfa lo1 hi1 n s w (N.of_nat (S m2))) ↔ lang r w) →
              lang r w → ∃ n, path nfa lo (S (S m2)) n s w x).
    { intros lo1 hi1 s r w Hlo1 Hhi1 HL [n Hp]%HL.
      exists (n + 1). rewrite <- (app_nil_r w).
      apply (path_app nfa lo (S (S m2)) n 1 s w (N.of_nat (S m2)) [] x).
      - eapply path_mono; [| | done]; lia.
      - apply (path_join lo (S (S m2)) (S m2) c' cc' x); [done | lia | done ..]. }
    intros w. split.
    + intros [n Hp].
      apply path_first in Hp as (n' & w0 & t & v & -> & -> & [-> Ht]%Hstep & Hp);
        [| ins | done].
      simpl. destruct Ht as [-> | ->].
      * apply lang_alt_l. eapply (Hside lo m1 sl rl n' v); [lia | lia | done ..].
      * apply lang_alt_r. eapply (Hside m1 m2 sr rr n' v); [lia | lia | done ..].
    + inversion 1 as [| | | | ? ? u Hu | ? ? u Hu | | | | |]; subst.
      * destruct (Hback lo m1 sl rl w) as [n Hp]; [lia | lia | done | done |].
        exists (S n). change w with ([] ++ w).
        econstructor; [ins | | done]. apply Hstep. auto.
      * destruct (Hback m1 m2 sr rr w) as [n Hp]; [lia | lia | done | done |].
        exists (S n). change w with ([] ++ w).
        econstructor; [ins | | done]. apply Hstep. auto.
Qed.

Section loop.
Variables (lo m : nat) (s1 x : N) (c : ascii) (cc : char_class) (r : re).
Hypothesis Hlo : lo ≤ m.
Hypothesis Hs1 : inside lo m s1.
Hypothesis Hx : ¬ inside lo (S m) x.
Hypothesis Hnt : x ≠ no_transition.
Hypothesis Hs1' : s1 ≠ no_transition.
Hypothesis Hsplit : nfa !! m = Some (mk_state epsilon c cc s1 x).
Hypothesis Hinner : recognises nfa lo m s1 (N.of_nat m) r.

Lemma loop_step w t :
  step nfa (N.of_nat m) w t ↔ w = [] ∧ (t = s1 ∨ t = x).
Proof.
  rewrite (step_glue nfa _ c cc s1 x); [| by rewrite Nat2N.id]. naive_solver.
Qed.

Lemma loop_closed : closed_but nfa lo (S m) x.
Proof.
  destruct Hinner as (_ & Hc & _). intros s w t Hs Hst.
  destruct (decide (N.to_nat s < m)) as [Hlt | Hge].
  - destruct (Hc s w t) as [Ht | ->]; [ins | done | left; ins | left; ins].
  - replace s with (N.of_nat m) in Hst by ins.
    apply loop_step in Hst as [_ [-> | ->]]; [left; ins | by right].
Qed.

Lemma loop_round n w :
  path nfa lo (S m) n s1 w x →
  ∃ n1 n2 u v, n = n1 + n2 ∧ w = u ++ v ∧ lang r u ∧
    path nfa lo (S m) n2 (N.of_nat m) v x.
Proof.
  destruct Hinner as (Hm & Hc & HL). intros Hp.
  apply (path_leave nfa lo m lo (S m) (N.of_nat m) x) in Hp
    as (n1 & n2 & u & v & -> & _ & -> & Hp1 & Hp); [| lia | lia | done ..].
  exists n1, n2, u, v. split; [done |]. split; [done |]. split; [| done].
  apply HL. eauto.
Qed.

Lemma loop_lang : ∀ n w,
  path nfa lo (S m) n (N.of_nat m) w x → lang (Star r) w.
Proof.
  induction n as [n IH] using lt_wf_ind. intros w Hp.
  apply path_first in Hp as (n' & w0 & t & v & -> & -> & [-> Ht]%loop_step & Hp);
    [| ins | done].
  simpl. destruct Ht as [-> | ->].
  - apply loop_round in Hp as (n1 & n2 & u & v' & -> & -> & Hu & Hp).
    apply lang_star_more; [done |]. apply (IH n2); [lia | done].
  - apply path_outside in Hp as (_ & -> & _); [| done]. constructor.
Qed.

Lemma loop_enter w :
  lang r w → ∃ n, path nfa lo (S m) n s1 w (N.of_nat m).
Proof.
  destruct Hinner as (_ & _ & HL). intros [n Hp]%HL. exists n.
  eapply path_mono; [| | done]; lia.
Qed.

Lemma loop_path w :
  lang (Star r) w → ∃ n, path nfa lo (S m) n (N.of_nat m) w x.
Proof.
  intros H. remember (Star r) as r' eqn:Er.
  induction H as [| | | | | | r0 | r0 u v Hu _ Hv IH | | |]; try discriminate.
  - exists 1. apply path_one; [ins |]. apply loop_step. auto.
  - injection Er as ->. destruct (IH eq_refl) as [n2 Hp2].
    destruct (loop_enter u Hu) as [n1 Hp1].
    exists (S (n1 + n2)).
    apply (path_cons nfa lo (S m) _ _ [] s1 (u ++ v) x);
      [ins | apply loop_step; auto |].
    exact (path_app nfa lo (S m) n1 n2 s1 u (N.of_nat m) v x Hp1 Hp2).
Qed.

Lemma recognises_star : recognises nfa lo (S m) (N.of_nat m) x (Star r).
Proof.
  split; [done |]. split; [apply loop_closed |].
  intros w. split; [intros [n Hp]; by eapply loop_lang | apply loop_path].
Qed.

Lemma recognises_plus : recognises nfa lo (S m) s1 x (Plus r).
Proof.
  split; [done |]. split; [apply loop_closed |].
  intros w. split.
  - intros [n Hp].
    apply loop_round in Hp as (n1 & n2 & u & v' & -> & -> & Hu & Hp).
    constructor; [done |]. by eapply loop_lang.
  - inversion 1 as [| | | | | | | | ? u v Hu Hv | |]; subst.
    destruct (loop_enter u Hu) as [n1 Hp1].
    destruct (loop_path v Hv) as [n2 Hp2].
    exists (n1 + n2).
    exact (path_app nfa lo (S m) n1 n2 s1 u (N.of_nat m) v x Hp1 Hp2).
Qed.
End loop.

Lemma recognises_opt lo m s1 c cc c' cc' x r :
  lo ≤ m → inside lo m s1 → ¬ inside lo (S (S m)) x →
  x ≠ no_transition → s1 ≠ no_transition →
  nfa !! m = Some (mk_state epsilon c cc s1 (N.of_nat (S m))) →
  nfa !! S m = Some (mk_state epsilon c' cc' x no_transition) →
  N.of_nat (S m) ≠ no_transition →
  recognises nfa lo m s1 (N.of_nat (S m)) r →
  recognises nfa lo (S (S m)) (N.of_nat m) x (Opt r).
Proof.
  intros Hlo Hs1 Hx Hnt Hs1' Hsplit Hjoin Hj (_ & Hc & HL).
  assert (Hstep : ∀ w t, step nfa (N.of_nat m) w t ↔
                         w = [] ∧ (t = s1 ∨ t = N.of_nat (S m))).
  { intros w t. rewrite (step_glue nfa _ c cc s1 (N.of_nat (S m)));
      [| by rewrite Nat2N.id]. naive_solver. }
  assert (Hjstep : ∀ w t, step nfa (N.of_nat (S m)) w t ↔ w = [] ∧ t = x).
  { intros w t. rewrite (step_glue nfa _ c' cc' x no_transition);
      [| by rewrite Nat2N.id]. naive_solver. }
  assert (Hjpath : ∀ n w, path nfa lo (S (S m)) n (N.of_nat (S m)) w x ↔ n = 1 ∧ w = []).
  { intros n w. apply (path_join lo (S (S m)) (S m) c' cc' x); [done | lia | done ..]. }
  split; [done |]. split.
  - intros s w t Hs Hst.
    destruct (decide (N.to_nat s < m)) as [Hlt | Hge].
    { destruct (Hc s w t) as [Ht | ->]; [ins | done | left; ins | left; ins]. }
    destruct (decide (N.to_nat s = m)) as [Heq | Hne].
    { replace s with (N.of_nat m) in Hst by lia.
      apply Hstep in Hst as [_ [-> | ->]]; left; ins. }
    replace s with (N.of_nat (S m)) in Hst by ins.
    apply Hjstep in Hst as [_ ->]. by right.
  - intros w. split.
    + intros [n Hp].
      apply path_first in Hp as (n' & w0 & t & v & -> & -> & [-> Ht]%Hstep & Hp);
        [| ins | done].
      simpl. destruct Ht as [-> | ->].
      * apply (path_leave nfa lo m lo (S (S m)) (N.of_nat (S m)) x) in Hp
          as (n1 & n2 & u & v' & -> & _ & -> & Hp1 & Hp);
          [| lia | lia | done | ins | done ..].
        apply Hjpath in Hp as [_ ->]. rewrite app_nil_r.
        apply lang_opt_some, HL. eauto.
      * apply Hjpath in Hp as [_ ->]. constructor.
    + inversion 1 as [| | | | | | | | | | ? u Hu]; subst.
      * exists 2.
        apply (path_cons nfa lo (S (S m)) _ _ [] (N.of_nat (S m)) [] x);
          [ins | apply Hstep; auto |]. by apply Hjpath.
      * apply HL in Hu as [n Hp]. exists (S (n + 1)).
        apply (path_cons nfa lo (S (S m)) _ _ [] s1 w x);
          [ins | apply Hstep; auto |].
        rewrite <- (app_nil_r w). eapply path_app.
        -- eapply path_mono; [| | done]; lia.
        -- by apply Hjpath.
Qed.

Lemma path_run lo hi n s w t : path nfa lo hi n s w t → nfa_run nfa s w t.
Proof.
  induction 1 as [| n s w t v u _ Hstep _ IH]; [constructor |].
  inversion Hstep; subst; simpl; [by eapply nfa_run_eps | by eapply nfa_run_char].
Qed.

Lemma run_path hi x s w u :
  closed_but nfa 0 hi x → (∀ w t, ¬ step nfa x w t) →
  nfa_run nfa s w u → u = x → inside 0 hi s ∨ s = x →
  ∃ n, path nfa 0 hi n s w x.
Proof.
  intros Hc Hstuck. induction 1 as [s | s t w u Hedge Hrun IH | s t c w u Hc' Hedge Hrun IH];
    intros Hu Hs.
  - subst. exists 0. constructor.
  - destruct Hs as [Hs | ->]; [| by destruct (Hstuck [] t); constructor].
    assert (Hstep : step nfa s [] t) by by constructor.
    destruct IH as [n Hp]; [done | |].
    { destruct (Hc s [] t Hs Hstep); auto. }
    exists (S n). by apply (path_cons nfa 0 hi n s [] t w x).
  - destruct Hs as [Hs | ->]; [| by destruct (Hstuck [c] t); constructor].
    assert (Hstep : step nfa s [c] t) by by constructor.
    destruct IH as [n Hp]; [done | |].
    { destruct (Hc s [c] t Hs Hstep); auto. }
    exists (S n). by apply (path_cons nfa 0 hi n s [c] t w x).
Qed.

(** Once the whole NFA is one region that leads to the accept state,
    the NFA accepts the language of the region. *)
Lemma recognises_accepts hi s r w :
  recognises nfa 0 hi s (N.of_nat hi) r →
  nfa !! hi = Some (mk_state accept "000" cc_empty no_transition no_transition) →
  (∀ i st, nfa !! i = Some st → kind st = accept → i = hi) →
  inside 0 hi s →
  nfa_accepts nfa s w ↔ lang r w.
Proof.
  intros (Hx & Hc & HL) Hacc Honly Hs. rewrite <- HL.
  assert (Hstuck : ∀ w t, ¬ step nfa (N.of_nat hi) w t).
  { intros w' t Hstep.
    inversion Hstep as [s' t' (st & Hst & Hk & _) | s' t' c Hc' (st & Hst & Hcons & _)];
      subst; rewrite Nat2N.id, Hacc in Hst; by injection Hst as <-. }
  split.
  - intros (u & Hrun & st & Hst & Hk).
    apply Honly in Hst; [| done].
    apply (run_path hi (N.of_nat hi) s w u); [done | done | done | lia | by left].
  - intros [n Hp]. exists (N.of_nat hi). split; [by eapply path_run |].
    eexists. rewrite Nat2N.id. split; [done |]. done.
Qed.
End compose.
End region_facts.

(** ** The parser monad *)

Module wp_facts.
Import dfa wp_spec.

Lemma wp_call {A B} (m : parser A) (k : A → parser B) st (Q1 : A → pstate → Prop) Q :
  wp m st Q1 → (∀ a st', Q1 a st' → wp (k a) st' Q) → wp (m ≫= k) st Q.
Proof.
  unfold wp. intros Hm Hk.
  change ((m ≫= k) st) with (match m st with
                             | Ok (a, st') => k a st'
                             | Throw what => Throw what
                             | Diverge => Diverge
                             end).
  destruct (m st) as [[a st'] | |]; [by apply Hk | done | done].
Qed.

Lemma wp_ret {A} (a : A) st (Q : A → pstate → Prop) : Q a st → wp (mret a) st Q.
Proof. done. Qed.

Lemma wp_throw {A} what st (Q : A → pstate → Prop) : wp (throw what) st Q.
Proof. done. Qed.

Lemma wp_diverge {A} st (Q : A → pstate → Prop) : wp diverge st Q.
Proof. done. Qed.

Lemma wp_get {B} (k : nat → parser B) st Q :
  wp (k (pos st)) st Q → wp (get_pos ≫= k) st Q.
Proof. done. Qed.

Lemma wp_set {B} p (k : () → parser B) st Q :
  wp (k ()) {| ps_states := ps_states st; pos := p |} Q → wp (set_pos p ≫= k) st Q.
Proof. done. Qed.

Lemma wp_push {B} s (k : N → parser B) st Q :
  wp (k (N.of_nat (length (ps_states st))))
     {| ps_states := ps_states st ++ [s]; pos := pos st |} Q →
  wp (push_state s ≫= k) st Q.
Proof. done. Qed.

Lemma wp_modify {B} f (k : () → parser B) st Q :
  wp (k ()) {| ps_states := f (ps_states st); pos := pos st |} Q →
  wp (modify_nfa f ≫= k) st Q.
Proof. done. Qed.

Lemma wp_mono {A} (m : parser A) st (Q1 Q2 : A → pstate → Prop) :
  wp m st Q1 → (∀ a st', Q1 a st' → Q2 a st') → wp m st Q2.
Proof. unfold wp. destruct (m st) as [[a st'] | |]; auto. Qed.
End wp_facts.

(** ** What each construction of the parser builds *)

Module build_facts.
Import dfa regex_spec region_spec region_facts build_spec.

Local Ltac ins := unfold inside, fits in *; lia.

Lemma fits_ne n : fits n → N.of_nat n ≠ no_transition.
Proof. unfold fits. lia. Qed.

Lemma inside_ne lo hi s : inside lo hi s → fits hi → s ≠ no_transition.
Proof. unfold inside, fits. lia. Qed.

Lemma patch_state_fresh x k c cc :
  patch_state x (mk_state k c cc no_transition no_transition)
  = mk_state k c cc x no_transition.
Proof. by destruct k. Qed.

Lemma patch_state_second x c cc s1 :
  s1 ≠ no_transition →
  patch_state x (mk_state epsilon c cc s1 no_transition) = mk_state epsilon c cc s1 x.
Proof.
  intros Hs1. unfold patch_state, has_next1, has_next2, set_next1, set_next2, mk_state.
  cbn [kind next1 next2 match_char match_class].
  rewrite decide_True by done.
  destruct (N.eqb_spec s1 no_transition) as [| _]; [done |]. done.
Qed.

Lemma frag_ok_ext nfa nfa2 lo hi f r :
  (∀ i, lo ≤ i < hi → nfa2 !! i = nfa !! i) → hi ≤ length nfa2 →
  frag_ok nfa lo hi f r → frag_ok nfa2 lo hi f r.
Proof.
  intros Heq Hlen (Hs & He & _ & Hrec). split; [done |]. split; [done |].
  split; [done |]. intros nfa' x Hsame Hend Hnt Hx. apply Hrec; [| | done | done].
  - intros i Hi Hne. rewrite Hsame by done. by apply Heq.
  - rewrite Hend. f_equal. apply Heq. ins.
Qed.

Section single.
Variables (nfa : list nfa_state) (k : nfa_kind) (c : ascii) (cc : char_class).
Variable r : re.
Hypothesis Hone : ∀ nfa' x,
  nfa' !! length nfa = Some (mk_state k c cc x no_transition) →
  x ≠ no_transition → ¬ inside (length nfa) (S (length nfa)) x →
  recognises nfa' (length nfa) (S (length nfa)) (N.of_nat (length nfa)) x r.

Lemma frag_single :
  frag_ok (nfa ++ [mk_state k c cc no_transition no_transition])
    (length nfa) (S (length nfa))
    (Fragment (N.of_nat (length nfa)) (N.of_nat (length nfa))) r.
Proof.
  split; [cbn [start]; ins |]. split; [cbn [end_]; ins |].
  split; [rewrite length_app; simpl; lia |].
  cbn [start end_]. intros nfa' x _ Hend Hnt Hx. apply Hone; [| done | done].
  rewrite Nat2N.id in Hend. rewrite Hend.
  rewrite lookup_app_r by lia. rewrite Nat.sub_diag. simpl.
  by rewrite patch_state_fresh.
Qed.
End single.

Lemma frag_eps nfa c cc :
  frag_ok (nfa ++ [mk_state epsilon c cc no_transition no_transition])
    (length nfa) (S (length nfa))
    (Fragment (N.of_nat (length nfa)) (N.of_nat (length nfa))) Eps.
Proof. apply frag_single. intros nfa' x. apply recognises_eps. Qed.

Lemma frag_chr nfa c cc :
  frag_ok (nfa ++ [mk_state char_match c cc no_transition no_transition])
    (length nfa) (S (length nfa))
    (Fragment (N.of_nat (length nfa)) (N.of_nat (length nfa))) (Chr c).
Proof. apply frag_single. intros nfa' x. apply recognises_chr. Qed.

Lemma frag_cls nfa c cc :
  frag_ok (nfa ++ [mk_state class_match c cc no_transition no_transition])
    (length nfa) (S (length nfa))
    (Fragment (N.of_nat (length nfa)) (N.of_nat (length nfa))) (Cls cc).
Proof. apply frag_single. intros nfa' x. apply recognises_cls. Qed.

Lemma frag_cat nfa lo mid hi f1 f2 r1 r2 :
  frag_ok nfa lo mid f1 r1 → frag_ok nfa mid hi f2 r2 →
  lo ≤ mid ≤ hi → fits hi →
  frag_ok (patch_nfa (end_ f1) (start f2) nfa) lo hi
    (Fragment (start f1) (end_ f2)) (Cat r1 r2).
Proof.
  intros (Hs1 & He1 & _ & Hrec1) (Hs2 & He2 & Hlen & Hrec2) Hmid Hfits.
  unfold patch_nfa.
  split; [cbn [start]; ins |]. split; [cbn [end_]; ins |].
  split; [by rewrite length_alter |].
  cbn [start end_]. intros nfa' x Hsame Hend Hnt Hx.
  apply (recognises_cat nfa' lo mid hi (start f1) (start f2)); [done | done | done | done | |].
  - apply Hrec1; [| | by eapply inside_ne | ins].
    + intros i Hi Hne. rewrite Hsame by ins. by rewrite list_lookup_alter_ne.
    + rewrite Hsame by ins. by rewrite list_lookup_alter_eq.
  - apply Hrec2; [| | done | ins].
    + intros i Hi Hne. rewrite Hsame by ins. rewrite list_lookup_alter_ne by ins. done.
    + rewrite Hend. by rewrite list_lookup_alter_ne by ins.
Qed.

Lemma frag_star_plus nfa lo f r c cc :
  let m := length nfa in
  let nfa' := patch_nfa (end_ f) (N.of_nat m)
                (nfa ++ [mk_state epsilon c cc (start f) no_transition]) in
  frag_ok nfa lo m f r → lo ≤ m → fits (S m) →
  frag_ok nfa' lo (S m) (Fragment (N.of_nat m) (N.of_nat m)) (Star r) ∧
  frag_ok nfa' lo (S m) (Fragment (start f) (N.of_nat m)) (Plus r).
Proof.
  intros m nfa2 (Hs & He & _ & Hrec) Hlo Hfits. unfold nfa2, patch_nfa.
  assert (Hs' : start f ≠ no_transition) by (eapply inside_ne; [done | ins]).
  assert (Hall : ∀ nfa' x,
            (∀ i, lo ≤ i < S m → i ≠ m →
               nfa' !! i = alter (patch_state (N.of_nat m)) (N.to_nat (end_ f))
                             (nfa ++ [mk_state epsilon c cc (start f) no_transition]) !! i) →
            nfa' !! m = patch_state x <$>
              alter (patch_state (N.of_nat m)) (N.to_nat (end_ f))
                (nfa ++ [mk_state epsilon c cc (start f) no_transition]) !! m →
            x ≠ no_transition → ¬ inside lo (S m) x →
            nfa' !! m = Some (mk_state epsilon c cc (start f) x) ∧
            recognises nfa' lo m (start f) (N.of_nat m) r).
  { intros nfa' x Hsame Hend Hnt Hx. split.
    - rewrite Hend, list_lookup_alter_ne by ins.
      rewrite lookup_app_r by (unfold m; lia).
      replace (m - length nfa) with 0 by (unfold m; lia). simpl.
      by rewrite patch_state_second.
    - apply Hrec; [| | apply fits_ne; ins | ins].
      + intros i Hi Hne. rewrite Hsame by ins. rewrite list_lookup_alter_ne by done.
        apply lookup_app_l. unfold m in *. lia.
      + rewrite Hsame by ins. rewrite list_lookup_alter_eq. f_equal.
        apply lookup_app_l. unfold inside, m in *. lia. }
  assert (Hlen : S m ≤ length (alter (patch_state (N.of_nat m)) (N.to_nat (end_ f))
                   (nfa ++ [mk_state epsilon c cc (start f) no_transition]))).
  { rewrite length_alter, length_app. simpl. unfold m. lia. }
  split.
  - split; [cbn [start]; ins |]. split; [cbn [end_]; ins |]. split; [done |].
    cbn [start end_]. rewrite Nat2N.id. intros nfa' x Hsame Hend Hnt Hx.
    destruct (Hall nfa' x Hsame Hend Hnt Hx) as [Hsplit Hinner].
    by apply (recognises_star nfa' lo m (start f) x c cc r).
  - split; [cbn [start]; ins |]. split; [cbn [end_]; ins |]. split; [done |].
    cbn [start end_]. rewrite Nat2N.id. intros nfa' x Hsame Hend Hnt Hx.
    destruct (Hall nfa' x Hsame Hend Hnt Hx) as [Hsplit Hinner].
    by apply (recognises_plus nfa' lo m (start f) x c cc r).
Qed.

Lemma frag_opt nfa lo f r c cc c' cc' :
  let m := length nfa in
  frag_ok nfa lo m f r → lo ≤ m → fits (S (S m)) →
  frag_ok
    (patch_nfa (end_ f) (N.of_nat (S m))
       (alter (set_next2 (N.of_nat (S m))) m
          ((nfa ++ [mk_state epsilon c cc (start f) no_transition])
           ++ [mk_state epsilon c' cc' no_transition no_transition])))
    lo (S (S m)) (Fragment (N.of_nat m) (N.of_nat (S m))) (Opt r).
Proof.
  intros m (Hs & He & _ & Hrec) Hlo Hfits. unfold patch_nfa.
  set (split := mk_state epsilon c cc (start f) no_transition).
  set (join := mk_state epsilon c' cc' no_transition no_transition).
  assert (Hlen1 : length (nfa ++ [split]) = S m) by (rewrite length_app; simpl; lia).
  split; [cbn [start]; ins |]. split; [cbn [end_]; ins |].
  split; [rewrite !length_alter, !length_app; simpl; unfold m; lia |].
  cbn [start end_]. rewrite Nat2N.id. intros nfa' x Hsame Hend Hnt Hx.
  apply (recognises_opt nfa' lo m (start f) c cc c' cc' x r);
    [done | done | done | done | eapply inside_ne; [done | ins] | | | apply fits_ne; ins |].
  - rewrite Hsame by ins. rewrite list_lookup_alter_ne by ins.
    rewrite list_lookup_alter_eq.
    rewrite lookup_app_l by lia. rewrite lookup_app_r by (unfold m; lia).
    replace (m - length nfa) with 0 by (unfold m; lia). done.
  - rewrite Hend. rewrite !list_lookup_alter_ne by ins.
    rewrite lookup_app_r by lia. rewrite Hlen1.
    replace (S m - S m) with 0 by lia. simpl. unfold join. by rewrite patch_state_fresh.
  - apply Hrec; [| | apply fits_ne; ins | ins].
    + intros i Hi Hne. rewrite Hsame by ins.
      rewrite !list_lookup_alter_ne by (done || lia).
      rewrite !lookup_app_l by (rewrite ?length_app; simpl; unfold m in *; lia). done.
    + rewrite Hsame by ins. rewrite list_lookup_alter_eq.
      rewrite list_lookup_alter_ne by ins.
      rewrite !lookup_app_l by (rewrite ?length_app; simpl; unfold inside, m in *; lia).
      done.
Qed.

Lemma frag_alt nfa lo m1 fl fr rl rr c cc c' cc' :
  let m2 := length nfa in
  frag_ok nfa lo m1 fl rl → frag_ok nfa m1 m2 fr rr →
  lo ≤ m1 ≤ m2 → fits (S (S m2)) →
  frag_ok
    (patch_nfa (end_ fr) (N.of_nat (S m2))
       (patch_nfa (end_ fl) (N.of_nat (S m2))
          ((nfa ++ [mk_state epsilon c cc (start fl) (start fr)])
           ++ [mk_state epsilon c' cc' no_transition no_transition])))
    lo (S (S m2)) (Fragment (N.of_nat m2) (N.of_nat (S m2))) (Alt rl rr).
Proof.
  intros m2 (Hsl & Hel & _ & Hrecl) (Hsr & Her & _ & Hrecr) Hm Hfits. unfold patch_nfa.
  set (split := mk_state epsilon c cc (start fl) (start fr)).
  set (join := mk_state epsilon c' cc' no_transition no_transition).
  assert (Hlen1 : length (nfa ++ [split]) = S m2) by (rewrite length_app; simpl; lia).
  split; [cbn [start]; ins |]. split; [cbn [end_]; ins |].
  split; [rewrite !length_alter, !length_app; simpl; unfold m2; lia |].
  cbn [start end_]. rewrite Nat2N.id. intros nfa' x Hsame Hend Hnt Hx.
  apply (recognises_alt nfa' lo m1 m2 (start fl) (start fr) c cc c' cc' x rl rr);
    [done | done | done | done | done
     | eapply inside_ne; [done | ins] | eapply inside_ne; [done | ins] | | | |].
  - rewrite Hsame by ins. rewrite !list_lookup_alter_ne by ins.
    rewrite lookup_app_l by lia. rewrite lookup_app_r by (unfold m2; lia).
    replace (m2 - length nfa) with 0 by (unfold m2; lia). done.
  - rewrite Hend. rewrite !list_lookup_alter_ne by ins.
    rewrite lookup_app_r by lia. rewrite Hlen1.
    replace (S m2 - S m2) with 0 by lia. simpl. unfold join. by rewrite patch_state_fresh.
  - apply Hrecl; [| | apply fits_ne; ins | ins].
    + intros i Hi Hne. rewrite Hsame by ins.
      rewrite !list_lookup_alter_ne by (done || ins).
      rewrite !lookup_app_l by (rewrite ?length_app; simpl; unfold m2 in *; lia). done.
    + rewrite Hsame by ins. rewrite list_lookup_alter_ne by ins.
      rewrite list_lookup_alter_eq.
      rewrite !lookup_app_l by (rewrite ?length_app; simpl; unfold inside, m2 in *; lia).
      done.
  - apply Hrecr; [| | apply fits_ne; ins | ins].
    + intros i Hi Hne. rewrite Hsame by ins.
      rewrite !list_lookup_alter_ne by (done || ins).
      rewrite !lookup_app_l by (rewrite ?length_app; simpl; unfold m2 in *; lia). done.
    + rewrite Hsame by ins. rewrite list_lookup_alter_eq.
      rewrite list_lookup_alter_ne by ins.
      rewrite !lookup_app_l by (rewrite ?length_app; simpl; unfold inside, m2 in *; lia).
      done.
Qed.
End build_facts.

(** ** The parser builds what the grammar reads *)

Module sound_facts.
Import dfa regex_spec region_spec region_facts build_spec build_facts
  wp_spec wp_facts sound_spec grammar parser_facts.

Local Ltac ins := unfold inside, fits in *; lia.

Lemma grows_refl nfa : grows nfa nfa.
Proof. by split. Qed.

Lemma grows_trans a b c : grows a b → grows b c → grows a c.
Proof.
  intros [Hl1 H1] [Hl2 H2]. split; [lia |].
  intros i Hi. rewrite H2 by lia. by apply H1.
Qed.

Lemma grows_push nfa s : grows nfa (nfa ++ [s]).
Proof.
  split; [rewrite length_app; lia |]. intros i Hi. by apply lookup_app_l.
Qed.

Lemma grows_alter nfa nfa' f i :
  grows nfa nfa' → length nfa ≤ i → grows nfa (alter f i nfa').
Proof.
  intros [Hl H] Hi. split; [by rewrite length_alter |].
  intros j Hj. rewrite list_lookup_alter_ne by lia. by apply H.
Qed.

Lemma no_accept_push nfa k c cc n1 n2 :
  no_accept nfa → k ≠ accept → no_accept (nfa ++ [mk_state k c cc n1 n2]).
Proof.
  intros H Hk. apply Forall_app. split; [done |]. by constructor.
Qed.

Lemma no_accept_patch nfa e x : no_accept nfa → no_accept (patch_nfa e x nfa).
Proof.
  intros H. unfold patch_nfa. apply Forall_alter; [done |].
  intros s _ Hs. unfold patch_state. by repeat case_match.
Qed.

Lemma no_accept_alter2 nfa i x : no_accept nfa → no_accept (alter (set_next2 x) i nfa).
Proof. intros H. apply Forall_alter; [done |]. by intros s _ Hs. Qed.

Lemma length_patch nfa e x : length (patch_nfa e x nfa) = length nfa.
Proof. unfold patch_nfa. by rewrite length_alter. Qed.

Lemma grows_patch nfa nfa' e x :
  grows nfa nfa' → length nfa ≤ N.to_nat e → grows nfa (patch_nfa e x nfa').
Proof. intros. by apply grows_alter. Qed.

Section sound.
Variable pattern : list ascii.

Local Abbreviation potential := (potential pattern).
Local Abbreviation ready := (ready pattern).
Local Abbreviation ahead := (ahead pattern).
Local Abbreviation built := (built pattern).
Local Abbreviation sound := (sound pattern).

(** One state for one regex. *)
Lemma single_built slack read st k c cc r p' :
  ready st → pos st ≤ p' ≤ length pattern →
  1 + 3 * (length pattern - p') ≤ 3 * (length pattern - pos st) + slack →
  k ≠ accept →
  read (pos st) = Some (r, p') →
  frag_ok (ps_states st ++ [mk_state k c cc no_transition no_transition])
    (length (ps_states st)) (S (length (ps_states st)))
    (Fragment (N.of_nat (length (ps_states st))) (N.of_nat (length (ps_states st)))) r →
  wp (single k c cc) {| ps_states := ps_states st; pos := p' |} (built slack read st).
Proof.
  intros (Hpos & Hfit & Hno) Hp' Hpot Hk Hread Hfrag.
  unfold single. apply wp_push. apply wp_ret.
  unfold sound_spec.built, sound_spec.ahead, sound_spec.potential.
  cbn [ps_states pos].
  replace (length (ps_states st ++ [mk_state k c cc no_transition no_transition]))
    with (S (length (ps_states st))) by (rewrite length_app; simpl; lia).
  split.
  - split; [done |]. split; [lia |].
    split; [apply grows_push | by apply no_accept_push].
  - by exists r.
Qed.

Lemma escape_sound : sound 0 (parse_escape pattern) (read_escape pattern).
Proof.
  intros st Hready. pose proof Hready as (Hpos & Hfit & Hno).
  unfold parse_escape. apply wp_get.
  destruct (Nat.leb_spec (length pattern) (pos st)) as [Hge | Hlt];
    [apply wp_throw |].
  cbv zeta. apply wp_set.
  repeat case_match;
    (eapply single_built;
     [done | lia | lia | done
      | unfold read_escape; destruct (Nat.leb_spec (length pattern) (pos st));
        [lia |]; cbv zeta;
        repeat match goal with
               | H : Ascii.eqb _ _ = _ |- _ => rewrite H; clear H
               end; reflexivity
      | first [apply frag_cls | apply frag_chr]]).
Qed.

Lemma class_sound st :
  ready st → pos st < length pattern →
  wp (parse_char_class pattern) st (built 0 (read_char_class pattern) st).
Proof.
  intros Hready Hlt. pose proof Hready as (Hpos & Hfit & Hno).
  unfold parse_char_class. apply wp_get. cbv zeta.
  destruct (class_items pattern (length pattern) _ cc_empty) as [[pf cc] |] eqn:E;
    [| apply wp_diverge].
  apply wp_set.
  destruct (Nat.leb_spec (length pattern) pf) as [Hge | Hpf]; [apply wp_throw |].
  apply wp_set. cbn [ps_states].
  pose proof (class_items_ge _ _ _ _ _ _ E) as Hle.
  assert (S (pos st) ≤ pf) by (destruct (_ && _) in Hle; lia).
  eapply single_built; [done | lia | lia | done | | apply frag_cls].
  unfold read_char_class. cbv zeta. rewrite E.
  destruct (Nat.leb_spec (length pattern) pf); [lia | done].
Qed.

Section levels.
Variable inner : parser nfa_fragment.
Variable read_inner : nat → option (re * nat).
Hypothesis Hinner : sound 1 inner read_inner.

Lemma atom_sound : sound 0 (parse_atom pattern inner) (read_atom pattern read_inner).
Proof.
  intros st Hready. pose proof Hready as (Hpos & Hfit & Hno).
  unfold parse_atom. apply wp_get.
  destruct (Nat.leb_spec (length pattern) (pos st)) as [Hge | Hlt];
    [apply wp_throw |].
  assert (Hleb : (length pattern <=? pos st) = false) by (apply Nat.leb_gt; lia).
  cbv zeta.
  destruct (Ascii.eqb (at_ pattern (pos st)) "(") eqn:Eparen.
  { apply wp_set.
    eapply wp_call.
    { apply Hinner. unfold sound_spec.ready, sound_spec.potential in *.
      cbn [ps_states pos]. split; [lia |]. split; [ins | done]. }
    intros f st2 ((Hpos2 & Hpot2 & Hgrow2 & Hno2) & r & Hread & Hfrag).
    cbn [ps_states pos] in *.
    apply wp_get.
    destruct ((length pattern <=? pos st2) || char_neq (at_ pattern (pos st2)) ")")
      eqn:Eclose; [apply wp_throw |].
    apply orb_false_iff in Eclose as [Hlt2%Nat.leb_gt Hclose].
    apply wp_set. apply wp_ret.
    unfold sound_spec.built, sound_spec.ahead, sound_spec.potential in *.
    cbn [ps_states pos] in *.
    split; [split; [lia |]; split; [lia | done] |].
    exists r. split; [| done].
    unfold read_atom. rewrite Hleb. cbv zeta. rewrite Eparen, Hread. simpl.
    destruct (Nat.leb_spec (length pattern) (pos st2)); [lia |].
    by rewrite Hclose. }
  destruct (Ascii.eqb (at_ pattern (pos st)) "[") eqn:Eclass.
  { eapply wp_mono; [by apply class_sound |].
    intros f st' (Hahead & r & Hread & Hfrag). split; [done |].
    exists r. split; [| done].
    unfold read_atom. rewrite Hleb. cbv zeta. by rewrite Eparen, Eclass. }
  destruct (Ascii.eqb (at_ pattern (pos st)) ".") eqn:Edot.
  { apply wp_set.
    eapply single_built; [done | lia | lia | done | | apply frag_cls].
    unfold read_atom. rewrite Hleb. cbv zeta. by rewrite Eparen, Eclass, Edot. }
  destruct (Ascii.eqb (at_ pattern (pos st)) "\") eqn:Eesc.
  { apply wp_set.
    eapply wp_mono.
    { apply escape_sound. unfold sound_spec.ready, sound_spec.potential in *.
      cbn [ps_states pos]. split; [lia |]. split; [ins | done]. }
    intros f st' ((Hpos' & Hpot' & Hgrow' & Hno') & r & Hread & Hfrag).
    unfold sound_spec.built, sound_spec.ahead, sound_spec.potential in *.
    cbn [ps_states pos] in *.
    split; [split; [lia |]; split; [lia | done] |].
    exists r. split; [| done].
    unfold read_atom. rewrite Hleb. cbv zeta. by rewrite Eparen, Eclass, Edot, Eesc. }
  destruct (Ascii.eqb (at_ pattern (pos st)) "^" || Ascii.eqb (at_ pattern (pos st)) "$")
    eqn:Eanchor.
  { apply wp_set.
    eapply single_built; [done | lia | lia | done | | apply frag_eps].
    unfold read_atom. rewrite Hleb. cbv zeta.
    by rewrite Eparen, Eclass, Edot, Eesc, Eanchor. }
  apply wp_set.
  eapply single_built; [done | lia | lia | done | | apply frag_chr].
  unfold read_atom. rewrite Hleb. cbv zeta.
  by rewrite Eparen, Eclass, Edot, Eesc, Eanchor.
Qed.

Section quantifier.
Variables (read : nat → option (re * nat)) (st0 st1 : pstate).
Variables (base : nfa_fragment) (r : re) (p' : nat).
Hypothesis Hready : ready st0.
Hypothesis Hahead : ahead 0 st0 st1.
Hypothesis Hfrag :
  frag_ok (ps_states st1) (length (ps_states st0)) (length (ps_states st1)) base r.
Hypothesis Hp' : pos st1 < p' ≤ length pattern.

Lemma quantifier_fits : fits (S (S (length (ps_states st1)))).
Proof.
  destruct Hready as (Hpos & Hfit & Hno).
  destruct Hahead as (Hpos1 & Hpot1 & Hgrow1 & Hno1).
  unfold sound_spec.potential in *. ins.
Qed.

Lemma make_star_built :
  read (pos st0) = Some (Star r, p') →
  wp (make_star base) {| ps_states := ps_states st1; pos := p' |}
    (built 0 read st0).
Proof.
  intros Hread. pose proof quantifier_fits as Hfits.
  destruct Hready as (Hpos & Hfit & Hno).
  destruct Hahead as (Hpos1 & Hpot1 & Hgrow1 & Hno1).
  pose proof Hfrag as (_ & He & _).
  unfold make_star. apply wp_push. unfold patch. apply wp_modify. apply wp_ret.
  unfold sound_spec.built, sound_spec.ahead, sound_spec.potential in *.
  cbn [ps_states pos] in *.
  rewrite length_patch, length_app. simpl. rewrite Nat.add_1_r.
  split.
  - split; [lia |]. split; [lia |].
    split; [| by apply no_accept_patch, no_accept_push].
    apply grows_patch; [| unfold inside in He; lia].
    eapply grows_trans; [done | apply grows_push].
  - exists (Star r). split; [done |].
    apply (frag_star_plus (ps_states st1) (length (ps_states st0)) base r);
      [done | apply Hgrow1 | ins].
Qed.

Lemma make_plus_built :
  read (pos st0) = Some (Plus r, p') →
  wp (make_plus base) {| ps_states := ps_states st1; pos := p' |}
    (built 0 read st0).
Proof.
  intros Hread. pose proof quantifier_fits as Hfits.
  destruct Hready as (Hpos & Hfit & Hno).
  destruct Hahead as (Hpos1 & Hpot1 & Hgrow1 & Hno1).
  pose proof Hfrag as (_ & He & _).
  unfold make_plus. apply wp_push. unfold patch. apply wp_modify. apply wp_ret.
  unfold sound_spec.built, sound_spec.ahead, sound_spec.potential in *.
  cbn [ps_states pos] in *.
  rewrite length_patch, length_app. simpl. rewrite Nat.add_1_r.
  split.
  - split; [lia |]. split; [lia |].
    split; [| by apply no_accept_patch, no_accept_push].
    apply grows_patch; [| unfold inside in He; lia].
    eapply grows_trans; [done | apply grows_push].
  - exists (Plus r). split; [done |].
    apply (frag_star_plus (ps_states st1) (length (ps_states st0)) base r);
      [done | apply Hgrow1 | ins].
Qed.

Lemma make_optional_built :
  read (pos st0) = Some (Opt r, p') →
  wp (make_optional base) {| ps_states := ps_states st1; pos := p' |}
    (built 0 read st0).
Proof.
  intros Hread. pose proof quantifier_fits as Hfits.
  destruct Hready as (Hpos & Hfit & Hno).
  destruct Hahead as (Hpos1 & Hpot1 & Hgrow1 & Hno1).
  pose proof Hfrag as (_ & He & _).
  unfold make_optional. apply wp_push. apply wp_push.
  apply wp_modify. unfold patch. apply wp_modify. apply wp_ret.
  unfold sound_spec.built, sound_spec.ahead, sound_spec.potential in *.
  cbn [ps_states pos] in *.
  rewrite length_patch, length_alter, !length_app. simpl.
  rewrite Nat.add_1_r, Nat2N.id.
  split.
  - split; [lia |]. split; [lia |].
    split; [| apply no_accept_patch, no_accept_alter2;
              repeat apply no_accept_push; done].
    apply grows_patch; [| unfold inside in He; lia].
    apply grows_alter; [| apply Hgrow1].
    eapply grows_trans; [done |].
    eapply grows_trans; apply grows_push.
  - exists (Opt r). split; [done |]. rewrite Nat.add_1_r.
    apply (frag_opt (ps_states st1) (length (ps_states st0)) base r);
      [done | apply Hgrow1 | ins].
Qed.
End quantifier.

Lemma quantified_sound :
  sound 0 (parse_quantified pattern inner) (read_quantified pattern read_inner).
Proof.
  intros st Hready. unfold parse_quantified.
  eapply wp_call; [by apply atom_sound |].
  intros base st1 (Hahead & r & Hread & Hfrag).
  pose proof Hahead as (Hpos1 & _).
  apply wp_get.
  assert (Hrq : read_quantified pattern read_inner (pos st) =
                (if length pattern <=? pos st1 then Some (r, pos st1)
                 else
                   if Ascii.eqb (at_ pattern (pos st1)) "*"
                   then Some (Star r, S (pos st1))
                   else if Ascii.eqb (at_ pattern (pos st1)) "+"
                   then Some (Plus r, S (pos st1))
                   else if Ascii.eqb (at_ pattern (pos st1)) "?"
                   then Some (Opt r, S (pos st1))
                   else Some (r, pos st1))).
  { unfold read_quantified. by rewrite Hread. }
  destruct (Nat.leb_spec (length pattern) (pos st1)) as [Hge | Hlt].
  { apply wp_ret. split; [done |]. by exists r. }
  cbv zeta.
  destruct (Ascii.eqb (at_ pattern (pos st1)) "*").
  { apply wp_set. apply (make_star_built _ st st1 base r); [done .. | lia | done]. }
  destruct (Ascii.eqb (at_ pattern (pos st1)) "+").
  { apply wp_set. apply (make_plus_built _ st st1 base r); [done .. | lia | done]. }
  destruct (Ascii.eqb (at_ pattern (pos st1)) "?").
  { apply wp_set. apply (make_optional_built _ st st1 base r); [done .. | lia | done]. }
  apply wp_ret. split; [done |]. by exists r.
Qed.

Lemma ahead_trans a b st0 st1 st2 :
  ahead a st0 st1 → ahead b st1 st2 → ahead (a + b) st0 st2.
Proof.
  intros (Hp1 & Hpot1 & Hg1 & _) (Hp2 & Hpot2 & Hg2 & Hno2).
  split; [lia |]. split; [lia |]. split; [by eapply grows_trans | done].
Qed.

Lemma ahead_ready slack st0 st :
  ready st0 → ahead slack st0 st →
  potential st + 3 ≤ potential st0 + 3 → ready st.
Proof.
  intros (Hpos & Hfit & Hno) (Hp & _ & _ & Hno') Hpot.
  split; [lia |]. split; [ins | done].
Qed.

Lemma read_factors_step fuel result first p :
  read_factors pattern read_inner fuel result first p =
  if (p <? length pattern) && char_neq (at_ pattern p) "|"
     && char_neq (at_ pattern p) ")" then
    match fuel with
    | 0 => None
    | S fuel' =>
        '(atom, p') ← read_quantified pattern read_inner p;
        if first then read_factors pattern read_inner fuel' atom false p'
        else read_factors pattern read_inner fuel' (Cat result atom) false p'
    end
  else Some (result, first, p).
Proof. by destruct fuel. Qed.

Lemma read_alternatives_step fuel left p :
  read_alternatives pattern read_inner fuel left p =
  if (p <? length pattern) && Ascii.eqb (at_ pattern p) "|" then
    match fuel with
    | 0 => None
    | S fuel' =>
        '(other, p') ← read_concatenation pattern read_inner (S p);
        read_alternatives pattern read_inner fuel' (Alt left other) p'
    end
  else Some (left, p).
Proof. by destruct fuel. Qed.

Section loops.
Variable st0 : pstate.
Hypothesis Hready : ready st0.

Lemma factors_sound : ∀ fuel st result first racc,
  ahead 0 st0 st →
  (if first : bool then ps_states st = ps_states st0 ∧ pos st = pos st0
   else frag_ok (ps_states st) (length (ps_states st0)) (length (ps_states st))
          result racc) →
  wp (concatenation_loop pattern inner fuel result first) st
    (λ rf st', ahead 0 st0 st' ∧
       ∃ r', read_factors pattern read_inner fuel racc first (pos st)
             = Some (r', rf.2, pos st') ∧
         if rf.2 then ps_states st' = ps_states st0 ∧ pos st' = pos st0
         else frag_ok (ps_states st') (length (ps_states st0))
                (length (ps_states st')) rf.1 r').
Proof.
  induction fuel as [| fuel IH]; intros st result first racc Hahead Hacc;
    rewrite concatenation_loop_step, read_factors_step; apply wp_get;
    (destruct ((pos st <? length pattern) && char_neq (at_ pattern (pos st)) "|"
               && char_neq (at_ pattern (pos st)) ")") eqn:Econt;
     [| apply wp_ret; split; [done |]; by exists racc]).
  { apply wp_diverge. }
  eapply wp_call.
  { apply quantified_sound. eapply ahead_ready; [done | done |].
    destruct Hahead as (_ & Hpot & _). lia. }
  intros atom st2 (Hahead2 & ra & Hread & Hfrag).
  pose proof (ahead_trans 0 0 _ _ _ Hahead Hahead2) as Hahead02.
  rewrite Hread. cbn [mbind option_bind].
  destruct first.
  - destruct Hacc as [Hst Hp].
    eapply wp_mono; [apply (IH st2 atom false ra); [done |] |].
    + by rewrite <- Hst.
    + intros [res fst] st' (Hahead' & r' & Hread' & Hres). split; [done |].
      by exists r'.
  - unfold patch. apply wp_modify.
    destruct Hahead as (Hpos1 & Hpot1 & Hgrow1 & Hno1).
    destruct Hahead2 as (Hpos2 & Hpot2 & Hgrow2 & Hno2).
    pose proof Hacc as (_ & He & _).
    eapply wp_mono;
      [apply (IH {| ps_states := patch_nfa (end_ result) (start atom) (ps_states st2);
                    pos := pos st2 |}
                 (Fragment (start result) (end_ atom)) false (Cat racc ra)) |].
    + unfold sound_spec.ahead, sound_spec.potential in *.
      cbn [ps_states pos] in *. rewrite length_patch.
      split; [lia |]. split; [lia |].
      split; [| by apply no_accept_patch].
      apply grows_patch; [| unfold inside in He; lia].
      by eapply grows_trans.
    + cbn [ps_states pos]. rewrite length_patch.
      apply (frag_cat (ps_states st2) (length (ps_states st0))
               (length (ps_states st))); [| done | |].
      * apply (frag_ok_ext (ps_states st)); [| apply Hgrow2 | done].
        intros i Hi. apply Hgrow2. lia.
      * split; [apply Hgrow1 | apply Hgrow2].
      * destruct Hready as (Hpos & Hfit & Hno).
        unfold sound_spec.potential in *. ins.
    + intros [res fst] st' (Hahead' & r' & Hread' & Hres). split; [done |].
      by exists r'.
Qed.

End loops.

Lemma concatenation_sound :
  sound 1 (parse_concatenation pattern inner) (read_concatenation pattern read_inner).
Proof.
  intros st Hready. unfold parse_concatenation.
  eapply wp_call.
  { apply (factors_sound st Hready (length pattern) st (Fragment 0 0) true Eps);
      [| done].
    split; [destruct Hready; lia |]. split; [lia |].
    split; [apply grows_refl | apply Hready]. }
  intros [res isfirst] st' (Hahead & r' & Hread & Hres). cbn [fst snd] in *.
  destruct isfirst.
  - destruct Hres as [Hst Hp]. destruct st' as [states' p']. cbn [ps_states pos] in *.
    subst states' p'.
    eapply single_built; [done | destruct Hready; lia | lia | done | | apply frag_eps].
    unfold read_concatenation. by rewrite Hread.
  - apply wp_ret. split.
    + destruct Hahead as (Hp & Hpot & Hrest). split; [done |]. split; [lia | done].
    + exists r'. split; [| done]. unfold read_concatenation. by rewrite Hread.
Qed.

Section alternatives.
Variable st0 : pstate.
Hypothesis Hready : ready st0.

Lemma alternatives_sound : ∀ fuel st left racc,
  ahead 1 st0 st →
  frag_ok (ps_states st) (length (ps_states st0)) (length (ps_states st)) left racc →
  wp (alternation_loop pattern inner fuel left) st
    (λ f st', ahead 1 st0 st' ∧
       ∃ r', read_alternatives pattern read_inner fuel racc (pos st)
             = Some (r', pos st') ∧
         frag_ok (ps_states st') (length (ps_states st0))
           (length (ps_states st')) f r').
Proof.
  induction fuel as [| fuel IH]; intros st left racc Hahead Hacc;
    rewrite alternation_loop_step, read_alternatives_step; apply wp_get;
    (destruct ((pos st <? length pattern) && Ascii.eqb (at_ pattern (pos st)) "|")
       eqn:Econt;
     [| apply wp_ret; split; [done |]; by exists racc]).
  { apply wp_diverge. }
  apply andb_true_iff in Econt as [Hlt%Nat.ltb_lt _].
  apply wp_set.
  destruct Hready as (Hpos0 & Hfit0 & Hno0).
  destruct Hahead as (Hpos1 & Hpot1 & Hgrow1 & Hno1).
  unfold sound_spec.potential in *.
  eapply wp_call.
  { apply concatenation_sound.
    unfold sound_spec.ready, sound_spec.potential. cbn [ps_states pos].
    split; [lia |]. split; [ins | done]. }
  intros other st2 ((Hpos2 & Hpot2 & Hgrow2 & Hno2) & ro & Hread & Hfrag).
  unfold sound_spec.potential in *. cbn [ps_states pos] in *.
  rewrite Hread. cbn [mbind option_bind].
  apply wp_push. apply wp_push. unfold patch. apply wp_modify. apply wp_modify.
  cbn [ps_states pos]. rewrite length_app. simpl. rewrite Nat.add_1_r.
  pose proof Hacc as (_ & Hel & _). pose proof Hfrag as (_ & Her & _).
  eapply wp_mono; [apply (IH _ _ (Alt racc ro)) |].
  - unfold sound_spec.ahead, sound_spec.potential.
    cbn [ps_states pos]. rewrite !length_patch, !length_app. simpl.
    split; [lia |]. split; [lia |].
    split; [| apply no_accept_patch, no_accept_patch;
              repeat apply no_accept_push; done].
    apply grows_patch; [| unfold inside in Her; destruct Hgrow1; lia].
    apply grows_patch; [| unfold inside in Hel; lia].
    eapply grows_trans; [exact Hgrow1 |]. eapply grows_trans; [exact Hgrow2 |].
    eapply grows_trans; apply grows_push.
  - cbn [ps_states pos]. rewrite !length_patch, !length_app. simpl.
    rewrite !Nat.add_1_r.
    apply (frag_alt (ps_states st2) (length (ps_states st0))
             (length (ps_states st)) left other racc ro); [| done | |].
    + apply (frag_ok_ext (ps_states st)); [| apply Hgrow2 | done].
      intros i Hi. apply Hgrow2. lia.
    + split; [apply Hgrow1 | apply Hgrow2].
    + ins.
  - intros f st' (Hahead' & r' & Hread' & Hres). cbn [ps_states pos] in *.
    split; [done |]. by exists r'.
Qed.
End alternatives.

Lemma alternation_sound :
  sound 1 (parse_alternation pattern inner) (read_alternation pattern read_inner).
Proof.
  intros st Hready. unfold parse_alternation.
  eapply wp_call; [by apply concatenation_sound |].
  intros left st1 (Hahead & r & Hread & Hfrag).
  eapply wp_mono; [by apply (alternatives_sound st Hready _ st1 left r) |].
  intros f st' (Hahead' & r' & Hread' & Hres). split; [done |].
  exists r'. split; [| done]. unfold read_alternation. by rewrite Hread.
Qed.
End levels.

Lemma regex_sound depth :
  sound 1 (parse_regex pattern depth) (read_regex pattern depth).
Proof.
  induction depth as [| depth IH]; [intros st _; apply wp_diverge |].
  simpl. by apply alternation_sound.
Qed.
End sound.
End sound_facts.

(** ** The language of the compiled regex *)

Module language_facts.
Import dfa nfa_spec regex_spec region_spec region_facts build_spec build_facts
  wp_spec wp_facts sound_spec sound_facts grammar.

Local Ltac ins := unfold inside, fits in *; lia.

Lemma build_nfa_language pattern nfa s :
  fits (3 * length pattern + 3) →
  build_nfa pattern = Ok (nfa, s) →
  ∃ r, read pattern = Some r ∧ ∀ w, nfa_accepts nfa s w ↔ lang r w.
Proof.
  intros Hfits. unfold build_nfa.
  pose proof (regex_sound pattern (S (length pattern)) {| ps_states := []; pos := 0 |})
    as Hsound.
  unfold wp in Hsound.
  destruct (parse_regex pattern (S (length pattern)) _) as [[frag st] | |];
    [| done | done].
  intros [= <- <-].
  destruct Hsound as ((Hpos & Hpot & Hgrow & Hno) & r & Hread & Hfrag).
  { split; [simpl; lia |]. split; [| constructor].
    unfold potential. simpl. unfold fits in *. lia. }
  unfold potential in *. cbn [ps_states pos length] in *.
  exists r. split; [unfold read; by rewrite Hread |].
  destruct Hfrag as (Hs & He & _ & Hrec).
  set (hi := length (ps_states st)) in *.
  set (acc := mk_state accept "000" cc_empty no_transition no_transition).
  assert (Hhi : fits hi) by (unfold fits in *; lia).
  intros w. apply (recognises_accepts _ hi); [| | | done].
  - apply Hrec; [| | by apply fits_ne | ins].
    + intros i Hi Hne. unfold patch_nfa. rewrite list_lookup_alter_ne by done.
      apply lookup_app_l. unfold hi in *. lia.
    + unfold patch_nfa. rewrite list_lookup_alter_eq. f_equal.
      apply lookup_app_l. unfold inside, hi in *. lia.
  - unfold patch_nfa. rewrite list_lookup_alter_ne by ins.
    rewrite lookup_app_r by (unfold hi; lia).
    by replace (hi - length (ps_states st)) with 0 by (unfold hi; lia).
  - intros i sti Hi Hk.
    assert (Hno' : no_accept (patch_nfa (end_ frag) (N.of_nat hi) (ps_states st)))
      by by apply no_accept_patch.
    unfold patch_nfa in *.
    destruct (decide (i < hi)) as [Hlt | Hge].
    + exfalso. unfold no_accept in Hno'. rewrite Forall_lookup in Hno'. apply (Hno' i sti); [| done].
      rewrite <- Hi. rewrite !list_lookup_alter.
      destruct (decide (N.to_nat (end_ frag) = i)) as [-> | Hne].
      * f_equal. symmetry. apply lookup_app_l. unfold hi in *. lia.
      * symmetry. apply lookup_app_l. unfold hi in *. lia.
    + apply lookup_lt_Some in Hi. rewrite length_alter, length_app in Hi.
      simpl in Hi. unfold hi in *. lia.
Qed.

Lemma compile_language order pattern d :
  fits (3 * length pattern + 3) →
  compile order pattern = Ok d →
  ∃ r, read pattern = Some r ∧ ∀ text, matches d text = true ↔ lang r text.
Proof.
  intros Hfits Hd.
  assert (Hnfa : build_nfa pattern = Ok (nfa_states_ d, nfa_start_ d)).
  { unfold compile in Hd.
    destruct (build_nfa pattern) as [[nfa s] | |]; [| done | done].
    destruct (build_dfa order nfa s); [| done | done]. by injection Hd as <-. }
  destruct (build_nfa_language pattern _ _ Hfits Hnfa) as (r & Hr & Hlang).
  exists r. split; [done |]. intros text.
  rewrite <- Hlang. by apply (simulation_facts.compile_matches order pattern).
Qed.
End language_facts.

Module span_facts.
Import dfa matcher span_spec.

Lemma matches_run d text :
  matches d text = true ↔
  ∃ s st, run (states_ d) 0 text s ∧
    states_ d !! N.to_nat s = Some st ∧ is_accept st = true.
Proof.
  unfold matches.
  destruct (bool_decide_reflect (states_ d = [])) as [Hnil | Hne].
  - split; [done |]. intros (s & st & _ & Hst & _). by rewrite Hnil in Hst.
  - apply matcher_facts.matches_loop_run.
Qed.

(** The table reports a match at [o] exactly when it accepts a stretch
    of the text that starts there. *)
Lemma hit_begins d text o :
  hit (states_ d) text o ↔ begins (λ w, matches d w = true) text o.
Proof.
  unfold hit, begins. split.
  - intros [(st0 & Hst0 & Hacc) | (k & q & st & Hk & Hlen & Hrun & Hst & Hacc)].
    + exists 0. rewrite take_0. apply matches_run.
      exists 0%N, st0. split; [constructor | done].
    + exists k. apply matches_run. by exists q, st.
  - intros (k & (s & st & Hrun & Hst & Hacc)%matches_run).
    assert (Htake : take k (drop o text) = take (k `min` (length text - o)) (drop o text)).
    { destruct (decide (k ≤ length text - o)) as [Hle | Hgt].
      - by rewrite Nat.min_l.
      - rewrite Nat.min_r by lia. rewrite !take_ge; [done | |]; rewrite length_drop; lia. }
    rewrite Htake in Hrun.
    destruct (k `min` (length text - o)) as [| k'] eqn:Ek.
    + rewrite take_0 in Hrun. inversion Hrun; subst. left. by exists st.
    + right. exists (S k'), s, st. split; [lia |]. split; [lia | done].
Qed.
End span_facts.

(** ** The shape of the NFA *)

Module shape_facts.
Import dfa nfa_spec regex_spec region_spec region_facts build_spec build_facts
  wp_spec wp_facts sound_spec sound_facts grammar.

Local Ltac ins := unfold inside, fits in *; lia.

(** The NFA the parser leaves: its size is linear in the source, its
    last state is the accept state and the only one, and no transition
    leads out of it. *)
Lemma build_nfa_shape pattern nfa s :
  fits (3 * length pattern + 3) →
  build_nfa pattern = Ok (nfa, s) →
  2 ≤ length nfa ≤ 3 * length pattern + 2 ∧
  N.to_nat s < length nfa - 1 ∧
  (∀ i st, nfa !! i = Some st → kind st = accept ↔ i = length nfa - 1) ∧
  (∀ q w t, step nfa q w t → N.to_nat t < length nfa).
Proof.
  intros Hfits. unfold build_nfa.
  pose proof (regex_sound pattern (S (length pattern)) {| ps_states := []; pos := 0 |})
    as Hsound.
  unfold wp in Hsound.
  destruct (parse_regex pattern (S (length pattern)) _) as [[frag st] | |];
    [| done | done].
  intros [= <- <-].
  destruct Hsound as ((Hpos & Hpot & Hgrow & Hno) & r & Hread & Hfrag).
  { split; [simpl; lia |]. split; [| constructor].
    unfold potential. simpl. unfold fits in *. lia. }
  unfold potential in *. cbn [ps_states pos length] in *.
  destruct Hfrag as (Hs & He & _ & Hrec).
  set (hi := length (ps_states st)) in *.
  set (acc := mk_state accept "000" cc_empty no_transition no_transition).
  set (nfa := patch_nfa (end_ frag) (N.of_nat hi) (ps_states st ++ [acc])).
  assert (Hhi : fits hi) by (unfold fits in *; lia).
  assert (Hlen : length nfa = S hi).
  { unfold nfa. rewrite length_patch, length_app. simpl. unfold hi. lia. }
  assert (Hlast : nfa !! hi = Some acc).
  { unfold nfa, patch_nfa. rewrite list_lookup_alter_ne by ins.
    rewrite lookup_app_r by (unfold hi; lia).
    by replace (hi - length (ps_states st)) with 0 by (unfold hi; lia). }
  assert (Hrecog : recognises nfa 0 hi (start frag) (N.of_nat hi) r).
  { apply Hrec; [| | by apply fits_ne | ins].
    - intros i Hi Hne. unfold nfa, patch_nfa. rewrite list_lookup_alter_ne by done.
      apply lookup_app_l. unfold hi in *. lia.
    - unfold nfa, patch_nfa. rewrite list_lookup_alter_eq. f_equal.
      apply lookup_app_l. unfold inside, hi in *. lia. }
  assert (Hbelow : ∀ i sti, i < hi → nfa !! i = Some sti → kind sti ≠ accept).
  { intros i sti Hi Hsti.
    assert (Hno' : no_accept (patch_nfa (end_ frag) (N.of_nat hi) (ps_states st)))
      by by apply no_accept_patch.
    unfold no_accept in Hno'. rewrite Forall_lookup in Hno'. apply (Hno' i sti).
    rewrite <- Hsti. unfold nfa, patch_nfa. rewrite !list_lookup_alter.
    destruct (decide (N.to_nat (end_ frag) = i)) as [-> | Hne].
    - f_equal. symmetry. apply lookup_app_l. unfold hi in *. lia.
    - symmetry. apply lookup_app_l. unfold hi in *. lia. }
  rewrite Hlen. replace (S hi - 1) with hi by lia.
  split; [unfold inside in Hs; lia |]. split; [unfold inside in Hs; lia |]. split.
  - intros i sti Hsti. split.
    + intros Hk. apply lookup_lt_Some in Hsti as Hlt. rewrite Hlen in Hlt.
      destruct (decide (i < hi)) as [Hi | Hi]; [| lia].
      by destruct (Hbelow i sti Hi Hsti).
    + intros ->. rewrite Hlast in Hsti. by injection Hsti as <-.
  - intros q w t Hstep. destruct Hrecog as (_ & Hclosed & _).
    destruct (decide (N.to_nat q < hi)) as [Hq | Hq].
    + destruct (Hclosed q w t) as [Ht | ->]; [ins | done | ins |].
      rewrite Nat2N.id. lia.
    + exfalso.
      assert (Hsrc : ∃ sq, nfa !! N.to_nat q = Some sq ∧ kind sq ≠ accept).
      { inversion Hstep as [? ? (sq & Hsq & Hk & _) | ? ? c Hc (sq & Hsq & Hcons & _)];
          subst; exists sq; (split; [done |]).
        - by rewrite Hk.
        - unfold consumes in Hcons. by destruct (kind sq). }
      destruct Hsrc as (sq & Hsq & Hk).
      apply lookup_lt_Some in Hsq as Hlt. rewrite Hlen in Hlt.
      assert (N.to_nat q = hi) as Heq by lia. rewrite Heq, Hlast in Hsq.
      by injection Hsq as <-.
Qed.
End shape_facts.

(** * Checks on the scenarios of the specification *)

Example compute_failure_ABABAC :
  failure.compute_failure (str "ABABAC") = Some [0; 0; 1; 2; 3; 0].
Proof. reflexivity. Qed.

Example search_all_S1 : search.search_all (str "abracadabra") (str "abra") = Some [0; 7].
Proof. reflexivity. Qed.
Example search_all_S2 : search.search_all (str "aaaa") (str "aa") = Some [0; 1; 2].
Proof. reflexivity. Qed.
Example search_pos_S3 : ∀ l,
  search.search_pos l (str "ABABDABACDABABCABAB") (str "ABABCABAB") = Some (Some 10).
Proof. by intros []. Qed.
Example search_pos_S4 : ∀ l,
  search.search_pos l (str "hello world") (str "xyz") = Some None.
Proof. by intros []. Qed.

Example search_pos_levels : ∀ l,
  length text70 = 70 ∧ search.search_pos l text70 (str "abcab") = Some (Some 62).
Proof. intros []; vm_compute; done. Qed.

Example regex_R1 : run_regex "hello" "hello" = Some (true, Some 0)
  ∧ run_regex "hello" "Hello" = Some (false, None).
Proof. vm_compute. done. Qed.
Example regex_R2 : fst <$> run_regex "[a-zA-Z]+" "Hello" = Some true
  ∧ fst <$> run_regex "[a-zA-Z]+" "Hello123" = Some false.
Proof. vm_compute. done. Qed.
Example regex_R3 : fst <$> run_regex "ab*c" "ac" = Some true
  ∧ fst <$> run_regex "ab*c" "abc" = Some true ∧ fst <$> run_regex "ab*c" "abbc" = Some true.
Proof. vm_compute. done. Qed.
Example regex_R4 : fst <$> run_regex "ab+c" "ac" = Some false
  ∧ fst <$> run_regex "ab+c" "abc" = Some true.
Proof. vm_compute. done. Qed.
Example regex_R5 : fst <$> run_regex "[a-z]+@[a-z]+\.[a-z]+" "user@example.com" = Some true
  ∧ fst <$> run_regex "[a-z]+@[a-z]+\.[a-z]+" "invalid" = Some false.
Proof. vm_compute. done. Qed.
Example regex_R6 :
  snd <$> run_regex "[0-9]+" "There are 42 apples and 123 oranges." = Some (Some 10).
Proof. vm_compute. done. Qed.

(** * The claims about the literal search core *)

Lemma Sorted_lt_consecutive (out : list nat) :
  Sorted lt out → ∀ k a b, out !! k = Some a → out !! S k = Some b → a < b.
Proof.
  induction 1 as [| x out Hs IH Hhd]; intros k a b Ha Hb; [done |].
  destruct k as [| k]; simpl in *.
  - injection Ha as ->. destruct Hhd as [| y out' Hxy]; [done |].
    simpl in Hb. by injection Hb as ->.
  - by eapply IH.
Qed.

(** C1. For every text [T] and every non-empty pattern [P], [search_all]
    yields exactly the offsets at which [P] occurs in [T] (overlapping
    occurrences included), and consecutive yielded offsets strictly
    increase. *)
Theorem search_all_exact (T P : list ascii) :
  P ≠ [] →
  ∃ out, search.search_all T P = Some out ∧
    (∀ o, o ∈ out ↔ o + length P ≤ length T ∧ take (length P) (drop o T) = P) ∧
    (∀ k a b, out !! k = Some a → out !! S k = Some b → a < b).
Proof.
  intros HP. assert (Hm : 0 < length P) by (destruct P; [done | simpl; lia]).
  unfold search.search_all.
  destruct (Nat.eqb_spec (length P) 0) as [H0 | _]; [lia |]. simpl.
  destruct (Nat.ltb_spec (length T) (length P)) as [Hlt | Hge].
  - exists []. split; [done |]. split; [| done].
    intros o. split; [by intros ?%elem_of_nil | intros [Ho _]; lia].
  - destruct (failure_facts.compute_failure_ok P) as (F & -> & _ & Hok). simpl.
    destruct (occurrence_facts.search_all_loop_spec T P F Hm Hok (length T) 0 0)
      as (out & -> & Hout & Hsorted);
      [done | by apply occurrence_facts.scan_inv_start |].
    exists out. split; [done |]. split; [| by apply Sorted_lt_consecutive].
    intros o. rewrite Hout. unfold occurrences.occurs. split; [tauto |].
    intros H. split; [done | lia].
Qed.

Lemma search_all_exact_witness :
  ∃ out, search.search_all (str "abracadabra") (str "abra") = Some out ∧
    (∀ o, o ∈ out ↔
          o + length (str "abra") ≤ length (str "abracadabra") ∧
          take (length (str "abra")) (drop o (str "abracadabra")) = str "abra") ∧
    (∀ k a b, out !! k = Some a → out !! S k = Some b → a < b).
Proof. apply search_all_exact. discriminate. Defined.

(** The whole of [search] is the scalar scanner, whatever kernel runs. *)
Lemma search_is_scalar level T P :
  ∃ F it, failure.compute_failure P = Some F ∧
    border.table_ok P F (length P) ∧
    search.kmp_search_scalar T P F = Some it ∧
    search.search level T P = Some it.
Proof.
  destruct (failure_facts.compute_failure_ok P) as (F & HF & _ & Hok).
  exists F. unfold search.search.
  destruct (Nat.eqb_spec (length P) 0) as [H0 | Hm].
  { exists 0. split; [done |]. split; [done |]. split; [| done].
    unfold search.kmp_search_scalar. by rewrite H0. }
  assert (Hpos : 0 < length P) by lia.
  destruct (occurrence_facts.kmp_search_scalar_spec T P F Hpos Hok) as (it & Hsc & Hspec).
  exists it. split; [done |]. split; [done |]. split; [done |].
  destruct (Nat.ltb_spec (length T) (length P)) as [Hlt | Hge].
  - f_equal. destruct Hspec as [[[Ho _] _] | [-> _]]; [lia | done].
  - rewrite HF. unfold mbind, option_bind.
    destruct (config.simd_threshold <=? length T); [| done].
    destruct level; [done | | |]; rewrite <- Hsc.
    + apply engine_facts.kernel_agrees; [done | done |].
      intros Hn. by apply engine_facts.sse42_round_ok.
    + apply engine_facts.kernel_agrees; [done | done |].
      intros Hn. by apply engine_facts.avx2_round_ok.
    + apply engine_facts.kernel_agrees; [done | done |].
      intros Hn. by apply engine_facts.avx512_round_ok.
Qed.

(** C3. On every text and pattern the SSE4.2 search (first-byte scan plus
    verification) and the scalar KMP search return the same iterator: the
    same match position, or both none; the AVX2 and AVX-512 searches do
    likewise, and [search_pos] does not depend on the kernel that
    [search] dispatches to. *)
Theorem simd_and_scalar_agree (T P : list ascii) :
  ∃ F it, failure.compute_failure P = Some F ∧
    search.kmp_search_scalar T P F = Some it ∧
    search.to_iterator T <$> engine.kmp_search_sse42 T P F = Some it ∧
    search.to_iterator T <$> engine.kmp_search_avx2 T P F = Some it ∧
    search.to_iterator T <$> engine.kmp_search_avx512 T P F = Some it ∧
    (engine.kmp_search_sse42 T P F = Some None ↔ it = length T ∧ P ≠ []) ∧
    ∀ level, search.search_pos level T P = search.search_pos search.scalar T P.
Proof.
  destruct (search_is_scalar search.scalar T P) as (F & it & HF & Hok & Hsc & Hs).
  exists F, it. split; [done |]. split; [done |].
  destruct (decide (P = [])) as [-> | HP].
  - unfold search.kmp_search_scalar in Hsc. simpl in Hsc. simplify_eq.
    split; [done |]. split; [done |]. split; [done |]. split.
    + split; [done | by intros [_ ?]].
    + intros level. by destruct level.
  - assert (Hm : 0 < length P) by (destruct P; [done | simpl; lia]).
    assert (H1 := engine_facts.kernel_agrees engine.sse42_round T P F Hm Hok
                    (λ Hn, engine_facts.sse42_round_ok T P F Hm Hn Hok)).
    assert (H2 := engine_facts.kernel_agrees engine.avx2_round T P F Hm Hok
                    (λ Hn, engine_facts.avx2_round_ok T P F Hm Hn Hok)).
    assert (H3 := engine_facts.kernel_agrees engine.avx512_round T P F Hm Hok
                    (λ Hn, engine_facts.avx512_round_ok T P F Hm Hn Hok)).
    rewrite Hsc in H1, H2, H3.
    split; [done |]. split; [done |]. split; [done |]. split.
    + destruct (engine_facts.kmp_search_with_spec engine.sse42_round T P F Hm
                  (λ Hn, engine_facts.sse42_round_ok T P F Hm Hn Hok))
        as (r & Hr & Hspec).
      unfold engine.kmp_search_sse42 in *. rewrite Hr in *. simpl in H1.
      destruct r as [pos |]; simpl in *; simplify_eq.
      * split; [done |]. intros [Heq _]. destruct Hspec as [[Ho _] _]. lia.
      * done.
    + intros level. unfold search.search_pos.
      destruct (search_is_scalar level T P) as (F' & it' & HF' & _ & Hsc' & Hs').
      rewrite Hs, Hs'. simplify_eq. done.
Qed.

(** C4 (the code departs from the claim). At the candidate [0] of
    ["abxabc"] the verification against ["abc"] stops after [k = 2] bytes;
    the failure table gives the skip [k - F[k - 1] = 2], which is where the
    AVX2 engine moves the cursor, but the SSE4.2 engine moves it to [1]. *)
Theorem sse42_skip_ignores_failure_table :
  failure.compute_failure (str "abc") = Some [0; 0; 0] ∧
  engine.failure_skip [0; 0; 0] 2 = 2 ∧
  engine.sse42_round (str "abxabc") (str "abc") [0; 0; 0] 4 0
    = Some (engine.Again 0 2 1) ∧
  engine.avx2_round (str "abxabc") (str "abc") [0; 0; 0] 4 0
    = Some (engine.Again 0 2 2).
Proof. vm_compute. done. Qed.

(** Whatever the table says, the SSE4.2 engine resumes one byte after the
    candidate. *)
Lemma sse42_round_next T P F text_end ptr c k next :
  engine.sse42_round T P F text_end ptr = Some (engine.Again c k next) →
  next = c + 1.
Proof.
  unfold engine.sse42_round. intros H.
  destruct (simd.find_first_char_sse42 _ _); [| done].
  destruct (_ =? _); [done |].
  destruct (engine.sse42_fall_back _ _ _ _ _ _); simpl in H; by simplify_eq.
Qed.

(** C6 (as stated it fails on the empty text). [search] returns
    [text.begin()], which for an empty text is [text.end()], so
    [search_pos] reports no match and [contains] is false. *)
Lemma empty_pattern_in_empty_text :
  search.search_pos search.scalar [] [] = Some None ∧
  search.contains search.scalar [] [] = Some false.
Proof. done. Qed.

(** C6, amended. For every non-empty text [T], searching for the empty
    pattern returns offset [0] and containment is true, on every dispatch
    path; on the empty text the search reports no match. *)
Theorem empty_pattern_semantics (level : search.simd_level) (T : list ascii) :
  T ≠ [] →
  search.search_pos level T [] = Some (Some 0) ∧
  search.contains level T [] = Some true ∧
  search.search_pos level [] [] = Some None ∧
  search.contains level [] [] = Some false.
Proof.
  intros HT. destruct T as [| c T]; [done |]. done.
Qed.

Lemma empty_pattern_semantics_witness :
  search.search_pos search.sse42 (str "hello") [] = Some (Some 0) ∧
  search.contains search.sse42 (str "hello") [] = Some true ∧
  search.search_pos search.sse42 [] [] = Some None ∧
  search.contains search.sse42 [] [] = Some false.
Proof. apply empty_pattern_semantics. discriminate. Defined.

(** * The claims about the regex core *)

(** C5. For every DFA table and every text, [matches] returns [true]
    exactly when stepping from state 0 through every byte of the text meets
    no non-ASCII byte and no dead transition and ends in a state whose
    [is_accept] is set.  In particular a non-ASCII byte anywhere in the text,
    or a dead transition after a live prefix, makes [matches] return
    [false]. *)
Theorem matches_iff_accepting_run (d : dfa.compiled_dfa) (text : list ascii) :
  (dfa.matches d text = true ↔
   ∃ s st, matcher.run (dfa.states_ d) 0 text s ∧
     dfa.states_ d !! N.to_nat s = Some st ∧ dfa.is_accept st = true) ∧
  (Exists (λ c, (config.ascii_size ≤ dfa.byte_of c)%N) text →
   dfa.matches d text = false) ∧
  (∀ pre c post s,
     text = pre ++ c :: post → matcher.run (dfa.states_ d) 0 pre s →
     dfa.transition (dfa.states_ d) s (dfa.byte_of c) = dfa.no_transition →
     dfa.matches d text = false).
Proof.
  assert (Hiff : dfa.matches d text = true ↔
    ∃ s st, matcher.run (dfa.states_ d) 0 text s ∧
      dfa.states_ d !! N.to_nat s = Some st ∧ dfa.is_accept st = true).
  { unfold dfa.matches.
    destruct (bool_decide_reflect (dfa.states_ d = [])) as [Hnil | Hne].
    - split; [done |]. intros (s & st & _ & Hst & _). by rewrite Hnil in Hst.
    - apply matcher_facts.matches_loop_run. }
  split; [done |]. split.
  - intros Hex. unfold dfa.matches. destruct (bool_decide _); [done |].
    by apply matcher_facts.matches_loop_non_ascii.
  - intros pre c post s -> Hpre Hdead.
    apply not_true_is_false. intros (s' & st & Hrun & _)%Hiff.
    exact (matcher_facts.run_dead_stops _ c post pre 0%N s s' Hpre Hdead Hrun).
Qed.

(** C7 (as stated it fails). Compiling [cap_input.pattern] ends in the
    state-limit exception, and at that moment [states_] holds 10036 states,
    more than the cap of 10000: the check runs at the top of a worklist
    round, after the round before has added its states. *)
Lemma cap_pattern_thrown_size :
  cap_input.thrown_size cap_input.pattern = Some 10036%N.
Proof. vm_cast_no_check (eq_refl (Some 10036%N)). Qed.

Lemma thrown_size_inv (source : list ascii) (n : N) :
  cap_input.thrown_size source = Some n →
  ∃ nfa nfa_start states,
    dfa.build_nfa source = Ok (nfa, nfa_start) ∧
    dfa.build_dfa ascending_order nfa nfa_start = dfa.LimitExceeded states ∧
    dfa.vec_size states = n.
Proof.
  unfold cap_input.thrown_size. intros H.
  destruct (dfa.build_nfa source) as [[nfa nfa_start] | |]; [| done ..].
  destruct (dfa.build_dfa ascending_order nfa nfa_start) as [| states |] eqn:E;
    [done | | done].
  exists nfa, nfa_start, states. split; [done |]. split; [done |]. by injection H.
Qed.

Lemma cap_pattern_limit :
  ∃ nfa nfa_start states,
    dfa.build_nfa cap_input.pattern = Ok (nfa, nfa_start) ∧
    dfa.build_dfa ascending_order nfa nfa_start = dfa.LimitExceeded states ∧
    dfa.vec_size states = 10036%N.
Proof. exact (thrown_size_inv _ _ cap_pattern_thrown_size). Qed.

Lemma state_count_exceeds_cap_at_throw :
  ∃ nfa nfa_start states,
    dfa.build_nfa cap_input.pattern = Ok (nfa, nfa_start) ∧
    dfa.build_dfa ascending_order nfa nfa_start = dfa.LimitExceeded states ∧
    (config.max_dfa_states < dfa.vec_size states)%N.
Proof.
  destruct cap_pattern_limit as (nfa & nfa_start & states & Hn & Hd & Hlen).
  exists nfa, nfa_start, states. split; [done |]. split; [done |].
  rewrite Hlen. done.
Qed.

(** C7, amended. The pattern-too-complex error is raised at the top of a
    worklist round once the DFA already holds more states than the cap: at
    that moment the state count lies between cap + 1 and cap + 128 (a round
    adds at most one state per byte), and [compile] throws without
    producing a DFA. *)
Theorem limit_check_after_growth (order : iter_order) (pattern : list ascii)
    (nfa : list dfa.nfa_state) (nfa_start : N) (states : dfa.vec dfa.dfa_state) :
  dfa.build_nfa pattern = Ok (nfa, nfa_start) →
  dfa.build_dfa order nfa nfa_start = dfa.LimitExceeded states →
  (config.max_dfa_states < dfa.vec_size states ≤ config.max_dfa_states + 128)%N ∧
  dfa.compile order pattern = Throw "DFA state limit exceeded - pattern too complex" ∧
  regex.compile_regex order pattern
    = Throw "DFA state limit exceeded - pattern too complex".
Proof.
  intros Hnfa Hdfa. split; [by eapply builder_facts.build_dfa_limit |].
  unfold regex.compile_regex, dfa.compile. by rewrite Hnfa, Hdfa.
Qed.

Lemma limit_check_after_growth_witness :
  ∃ states : dfa.vec dfa.dfa_state,
    (config.max_dfa_states < dfa.vec_size states ≤ config.max_dfa_states + 128)%N ∧
    dfa.compile ascending_order cap_input.pattern
      = Throw "DFA state limit exceeded - pattern too complex" ∧
    regex.compile_regex ascending_order cap_input.pattern
      = Throw "DFA state limit exceeded - pattern too complex".
Proof.
  destruct cap_pattern_limit as (nfa & nfa_start & states & Hn & Hd & _).
  exists states.
  exact (limit_check_after_growth ascending_order cap_input.pattern
           nfa nfa_start states Hn Hd).
Defined.

(** C8. Compiling the same regex source twice gives identical results,
    whatever order the hash sets happen to be iterated in: the same error,
    or DFAs with the same state count, the same [is_accept] flags and the
    same transition rows. *)
Theorem compile_regex_deterministic (o1 o2 : iter_order) (source : list ascii) :
  regex.compile_regex o1 source = regex.compile_regex o2 source ∧
  ∀ R1 R2,
    regex.compile_regex o1 source = Ok R1 →
    regex.compile_regex o2 source = Ok R2 →
    regex.state_count R1 = regex.state_count R2 ∧
    ∀ d1 d2, regex.dfa_ R1 = Some d1 → regex.dfa_ R2 = Some d2 →
      ∀ i, dfa.is_accept <$> dfa.states_ d1 !! i = dfa.is_accept <$> dfa.states_ d2 !! i ∧
           dfa.transitions <$> dfa.states_ d1 !! i
           = dfa.transitions <$> dfa.states_ d2 !! i.
Proof.
  pose proof (order_facts.compile_regex_order o1 o2 source) as Heq.
  split; [done |]. intros R1 R2 H1 H2. rewrite Heq, H2 in H1.
  injection H1 as ->. split; [done |].
  intros d1 d2 Hd1 Hd2. rewrite Hd1 in Hd2. by injection Hd2 as ->.
Qed.

(** C9. For every successfully compiled regex, [search] on the empty text
    returns [None]; for ["a*"], which accepts the empty string, [matches]
    on the empty text is [true] while [search] is [None].  [search] only
    ever returns an offset strictly below the text length. *)
Theorem search_empty_text_is_none (order : iter_order) :
  (∀ source R, regex.compile_regex order source = Ok R → regex.search R [] = None) ∧
  (∃ R, regex.compile_regex order (str "a*") = Ok R ∧
     regex.matches R [] = true ∧ regex.search R [] = None) ∧
  (∀ R text s, regex.search R text = Some s → s < length text).
Proof.
  split; [| split].
  - intros source R _. unfold regex.search, dfa.search.
    destruct (regex.dfa_ R); [| done]. by destruct (bool_decide _).
  - rewrite (order_facts.compile_regex_order order ascending_order).
    eexists. split; [vm_compute; reflexivity |]. done.
  - intros R text s. unfold regex.search, dfa.search.
    destruct (regex.dfa_ R) as [d |]; [| done].
    destruct (bool_decide _); [done |].
    intros H%matcher_facts.search_from_bound. lia.
Qed.

(** C10. [compile_regex] does not reject an unmatched closing
    parenthesis: parsing stops at the first top-level [')'] and whatever
    follows it is dropped.  If a source [u] compiles, then [u] followed by
    [')'] and any further characters compiles as well, to the same DFA, so
    that it matches and finds exactly what [u] does; ["a)b"] against ["a"]
    is the instance of the witness. *)
Theorem unmatched_paren_drops_rest (order : iter_order) (u w : list ascii)
    (R : regex.regex_pattern) :
  regex.compile_regex order u = Ok R →
  ∃ R', regex.compile_regex order (u ++ ")"%char :: w) = Ok R' ∧
    regex.dfa_ R' = regex.dfa_ R ∧
    ∀ text, regex.matches R' text = regex.matches R text ∧
            regex.search R' text = regex.search R text.
Proof.
  unfold regex.compile_regex, dfa.compile. intros H.
  destruct (dfa.build_nfa u) as [[nfa nfa_start] | |] eqn:Hnfa; [| done ..].
  rewrite (parser_facts.build_nfa_prefix u w _ Hnfa).
  destruct (dfa.build_dfa order nfa nfa_start) as [states | |]; [| done ..].
  injection H as <-. eexists. split; [done |]. done.
Qed.

Lemma unmatched_paren_drops_rest_witness :
  ∃ R R', regex.compile_regex ascending_order (str "a") = Ok R ∧
    regex.compile_regex ascending_order (str "a)b") = Ok R' ∧
    regex.dfa_ R' = regex.dfa_ R ∧
    ∀ text, regex.matches R' text = regex.matches R text ∧
            regex.search R' text = regex.search R text.
Proof.
  assert (HR : ∃ R, regex.compile_regex ascending_order (str "a") = Ok R)
    by (eexists; vm_compute; reflexivity).
  destruct HR as [R HR]. exists R.
  destruct (unmatched_paren_drops_rest ascending_order (str "a") (str "b") R HR)
    as (R' & H' & Hd & Hsame).
  exists R'. done.
Defined.

(** ** Compiling a source without metacharacters *)

Module literal_compile_facts.
Import dfa closure nfa_spec literal_spec literal_facts literal_run_facts family_spec
  reach_facts matcher.

Lemma short_index (n k : nat) :
  (N.of_nat n < config.max_dfa_states)%N → k ≤ n → N.of_nat k ≠ no_transition.
Proof. unfold config.max_dfa_states, no_transition. lia. Qed.

Section literal.
Variable order : iter_order.
Variable src : list ascii.
Hypothesis Hplain : Forall plain src.
Hypothesis Hshort : (N.of_nat (length src) < config.max_dfa_states)%N.

Lemma literal_index k : k ≤ length src → N.of_nat k ≠ no_transition.
Proof. intros Hk. by eapply short_index. Qed.

Lemma plain_at i : i < length src → plain (at_ src i).
Proof.
  intros Hi. rewrite Forall_forall in Hplain. apply Hplain.
  apply list_elem_of_lookup. exists i. by apply failure_facts.at_lookup.
Qed.

Lemma literal_ascii i :
  i < length src → (byte_of (at_ src i) < config.ascii_size)%N.
Proof. intros Hi. by apply plain_at. Qed.

Lemma literal_build_nfa : build_nfa src = Ok (literal_nfa src, 0%N).
Proof.
  destruct (decide (src = [])) as [-> | Hne]; [apply build_nfa_empty |].
  apply build_nfa_plain; [| apply literal_index | done].
  intros i Hi. by apply plain_at.
Qed.

Lemma literal_closure (X : gset N) :
  src ≠ [] → epsilon_closure order (literal_nfa src) X = Some X.
Proof.
  intros Hne. destruct (epsilon_closure_reach (literal_nfa src) order X) as (R & -> & HR).
  f_equal. apply set_eq. intros x. rewrite HR. split.
  - intros (s & Hs & Hpath). destruct Hpath as [| a b c Hedge _]; [done |].
    exfalso.
    by eapply (literal_no_eps src Hne literal_ascii literal_index).
  - intros Hx. exists x. split; [done | constructor].
Qed.

Lemma literal_move k c :
  src ≠ [] →
  move order (literal_nfa src) {[N.of_nat k]} c ≠ ∅ →
  k < length src ∧ move order (literal_nfa src) {[N.of_nat k]} c = {[N.of_nat (S k)]}.
Proof.
  intros Hne Hmove.
  assert (Hel : ∀ t, t ∈ move order (literal_nfa src) {[N.of_nat k]} c ↔
                     char_edge (literal_nfa src) c (N.of_nat k) t).
  { intros t. rewrite order_facts.move_elem_of. split.
    - intros (s & st & ->%elem_of_singleton & H). by exists st.
    - intros (st & H). exists (N.of_nat k), st. split; [set_solver | done]. }
  assert (Hedge : ∀ t, char_edge (literal_nfa src) c (N.of_nat k) t →
                       k < length src ∧ t = N.of_nat (S k)).
  { intros t Ht.
    apply (literal_char_edge src Hne literal_ascii literal_index) in Ht
      as (i & Hi & Hk & -> & _).
    apply Nat2N.inj in Hk as ->. done. }
  apply set_choose_L in Hmove as (t & Ht).
  destruct (Hedge t (proj1 (Hel t) Ht)) as [Hk ->]. split; [done |].
  apply set_eq. intros t'. rewrite elem_of_singleton. split.
  - intros Ht'. by destruct (Hedge t' (proj1 (Hel t') Ht')) as [_ ->].
  - by intros ->.
Qed.

(** The subsets the construction reaches for such a source: one per
    position of the source. *)
Lemma literal_family :
  ∃ (family : gset (gset N)) S0,
    epsilon_closure order (literal_nfa src) {[0%N]} = Some S0 ∧
    subset_family order (literal_nfa src) family S0 ∧
    size family ≤ S (length src).
Proof.
  destruct (decide (src = [])) as [-> | Hne].
  - destruct (closure_facts.epsilon_closure_spec (literal_nfa []) order {[0%N]})
      as (S0 & HS0 & _).
    exists {[S0]}, S0. split; [done |]. split; [| by rewrite size_singleton; lia].
    split; [set_solver |]. intros S c S' ->%elem_of_singleton Hc Hmove.
    exfalso. apply set_choose_L in Hmove as (t & Ht).
    apply order_facts.move_elem_of in Ht as (s & st & _ & Hst & Hcons & _).
    destruct (N.to_nat s) as [| [| ?]]; simpl in Hst; simplify_eq; by cbn in Hcons.
  - set (family := list_to_set ((λ k, {[N.of_nat k]}) <$> seq 0 (S (length src)))
                   : gset (gset N)).
    assert (Hin : ∀ X, X ∈ family ↔ ∃ k, k ≤ length src ∧ X = {[N.of_nat k]}).
    { intros X. unfold family. rewrite elem_of_list_to_set, list_elem_of_fmap.
      split.
      - intros (k & -> & Hk%elem_of_seq). exists k. split; [lia | done].
      - intros (k & Hk & ->). exists k. split; [done |]. apply elem_of_seq. lia. }
    exists family, {[0%N]}. split; [by apply literal_closure |]. split.
    + split; [apply Hin; exists 0; split; [lia | done] |].
      intros S c S' (k & Hk & ->)%Hin Hc Hmove.
      destruct (literal_move k c Hne Hmove) as [Hlt ->].
      rewrite literal_closure by done. intros [= <-].
      apply Hin. exists (S k). split; [lia | done].
    + unfold family. rewrite size_list_to_set.
      * by rewrite length_fmap, length_seq.
      * apply NoDup_fmap_2; [| apply NoDup_seq].
        intros a b Hab. apply singleton_inj in Hab. by apply Nat2N.inj.
Qed.

Lemma literal_limit states :
  build_dfa order (literal_nfa src) 0 ≠ LimitExceeded states.
Proof.
  destruct literal_family as (family & S0 & HS0 & Hfamily & Hsize).
  apply (simulation_facts.build_dfa_family order _ 0 S0 family); [done | done |].
  unfold config.max_dfa_states in *. lia.
Qed.

(** The source compiles, and the table is built from the chain of its
    bytes. *)
Lemma literal_compile :
  ∃ d, compile order src = Ok d ∧
    nfa_states_ d = literal_nfa src ∧ nfa_start_ d = 0%N.
Proof.
  unfold compile. rewrite literal_build_nfa.
  pose proof (builder_facts.build_dfa_returns order (literal_nfa src) 0) as Hret.
  pose proof literal_limit as Hlim.
  destruct (build_dfa order (literal_nfa src) 0) as [states | states |];
    [| by destruct (Hlim states) | done].
  eexists. split; [done |]. done.
Qed.

Lemma literal_matches d text :
  compile order src = Ok d → matches d text = true ↔ text = src.
Proof.
  intros Hd. destruct literal_compile as (d' & Hd' & Hnfa & Hstart).
  rewrite Hd in Hd'. injection Hd' as <-.
  rewrite (simulation_facts.compile_matches order src d text Hd), Hnfa, Hstart.
  destruct (decide (src = [])) as [-> | Hne]; [apply empty_nfa_accepts |].
  apply literal_nfa_accepts; [done | apply literal_ascii | apply literal_index].
Qed.

(** The table reports a match exactly where the source occurs. *)
Lemma literal_hit d text o :
  compile order src = Ok d → src ≠ [] →
  hit (states_ d) text o ↔ occurrences.occurs text src o.
Proof.
  intros Hd Hne.
  assert (Hn : 0 < length src) by (destruct src; [done | simpl; lia]).
  assert (Hstates : states_ d ≠ []).
  { intros Hnil. pose proof (proj2 (literal_matches d src Hd) eq_refl) as Hm.
    unfold matches in Hm. by rewrite Hnil in Hm. }
  assert (Hrun : ∀ w, (∃ q st, run (states_ d) 0 w q ∧
                        states_ d !! N.to_nat q = Some st ∧ is_accept st = true)
                      ↔ w = src).
  { intros w. rewrite <- matcher_facts.matches_loop_run.
    rewrite <- (literal_matches d w Hd). unfold matches.
    by rewrite bool_decide_eq_false_2. }
  unfold hit, occurrences.occurs. split.
  - intros [(st0 & Hst0 & Hacc) | (k & q & st & Hk & Hb & Hr)].
    + exfalso. apply Hne. symmetry. apply Hrun. exists 0%N, st0.
      split; [constructor | done].
    + assert (Hw : take k (drop o text) = src) by (apply Hrun; eauto).
      assert (Hlen : length src = k).
      { rewrite <- Hw, length_take, length_drop. lia. }
      rewrite Hlen. split; [lia | done].
  - intros [Hb Hw]. right.
    destruct (proj2 (Hrun (take (length src) (drop o text))) Hw) as (q & st & Hr).
    exists (length src), q, st. split; [done |]. split; [done | done].
Qed.

(** Searching with the compiled source is searching for the source. *)
Lemma literal_search d level text :
  compile order src = Ok d →
  search.search_pos level text src = Some (dfa.search d text).
Proof.
  intros Hd.
  assert (Hstates : states_ d ≠ []).
  { intros Hnil. pose proof (proj2 (literal_matches d src Hd) eq_refl) as Hm.
    unfold matches in Hm. by rewrite Hnil in Hm. }
  unfold dfa.search. rewrite bool_decide_eq_false_2 by done.
  destruct (decide (src = [])) as [Hnil | Hne].
  - pose proof (proj2 (literal_matches d [] Hd) (eq_sym Hnil)) as Hm.
    unfold matches in Hm. rewrite bool_decide_eq_false_2 in Hm by done.
    cbn [matches_loop] in Hm. subst src.
    destruct text as [| c rest]; [done |].
    cbn [search_from]. rewrite Hm. by destruct (search_inner _ _ _).
  - assert (Hn : 0 < length src) by (destruct src; [done | simpl; lia]).
    destruct (search_is_scalar level text src) as (F & it & HF & Hok & Hsc & Hs).
    destruct (occurrence_facts.kmp_search_scalar_spec text src F Hn Hok)
      as (it' & Hsc' & Hspec).
    rewrite Hsc in Hsc'. injection Hsc' as <-.
    unfold search.search_pos. rewrite Hs. cbn [mbind option_bind]. f_equal.
    pose proof (search_facts.search_from_spec (states_ d) text 0) as Hfrom.
    destruct Hspec as [[Hocc Hleast] | [-> Hnone]].
    + assert (Hit : it ≠ length text) by (destruct Hocc as [Ho _]; lia).
      apply Nat.eqb_neq in Hit. rewrite Hit.
      destruct (search_from (states_ d) 0 text) as [s |].
      * destruct Hfrom as (o & -> & Ho & Hhit & Hfirst). f_equal. simpl.
        apply (literal_hit d text o Hd Hne) in Hhit.
        apply Hleast in Hhit.
        destruct (decide (it < o)) as [Hlt | Hge]; [| lia].
        exfalso. apply (Hfirst it Hlt). by apply (literal_hit d text it Hd Hne).
      * exfalso. apply (Hfrom it); [destruct Hocc as [Ho _]; lia |].
        by apply (literal_hit d text it Hd Hne).
    + rewrite Nat.eqb_refl.
      destruct (search_from (states_ d) 0 text) as [s |]; [| done].
      destruct Hfrom as (o & -> & Ho & Hhit & _).
      exfalso. apply (Hnone o). by apply (literal_hit d text o Hd Hne).
Qed.
End literal.
End literal_compile_facts.

(** * Further properties of the literal search *)

(** X1. For a non-empty pattern, on every dispatch path, [search_pos]
    returns the offset of the leftmost occurrence of the pattern in the
    text, and returns nothing exactly when the pattern does not occur;
    [contains] is true exactly when there is an occurrence. *)
Theorem search_pos_leftmost (level : search.simd_level) (T P : list ascii) :
  P ≠ [] →
  ∃ r, search.search_pos level T P = Some r ∧
    search.contains level T P = Some (bool_decide (is_Some r)) ∧
    match r with
    | Some o =>
        o + length P ≤ length T ∧ take (length P) (drop o T) = P ∧
        ∀ o', o' + length P ≤ length T → take (length P) (drop o' T) = P → o ≤ o'
    | None => ∀ o', o' + length P ≤ length T → take (length P) (drop o' T) ≠ P
    end.
Proof.
  intros HP. assert (Hm : 0 < length P) by (destruct P; [done | simpl; lia]).
  destruct (search_is_scalar level T P) as (F & it & HF & Hok & Hsc & Hs).
  destruct (occurrence_facts.kmp_search_scalar_spec T P F Hm Hok) as (it' & Hsc' & Hspec).
  rewrite Hsc in Hsc'. injection Hsc' as <-.
  unfold search.contains, search.search_pos. rewrite Hs. simpl.
  eexists. split; [done |]. split; [done |].
  destruct Hspec as [[[Ho Heq] Hleast] | [-> Hnone]].
  - destruct (Nat.eqb_spec it (length T)) as [-> | _]; [lia |].
    split; [done |]. split; [done |]. intros o' Ho' Heq'. by apply Hleast.
  - rewrite Nat.eqb_refl. intros o' Ho' Heq'. by apply (Hnone o').
Qed.

Lemma search_pos_leftmost_witness :
  ∃ r, search.search_pos search.avx2 (str "abxabc") (str "abc") = Some r ∧
    search.contains search.avx2 (str "abxabc") (str "abc") = Some (bool_decide (is_Some r)) ∧
    match r with
    | Some o =>
        o + 3 ≤ 6 ∧ take 3 (drop o (str "abxabc")) = str "abc" ∧
        ∀ o', o' + 3 ≤ 6 → take 3 (drop o' (str "abxabc")) = str "abc" → o ≤ o'
    | None => ∀ o', o' + 3 ≤ 6 → take 3 (drop o' (str "abxabc")) ≠ str "abc"
    end.
Proof. apply (search_pos_leftmost search.avx2 (str "abxabc") (str "abc")). done. Defined.

(** X2. For a non-empty pattern, [count] is the number of offsets
    [search_all_vec] returns, [search_pos] is the first of them and
    [contains] tells whether there is one. *)
Theorem count_first_and_contains_follow_search_all
    (level : search.simd_level) (T P : list ascii) :
  P ≠ [] →
  ∃ out, search.search_all_vec T P = Some out ∧
    search.count T P = Some (length out) ∧
    search.search_pos level T P = Some (head out) ∧
    search.contains level T P = Some (bool_decide (out ≠ [])).
Proof.
  intros HP. assert (Hm : 0 < length P) by (destruct P; [done | simpl; lia]).
  destruct (search_is_scalar level T P) as (F & it & HF & Hok & Hsc & Hs).
  destruct (occurrence_facts.kmp_search_scalar_spec T P F Hm Hok) as (it' & Hsc' & Hspec).
  rewrite Hsc in Hsc'. injection Hsc' as <-.
  assert (Hall : ∃ out, search.search_all T P = Some out ∧ Sorted lt out ∧
                   ∀ o, o ∈ out ↔ occurrences.occurs T P o).
  { unfold search.search_all.
    destruct (Nat.eqb_spec (length P) 0) as [H0 | _]; [lia |]. simpl.
    destruct (Nat.ltb_spec (length T) (length P)) as [Hlt | Hge].
    - exists []. split; [done |]. split; [constructor |].
      intros o. split; [by intros ?%elem_of_nil | intros [Ho _]; lia].
    - rewrite HF. simpl.
      destruct (occurrence_facts.search_all_loop_spec T P F Hm Hok (length T) 0 0)
        as (out & -> & Hout & Hsorted);
        [done | apply occurrence_facts.scan_inv_start; lia |].
      exists out. split; [done |]. split; [done |].
      intros o. rewrite Hout. split; [by intros [? _] | intros Ho; split; [done | lia]]. }
  destruct Hall as (out & Hall & Hsorted & Hout).
  exists out. unfold search.search_all_vec, search.count, search.contains, search.search_pos.
  rewrite Hall, Hs. simpl. split; [done |]. split; [done |].
  destruct Hspec as [[Hocc Hleast] | [-> Hnone]].
  - assert (Hit : it ≠ length T) by (destruct Hocc as [Ho _]; lia).
    apply Nat.eqb_neq in Hit. rewrite Hit.
    destruct out as [| o out]; [by apply Hout in Hocc; apply elem_of_nil in Hocc |].
    simpl. assert (o = it) as ->; [| done].
    assert (Ho : occurrences.occurs T P o) by (apply Hout; left).
    apply Hleast in Ho. apply Hout in Hocc.
    apply elem_of_cons in Hocc as [-> | Hin]; [done |].
    apply (Sorted_StronglySorted _) in Hsorted. inversion_clear Hsorted as [| ? ? _ Hall'].
    rewrite Forall_forall in Hall'. specialize (Hall' it Hin). lia.
  - rewrite Nat.eqb_refl.
    destruct out as [| o out]; [done |].
    exfalso. apply (Hnone o), Hout. left.
Qed.

Lemma count_first_and_contains_follow_search_all_witness :
  ∃ out, search.search_all_vec (str "ababa") (str "aba") = Some out ∧
    search.count (str "ababa") (str "aba") = Some (length out) ∧
    search.search_pos search.scalar (str "ababa") (str "aba") = Some (head out) ∧
    search.contains search.scalar (str "ababa") (str "aba") = Some (bool_decide (out ≠ [])).
Proof.
  apply (count_first_and_contains_follow_search_all search.scalar (str "ababa") (str "aba")).
  done.
Defined.

(** X3. Each first-byte scan, whatever its chunk width, returns the index
    of the first byte of the haystack equal to the needle, and returns the
    null pointer exactly when the haystack does not contain the needle. *)
Theorem find_first_char_first_index (haystack : list ascii) (needle_char : ascii) :
  ∀ find, find ∈ [simd.find_first_char_sse42; simd.find_first_char_avx2;
                  simd.find_first_char_avx512] →
    match find haystack needle_char with
    | Some k => haystack !! k = Some needle_char ∧
                ∀ t, t < k → haystack !! t ≠ Some needle_char
    | None => needle_char ∉ haystack
    end.
Proof.
  intros find Hfind.
  assert (Hspec : kernel_spec.first_index haystack needle_char (find haystack needle_char)).
  { repeat (apply elem_of_cons in Hfind as [-> | Hfind]).
    - apply simd_facts.find_first_char_sse42_spec.
    - apply simd_facts.find_first_char_avx2_spec.
    - apply simd_facts.find_first_char_avx512_spec.
    - by apply elem_of_nil in Hfind. }
  destruct (find haystack needle_char) as [k |]; simpl in Hspec.
  - destruct Hspec as (Hk & Hc & Hfirst). split.
    + rewrite failure_facts.at_lookup by done. by f_equal.
    + intros t Ht Heq. apply (Hfirst t Ht).
      rewrite failure_facts.at_lookup in Heq by lia. by injection Heq.
  - intros (t & Ht)%list_elem_of_lookup.
    assert (Hlt := lookup_lt_Some _ _ _ Ht). apply (Hspec t Hlt).
    rewrite failure_facts.at_lookup in Ht by done. by injection Ht.
Qed.

Lemma find_first_char_first_index_witness :
  match simd.find_first_char_avx2 (str "hello world") "o" with
  | Some k => str "hello world" !! k = Some "o"%char ∧
              ∀ t, t < k → str "hello world" !! t ≠ Some "o"%char
  | None => "o"%char ∉ str "hello world"
  end.
Proof.
  apply (find_first_char_first_index (str "hello world") "o" simd.find_first_char_avx2).
  right. left.
Defined.

(** X4. When both buffers hold at least [len] bytes, [compare_avx2] and
    [compare_avx512] return the length of the longest common prefix of the
    two buffers within their first [len] bytes: the index of the first
    mismatch, or [len] if there is none. *)
Theorem compare_returns_first_mismatch (a b : list ascii) (len : nat) :
  len ≤ length a → len ≤ length b →
  ∀ compare, compare ∈ [simd.compare_avx2; simd.compare_avx512] →
    let k := compare a b len in
    k ≤ len ∧ take k a = take k b ∧ (k < len → a !! k ≠ b !! k).
Proof.
  intros Ha Hb compare Hcmp.
  assert (Hspec : kernel_spec.common_prefix a b len (compare a b len)).
  { repeat (apply elem_of_cons in Hcmp as [-> | Hcmp]).
    - by apply compare_facts.compare_avx2_spec.
    - by apply compare_facts.compare_avx512_spec.
    - by apply elem_of_nil in Hcmp. }
  destruct Hspec as (Hk & Heq & Hne). simpl. split; [done |]. split.
  - apply list_eq. intros t. destruct (decide (t < compare a b len)) as [Ht | Ht].
    + rewrite !lookup_take_lt by done.
      rewrite !failure_facts.at_lookup by lia. f_equal. by apply Heq.
    + by rewrite !lookup_take_ge by lia.
  - intros Hlt. rewrite !failure_facts.at_lookup by lia. intros [= H]. by apply Hne.
Qed.

Lemma compare_returns_first_mismatch_witness :
  let k := simd.compare_avx2 (str "abcdef") (str "abcxef") 6 in
  k ≤ 6 ∧ take k (str "abcdef") = take k (str "abcxef") ∧
  (k < 6 → str "abcdef" !! k ≠ str "abcxef" !! k).
Proof.
  apply (compare_returns_first_mismatch (str "abcdef") (str "abcxef") 6);
    [simpl; lia | simpl; lia | left].
Defined.

(** X5. In the AVX2 and AVX-512 engines, when the verification at a
    candidate [c] stops after [k] matched bytes ([0 < k < m]), the skip
    [k - failure[k - 1]] is at least 1 and at most [k], and no occurrence
    of the pattern starts at an offset from [c] up to, but not including,
    [c + skip]. *)
Theorem failure_skip_passes_no_occurrence (T P : list ascii) (F : list nat) (c k : nat) :
  failure.compute_failure P = Some F →
  0 < k < length P →
  take k (drop c T) = take k P →
  T !! (c + k) ≠ P !! k →
  1 ≤ engine.failure_skip F k ≤ k ∧
  ∀ o, c ≤ o < c + engine.failure_skip F k →
    ¬ (o + length P ≤ length T ∧ take (length P) (drop o T) = P).
Proof.
  intros HF Hk Hpre Hmis.
  destruct (failure_facts.compute_failure_ok P) as (F' & HF' & _ & Hok).
  rewrite HF in HF'. injection HF' as <-.
  destruct (decide (c + k < length T)) as [Hin | Hout].
  - assert (Hpre' : ∀ t, t < k → at_ T (c + t) = at_ P t).
    { intros t Ht. assert (H := f_equal (λ l, l !! t) Hpre). simpl in H.
      rewrite !lookup_take_lt, lookup_drop in H by done.
      rewrite !failure_facts.at_lookup in H by lia. by injection H. }
    assert (Hmis' : at_ T (c + k) ≠ at_ P k).
    { intros Heq. apply Hmis. rewrite !failure_facts.at_lookup by lia. by f_equal. }
    destruct (engine_facts.failure_skip_safe T P F c k ltac:(lia) Hok Hk Hpre' Hmis')
      as (Hpos & Hsafe).
    split.
    + split; [lia |]. unfold engine.failure_skip in *.
      destruct (0 <? k); lia.
    + intros o Ho Hocc. specialize (Hsafe o Hocc). lia.
  - split.
    + unfold engine.failure_skip. destruct (Nat.ltb_spec 0 k); [| lia].
      destruct (Hok k ltac:(lia)) as (Hlt & _). lia.
    + intros o Ho [Hlen _]. lia.
Qed.

Lemma failure_skip_passes_no_occurrence_witness :
  1 ≤ engine.failure_skip [0; 0; 0] 2 ≤ 2 ∧
  ∀ o, 0 ≤ o < 0 + engine.failure_skip [0; 0; 0] 2 →
    ¬ (o + length (str "abc") ≤ length (str "abxabc") ∧
       take (length (str "abc")) (drop o (str "abxabc")) = str "abc").
Proof.
  apply (failure_skip_passes_no_occurrence (str "abxabc") (str "abc") [0; 0; 0] 0 2);
    [reflexivity | simpl; lia | reflexivity | discriminate].
Defined.

(** X6. Given the failure table of the pattern, [kmp_search_all_sse42],
    [kmp_search_all_avx2] and [kmp_search_all_avx512] append to the output
    exactly the offsets that [search_all] yields, in the same order; for an
    empty pattern or a pattern longer than the text they append nothing. *)
Theorem kmp_search_all_engines_agree (T P : list ascii) (F out : list nat) :
  failure.compute_failure P = Some F →
  ∃ res, search.search_all T P = Some res ∧
    engine.kmp_search_all_sse42 T P F out = Some (out ++ res) ∧
    engine.kmp_search_all_avx2 T P F out = Some (out ++ res) ∧
    engine.kmp_search_all_avx512 T P F out = Some (out ++ res) ∧
    ((P = [] ∨ length T < length P) → res = []).
Proof.
  intros HF.
  destruct (failure_facts.compute_failure_ok P) as (F' & HF' & _ & Hok).
  rewrite HF in HF'. injection HF' as <-.
  destruct (decide (P = [])) as [-> | HP].
  { exists []. rewrite app_nil_r. done. }
  assert (Hm : 0 < length P) by (destruct P; [done | simpl; lia]).
  destruct (search_all_facts.kmp_search_all_with_spec engine.kmp_search_sse42 T P F out Hm Hok)
    as (res & Hres & H1); [by apply search_all_facts.kmp_search_sse42_first |].
  destruct (search_all_facts.kmp_search_all_with_spec engine.kmp_search_avx2 T P F out Hm Hok)
    as (res2 & Hres2 & H2); [by apply search_all_facts.kmp_search_avx2_first |].
  destruct (search_all_facts.kmp_search_all_with_spec engine.kmp_search_avx512 T P F out Hm Hok)
    as (res3 & Hres3 & H3); [by apply search_all_facts.kmp_search_avx512_first |].
  rewrite Hres in Hres2, Hres3. injection Hres2 as <-. injection Hres3 as <-.
  exists res. split; [done |]. split; [done |]. split; [done |]. split; [done |].
  intros [-> | Hlt]; [done |].
  unfold search.search_all in Hres.
  apply Nat.ltb_lt in Hlt. rewrite Hlt, orb_true_r in Hres. by injection Hres.
Qed.

Lemma kmp_search_all_engines_agree_witness :
  ∃ res, search.search_all (str "ababa") (str "aba") = Some res ∧
    engine.kmp_search_all_sse42 (str "ababa") (str "aba") [0; 0; 1] [] = Some ([] ++ res) ∧
    engine.kmp_search_all_avx2 (str "ababa") (str "aba") [0; 0; 1] [] = Some ([] ++ res) ∧
    engine.kmp_search_all_avx512 (str "ababa") (str "aba") [0; 0; 1] [] = Some ([] ++ res) ∧
    ((str "aba" = [] ∨ length (str "ababa") < length (str "aba")) → res = []).
Proof.
  apply (kmp_search_all_engines_agree (str "ababa") (str "aba") [0; 0; 1] []).
  reflexivity.
Defined.

(** X7. [compute_failure_optimized] returns a table of the pattern's
    length.  Entry [i] is the length of a proper border of [P[0..=i]] and
    is at most the entry of [compute_failure]; every longer proper border
    [l] that it passes over has [P[l] = P[i + 1]]; the last entry is the
    one of [compute_failure]. *)
Theorem compute_failure_optimized_borders (P : list ascii) :
  ∃ F G, failure.compute_failure P = Some F ∧
    failure.compute_failure_optimized P = Some G ∧
    length G = length P ∧
    ∀ i, i < length P →
      ∃ f g, F !! i = Some f ∧ G !! i = Some g ∧ g ≤ f ≤ i ∧
        take g P `suffix_of` take (S i) P ∧
        (∀ l, g < l ≤ i → take l P `suffix_of` take (S i) P → P !! l = P !! S i) ∧
        (S i = length P → g = f).
Proof.
  destruct (failure_facts.compute_failure_ok P) as (F & HF & HlenF & Hok).
  destruct (optimized_facts.compute_failure_optimized_ok P F Hok)
    as (G & HG & HlenG & Hstrong & Hlast).
  exists F, G. split; [done |]. split; [done |]. split; [done |].
  intros i Hi.
  assert (HFi : F !! i = Some (nth i F 0)).
  { rewrite nth_lookup. destruct (lookup_lt_is_Some_2 F i ltac:(lia)) as [v ->]. done. }
  assert (HGi : G !! i = Some (nth i G 0)).
  { rewrite nth_lookup. destruct (lookup_lt_is_Some_2 G i ltac:(lia)) as [v ->]. done. }
  exists (nth i F 0), (nth i G 0). split; [done |]. split; [done |].
  destruct (Hok (S i) ltac:(lia)) as (Hflt & Hfb & Hfmax).
  destruct (Hstrong (S i) ltac:(lia)) as (Hglt & Hgb & Hgskip).
  replace (S i - 1) with i in * by lia.
  assert (Hgf : nth i G 0 ≤ nth i F 0) by (apply Hfmax; [lia | done]).
  split; [lia |]. split.
  { apply failure_facts.suf_suffix in Hgb as [_ Hgb]; [done | lia | lia]. }
  split.
  - intros l Hl Hsuf.
    assert (Hb : border.suf P P (S i) l)
      by (apply failure_facts.suf_suffix; [lia | lia | split; [lia | done]]).
    destruct (decide (S i < length P)) as [Hin | Hlasti].
    + rewrite !failure_facts.at_lookup by lia. f_equal.
      apply Hgskip; [lia | done | lia].
    + replace (length P - 1) with i in Hlast by lia.
      specialize (Hlast ltac:(lia)). specialize (Hfmax l ltac:(lia) Hb). lia.
  - intros Heq. replace (length P - 1) with i in Hlast by lia.
    apply Hlast. lia.
Qed.

(** X8. The scalar search and the loop of [search_all] do the same when
    they are handed the table of [compute_failure_optimized] instead of the
    table of [compute_failure]: the entries the optimized table passes over
    are borders the mismatching text byte cannot extend. *)
Theorem optimized_table_drives_the_same_search (T P : list ascii) :
  ∃ F G, failure.compute_failure P = Some F ∧
    failure.compute_failure_optimized P = Some G ∧
    search.kmp_search_scalar T P G = search.kmp_search_scalar T P F ∧
    search.search_all_loop T P G (length T) 0 0
      = search.search_all_loop T P F (length T) 0 0.
Proof.
  destruct (failure_facts.compute_failure_ok P) as (F & HF & HlenF & Hok).
  destruct (optimized_facts.compute_failure_optimized_ok P F Hok)
    as (G & HG & HlenG & Hstrong & Hlast).
  exists F, G. split; [done |]. split; [done |].
  destruct (decide (length P = 0)) as [H0 | Hm].
  - destruct P; [| done]. simpl in *. destruct F, G; try done.
  - specialize (Hlast ltac:(lia)). split.
    + unfold search.kmp_search_scalar. destruct (length P =? 0); [done |].
      apply optimized_facts.scalar_loop_agree; (done || lia).
    + apply optimized_facts.search_all_loop_agree; (done || lia).
Qed.

(** X9. [detect_features] sets the SSE4.2 flag exactly when leaf 1 reports
    it; the AVX2 and AVX-512 flags exactly when, in addition to the
    processor's leaf 7 bit, the operating system saves the wider registers
    (OSXSAVE and the XCR0 bits); and AVX-512BW only together with AVX-512F.
    [get_simd_level] selects the widest level whose flags are set, AVX-512
    needing both F and BW. *)
Theorem detection_follows_cpuid_and_xcr0 (m : dispatch.machine) :
  let flag := dispatch.has_feature (dispatch.detect_features m) in
  let max_leaf := dispatch.eax (dispatch.cpuid m 0 0) in
  let ecx1 := dispatch.ecx (dispatch.cpuid m 1 0) in
  let ebx7 := dispatch.ebx (dispatch.cpuid m 7 0) in
  let xcr0 := dispatch.xgetbv m 0 in
  let os_ymm := (7 ≤ max_leaf)%N ∧ dispatch.bit_set ecx1 27 = true ∧ N.land xcr0 6 = 6%N in
  let os_zmm := os_ymm ∧ N.land xcr0 230 = 230%N in
  (flag dispatch.sse42 = true ↔ (1 ≤ max_leaf)%N ∧ dispatch.bit_set ecx1 20 = true) ∧
  (flag dispatch.avx2 = true ↔ os_ymm ∧ dispatch.bit_set ebx7 5 = true) ∧
  (flag dispatch.avx512f = true ↔ os_zmm ∧ dispatch.bit_set ebx7 16 = true) ∧
  (flag dispatch.avx512bw = true ↔
     os_zmm ∧ dispatch.bit_set ebx7 16 = true ∧ dispatch.bit_set ebx7 30 = true) ∧
  (dispatch.get_simd_level m = search.avx512 ↔ flag dispatch.avx512bw = true) ∧
  (dispatch.get_simd_level m = search.avx2 ↔
     flag dispatch.avx2 = true ∧ flag dispatch.avx512bw = false) ∧
  (dispatch.get_simd_level m = search.sse42 ↔
     flag dispatch.sse42 = true ∧ flag dispatch.avx2 = false ∧
     flag dispatch.avx512bw = false) ∧
  (dispatch.get_simd_level m = search.scalar ↔
     flag dispatch.sse42 = false ∧ flag dispatch.avx2 = false ∧
     flag dispatch.avx512bw = false).
Proof.
  destruct (dispatch_facts.detect_features_flags m) as (Hsse & Havx2 & Hf & Hbw).
  destruct (dispatch_facts.get_simd_level_cases m) as (L512 & L2 & Lsse & Lsc).
  unfold dispatch_spec.cpu_avx512bw, dispatch_spec.cpu_avx512f, dispatch_spec.cpu_avx2,
    dispatch_spec.os_ymm, dispatch_spec.cpu_sse42 in *.
  cbv zeta.
  rewrite <- !not_true_iff_false.
  repeat split; try tauto.
Qed.

(** X26. Building the failure table takes linear work: over the whole of
    [compute_failure] the body of the inner [while] loop runs at most
    [m - 1] times for a pattern of [m] bytes; the counted loop returns the
    table of [compute_failure]. *)
Theorem failure_table_takes_linear_work (pattern : list ascii) :
  ∃ F n, cost.compute_failure_steps pattern = Some (F, n) ∧
    failure.compute_failure pattern = Some F ∧
    n ≤ length pattern - 1.
Proof.
  destruct (cost_facts.compute_failure_steps_bound pattern) as (F & n & HF & Hn).
  exists F, n. split; [done |]. split; [| done].
  by rewrite <- cost_facts.compute_failure_erase, HF.
Qed.

(** X27. Scanning takes linear work: with the table of [compute_failure],
    over the whole of [kmp_search_scalar] the body of the inner [while] loop
    runs at most [n] times for a text of [n] bytes, and over the whole of
    [search_all], the construction of the table included, at most
    [n + m - 1] times; the counted loops return what the loops return. *)
Theorem scalar_scan_takes_linear_work (text pattern : list ascii) :
  (∃ F r n, failure.compute_failure pattern = Some F ∧
     cost.kmp_search_scalar_steps text pattern F = Some (r, n) ∧
     search.kmp_search_scalar text pattern F = Some r ∧
     n ≤ length text) ∧
  (∃ l n, cost.search_all_steps text pattern = Some (l, n) ∧
     search.search_all text pattern = Some l ∧
     n ≤ length text + (length pattern - 1)).
Proof.
  split.
  - destruct (failure_facts.compute_failure_ok pattern) as (F & HF & _ & Hok).
    exists F. unfold cost.kmp_search_scalar_steps, search.kmp_search_scalar.
    destruct (Nat.eqb_spec (length pattern) 0) as [Hm | Hm].
    { exists 0, 0. split; [done |]. split; [done |]. split; [done | lia]. }
    destruct (cost_facts.scalar_loop_steps_bound text pattern F Hok (length text) 0 0)
      as (r & n & Hrun & Hn); [lia |].
    exists r, n. split; [done |]. split; [done |]. split; [| lia].
    by rewrite <- cost_facts.scalar_loop_erase, Hrun.
  - destruct (cost_facts.search_all_steps_bound text pattern) as (l & n & Hrun & Hn).
    exists l, n. split; [done |]. split; [| done].
    by rewrite <- cost_facts.search_all_erase, Hrun.
Qed.

(** * Further properties of the regex core *)

(** X10. [search] returns the least offset of the text at which the table
    reports a match (the start state accepts, or a non-empty stretch of the
    text from that offset runs from state 0 into an accepting state), and
    returns nothing exactly when there is no such offset; the offset it
    returns is below the length of the text. *)
Theorem search_returns_leftmost_hit (d : dfa.compiled_dfa) (text : list ascii) :
  match dfa.search d text with
  | Some s => s < length text ∧ matcher.hit (dfa.states_ d) text s ∧
              ∀ o, o < s → ¬ matcher.hit (dfa.states_ d) text o
  | None => ∀ o, o < length text → ¬ matcher.hit (dfa.states_ d) text o
  end.
Proof.
  unfold dfa.search. destruct (bool_decide_reflect (dfa.states_ d = [])) as [Hnil | Hne].
  - intros o _ [(st0 & Hst0 & _) | (k & q & st & _ & _ & _ & Hq & _)];
      by rewrite Hnil in *.
  - pose proof (search_facts.search_from_spec (dfa.states_ d) text 0) as Hspec.
    destruct (dfa.search_from (dfa.states_ d) 0 text) as [s |]; [| done].
    destruct Hspec as (o & -> & Ho & Hhit & Hleast). done.
Qed.

(** X11. If a regex matches a non-empty text as a whole, then [search]
    finds a match in that text at offset [0]. *)
Theorem whole_match_is_found_at_zero (R : regex.regex_pattern) (text : list ascii) :
  text ≠ [] → regex.matches R text = true → regex.search R text = Some 0.
Proof.
  unfold regex.matches, regex.search, dfa.matches, dfa.search.
  intros Hne. destruct (regex.dfa_ R) as [d |]; [| done].
  destruct (bool_decide (dfa.states_ d = [])); [done |].
  by apply search_facts.matches_search.
Qed.

Lemma whole_match_is_found_at_zero_witness :
  ∃ R, regex.compile_regex ascending_order (str "a+b") = Ok R ∧
       regex.search R (str "aab") = Some 0.
Proof.
  assert (HR : ∃ R, regex.compile_regex ascending_order (str "a+b") = Ok R ∧
                    regex.matches R (str "aab") = true)
    by (eexists; split; vm_compute; reflexivity).
  destruct HR as (R & HR & Hm). exists R. split; [done |].
  apply (whole_match_is_found_at_zero R (str "aab")); [discriminate | exact Hm].
Defined.

(** X12. A [char_class] behaves as a set of ASCII bytes: the empty class
    holds nothing; after [set(c)] it holds what it held and [c] if [c] is
    ASCII; after [set_range(from, to)] also the ASCII bytes between [from]
    and [to]; after [flip] exactly the ASCII bytes it did not hold; and
    [test] is false for every byte from 128 up. *)
Theorem char_class_is_a_set_of_ascii_bytes (cc : dfa.char_class) (c from to d : ascii) :
  let is_ascii := (dfa.byte_of d <? config.ascii_size)%N in
  dfa.cc_test dfa.cc_empty d = false ∧
  dfa.cc_test (dfa.cc_set cc c) d = dfa.cc_test cc d || (is_ascii && Ascii.eqb c d) ∧
  dfa.cc_test (dfa.cc_set_range cc from to) d =
    dfa.cc_test cc d ||
      (is_ascii && (dfa.byte_of from <=? dfa.byte_of d)%N
       && (dfa.byte_of d <=? dfa.byte_of to)%N) ∧
  dfa.cc_test (dfa.cc_flip cc) d = is_ascii && negb (dfa.cc_test cc d) ∧
  (is_ascii = false → dfa.cc_test cc d = false).
Proof.
  cbv zeta. split.
  { unfold dfa.cc_test, dfa.cc_empty. by rewrite N.bits_0, andb_false_r. }
  split; [apply char_class_facts.cc_test_set |].
  split; [apply char_class_facts.cc_test_set_range |].
  split; [apply char_class_facts.cc_test_flip |].
  intros H. unfold dfa.cc_test. by rewrite H.
Qed.

(** X13. The shorthand classes hold the bytes their names say: [digit]
    the bytes ['0'..'9'], [word] the letters, the digits and ['_'], [space]
    the six white-space bytes, and [any_char] every ASCII byte but the line
    feed.  Inside a bracket class the escapes [\d], [\w] and [\s] add the
    bytes of the same shorthand class, and any other escaped byte, [\D],
    [\W] and [\S] among them, adds just itself. *)
Theorem shorthand_classes (cc : dfa.char_class) (e d : ascii) :
  let n := dfa.byte_of d in
  dfa.cc_test dfa.digit d = ((48 <=? n) && (n <=? 57))%N ∧
  dfa.cc_test dfa.word d =
    (((97 <=? n) && (n <=? 122)) || ((65 <=? n) && (n <=? 90))
     || ((48 <=? n) && (n <=? 57)) || (n =? 95))%N ∧
  dfa.cc_test dfa.space d = bool_decide (n ∈ [32; 9; 10; 13; 12; 11]%N) ∧
  dfa.cc_test dfa.any_char d = ((n <? 128) && negb (n =? 10))%N ∧
  dfa.cc_test (dfa.add_escape_to_class cc e) d =
    dfa.cc_test cc d ||
      (if Ascii.eqb e "d" then dfa.cc_test dfa.digit d
       else if Ascii.eqb e "w" then dfa.cc_test dfa.word d
       else if Ascii.eqb e "s" then dfa.cc_test dfa.space d
       else (n <? 128)%N && Ascii.eqb e d).
Proof.
  cbv zeta. split; [| split; [| split; [| split]]].
  1-4: by destruct d as [[] [] [] [] [] [] [] []]; vm_compute.
  unfold dfa.add_escape_to_class.
  destruct (Ascii.eqb e "d").
  { rewrite char_class_facts.cc_set_span_foldl, char_class_facts.cc_test_foldl_set.
    f_equal. by destruct d as [[] [] [] [] [] [] [] []]; vm_compute. }
  destruct (Ascii.eqb e "w").
  { rewrite char_class_facts.cc_test_set, !char_class_facts.cc_set_span_foldl,
      !char_class_facts.cc_test_foldl_set, <- !orb_assoc.
    f_equal. by destruct d as [[] [] [] [] [] [] [] []]; vm_compute. }
  destruct (Ascii.eqb e "s").
  { rewrite char_class_facts.cc_test_foldl_set.
    f_equal. by destruct d as [[] [] [] [] [] [] [] []]; vm_compute. }
  apply char_class_facts.cc_test_set.
Qed.

(** X14. [epsilon_closure] always returns, and the set it returns holds
    exactly the states that can be reached from a state of the given set
    along epsilon transitions (a state without successors, a match state or
    an index outside the NFA ends a path). *)
Theorem epsilon_closure_is_reachability
    (order : iter_order) (nfa : list dfa.nfa_state) (S : gset N) :
  ∃ R, dfa.epsilon_closure order nfa S = Some R ∧
    ∀ x, x ∈ R ↔ ∃ s, s ∈ S ∧ rtc (closure.eps_edge nfa) s x.
Proof. apply reach_facts.epsilon_closure_reach. Qed.

(** X15. The key [set_to_key] builds for a subset (its elements in
    ascending order, in decimal, each followed by a comma) identifies the
    subset: two subsets have the same key only if they are equal, so the
    map from keys to DFA states never takes one subset for another. *)
Theorem set_to_key_identifies_the_subset (order : iter_order) (S1 S2 : gset N) :
  dfa.set_to_key order S1 = dfa.set_to_key order S2 ↔ S1 = S2.
Proof.
  split; [apply key_facts.set_to_key_inj | by intros ->].
Qed.

(** X16. A DFA that [compile] returns has at least one state and at most
    the cap plus 128; every state has a row of 128 transitions, and every
    transition is either the dead sentinel or the index of a state of the
    table, so [matches] and [search] never index outside it. *)
Theorem compiled_table_is_well_formed
    (order : iter_order) (pattern : list ascii) (d : dfa.compiled_dfa) :
  dfa.compile order pattern = Ok d →
  1 ≤ dfa.state_count d ≤ N.to_nat config.max_dfa_states + 128 ∧
  ∀ st, st ∈ dfa.states_ d →
    length (dfa.transitions st) = 128 ∧
    ∀ t, t ∈ dfa.transitions st →
      t = dfa.no_transition ∨ (N.to_nat t < dfa.state_count d).
Proof.
  unfold dfa.compile.
  destruct (dfa.build_nfa pattern) as [[nfa nfa_start] | |] eqn:Hnfa; [| done ..].
  destruct (dfa.build_dfa order nfa nfa_start) as [states | |] eqn:Hdfa; [| done ..].
  intros [= <-]. unfold dfa.state_count. cbn [dfa.states_].
  pose proof (simulation_facts.build_nfa_nonempty _ _ _ Hnfa) as Hne.
  destruct (simulation_facts.build_dfa_table order nfa nfa_start states Hne Hdfa)
    as (W & S0 & HS0 & HW0 & Htable).
  destruct (simulation_facts.table_row order nfa W states Htable 0 S0 HW0)
    as (st0 & Hlist0 & Hst0).
  destruct Htable as (Hwf & Hwfw & Hsz & Hbound & Hclosed & Hrows).
  rewrite subset_facts.vec_to_list_length by done.
  split.
  - apply subset_facts.vec_get_lt in Hst0; [| done]. lia.
  - intros st (i & Hi)%list_elem_of_lookup.
    rewrite subset_facts.vec_to_list_lookup in Hi by done.
    assert (HS : ∃ S, dfa.vec_get W (N.of_nat i) = Some S).
    { apply Hwfw. rewrite Hsz. by eapply subset_facts.vec_get_lt. }
    destruct HS as (S & HS).
    destruct (Hrows _ S st HS Hi) as (_ & Hlen & Hrow).
    split; [by rewrite Hlen |].
    intros t (a & Ha)%list_elem_of_lookup.
    assert (Halt := lookup_lt_Some _ _ _ Ha). rewrite Hlen in Halt.
    specialize (Hrow (N.of_nat a) ltac:(lia)).
    rewrite Nat2N.id, nth_lookup, Ha in Hrow. cbn in Hrow.
    unfold subset_spec.entry_ok in Hrow.
    destruct (bool_decide _); [by left | right].
    destruct Hrow as (S' & _ & Ht).
    apply subset_facts.vec_get_lt in Ht; [| done]. lia.
Qed.

Lemma compiled_table_is_well_formed_witness :
  ∃ d, dfa.compile ascending_order (str "a|b") = Ok d ∧
    1 ≤ dfa.state_count d ≤ N.to_nat config.max_dfa_states + 128 ∧
    ∀ st, st ∈ dfa.states_ d →
      length (dfa.transitions st) = 128 ∧
      ∀ t, t ∈ dfa.transitions st →
        t = dfa.no_transition ∨ (N.to_nat t < dfa.state_count d).
Proof.
  assert (Hd : ∃ d, dfa.compile ascending_order (str "a|b") = Ok d)
    by (eexists; vm_compute; reflexivity).
  destruct Hd as [d Hd]. exists d. split; [done |].
  exact (compiled_table_is_well_formed ascending_order (str "a|b") d Hd).
Defined.

(** X17. The table [compile] builds is the subset construction of the NFA
    the parser built: [matches] accepts a text exactly when the NFA has a
    path from its start state to its accept state that reads the text,
    taking epsilon transitions freely and consuming each byte, which must be
    ASCII, at a character or class state that holds it. *)
Theorem matches_iff_nfa_accepts
    (order : iter_order) (pattern : list ascii) (d : dfa.compiled_dfa)
    (text : list ascii) :
  dfa.compile order pattern = Ok d →
  dfa.matches d text = true ↔
  nfa_spec.nfa_accepts (dfa.nfa_states_ d) (dfa.nfa_start_ d) text.
Proof. apply simulation_facts.compile_matches. Qed.

Lemma matches_iff_nfa_accepts_witness :
  ∃ d, dfa.compile ascending_order (str "a*b") = Ok d ∧
    (dfa.matches d (str "aab") = true ↔
     nfa_spec.nfa_accepts (dfa.nfa_states_ d) (dfa.nfa_start_ d) (str "aab")).
Proof.
  assert (Hd : ∃ d, dfa.compile ascending_order (str "a*b") = Ok d)
    by (eexists; vm_compute; reflexivity).
  destruct Hd as [d Hd]. exists d. split; [done |].
  exact (matches_iff_nfa_accepts ascending_order (str "a*b") d (str "aab") Hd).
Defined.

(** X18. Compiling a regex always ends: every round of the parser's loops
    consumes at least one byte of the source and the worklist loop of the
    subset construction stops at the state cap, so [compile_regex] either
    returns a pattern or throws. *)
Theorem compile_regex_terminates (order : iter_order) (pattern : list ascii) :
  (∃ R, regex.compile_regex order pattern = Ok R) ∨
  (∃ what, regex.compile_regex order pattern = Throw what).
Proof.
  pose proof (progress_facts.compile_returns order pattern) as H.
  unfold regex.compile_regex.
  destruct (dfa.compile order pattern) as [d | what |]; [left | right | done]; eauto.
Qed.

(** X19. A source made of ASCII bytes none of which is a metacharacter,
    and shorter than the state cap, compiles, and the compiled regex
    matches exactly one text: the source itself. *)
Theorem literal_regex_matches_its_source (order : iter_order) (src : list ascii) :
  Forall literal_spec.plain src →
  (N.of_nat (length src) < config.max_dfa_states)%N →
  ∃ R, regex.compile_regex order src = Ok R ∧
    ∀ text, regex.matches R text = true ↔ text = src.
Proof.
  intros Hplain Hshort.
  destruct (literal_compile_facts.literal_compile order src Hplain Hshort)
    as (d & Hd & _).
  unfold regex.compile_regex. rewrite Hd. eexists. split; [done |].
  intros text. cbn [regex.matches regex.dfa_].
  by apply (literal_compile_facts.literal_matches order src Hplain Hshort).
Qed.

Lemma literal_regex_matches_its_source_witness :
  ∃ R, regex.compile_regex ascending_order (str "needle") = Ok R ∧
    ∀ text, regex.matches R text = true ↔ text = str "needle".
Proof.
  apply (literal_regex_matches_its_source ascending_order (str "needle")).
  - repeat (constructor; [split; reflexivity |]). constructor.
  - reflexivity.
Defined.

(** X20. For such a source the two engines of the library agree: on every
    text, searching with the compiled regex returns what [search_pos]
    returns for the source as a literal pattern, on every dispatch path:
    the offset of the leftmost occurrence, or nothing. *)
Theorem literal_regex_search_is_literal_search
    (order : iter_order) (src : list ascii) :
  Forall literal_spec.plain src →
  (N.of_nat (length src) < config.max_dfa_states)%N →
  ∃ R, regex.compile_regex order src = Ok R ∧
    ∀ level text, search.search_pos level text src = Some (regex.search R text).
Proof.
  intros Hplain Hshort.
  destruct (literal_compile_facts.literal_compile order src Hplain Hshort)
    as (d & Hd & _).
  unfold regex.compile_regex. rewrite Hd. eexists. split; [done |].
  intros level text. cbn [regex.search regex.dfa_].
  by apply (literal_compile_facts.literal_search order src Hplain Hshort).
Qed.

Lemma literal_regex_search_is_literal_search_witness :
  ∃ R, regex.compile_regex ascending_order (str "needle") = Ok R ∧
    ∀ level text,
      search.search_pos level text (str "needle") = Some (regex.search R text).
Proof.
  apply (literal_regex_search_is_literal_search ascending_order (str "needle")).
  - repeat (constructor; [split; reflexivity |]). constructor.
  - reflexivity.
Defined.

(** X21. The state-limit exception is not spurious: when the subsets the
    construction can step to, starting from the closure of the start
    state, lie in a family of at most [max_dfa_states] subsets, [build_dfa]
    builds the table and raises nothing. *)
Theorem state_limit_is_not_spurious
    (order : iter_order) (nfa : list dfa.nfa_state) (nfa_start : N)
    (S0 : gset N) (family : gset (gset N)) :
  dfa.epsilon_closure order nfa {[nfa_start]} = Some S0 →
  family_spec.subset_family order nfa family S0 →
  (N.of_nat (size family) ≤ config.max_dfa_states)%N →
  ∃ states, dfa.build_dfa order nfa nfa_start = dfa.Built states.
Proof.
  intros HS0 Hfamily Hsize.
  pose proof (builder_facts.build_dfa_returns order nfa nfa_start) as Hret.
  pose proof (simulation_facts.build_dfa_family order nfa nfa_start S0 family) as Hlim.
  destruct (dfa.build_dfa order nfa nfa_start) as [states | states |];
    [by exists states | by destruct (Hlim states) | done].
Qed.

Lemma state_limit_is_not_spurious_witness :
  ∃ states,
    dfa.build_dfa ascending_order (literal_spec.literal_nfa (str "ab")) 0
    = dfa.Built states.
Proof.
  destruct (literal_compile_facts.literal_family ascending_order (str "ab"))
    as (family & S0 & HS0 & Hfamily & Hsize).
  - repeat (constructor; [split; reflexivity |]). constructor.
  - reflexivity.
  - apply (state_limit_is_not_spurious ascending_order _ 0 S0 family HS0 Hfamily).
    simpl in Hsize. unfold config.max_dfa_states. lia.
Defined.

(** X22. A source that opens a character class and holds no closing
    bracket after it is rejected with the message of the unclosed class,
    whatever the class lists. *)
Theorem unclosed_class_is_rejected (order : iter_order) (w : list ascii) :
  "]"%char ∉ w →
  regex.compile_regex order ("["%char :: w) = Throw "Unclosed character class".
Proof.
  intros Hw.
  apply reject_facts.compile_throws, reject_facts.first_atom_throws;
    [simpl; lia | done | done |].
  by apply reject_facts.unclosed_class_throws.
Qed.

Lemma unclosed_class_is_rejected_witness :
  regex.compile_regex ascending_order (str "[^a-z\d")
  = Throw "Unclosed character class".
Proof.
  apply (unclosed_class_is_rejected ascending_order (str "^a-z\d")).
  refine (bool_decide_unpack _ _). vm_compute. exact I.
Defined.

(** X23. A source that opens a group and holds no closing parenthesis
    after it never compiles: the parser throws, either while it reads the
    body of the group or, at the latest, when the body ends without the
    parenthesis. *)
Theorem unclosed_group_is_rejected (order : iter_order) (w : list ascii) :
  ")"%char ∉ w →
  ∃ what, regex.compile_regex order ("("%char :: w) = Throw what.
Proof.
  intros Hw. destruct (reject_facts.unclosed_group_throws w Hw) as [what Hthrow].
  exists what.
  apply reject_facts.compile_throws, reject_facts.first_atom_throws;
    [simpl; lia | done | done | done].
Qed.

Lemma unclosed_group_is_rejected_witness :
  ∃ what, regex.compile_regex ascending_order (str "(ab|c*") = Throw what.
Proof.
  apply (unclosed_group_is_rejected ascending_order (str "ab|c*")).
  refine (bool_decide_unpack _ _). vm_compute. exact I.
Defined.

(** X24. A regex matches a text as a whole exactly when the text belongs
    to the language of its source: the language of the regular expression
    that the grammar of the parser reads from the source (alternation,
    concatenation, the quantifiers, groups, classes, escapes and single
    bytes), for every source short enough for its states to be indexed. *)
Theorem regex_matches_the_language_of_its_source
    (order : iter_order) (src : list ascii) (R : regex.regex_pattern) :
  build_spec.fits (3 * length src + 3) →
  regex.compile_regex order src = Ok R →
  ∃ r, grammar.read src = Some r ∧
    ∀ text, regex.matches R text = true ↔ regex_spec.lang r text.
Proof.
  intros Hfits. unfold regex.compile_regex.
  destruct (dfa.compile order src) as [d | |] eqn:Hd; [| done | done].
  intros [= <-].
  destruct (language_facts.compile_language order src d Hfits Hd) as (r & Hr & Hlang).
  by exists r.
Qed.

Lemma regex_matches_the_language_of_its_source_witness :
  ∃ R, regex.compile_regex ascending_order (str "a(b|c)*[0-9]+\.?") = Ok R ∧
    ∀ text, regex.matches R text = true ↔
      regex_spec.lang
        (regex_spec.Cat
           (regex_spec.Cat
              (regex_spec.Cat (regex_spec.Chr "a")
                 (regex_spec.Star (regex_spec.Alt (regex_spec.Chr "b") (regex_spec.Chr "c"))))
              (regex_spec.Plus (regex_spec.Cls (dfa.cc_set_range dfa.cc_empty "0" "9"))))
           (regex_spec.Opt (regex_spec.Chr "."))) text.
Proof.
  assert (HR : ∃ R, regex.compile_regex ascending_order (str "a(b|c)*[0-9]+\.?") = Ok R)
    by (eexists; vm_compute; reflexivity).
  destruct HR as [R HR]. exists R. split; [done |].
  destruct (regex_matches_the_language_of_its_source ascending_order
              (str "a(b|c)*[0-9]+\.?") R) as (r & Hr & Hlang); [| done |].
  - vm_compute. reflexivity.
  - vm_compute in Hr. injection Hr as <-. exact Hlang.
Defined.

(** X25. [search] of a compiled regex returns the leftmost offset of the
    text at which a stretch of the text that belongs to the language of the
    source begins, and returns nothing exactly when no offset below the
    length of the text is such a start. *)
Theorem regex_search_finds_the_leftmost_match
    (order : iter_order) (src : list ascii) (R : regex.regex_pattern) :
  build_spec.fits (3 * length src + 3) →
  regex.compile_regex order src = Ok R →
  ∃ r, grammar.read src = Some r ∧
    ∀ text,
      match regex.search R text with
      | Some s => s < length text ∧ span_spec.begins (regex_spec.lang r) text s ∧
                  ∀ o, o < s → ¬ span_spec.begins (regex_spec.lang r) text o
      | None => ∀ o, o < length text → ¬ span_spec.begins (regex_spec.lang r) text o
      end.
Proof.
  intros Hfits. unfold regex.compile_regex.
  destruct (dfa.compile order src) as [d | |] eqn:Hd; [| done | done].
  intros [= <-].
  destruct (language_facts.compile_language order src d Hfits Hd) as (r & Hr & Hlang).
  exists r. split; [done |]. intros text. cbn [regex.search regex.dfa_].
  assert (Hb : ∀ o, matcher.hit (dfa.states_ d) text o ↔
                    span_spec.begins (regex_spec.lang r) text o).
  { intros o. rewrite span_facts.hit_begins. unfold span_spec.begins.
    split; intros (k & Hm); exists k; by apply Hlang. }
  pose proof (search_facts.search_from_spec (dfa.states_ d) text 0) as Hspec.
  unfold dfa.search.
  destruct (bool_decide_reflect (dfa.states_ d = [])) as [Hnil | Hne].
  - intros o _ Ho%Hb.
    destruct Ho as [(st0 & Hst0 & _) | (k & q & st & _ & _ & _ & Hq & _)];
      by rewrite Hnil in *.
  - destruct (dfa.search_from (dfa.states_ d) 0 text) as [s |].
    + destruct Hspec as (o & -> & Ho & Hhit & Hleast). simpl in *.
      split; [lia |]. split; [by apply Hb |]. intros o' Ho' Hb'%Hb. by eapply Hleast.
    + intros o Ho Hb'%Hb. by eapply Hspec.
Qed.

Lemma regex_search_finds_the_leftmost_match_witness :
  ∃ R, regex.compile_regex ascending_order (str "ab+|c") = Ok R ∧
    ∀ text,
      let r := regex_spec.Alt
                 (regex_spec.Cat (regex_spec.Chr "a") (regex_spec.Plus (regex_spec.Chr "b")))
                 (regex_spec.Chr "c") in
      match regex.search R text with
      | Some s => s < length text ∧ span_spec.begins (regex_spec.lang r) text s ∧
                  ∀ o, o < s → ¬ span_spec.begins (regex_spec.lang r) text o
      | None => ∀ o, o < length text → ¬ span_spec.begins (regex_spec.lang r) text o
      end.
Proof.
  assert (HR : ∃ R, regex.compile_regex ascending_order (str "ab+|c") = Ok R)
    by (eexists; vm_compute; reflexivity).
  destruct HR as [R HR]. exists R. split; [done |].
  destruct (regex_search_finds_the_leftmost_match ascending_order (str "ab+|c") R)
    as (r & Hr & Hsearch); [| done |].
  - vm_compute. reflexivity.
  - vm_compute in Hr. injection Hr as <-. exact Hsearch.
Defined.

(** X28. The NFA behind a compiled regex is well formed and linear in the
    source: it has at least two and at most [3 * |source| + 2] states, its
    last state is the accept state and the only one, the start state is one
    of the others, and every transition a run can take leads to a state of
    the NFA. *)
Theorem compiled_nfa_is_well_formed
    (order : iter_order) (src : list ascii) (d : dfa.compiled_dfa) :
  build_spec.fits (3 * length src + 3) →
  dfa.compile order src = Ok d →
  2 ≤ length (dfa.nfa_states_ d) ≤ 3 * length src + 2 ∧
  N.to_nat (dfa.nfa_start_ d) < length (dfa.nfa_states_ d) - 1 ∧
  (∀ i st, dfa.nfa_states_ d !! i = Some st →
     dfa.kind st = dfa.accept ↔ i = length (dfa.nfa_states_ d) - 1) ∧
  (∀ q w t, region_spec.step (dfa.nfa_states_ d) q w t →
     N.to_nat t < length (dfa.nfa_states_ d)).
Proof.
  intros Hfits Hd. apply (shape_facts.build_nfa_shape src); [done |].
  unfold dfa.compile in Hd.
  destruct (dfa.build_nfa src) as [[nfa s] | |]; [| done | done].
  destruct (dfa.build_dfa order nfa s); [| done | done]. by injection Hd as <-.
Qed.

Lemma compiled_nfa_is_well_formed_witness :
  ∃ d, dfa.compile ascending_order (str "a|b*") = Ok d ∧
    2 ≤ length (dfa.nfa_states_ d) ≤ 3 * 4 + 2 ∧
    N.to_nat (dfa.nfa_start_ d) < length (dfa.nfa_states_ d) - 1 ∧
    (∀ i st, dfa.nfa_states_ d !! i = Some st →
       dfa.kind st = dfa.accept ↔ i = length (dfa.nfa_states_ d) - 1) ∧
    (∀ q w t, region_spec.step (dfa.nfa_states_ d) q w t →
       N.to_nat t < length (dfa.nfa_states_ d)).
Proof.
  assert (Hd : ∃ d, dfa.compile ascending_order (str "a|b*") = Ok d)
    by (eexists; vm_compute; reflexivity).
  destruct Hd as [d Hd]. exists d. split; [done |].
  apply (compiled_nfa_is_well_formed ascending_order (str "a|b*") d); [| done].
  vm_compute. reflexivity.
Defined.
